(** * mlsgpu: mesh collectors and their component bookkeeping

    A shallow embedding of the mesh collectors of [src/mesh.cpp]
    ([KeyMapMesh], [BigMesh], [StxxlMesh]) and of the parts of the
    out-of-core mesher declared in [src/mesher.h], together with the
    properties that the specification states about them.

    Conventions.
    - Fixed-width unsigned integers ([cl_uint], [uint64_t], [size_t]) are
      values of [Z] with the wrap-around written out ([wrap32], [wrap64]).
    - Indices into a [std::vector] are [nat]; a vector is a [list], read with
      stdpp's lookup and written with stdpp's insert.  Reading or writing
      outside the vector is undefined behaviour in the source; the model
      reads a default value and leaves the vector unchanged there, and the
      theorems assume well-formed fragments.
    - [std::tr1::unordered_map] is a [gmap].
    - A C++ exception is the [Throw] outcome of the [result] type. *)

From Stdlib Require Import ZArith QArith Qround Lia String.
From stdpp Require Import base tactics option list relations gmap.

Local Open Scope Z_scope.

(** ** Machine integers *)

Definition wrap32 (x : Z) : Z := x mod 2 ^ 32.
Definition wrap64 (x : Z) : Z := x mod 2 ^ 64.

(** [operator~] on a [cl_uint]. *)
Definition lnot32 (x : Z) : Z := wrap32 (Z.lnot x).

(** [std::numeric_limits<cl_uint>::max()]. *)
Definition UINT32_MAX : Z := 2 ^ 32 - 1.

(** [std::numeric_limits<clump_id>::max()], [clump_id] being a 32-bit signed
    integer ([typedef std::tr1::int32_t clump_id] in mesher.h). *)
Definition CLUMP_ID_MAX : Z := 2 ^ 31 - 1.

(** ** Outcomes of a call *)

Inductive exn : Type :=
  | overflow_error (what : string).

Inductive result (A : Type) : Type :=
  | Ok (a : A)
  | Throw (e : exn)
  | Abort.
Arguments Ok {A} a.
Arguments Throw {A} e.
Arguments Abort {A}.

#[export] Instance result_ret : MRet result := λ A a, Ok a.
#[export] Instance result_bind : MBind result := λ A B k r,
  match r with
  | Ok a => k a
  | Throw e => Throw e
  | Abort => Abort
  end.

(** A loop whose body may throw. *)
Fixpoint foldlM {A B : Type} (step : A → B → result A) (a : A) (l : list B) : result A :=
  match l with
  | [] => Ok a
  | x :: l' => a' ← step a x; foldlM step a' l'
  end.

(** ** Union-find *)

Module UnionFind.

(** Modelled from the spec: [union_find.h] is not among the sources.  The
    model follows section 4.1 of the specification (a forest over integer
    identifiers with size tracking, union by size, path compression, and a
    customization point that sums the aggregate counters of the losing root
    into the winning root) and the tie-break of section 4.5 (the lower
    identifier wins when the sizes are equal).  A node is either a root that
    carries the size of its tree or a child that carries its parent. *)
Inductive link : Type :=
  | Root (size : Z)
  | Child (parent : nat).

Record node (A : Type) : Type := mkNode { node_link : link; node_data : A }.
Arguments mkNode {A} _ _.
Arguments node_link {A} _.
Arguments node_data {A} _.

(** The customization point of [merge]: the data of the winning root after
    it absorbed the losing root. *)
Class Merge (A : Type) : Type := merge_data : A → A → A.

#[export] Instance merge_unit : Merge unit := λ _ _, tt.

Section forest.
Context {A : Type} `{!Merge A}.

(** [Node()]: a fresh node is the root of a tree of size one. *)
Definition makeNode (d : A) : node A := mkNode (Root 1) d.

Definition isRoot (x : node A) : bool :=
  match node_link x with Root _ => true | Child _ => false end.

Definition size (x : node A) : Z :=
  match node_link x with Root s => s | Child _ => 0 end.

(** Follow parent links from [i], at most [fuel] times. *)
Fixpoint walk (fuel : nat) (f : list (node A)) (i : nat) : nat :=
  match fuel with
  | O => i
  | S k =>
      match f !! i with
      | Some (mkNode (Child p) _) => walk k f p
      | _ => i
      end
  end.

(** The root of [i]; a chain of parents in a forest of [length f] nodes has
    fewer than [length f] links. *)
Definition root (f : list (node A)) (i : nat) : nat := walk (length f) f i.

(** Path compression: every node on the way from [i] is re-parented to
    [r]. *)
Fixpoint compress (fuel : nat) (f : list (node A)) (i r : nat) : list (node A) :=
  match fuel with
  | O => f
  | S k =>
      match f !! i with
      | Some (mkNode (Child p) d) => compress k (<[i := mkNode (Child r) d]> f) p r
      | _ => f
      end
  end.

(** [findRoot(nodes, id)]: the root, and the forest after compression. *)
Definition findRoot (f : list (node A)) (i : nat) : nat * list (node A) :=
  let r := root f i in (r, compress (length f) f i r).

(** [w] absorbs [l]: sizes and data are summed into [w], [l] becomes a
    child of [w]. *)
Definition link_roots (f : list (node A)) (w l : nat) : list (node A) :=
  match f !! w, f !! l with
  | Some nw, Some nl =>
      <[l := mkNode (Child w) (node_data nl)]>
        (<[w := mkNode (Root (size nw + size nl))
                       (merge_data (node_data nw) (node_data nl))]> f)
  | _, _ => f
  end.

Definition forest_size (f : list (node A)) (i : nat) : Z :=
  from_option size 0 (f !! i).

(** [merge(nodes, a, b)]: union by size, the lower identifier winning a
    tie; returns the root of the merged tree. *)
Definition merge (f : list (node A)) (a b : nat) : nat * list (node A) :=
  let '(ra, f1) := findRoot f a in
  let '(rb, f2) := findRoot f1 b in
  if decide (ra = rb) then (ra, f2)
  else
    let sa := forest_size f2 ra in
    let sb := forest_size f2 rb in
    if decide (sa < sb ∨ (sa = sb ∧ (rb < ra)%nat))
    then (rb, link_roots f2 rb ra)
    else (ra, link_roots f2 ra rb).
End forest.

End UnionFind.

(** ** The key-map mesh ([detail::KeyMapMesh] of mesh.cpp) *)

Module KeyMapMesh.
Import UnionFind.

(** Three [cl_uint] indices. *)
Definition triangle_type : Type := Z * Z * Z.

(** Three [cl_float] coordinates, as their bit patterns: the collectors only
    copy them. *)
Definition vertex_type : Type := Z * Z * Z.

(** The counters that a clump adds to its union-find node ([Clump] of
    mesher.h: two [uint64_t] fields).  The [Clump] of mesh.cpp is declared in
    mesh.h, which is not among the sources; mesh.cpp reads and writes the
    same two counters through [vertices()], [setVertices()], [triangles()]
    and [setTriangles()]. *)
Record ClumpData : Type := mkClumpData { vertices : Z; triangles : Z }.

(** [Clump::merge]: the node is merged, then
    [vertices += b.vertices; triangles += b.triangles]. *)
#[export] Instance merge_clump : Merge ClumpData := λ a b,
  mkClumpData (wrap64 (vertices a + vertices b)) (wrap64 (triangles a + triangles b)).

Abbreviation Clump := (node ClumpData).

(** [Clump(numVertices)]: a root with the given vertex count and no
    triangle. *)
Definition newClump (numVertices : Z) : Clump :=
  makeNode (mkClumpData (wrap64 numVertices) 0).

Definition clumpVertices (c : Clump) : Z := vertices (node_data c).
Definition clumpTriangles (c : Clump) : Z := triangles (node_data c).
Definition setVertices (v : Z) (c : Clump) : Clump :=
  mkNode (node_link c) (mkClumpData (wrap64 v) (triangles (node_data c))).
Definition setTriangles (t : Z) (c : Clump) : Clump :=
  mkNode (node_link c) (mkClumpData (vertices (node_data c)) (wrap64 t)).

(** [ExternalVertexData]: the output index of an external vertex and the
    clump that first contained it. *)
Record ExternalVertexData : Type := mkExternal { vertexId : Z; clumpId : nat }.

(** The members of [KeyMapMesh] that outlive a call. *)
Record t : Type := mkMesh {
  clumps : list Clump;
  keyMap : gmap Z ExternalVertexData
}.

Definition empty : t := mkMesh [] ∅.

(** The two unions of one triangle: [(t[0], t[1])] and [(t[1], t[2])]. *)
Definition mergeTriangle (nodes : list (node unit)) (tri : triangle_type) : list (node unit) :=
  let '(a, b, c) := tri in
  let nodes1 := (merge nodes (Z.to_nat a) (Z.to_nat b)).2 in
  (merge nodes1 (Z.to_nat b) (Z.to_nat c)).2.

(** The first loop of [computeLocalComponents]. *)
Definition localNodes (numVertices : nat) (triangles : list triangle_type) : list (node unit) :=
  foldl mergeTriangle (replicate numVertices (makeNode tt)) triangles.

(** One iteration of the second loop: a local root gets a new clump. *)
Definition allocClump (nodes : list (node unit)) (acc : list Clump * list nat) (i : nat)
    : result (list Clump * list nat) :=
  let '(cl, cid) := acc in
  match nodes !! i with
  | Some n =>
      if isRoot n then
        if Z.of_nat (length cl) >? CLUMP_ID_MAX
        then Throw (overflow_error "Too many clumps")
        else Ok (cl ++ [newClump (size n)], <[i := length cl]> cid)
      else Ok acc
  | None => Ok acc
  end.

(** One iteration of the third loop: a vertex gets the clump of its root. *)
Definition labelVertex (acc : list (node unit) * list nat) (i : nat) : list (node unit) * list nat :=
  let '(nodes, cid) := acc in
  let '(r, nodes') := findRoot nodes i in
  (nodes', <[i := default 0%nat (cid !! r)]> cid).

(** One iteration of the last loop: a triangle is counted in the clump of its
    first vertex. *)
Definition countTriangle (cid : list nat) (cl : list Clump) (tri : triangle_type) : list Clump :=
  let c := default 0%nat (cid !! Z.to_nat tri.1.1) in
  alter (λ x, setTriangles (clumpTriangles x + 1) x) c cl.

(** [KeyMapMesh::computeLocalComponents]: the new clump table and the clump
    of every vertex of the fragment. *)
Definition computeLocalComponents (numVertices : nat) (triangles : list triangle_type)
    (cl : list Clump) : result (list Clump * list nat) :=
  let nodes := localNodes numVertices triangles in
  '(cl1, cid1) ← foldlM (allocClump nodes) (cl, replicate numVertices 0%nat) (seq 0 numVertices);
  let cid2 := (foldl labelVertex (nodes, cid1) (seq 0 numVertices)).2 in
  Ok (foldl (countTriangle cid2) cl1 triangles, cid2).

(** The state of the loop of [updateKeyMap]. *)
Record keyLoop : Type := mkKeyLoop {
  kl_clumps : list Clump;
  kl_keyMap : gmap Z ExternalVertexData;
  kl_newKeys : Z;
  kl_indexTable : list Z
}.

(** The [else] branch of the loop of [updateKeyMap]: the clump [c] of the
    vertex and the clump [c2] recorded for its key are merged, and the
    vertex count of the root of [c] is decremented. *)
Definition unify (cl : list Clump) (c c2 : nat) : list Clump :=
  let cl1 := (merge cl c c2).2 in
  let '(r, cl2) := findRoot cl1 c in
  alter (λ x, setVertices (clumpVertices x - 1) x) r cl2.

(** One iteration of the loop of [updateKeyMap], for external vertex [i]
    with key [key]. *)
Definition updateKey (numInternalVertices : nat) (vertexOffset : Z) (cid : list nat)
    (s : keyLoop) (i : nat) (key : Z) : keyLoop :=
  let c := default 0%nat (cid !! (i + numInternalVertices)%nat) in
  match kl_keyMap s !! key with
  | None =>
      let v := wrap32 (vertexOffset + kl_newKeys s) in
      mkKeyLoop (kl_clumps s) (<[key := mkExternal v c]> (kl_keyMap s))
                (kl_newKeys s + 1) (<[i := v]> (kl_indexTable s))
  | Some ed =>
      mkKeyLoop (unify (kl_clumps s) c (clumpId ed)) (kl_keyMap s)
                (kl_newKeys s) (<[i := vertexId ed]> (kl_indexTable s))
  end.

Fixpoint updateKeys (numInternalVertices : nat) (vertexOffset : Z) (cid : list nat)
    (i : nat) (keys : list Z) (s : keyLoop) : keyLoop :=
  match keys with
  | [] => s
  | key :: keys' =>
      updateKeys numInternalVertices vertexOffset cid (S i) keys'
        (updateKey numInternalVertices vertexOffset cid s i key)
  end.

(** [KeyMapMesh::updateKeyMap]: the mesh after welding, the number of new
    keys and the index table.  The loop reads the keys from the member
    [tmpVertexKeys], which is the vector that both callers pass as
    [hKeys]. *)
Definition updateKeyMap (vertexOffset : Z) (hKeys : list Z) (cid : list nat) (m : t)
    : t * Z * list Z :=
  let numExternalVertices := length hKeys in
  let numInternalVertices := (length cid - numExternalVertices)%nat in
  let s := updateKeys numInternalVertices vertexOffset cid 0 hKeys
             (mkKeyLoop (clumps m) (keyMap m) 0 (replicate numExternalVertices 0)) in
  (mkMesh (kl_clumps s) (kl_keyMap s), kl_newKeys s, kl_indexTable s).

(** [KeyMapMesh::rewriteTriangles]. *)
Definition rewriteIndex (priorVertices : Z) (numInternalVertices : nat) (indexTable : list Z)
    (index : Z) : Z :=
  if index <? Z.of_nat numInternalVertices
  then wrap32 (priorVertices + index)
  else default 0 (indexTable !! (Z.to_nat index - numInternalVertices)%nat).

Definition rewriteTriangles (priorVertices : Z) (numInternalVertices : nat) (indexTable : list Z)
    (triangles : list triangle_type) : list triangle_type :=
  (λ '(a, b, c), (rewriteIndex priorVertices numInternalVertices indexTable a,
                  rewriteIndex priorVertices numInternalVertices indexTable b,
                  rewriteIndex priorVertices numInternalVertices indexTable c)) <$> triangles.

(** A mesh fragment, as [loadData] leaves it on the host. *)
Record fragment : Type := mkFragment {
  f_vertices : list vertex_type;
  f_numInternal : nat;
  f_keys : list Z;
  f_triangles : list triangle_type
}.

Definition f_numVertices (fr : fragment) : nat := length (f_vertices fr).

(** The two calls with which [BigMesh::add] and [StxxlMesh::add] start:
    [computeLocalComponents], then [updateKeyMap].  Besides the results of
    [updateKeyMap] it returns the local vector [clumpId], the clump of every
    vertex of the fragment. *)
Definition weld (vertexOffset : Z) (fr : fragment) (m : t)
    : result (list nat * (t * Z * list Z)) :=
  '(cl, cid) ← computeLocalComponents (f_numVertices fr) (f_triangles fr) (clumps m);
  Ok (cid, updateKeyMap vertexOffset (f_keys fr) cid (mkMesh cl (keyMap m))).

End KeyMapMesh.

(** ** The downstream writer *)

Module Writer.
Import KeyMapMesh.

(** Modelled from the spec: [fast_ply.h] is not among the sources.  The model
    follows the downstream writer contract of section 6 and records the calls
    that a collector makes: the declared counts, the file name, and every
    [writeVertices(first, count, data)] and [writeTriangles(first, count,
    data)] in the order of the calls. *)
Record t : Type := mkWriter {
  numVertices : Z;
  numTriangles : Z;
  fileName : option string;
  vertexWrites : list (Z * Z * list vertex_type);
  triangleWrites : list (Z * Z * list triangle_type)
}.

Definition closed : t := mkWriter 0 0 None [] [].

Definition setNumVertices (n : Z) (w : t) : t :=
  mkWriter n (numTriangles w) (fileName w) (vertexWrites w) (triangleWrites w).
Definition setNumTriangles (n : Z) (w : t) : t :=
  mkWriter (numVertices w) n (fileName w) (vertexWrites w) (triangleWrites w).
Definition open (name : string) (w : t) : t :=
  mkWriter (numVertices w) (numTriangles w) (Some name) (vertexWrites w) (triangleWrites w).
Definition writeVertices (first count : Z) (data : list vertex_type) (w : t) : t :=
  mkWriter (numVertices w) (numTriangles w) (fileName w)
           (vertexWrites w ++ [(first, count, data)]) (triangleWrites w).
Definition writeTriangles (first count : Z) (data : list triangle_type) (w : t) : t :=
  mkWriter (numVertices w) (numTriangles w) (fileName w)
           (vertexWrites w) (triangleWrites w ++ [(first, count, data)]).

(** The number of records that a sequence of writes carries. *)
Definition written {X : Type} (log : list (Z * Z * list X)) : Z :=
  foldr (λ e n, e.1.2 + n) 0 log.

(** The file that a sequence of writes leaves: record [first + i] holds the
    [i]-th record of the data of the last write that covers it. *)
Definition store {X : Type} (file : gmap Z X) (first : Z) (data : list X) : gmap Z X :=
  foldr (λ e m, <[first + Z.of_nat e.1 := e.2]> m) file (imap pair data).
Definition contents {X : Type} (log : list (Z * Z * list X)) : gmap Z X :=
  foldl (λ m e, store m e.1.1 e.2) ∅ log.

End Writer.

(** ** [BigMesh]: two passes over the same fragments *)

Module BigMesh.
Import UnionFind KeyMapMesh.

(** The members of [BigMesh].  Their declarations are in mesh.h, which is not
    among the sources; the counters are taken to be [std::size_t], the type
    of the values that mesh.cpp adds to them. *)
Record t : Type := mkBig {
  mesh : KeyMapMesh.t;
  writer : Writer.t;
  filename : string;
  nVertices : Z;
  nTriangles : Z;
  nextVertex : Z;
  nextTriangle : Z
}.

(** [BigMesh::BigMesh]. *)
Definition create (filename : string) : t :=
  mkBig KeyMapMesh.empty Writer.closed filename 0 0 0 0.

(** The loop of [BigMesh::count]: the keys that are new to the key map. *)
Definition countKey (acc : gmap Z ExternalVertexData * Z) (key : Z)
    : gmap Z ExternalVertexData * Z :=
  match acc.1 !! key with
  | None => (<[key := mkExternal 0 0]> acc.1, acc.2 + 1)
  | Some _ => acc
  end.

(** [BigMesh::count]. *)
Definition count (fr : fragment) (b : t) : t :=
  let nTriangles1 := wrap64 (nTriangles b + Z.of_nat (length (f_triangles fr))) in
  let nVertices1 := wrap64 (nVertices b + Z.of_nat (f_numInternal fr)) in
  let '(km, newKeys) := foldl countKey (keyMap (mesh b), 0) (f_keys fr) in
  mkBig (mkMesh (clumps (mesh b)) km) (writer b) (filename b)
        (wrap64 (nVertices1 + newKeys)) nTriangles1 (nextVertex b) (nextTriangle b).

(** The compaction loop of [BigMesh::add]: a new external vertex moves to the
    place that its output index gives. *)
Definition compactVertex (nextVertex : Z) (numInternalVertices : nat) (indexTable : list Z)
    (vs : list vertex_type) (i : nat) : list vertex_type :=
  let pos := default 0 (indexTable !! i) in
  if nextVertex <=? pos then
    match vs !! (numInternalVertices + i)%nat with
    | Some v => <[Z.to_nat (pos - nextVertex) := v]> vs
    | None => vs
    end
  else vs.

(** [BigMesh::add]. *)
Definition add (fr : fragment) (b : t) : result t :=
  let numVertices := f_numVertices fr in
  let numInternalVertices := f_numInternal fr in
  let numExternalVertices := (numVertices - numInternalVertices)%nat in
  let numTriangles := Z.of_nat (length (f_triangles fr)) in
  '(_, (m, newKeys, indexTable)) ←
    weld (wrap32 (nextVertex b + Z.of_nat numInternalVertices)) fr (mesh b);
  let vs := foldl (compactVertex (nextVertex b) numInternalVertices indexTable)
                  (f_vertices fr) (seq 0 numExternalVertices) in
  let tris := rewriteTriangles (wrap32 (nextVertex b)) numInternalVertices indexTable
                               (f_triangles fr) in
  let count := Z.of_nat numInternalVertices + newKeys in
  let w1 := Writer.writeVertices (nextVertex b) count (take (Z.to_nat count) vs) (writer b) in
  let w2 := Writer.writeTriangles (nextTriangle b) numTriangles tris w1 in
  Ok (mkBig m w2 (filename b) (nVertices b) (nTriangles b)
            (wrap64 (nextVertex b + count)) (wrap64 (nextTriangle b + numTriangles))).

(** [BigMesh::outputFunctor(pass)]: what is done before the functor of the
    pass is handed out; any pass other than 0 and 1 aborts. *)
Definition outputFunctor (pass : nat) (b : t) : result t :=
  match pass with
  | 0%nat => Ok b
  | 1%nat =>
      Ok (mkBig (mkMesh (clumps (mesh b)) ∅)
                (Writer.open (filename b)
                   (Writer.setNumTriangles (nTriangles b)
                      (Writer.setNumVertices (nVertices b) (writer b))))
                (filename b) (nVertices b) (nTriangles b) 0 0)
  | _ => Abort
  end.

(** The functor of a pass, applied to one fragment. *)
Definition functor (pass : nat) (b : t) (fr : fragment) : result t :=
  match pass with
  | 0%nat => Ok (count fr b)
  | 1%nat => add fr b
  | _ => Abort
  end.

(** One pass over the fragments. *)
Definition runPass (pass : nat) (frs : list fragment) (b : t) : result t :=
  b' ← outputFunctor pass b; foldlM (functor pass) b' frs.

(** Both passes, over the same fragments. *)
Definition run (frs : list fragment) (b : t) : result t :=
  b' ← runPass 0 frs b; runPass 1 frs b'.

End BigMesh.

(** ** [StxxlMesh]: one pass, pruning when the file is written *)

Module StxxlMesh.
Import UnionFind KeyMapMesh.

Record t : Type := mkStxxl {
  mesh : KeyMapMesh.t;
  vertices : list (vertex_type * nat);
  triangles : list triangle_type
}.

Definition create : t := mkStxxl KeyMapMesh.empty [] [].

(** The second storing loop of [StxxlMesh::add]: an external vertex is stored
    when its output index is the next free one. *)
Definition storeExternal (fr : fragment) (cid : list nat) (indexTable : list Z)
    (vs : list (vertex_type * nat)) (i : nat) : list (vertex_type * nat) :=
  let pos := default 0 (indexTable !! i) in
  if decide (pos = Z.of_nat (length vs)) then
    vs ++ [(default (0, 0, 0) (f_vertices fr !! (f_numInternal fr + i)%nat),
            default 0%nat (cid !! (f_numInternal fr + i)%nat))]
  else vs.

(** [StxxlMesh::add]; the second component is the local vector [clumpId]. *)
Definition addTraced (fr : fragment) (s : t) : result (t * list nat) :=
  let numVertices := f_numVertices fr in
  let numInternalVertices := f_numInternal fr in
  let numExternalVertices := (numVertices - numInternalVertices)%nat in
  let priorVertices := Z.of_nat (length (vertices s)) in
  '(cid, (m, newKeys, indexTable)) ←
    weld (wrap32 (priorVertices + Z.of_nat numInternalVertices)) fr (mesh s);
  let vs1 := vertices s ++
             zip (take numInternalVertices (f_vertices fr)) (take numInternalVertices cid) in
  let vs2 := foldl (storeExternal fr cid indexTable) vs1 (seq 0 numExternalVertices) in
  let tris := rewriteTriangles (wrap32 priorVertices) numInternalVertices indexTable
                               (f_triangles fr) in
  Ok (mkStxxl m vs2 (triangles s ++ tris), cid).

Definition add (fr : fragment) (s : t) : result t :=
  '(s', _) ← addTraced fr s; Ok s'.

(** The single pass, with the vector [clumpId] of every call. *)
Definition ingestStep (acc : t * list (list nat)) (fr : fragment)
    : result (t * list (list nat)) :=
  '(s', cid) ← addTraced fr acc.1; Ok (s', acc.2 ++ [cid]).
Definition ingest (frs : list fragment) (s : t) : result (t * list (list nat)) :=
  foldlM ingestStep (s, []) frs.

(** The single pass. *)
Definition addAll (frs : list fragment) (s : t) : result t :=
  foldlM (λ s fr, add fr s) s frs.

(** [VertexBuffer] and [TriangleBuffer]: a buffer of fixed capacity in front
    of the writer. *)
Record buffer (X : Type) : Type := mkBuffer {
  buf_data : list X;
  buf_next : Z;
  buf_log : list (Z * Z * list X)
}.
Arguments mkBuffer {X} _ _ _.
Arguments buf_data {X} _.
Arguments buf_next {X} _.
Arguments buf_log {X} _.

Definition flush {X : Type} (b : buffer X) : buffer X :=
  mkBuffer [] (buf_next b + Z.of_nat (length (buf_data b)))
           (buf_log b ++ [(buf_next b, Z.of_nat (length (buf_data b)), buf_data b)]).

Definition push {X : Type} (capacity : nat) (x : X) (b : buffer X) : buffer X :=
  let b' := mkBuffer (buf_data b ++ [x]) (buf_next b) (buf_log b) in
  if decide (length (buf_data b') = capacity) then flush b' else b'.

(** [(cl_uint) (vertices.size() * getPruneThreshold())].  The product is a
    [double]; [round] is the rounding of the exact product to a [double], and
    the conversion to [cl_uint] truncates towards zero.  The conversion of a
    value outside the range of [cl_uint] is undefined in the source; the
    model reduces it modulo 2^32. *)
Definition thresholdVertices (round : Q → Q) (numVertices : nat) (pruneThreshold : Q) : Z :=
  wrap32 (Qfloor (round (Qmult (inject_Z (Z.of_nat numVertices)) pruneThreshold))).

(** The test of the first loop of [StxxlMesh::write]. *)
Definition kept (threshold : Z) (c : Clump) : bool :=
  isRoot c && (threshold <=? clumpVertices c).

(** The first loop of [StxxlMesh::write]: the counts declared to the
    writer. *)
Definition keptTotals (threshold : Z) (cl : list Clump) : Z * Z :=
  foldl (λ acc c, if kept threshold c
                  then (wrap64 (acc.1 + clumpVertices c), wrap64 (acc.2 + clumpTriangles c))
                  else acc) (0, 0) cl.

(** The state of the vertex loop of [StxxlMesh::write]. *)
Record vertexLoop : Type := mkVertexLoop {
  vl_clumps : list Clump;
  vl_buffer : buffer vertex_type;
  vl_remap : list Z;
  vl_next : Z
}.

Definition writeVertex (capacity : nat) (threshold : Z) (s : vertexLoop)
    (v : vertex_type * nat) : vertexLoop :=
  let '(r, cl) := findRoot (vl_clumps s) v.2 in
  if threshold <=? from_option clumpVertices 0 (cl !! r) then
    mkVertexLoop cl (push capacity v.1 (vl_buffer s)) (vl_remap s ++ [vl_next s])
                 (wrap32 (vl_next s + 1))
  else
    mkVertexLoop cl (vl_buffer s) (vl_remap s ++ [UINT32_MAX]) (vl_next s).

Definition remapTriangle (remap : list Z) (tri : triangle_type) : triangle_type :=
  let '(a, b, c) := tri in
  (default 0 (remap !! Z.to_nat a), default 0 (remap !! Z.to_nat b),
   default 0 (remap !! Z.to_nat c)).

Definition writeTriangle (capacity : nat) (remap : list Z) (b : buffer triangle_type)
    (tri : triangle_type) : buffer triangle_type :=
  let rewritten := remapTriangle remap tri in
  if decide (rewritten.1.1 = UINT32_MAX) then b else push capacity rewritten b.

(** [StxxlMesh::write], for the threshold that [thresholdVertices] gives. *)
Definition writeWith (vertexCapacity triangleCapacity : nat) (threshold : Z)
    (filename : string) (s : t) (w : Writer.t) : Writer.t :=
  let '(numVertices, numTriangles) := keptTotals threshold (clumps (mesh s)) in
  let w1 := Writer.open filename
              (Writer.setNumTriangles numTriangles (Writer.setNumVertices numVertices w)) in
  let vl := foldl (writeVertex vertexCapacity threshold)
                  (mkVertexLoop (clumps (mesh s)) (mkBuffer [] 0 []) [] 0) (vertices s) in
  let vb := flush (vl_buffer vl) in
  let tb := flush (foldl (writeTriangle triangleCapacity (vl_remap vl))
                         (mkBuffer [] 0 []) (triangles s)) in
  Writer.mkWriter (Writer.numVertices w1) (Writer.numTriangles w1) (Writer.fileName w1)
                  (Writer.vertexWrites w1 ++ buf_log vb)
                  (Writer.triangleWrites w1 ++ buf_log tb).

Definition write (round : Q → Q) (pruneThreshold : Q) (vertexCapacity triangleCapacity : nat)
    (filename : string) (s : t) (w : Writer.t) : Writer.t :=
  writeWith vertexCapacity triangleCapacity
            (thresholdVertices round (length (vertices s)) pruneThreshold) filename s w.

(** The roots that [write] retains under a prune threshold. *)
Definition retained (round : Q → Q) (pruneThreshold : Q) (s : t) : list nat :=
  filter (λ r, from_option (kept (thresholdVertices round (length (vertices s)) pruneThreshold))
                           false (clumps (mesh s) !! r) = true)
         (seq 0 (length (clumps (mesh s)))).

End StxxlMesh.

(** ** [OOCMesher]: chunks and the encoding of the temporary files *)

Module OOCMesher.
Import UnionFind KeyMapMesh.

(** [ChunkId]: a generation and the coordinates of the chunk. *)
Record ChunkId : Type := mkChunkId { gen : nat; coords : Z * Z * Z }.

(** [ChunkId()]. *)
Definition defaultId : ChunkId := mkChunkId 0 (0, 0, 0).

(** [Chunk::Clump]. *)
Record ChunkClump : Type := mkChunkClump {
  firstVertex : Z;
  numInternalVertices : Z;
  numExternalVertices : Z;
  firstTriangle : Z;
  numTriangles : Z;
  globalId : nat
}.

Record Chunk : Type := mkChunk {
  chunkId : ChunkId;
  chunkClumps : list ChunkClump;
  vertexIdMap : gmap Z Z;
  chunkExternal : Z
}.

(** [Chunk(chunkId)]; the default argument is [ChunkId()]. *)
Definition newChunk (id : ChunkId) : Chunk := mkChunk id [] ∅ 0.

Record t : Type := mkMesher {
  clumps : list Clump;
  clumpIdMap : gmap Z ExternalVertexData;
  chunks : list Chunk;
  writtenVerticesTmp : Z;
  writtenTrianglesTmp : Z
}.

Definition create : t := mkMesher [] ∅ [] 0 0.

(** Modelled from the spec: the bodies of [OOCMesher::add],
    [OOCMesher::updateLocalClumps], [OOCMesher::getChunkStatistics],
    [OOCMesher::rewriteTriangles] and [OOCMesher::write] are in mesher.cpp,
    which is not among the sources; mesher.h declares and documents them.
    The definitions of the chunk table, from here to [write], follow those
    declarations and their documentation, and sections 3, 4.5 and 4.6 of the
    specification where mesher.h is silent.

    The chunk table is indexed by generation: it grows by default-constructed
    chunks up to the generation of [id], whose chunk takes the id. *)
Definition reserve (id : ChunkId) (table : list Chunk) : list Chunk :=
  let grown := table ++ replicate (S (gen id) - length table) (newChunk defaultId) in
  alter (λ c, mkChunk id (chunkClumps c) (vertexIdMap c) (chunkExternal c)) (gen id) grown.

(** Chunk-local welding: a key that the chunk has not seen takes the next
    external index of the chunk. *)
Definition dedupKey (acc : gmap Z Z * Z * list bool) (key : Z) : gmap Z Z * Z * list bool :=
  let '(m, n, fresh) := acc in
  match m !! key with
  | Some _ => (m, n, fresh ++ [false])
  | None => (<[key := n]> m, wrap64 (n + 1), fresh ++ [true])
  end.

(** The clump records of a fragment, one for every new global clump that
    holds a vertex or a triangle, placed one after the other. *)
Fixpoint clumpRecords (fr : fragment) (cid : list nat) (fresh : list bool)
    (firstV firstT : Z) (ids : list nat) : list ChunkClump :=
  match ids with
  | [] => []
  | g :: ids' =>
      let nI := Z.of_nat (length (filter (λ c, c = g) (take (f_numInternal fr) cid))) in
      let nE := Z.of_nat (length (filter (λ e, e.1 = true ∧ e.2 = g)
                                         (zip fresh (drop (f_numInternal fr) cid)))) in
      let nT := Z.of_nat (length (filter (λ tri, cid !! Z.to_nat tri.1.1 = Some g)
                                         (f_triangles fr))) in
      if decide (nI + nE = 0 ∧ nT = 0) then clumpRecords fr cid fresh firstV firstT ids'
      else mkChunkClump firstV nI nE firstT nT g ::
           clumpRecords fr cid fresh (wrap64 (firstV + nI + nE)) (wrap64 (firstT + nT)) ids'
  end.

Definition updateLocalClumps (fr : fragment) (cid : list nat) (clumpIdFirst clumpIdLast : nat)
    (firstV firstT : Z) (c : Chunk) : Chunk :=
  let '(m, n, fresh) := foldl dedupKey (vertexIdMap c, chunkExternal c, []) (f_keys fr) in
  mkChunk (chunkId c)
          (chunkClumps c ++ clumpRecords fr cid fresh firstV firstT
                              (seq clumpIdFirst (clumpIdLast - clumpIdFirst)))
          m n.

(** One fragment of the chunk [id]. *)
Definition add (id : ChunkId) (fr : fragment) (s : t) : result t :=
  '(cid, (m, _, _)) ← weld 0 fr (mkMesh (clumps s) (clumpIdMap s));
  let table := alter (updateLocalClumps fr cid (length (clumps s)) (length (KeyMapMesh.clumps m))
                        (writtenVerticesTmp s) (writtenTrianglesTmp s))
                     (gen id) (reserve id (chunks s)) in
  let stored := from_option (λ c, length (chunkClumps c)) 0%nat (chunks s !! gen id) in
  let recs := drop stored (from_option chunkClumps [] (table !! gen id)) in
  Ok (mkMesher (KeyMapMesh.clumps m) (keyMap m) table
        (wrap64 (writtenVerticesTmp s +
                 foldr (λ r n, numInternalVertices r + numExternalVertices r + n) 0 recs))
        (wrap64 (writtenTrianglesTmp s + foldr (λ r n, numTriangles r + n) 0 recs))).

Definition ingest (frs : list (ChunkId * fragment)) (s : t) : result t :=
  foldlM (λ s e, add e.1 e.2 s) s frs.

(** [getChunkStatistics]: what of a chunk passes the threshold. *)
Definition getChunkStatistics (thresholdVertices : Z) (cl : list Clump) (c : Chunk)
    : Z * Z * Z :=
  foldl (λ acc r,
           let '(keptVertices, keptTriangles, totalExternal) := acc in
           let total := wrap64 (totalExternal + numExternalVertices r) in
           if thresholdVertices <=? from_option clumpVertices 0 (cl !! root cl (globalId r))
           then (wrap64 (keptVertices + numInternalVertices r + numExternalVertices r),
                 wrap64 (keptTriangles + numTriangles r), total)
           else (keptVertices, keptTriangles, total))
        (0, 0, 0) (chunkClumps c).

(** An output file: its name and the counts declared to the writer. *)
Record outputFile : Type := mkOutput {
  out_name : string;
  out_vertices : Z;
  out_triangles : Z
}.

(** [write]: one file for every chunk of the table, in the order of the
    generations. *)
Definition write (namer : ChunkId → string) (thresholdVertices : Z) (s : t)
    : list outputFile :=
  (λ c, let '(keptVertices, keptTriangles, _) :=
          getChunkStatistics thresholdVertices (clumps s) c in
        mkOutput (namer (chunkId c)) keptVertices keptTriangles) <$> chunks s.


(** Modelled from the spec: the members of [OOCMesher] that write and read
    the triangles of the temporary file ([add], [updateLocalClumps] and
    [rewriteTriangles]) have their bodies in mesher.cpp, which is not among
    the sources.  Invariant 4 of section 3 and section 9 of the
    specification: the threshold [B] between the two kinds of index is the
    same for the whole implementation, the sign bit. *)
Definition B : Z := 2 ^ 31.








End OOCMesher.

(** ** [SimpleMesh]: everything is kept in memory, nothing is welded *)

Module SimpleMesh.
Import KeyMapMesh.

Record t : Type := mkSimple {
  vertices : list vertex_type;
  triangles : list triangle_type
}.

Definition create : t := mkSimple [] [].

(** [triangles[i][j] += oldVertices]: the sum is reduced to a [cl_uint]. *)
Definition globalIndex (oldVertices : nat) (index : Z) : Z :=
  wrap32 (index + Z.of_nat oldVertices).

(** [SimpleMesh::add]: the vertices and the triangles of the fragment are
    appended, the indices of the new triangles are made global. *)
Definition add (fr : fragment) (s : t) : t :=
  let oldVertices := length (vertices s) in
  mkSimple (vertices s ++ f_vertices fr)
           (triangles s ++
            ((λ tri, (globalIndex oldVertices tri.1.1, globalIndex oldVertices tri.1.2,
                      globalIndex oldVertices tri.2)) <$> f_triangles fr)).

Definition addAll (frs : list fragment) (s : t) : t := foldl (λ s fr, add fr s) s frs.

(** [SimpleMesh::write]. *)
Definition write (filename : string) (s : t) (w : Writer.t) : Writer.t :=
  let w1 := Writer.setNumVertices (Z.of_nat (length (vertices s))) w in
  let w2 := Writer.setNumTriangles (Z.of_nat (length (triangles s))) w1 in
  let w3 := Writer.open filename w2 in
  let w4 := Writer.writeVertices 0 (Z.of_nat (length (vertices s))) (vertices s) w3 in
  Writer.writeTriangles 0 (Z.of_nat (length (triangles s))) (triangles s) w4.

End SimpleMesh.

(** ** [WeldMesh]: external vertices are welded when the mesh is finalized *)

Module WeldMesh.
Import KeyMapMesh.

Record t : Type := mkWeld {
  internalVertices : list vertex_type;
  externalVertices : list vertex_type;
  externalKeys : list Z;
  triangles : list triangle_type
}.

Definition create : t := mkWeld [] [] [] [].

(** [std::vector::resize(n)] with value-initialized new elements. *)
Definition resize {X : Type} (n : nat) (d : X) (l : list X) : list X :=
  take n l ++ replicate (n - length l) d.

(** The rewriting of one index in [WeldMesh::add]; both offsets are
    [cl_uint]. *)
Definition encodeIndex (numInternal : nat) (offsetInternal offsetExternal : Z) (index : Z) : Z :=
  if index <? Z.of_nat numInternal
  then wrap32 (index + offsetInternal)
  else lnot32 (wrap32 (index + offsetExternal)).

(** [WeldMesh::add].  The internal and the external vertices go to two
    vectors; the key vector is resized to the external vector and takes the
    keys of the fragment at its end. *)
Definition add (fr : fragment) (s : t) : t :=
  let oldInternal := length (internalVertices s) in
  let oldExternal := length (externalVertices s) in
  let numInternal := f_numInternal fr in
  let numExternal := (f_numVertices fr - numInternal)%nat in
  let offsetInternal := wrap32 (Z.of_nat oldInternal) in
  let offsetExternal := wrap32 (Z.of_nat oldExternal - Z.of_nat numInternal) in
  mkWeld (internalVertices s ++ take numInternal (f_vertices fr))
         (externalVertices s ++ drop numInternal (f_vertices fr))
         (take oldExternal (resize (oldExternal + numExternal) 0 (externalKeys s)) ++
          resize numExternal 0 (f_keys fr))
         (triangles s ++
          ((λ tri, (encodeIndex numInternal offsetInternal offsetExternal tri.1.1,
                    encodeIndex numInternal offsetInternal offsetExternal tri.1.2,
                    encodeIndex numInternal offsetInternal offsetExternal tri.2))
             <$> f_triangles fr)).

Definition addAll (frs : list fragment) (s : t) : t := foldl (λ s fr, add fr s) s frs.

(** The state of the welding loop of [WeldMesh::finalize]. *)
Record weldLoop : Type := mkWeldLoop {
  wl_place : gmap Z Z;
  wl_remap : list Z;
  wl_vertices : list vertex_type;
  wl_welded : nat
}.

(** One iteration of the welding loop, for external vertex [i]. *)
Definition weldVertex (numInternal : nat) (keys : list Z) (s : weldLoop) (i : nat) : weldLoop :=
  let key := default 0 (keys !! i) in
  match wl_place s !! key with
  | None =>
      mkWeldLoop (<[key := wrap32 (Z.of_nat (wl_welded s))]> (wl_place s))
                 (<[i := wrap32 (Z.of_nat (wl_welded s) + Z.of_nat numInternal)]> (wl_remap s))
                 (match wl_vertices s !! i with
                  | Some v => <[wl_welded s := v]> (wl_vertices s)
                  | None => wl_vertices s
                  end)
                 (S (wl_welded s))
  | Some pos =>
      mkWeldLoop (wl_place s)
                 (<[i := wrap32 (pos + Z.of_nat numInternal)]> (wl_remap s))
                 (wl_vertices s) (wl_welded s)
  end.

(** The rewriting of one index in [WeldMesh::finalize]. *)
Definition finalIndex (numInternal : nat) (remap : list Z) (index : Z) : Z :=
  if Z.of_nat numInternal <=? index
  then default 0 (remap !! Z.to_nat (lnot32 index))
  else index.

(** The welding loop of [WeldMesh::finalize], over all external vertices. *)
Definition weldAll (s : t) : weldLoop :=
  let numExternal := length (externalVertices s) in
  foldl (weldVertex (length (internalVertices s)) (externalKeys s))
        (mkWeldLoop ∅ (replicate numExternal 0) (externalVertices s) 0%nat)
        (seq 0 numExternal).

(** [WeldMesh::finalize]: the external vertices are welded, the indices of
    the triangles are rewritten, the keys are thrown away. *)
Definition finalize (s : t) : t :=
  let numInternal := length (internalVertices s) in
  let l := weldAll s in
  mkWeld (internalVertices s)
         (resize (wl_welded l) (0, 0, 0) (wl_vertices l))
         []
         ((λ tri, (finalIndex numInternal (wl_remap l) tri.1.1,
                   finalIndex numInternal (wl_remap l) tri.1.2,
                   finalIndex numInternal (wl_remap l) tri.2)) <$> triangles s).

(** [WeldMesh::write]. *)
Definition write (filename : string) (s : t) (w : Writer.t) : Writer.t :=
  let numInternal := Z.of_nat (length (internalVertices s)) in
  let numExternal := Z.of_nat (length (externalVertices s)) in
  let w1 := Writer.setNumVertices (numInternal + numExternal) w in
  let w2 := Writer.setNumTriangles (Z.of_nat (length (triangles s))) w1 in
  let w3 := Writer.open filename w2 in
  let w4 := Writer.writeVertices 0 numInternal (internalVertices s) w3 in
  let w5 := Writer.writeVertices numInternal numExternal (externalVertices s) w4 in
  Writer.writeTriangles 0 (Z.of_nat (length (triangles s))) (triangles s) w5.

End WeldMesh.

(** ** [MeshBase::isManifold]: the test of the unit tests *)

Module MeshBase.
Import KeyMapMesh.

(** [edges]: for every vertex the pairs of the two other corners of its
    triangles, in the order of the triangle. *)
Abbreviation edge_table := (list (list (Z * Z))).

(** One pass of the loop over [j]: [indices] is the triangle, rotated [j]
    times.  A failed [assert] aborts; [Ok None] is [return false]. *)
Definition addCorner (numVertices : nat) (edges : edge_table) (indices : triangle_type)
    : result (option (edge_table * triangle_type)) :=
  let '(i0, i1, i2) := indices in
  if decide (i0 < Z.of_nat numVertices) then
    if decide (i0 = i1) then Ok None
    else Ok (Some (alter (λ l, l ++ [(i1, i2)]) (Z.to_nat i0) edges, (i1, i2, i0)))
  else Abort.

Fixpoint addCorners (numVertices : nat) (j : nat) (edges : edge_table) (indices : triangle_type)
    : result (option edge_table) :=
  match j with
  | O => Ok (Some edges)
  | S j' =>
      r ← addCorner numVertices edges indices;
      match r with
      | None => Ok None
      | Some (edges', indices') => addCorners numVertices j' edges' indices'
      end
  end.

(** The first loop, over the triangles. *)
Fixpoint buildEdges (numVertices : nat) (edges : edge_table) (triangles : list triangle_type)
    : result (option edge_table) :=
  match triangles with
  | [] => Ok (Some edges)
  | tri :: rest =>
      r ← addCorners numVertices 3 edges tri;
      match r with
      | None => Ok None
      | Some edges' => buildEdges numVertices edges' rest
      end
  end.

(** One pass of the loop that fills [arrow] and [seen]; [None] is
    [return false]. *)
Definition addArrow (st : gmap Z Z * gset Z) (e : Z * Z) : option (gmap Z Z * gset Z) :=
  let '(arrow, seen) := st in
  if decide (is_Some (arrow !! e.1)) then None
  else if decide (e.2 ∈ seen) then None
  else Some (<[e.1 := e.2]> arrow, {[e.2]} ∪ seen).

Fixpoint arrows (st : gmap Z Z * gset Z) (neigh : list (Z * Z)) : option (gmap Z Z * gset Z) :=
  match neigh with
  | [] => Some st
  | e :: rest => st' ← addArrow st e; arrows st' rest
  end.

(** The search of a starting point: the first [neigh[j].first] that is not in
    [seen], [start] when there is none. *)
Fixpoint findStart (seen : gset Z) (start : Z) (neigh : list (Z * Z)) : Z :=
  match neigh with
  | [] => start
  | e :: rest => if decide (e.1 ∈ seen) then findStart seen start rest else e.1
  end.

(** The [do ... while] loop: [fuel] bounds the number of passes, [None] is a
    walk that has not ended within them.  [arrow[cur]] is read at a key of
    [arrow] only: at [start], and then under the test of the loop. *)
Fixpoint follow (fuel : nat) (arrow : gmap Z Z) (start cur : Z) (len : nat) : option nat :=
  match fuel with
  | O => None
  | S fuel' =>
      let cur' := default 0 (arrow !! cur) in
      if decide (is_Some (arrow !! cur') ∧ cur' ≠ start)
      then follow fuel' arrow start cur' (S len)
      else Some (S len)
  end.

(** The body of the second loop for one vertex: [Some false] is
    [return false], [Some true] goes on with the next vertex. *)
Definition checkVertex (neigh : list (Z * Z)) : option bool :=
  match neigh with
  | [] => Some false
  | e0 :: _ =>
      match arrows (∅, ∅) neigh with
      | None => Some false
      | Some (arrow, seen) =>
          let start := findStart seen e0.1 neigh in
          len ← follow (length neigh) arrow start start 0;
          Some (bool_decide (len = length neigh))
      end
  end.

Fixpoint checkVertices (edges : edge_table) : option bool :=
  match edges with
  | [] => Some true
  | neigh :: rest =>
      b ← checkVertex neigh;
      if (b : bool) then checkVertices rest else Some false
  end.

(** [MeshBase::isManifold].  [Abort] is a failed [assert]; [Ok None] is a
    walk around a vertex that has not ended after [neigh.size()] passes. *)
Definition isManifold (numVertices : nat) (triangles : list triangle_type)
    : result (option bool) :=
  r ← buildEdges numVertices (replicate numVertices []) triangles;
  match r with
  | None => Ok (Some false)
  | Some edges => Ok (checkVertices edges)
  end.

End MeshBase.

(** * Specification-level definitions *)

Import UnionFind KeyMapMesh.
Local Close Scope Z_scope.

(** The number of indices below [n] that satisfy [P]. *)
Definition count (P : nat → Prop) `{!∀ x, Decision (P x)} (n : nat) : nat :=
  length (filter P (seq 0 n)).

(** ** Well-formed forests *)

Section forest_defs.
Context {A : Type} `{!Merge A}.

(** [reach f i k r]: [k] parent links lead from [i] to the root [r]. *)
Inductive reach (f : list (node A)) : nat → nat → nat → Prop :=
  | reach_root r s d :
      f !! r = Some (mkNode (Root s) d) → reach f r 0 r
  | reach_step i p d k r :
      f !! i = Some (mkNode (Child p) d) → reach f p k r → reach f i (S k) r.

(** The number of nodes whose root is [r]. *)
Definition class_size (f : list (node A)) (r : nat) : nat :=
  count (λ i, root f i = r) (length f).

(** Every node reaches a root in fewer links than the size of the root,
    and the size of a root is the number of nodes of its tree. *)
Record wf (f : list (node A)) : Prop := mkWf {
  wf_reach : ∀ i, i < length f →
    ∃ k r, reach f i k r ∧ (Z.of_nat k < forest_size f r)%Z;
  wf_size : ∀ r s d, f !! r = Some (mkNode (Root s) d) → s = Z.of_nat (class_size f r)
}.

(** [f'] is [f] after some children were re-parented to their roots. *)
Definition shortcut (f f' : list (node A)) : Prop :=
  length f' = length f ∧
  ∀ j, f' !! j = f !! j ∨
       ∃ p d, f !! j = Some (mkNode (Child p) d) ∧
              f' !! j = Some (mkNode (Child (root f j)) d).

(** [f'] has the links of [f]; the data may differ. *)
Definition relink (f f' : list (node A)) : Prop :=
  length f' = length f ∧ ∀ i, node_link <$> f' !! i = node_link <$> f !! i.

(** [f'] is [f] after the roots [w] and [l] were linked, up to path
    compression. *)
Definition linked (f f' : list (node A)) (w l : nat) : Prop :=
  ∃ g sw sl dw dl,
    shortcut f g ∧ w ≠ l ∧
    g !! w = Some (mkNode (Root sw) dw) ∧ g !! l = Some (mkNode (Root sl) dl) ∧
    f' = link_roots g w l.

Definition rootAt (f : list (node A)) (i : nat) : bool :=
  from_option isRoot false (f !! i).

(** The number of roots among the nodes below [n]. *)
Definition rootsBelow (f : list (node A)) (n : nat) : nat :=
  count (λ i, rootAt f i = true) n.
End forest_defs.

(** ** The reference components of a fragment *)

Definition indices (tri : triangle_type) : list Z := [tri.1.1; tri.1.2; tri.2].

(** Every index of every triangle is a vertex of the fragment. *)
Definition wf_triangles (numVertices : nat) (triangles : list triangle_type) : Prop :=
  ∀ tri v, tri ∈ triangles → v ∈ indices tri → (0 ≤ v < Z.of_nat numVertices)%Z.

(** Two vertices share a triangle. *)
Definition adjacent (triangles : list triangle_type) (i j : nat) : Prop :=
  ∃ tri, tri ∈ triangles ∧ Z.of_nat i ∈ indices tri ∧ Z.of_nat j ∈ indices tri.

(** The connected components of the triangle-adjacency graph. *)
Definition connected (triangles : list triangle_type) : relation nat :=
  rtc (adjacent triangles).

(** The clumps that the second loop of [computeLocalComponents] appends. *)
Definition newClumps (nodes : list (node unit)) (n : nat) : list Clump :=
  (λ r, newClump (forest_size nodes r)) <$> filter (λ i, rootAt nodes i = true) (seq 0 n).

(** The second loop of [computeLocalComponents] does not throw. *)
Definition hasRoom (nodes : list (node unit)) (cl : list Clump) (n : nat) : Prop :=
  rootsBelow nodes n = 0 ∨ (Z.of_nat (length cl + rootsBelow nodes n) ≤ CLUMP_ID_MAX + 1)%Z.

#[global] Instance hasRoom_dec nodes cl n : Decision (hasRoom nodes cl n).
Proof. unfold hasRoom. apply _. Defined.

Definition wf_fragment (fr : fragment) : Prop :=
  f_numInternal fr ≤ f_numVertices fr ∧
  length (f_keys fr) = f_numVertices fr - f_numInternal fr ∧
  wf_triangles (f_numVertices fr) (f_triangles fr).

(** ** The vertices seen by the welding loop *)

(** A vertex of an ingested fragment: the clump that [computeLocalComponents]
    gave it, its key when it is external, and whether it was counted as a
    new vertex (internal, or external with a key new to the key map). *)
Record occurrence : Type := mkOcc { o_clump : nat; o_key : option Z; o_first : bool }.

Definition internalOcc (c : nat) : occurrence := mkOcc c None true.

Definition countIn {X : Type} (sel : X → option nat) (ρ : nat → nat) (r : nat)
    (xs : list X) : nat :=
  length (filter (λ x, ρ <$> sel x = Some r) xs).

Definition uniqueClump (o : occurrence) : option nat :=
  if o_first o then Some (o_clump o) else None.
Definition pendingClump (e : Z * nat) : option nat := Some e.2.
Definition firstKey (o : occurrence) : option Z := if o_first o then o_key o else None.
Definition firstKeys (os : list occurrence) : list Z := omap firstKey os.

(** The invariant of the welding loop: [P] are the vertices seen so far, [Q]
    the external vertices of the current fragment that the loop of
    [updateKeyMap] has not reached yet. *)
Record weldInv (cl : list Clump) (km : gmap Z ExternalVertexData)
    (P : list occurrence) (Q : list (Z * nat)) : Prop := mkWeldInv {
  wi_wf : wf cl;
  wi_P : ∀ o, o ∈ P → o_clump o < length cl;
  wi_Q : ∀ e, e ∈ Q → e.2 < length cl;
  wi_dom : ∀ k, is_Some (km !! k) ↔ ∃ o, o ∈ P ∧ o_key o = Some k;
  wi_weld : ∀ k ed, km !! k = Some ed →
    clumpId ed < length cl ∧
    ∀ o, o ∈ P → o_key o = Some k → root cl (o_clump o) = root cl (clumpId ed);
  wi_nodup : NoDup (firstKeys P);
  wi_first : ∀ o k, o ∈ P → o_key o = Some k → k ∈ firstKeys P;
  wi_count : ∀ r s d, cl !! r = Some (mkNode (Root s) d) →
    vertices d = wrap64 (Z.of_nat (countIn uniqueClump (root cl) r P +
                                   countIn pendingClump (root cl) r Q))
}.

(** The links and the vertex counts of [cl'] are those of [cl]. *)
Definition sameVertices (cl cl' : list Clump) : Prop :=
  relink cl cl' ∧ ∀ i, clumpVertices <$> cl' !! i = clumpVertices <$> cl !! i.

(** The clumps of the internal vertices of a fragment, and the keys and
    clumps of its external vertices, [cid] being the vector [clumpId] that
    [add] computed for the fragment. *)
Definition internalClumps (fr : fragment) (cid : list nat) : list nat :=
  take (f_numInternal fr) cid.
Definition externalClumps (fr : fragment) (cid : list nat) : list (Z * nat) :=
  zip (f_keys fr) (drop (f_numInternal fr) cid).

(** The same over all the fragments of a pass. *)
Definition internalOccs (frs : list fragment) (tr : list (list nat)) : list nat :=
  concat (zip_with internalClumps frs tr).
Definition externalOccs (frs : list fragment) (tr : list (list nat)) : list (Z * nat) :=
  concat (zip_with externalClumps frs tr).

(** The number of internal vertices in the component of root [r]. *)
Definition internalIn (cl : list Clump) (r : nat) (frs : list fragment)
    (tr : list (list nat)) : nat :=
  length (filter (λ c, root cl c = r) (internalOccs frs tr)).

(** The keys of the external vertices in the component of root [r]. *)
Definition keysIn (cl : list Clump) (r : nat) (frs : list fragment)
    (tr : list (list nat)) : gset Z :=
  list_to_set (filter (λ e, root cl e.2 = r) (externalOccs frs tr)).*1.

Definition intPart (P : list occurrence) : list nat :=
  omap (λ o, if o_key o is None then Some (o_clump o) else None) P.
Definition extPart (P : list occurrence) : list (Z * nat) :=
  omap (λ o, k ← o_key o; Some (k, o_clump o)) P.
Definition firstKeysIn (ρ : nat → nat) (r : nat) (P : list occurrence) : list Z :=
  omap (λ o, if decide (o_first o = true ∧ ρ (o_clump o) = r) then o_key o else None) P.

(** The vertices [P] are those of the fragments [frs], [tr] being the
    vectors [clumpId] of the fragments. *)
Definition describes (P : list occurrence) (frs : list fragment) (tr : list (list nat)) : Prop :=
  intPart P = internalOccs frs tr ∧ extPart P = externalOccs frs tr ∧
  ∀ o, o ∈ P → o_key o = None → o_first o = true.

(** ** Vertex counters and executable well-formedness *)

(** The vertex counter of clump [r]. *)
Definition verticesAt (cl : list Clump) (r : nat) : Z :=
  from_option clumpVertices 0%Z (cl !! r).

(** Two fragments of one triangle each, with one internal vertex and the
    same two external keys. *)
Definition twoKeys (base : Z) : fragment :=
  mkFragment [(base, 0, 0); (base + 1, 0, 0); (base + 2, 0, 0)]%Z 1 [3; 4]%Z [(0, 1, 2)%Z].

(** The loop of [updateKeyMap] for the second of the two fragments, after
    its first external vertex: the first fragment was added, the clumps of
    the second were computed, and key 3 was found. *)
Definition afterFirstKey : option (keyLoop * list nat) :=
  match weld 1 (twoKeys 0) KeyMapMesh.empty with
  | Ok (_, (m, _, _)) =>
      match computeLocalComponents 3 (f_triangles (twoKeys 10)) (clumps m) with
      | Ok (cl, cid) =>
          Some (updateKey 1 4 cid (mkKeyLoop cl (keyMap m) 0 [0; 0]%Z) 0 3, cid)
      | _ => None
      end
  | _ => None
  end.

(** A clump table of [n] clumps. *)
Definition fullTable (n : Z) : list Clump := replicate (Z.to_nat n) (newClump 1).

(** A fragment of one internal vertex and no triangle. *)
Definition oneVertex : fragment := mkFragment [(0, 0, 0)%Z] 1 [] [].

Definition wf_trianglesb (numVertices : nat) (triangles : list triangle_type) : bool :=
  forallb (λ tri, forallb (λ v, (0 <=? v)%Z && (v <? Z.of_nat numVertices)%Z) (indices tri))
          triangles.

Definition wf_fragmentb (fr : fragment) : bool :=
  (f_numInternal fr <=? f_numVertices fr) &&
  (length (f_keys fr) =? f_numVertices fr - f_numInternal fr) &&
  wf_trianglesb (f_numVertices fr) (f_triangles fr).

(** ** The two passes of [BigMesh] *)

(** Two key maps hold the same keys. *)
Definition sameKeys (km1 km2 : gmap Z ExternalVertexData) : Prop :=
  ∀ k, is_Some (km1 !! k) ↔ is_Some (km2 !! k).

(** Every write carries as many records as it announces. *)
Definition wellSized {X : Type} (log : list (Z * Z * list X)) : Prop :=
  Forall (λ e, e.1.2 = Z.of_nat (length e.2)) log.

(** The state of the counting pass and the state of the writing pass after
    the same fragments. *)
Definition passesAgree (p q : BigMesh.t) : Prop :=
  sameKeys (keyMap (BigMesh.mesh p)) (keyMap (BigMesh.mesh q)) ∧
  BigMesh.nVertices p = BigMesh.nextVertex q ∧
  BigMesh.nTriangles p = BigMesh.nextTriangle q.

(** What the writing pass wrote so far. *)
Definition writtenSoFar (q : BigMesh.t) : Prop :=
  BigMesh.nextVertex q = wrap64 (Writer.written (Writer.vertexWrites (BigMesh.writer q))) ∧
  BigMesh.nextTriangle q = wrap64 (Writer.written (Writer.triangleWrites (BigMesh.writer q))) ∧
  wellSized (Writer.vertexWrites (BigMesh.writer q)) ∧
  wellSized (Writer.triangleWrites (BigMesh.writer q)).

(** ** Pruning *)

(** What the theorems assume of the rounding of a product to a [double]:
    it is monotone and leaves zero alone. *)
Definition rounding (round : Q → Q) : Prop :=
  (∀ x y, Qle x y → Qle (round x) (round y)) ∧ Qeq (round 0%Q) 0%Q.

(** The records of a sequence of writes, in the order of the calls. *)
Definition flat {X : Type} (log : list (Z * Z * list X)) : list X := concat (log.*2).

(** Every write starts where the one before it ended and carries as many
    records as it announces. *)
Fixpoint sequential {X : Type} (start : Z) (log : list (Z * Z * list X)) : Prop :=
  match log with
  | [] => True
  | e :: log' =>
      e.1.1 = start ∧ e.1.2 = Z.of_nat (length e.2) ∧ sequential (start + e.1.2)%Z log'
  end.

(** What went through a buffer: the records written and the records held. *)
Definition buffered {X : Type} (b : StxxlMesh.buffer X) : list X :=
  flat (StxxlMesh.buf_log b) ++ StxxlMesh.buf_data b.

(** A strip of 98 triangles over 100 vertices and a single triangle over 3
    vertices, without external vertices. *)
Definition strip (n : nat) : list triangle_type :=
  (λ i, (Z.of_nat i, Z.of_nat i + 1, Z.of_nat i + 2)%Z) <$> seq 0 (n - 2).
Definition points (base : Z) (n : nat) : list vertex_type :=
  (λ i, (base + Z.of_nat i, 0, 0)%Z) <$> seq 0 n.
Definition large : fragment := mkFragment (points 1000 100) 100 [] (strip 100).
Definition small : fragment := mkFragment (points 2000 3) 3 [] [(0, 1, 2)%Z].

(** The file that holds the records [data] from position 0 on. *)
Definition fileOf {X : Type} (data : list X) (k : Z) : option X :=
  if decide (0 ≤ k)%Z then data !! Z.to_nat k else None.

(** The writes of a buffer are sequential, and it knows where the next one
    starts. *)
Definition bufferInv {X : Type} (b : StxxlMesh.buffer X) : Prop :=
  sequential 0 (StxxlMesh.buf_log b) ∧
  StxxlMesh.buf_next b = Z.of_nat (length (flat (StxxlMesh.buf_log b))).

(** ** The chunk table *)

(** The generations of the fragments of a pass, and the length of the table
    that holds them all. *)
Definition generations (frs : list (OOCMesher.ChunkId * fragment)) : list nat :=
  (λ e, OOCMesher.gen e.1) <$> frs.
Definition extent (gs : list nat) : nat := foldr (λ g n, max (S g) n) 0 gs.

(** A table that holds the generations [gs]: it reaches the last of them,
    and a generation that is not among them holds a default chunk. *)
Definition dense (gs : list nat) (table : list OOCMesher.Chunk) : Prop :=
  length table = extent gs ∧
  ∀ g, g < length table → g ∉ gs →
       table !! g = Some (OOCMesher.newChunk OOCMesher.defaultId).



(** ** The geometry that a collector holds *)

(** The vertex that an index of a triangle stands for. *)
Definition corner (vs : list vertex_type) (index : Z) : option vertex_type :=
  if decide (0 ≤ index)%Z then vs !! Z.to_nat index else None.

(** The triangle soup of a mesh: every triangle with the coordinates of its
    three corners. *)
Definition soup (vs : list vertex_type) (tris : list triangle_type)
    : list (option vertex_type * option vertex_type * option vertex_type) :=
  (λ tri, (corner vs tri.1.1, corner vs tri.1.2, corner vs tri.2)) <$> tris.

(** The soup of the fragments of a pass, in the order in which they were
    added. *)
Definition soups (frs : list fragment)
    : list (option vertex_type * option vertex_type * option vertex_type) :=
  concat ((λ fr, soup (f_vertices fr) (f_triangles fr)) <$> frs).

(** Every index of every triangle is an index into [vs]. *)
Definition closed (vs : list vertex_type) (tris : list triangle_type) : Prop :=
  wf_triangles (length vs) tris.

(** All the vertices of the fragments of a pass. *)
Definition totalVertices (frs : list fragment) : nat :=
  length (concat (f_vertices <$> frs)).

(** ** The welding of [WeldMesh] *)

(** The vertex that an index stands for between [WeldMesh::add] and
    [WeldMesh::finalize]: an index below the number of internal vertices is
    internal, any other index is the complement of an external index. *)
Definition weldCorner (int ext : list vertex_type) (index : Z) : option vertex_type :=
  if decide (0 ≤ index < Z.of_nat (length int))%Z then int !! Z.to_nat index
  else ext !! Z.to_nat (lnot32 index).

Definition weldSoup (s : WeldMesh.t)
    : list (option vertex_type * option vertex_type * option vertex_type) :=
  (λ tri, (weldCorner (WeldMesh.internalVertices s) (WeldMesh.externalVertices s) tri.1.1,
           weldCorner (WeldMesh.internalVertices s) (WeldMesh.externalVertices s) tri.1.2,
           weldCorner (WeldMesh.internalVertices s) (WeldMesh.externalVertices s) tri.2))
    <$> WeldMesh.triangles s.

(** Every index is internal or the complement of an external index. *)
Definition coded (numInternal numExternal : nat) (tris : list triangle_type) : Prop :=
  ∀ tri x, tri ∈ tris → x ∈ indices tri →
    (0 ≤ x < Z.of_nat numInternal)%Z ∨
    ∃ e, e < numExternal ∧ x = lnot32 (Z.of_nat e).

(** What [WeldMesh::add] keeps: a key for every external vertex, indices
    that can be told apart, and fewer than 2^32 vertices. *)
Record weldable (s : WeldMesh.t) : Prop := mkWeldable {
  wb_keys : length (WeldMesh.externalKeys s) = length (WeldMesh.externalVertices s);
  wb_fits : (Z.of_nat (length (WeldMesh.internalVertices s) +
                       length (WeldMesh.externalVertices s)) ≤ 2 ^ 32)%Z;
  wb_coded : coded (length (WeldMesh.internalVertices s))
                   (length (WeldMesh.externalVertices s)) (WeldMesh.triangles s)
}.

(** The distinct keys of a list, in the order of their first occurrences. *)
Definition distinctKeys (keys : list Z) : list Z :=
  foldl (λ acc k, if decide (k ∈ acc) then acc else acc ++ [k]) [] keys.

(** The position of a key among the distinct keys. *)
Definition rank (ks : list Z) (k : Z) : nat :=
  default 0 (fst <$> list_find (λ x, x = k) ks).

(** External vertices with the same key have the same coordinates. *)
Definition consistent (keys : list Z) (vs : list vertex_type) : Prop :=
  ∀ i j k, keys !! i = Some k → keys !! j = Some k → vs !! i = vs !! j.

(** All the external keys and external vertices of the fragments of a
    pass. *)
Definition allKeys (frs : list fragment) : list Z := concat (f_keys <$> frs).
Definition allExternal (frs : list fragment) : list vertex_type :=
  concat ((λ fr, drop (f_numInternal fr) (f_vertices fr)) <$> frs).
Definition allInternal (frs : list fragment) : list vertex_type :=
  concat ((λ fr, take (f_numInternal fr) (f_vertices fr)) <$> frs).

(** The invariant of the welding loop of [WeldMesh::finalize] before
    external vertex [i]: the keys seen have a place, every vertex seen has
    its new index, the first vertex of every key seen was moved to the place
    of the key, and the vertices not yet seen are where they were. *)
Record weldLoopInv (numInternal : nat) (keys : list Z) (ext : list vertex_type) (i : nat)
    (l : WeldMesh.weldLoop) : Prop := mkWeldLoopInv {
  wli_welded : WeldMesh.wl_welded l = length (distinctKeys (take i keys));
  wli_place : ∀ k, WeldMesh.wl_place l !! k =
    if decide (k ∈ take i keys)
    then Some (wrap32 (Z.of_nat (rank (distinctKeys (take i keys)) k)))
    else None;
  wli_remap_length : length (WeldMesh.wl_remap l) = length ext;
  wli_remap : ∀ j k, j < i → keys !! j = Some k →
    WeldMesh.wl_remap l !! j =
    Some (wrap32 (Z.of_nat (rank (distinctKeys (take i keys)) k) + Z.of_nat numInternal));
  wli_length : length (WeldMesh.wl_vertices l) = length ext;
  wli_rest : ∀ j, i ≤ j → WeldMesh.wl_vertices l !! j = ext !! j;
  wli_kept : ∀ q k, distinctKeys (take i keys) !! q = Some k →
    WeldMesh.wl_vertices l !! q = ext !! rank keys k
}.

(** ** The key map *)

(** The keys of a fragment that the key map does not hold, once each, in the
    order in which they first occur. *)
Definition newKeysOf (km : gmap Z ExternalVertexData) (keys : list Z) : list Z :=
  distinctKeys (filter (λ k, km !! k = None) keys).

(** The key map that [updateKeyMap] leaves when it starts from [km]: the
    entries of [km] stay, and a new key gets the next output index and the
    clump of its first vertex. *)
Definition keyMapAfter (km : gmap Z ExternalVertexData) (vertexOffset : Z)
    (numInternal : nat) (cid : list nat) (keys seen : list Z) (k : Z)
    : option ExternalVertexData :=
  match km !! k with
  | Some ed => Some ed
  | None =>
      if decide (k ∈ seen)
      then Some (mkExternal (wrap32 (vertexOffset + Z.of_nat (rank (newKeysOf km seen) k)))
                            (default 0 (cid !! (rank keys k + numInternal))))
      else None
  end.

(** The invariant of the loop of [updateKeyMap] after the keys [seen]. *)
Record keyLoopInv (km : gmap Z ExternalVertexData) (vertexOffset : Z) (numInternal : nat)
    (cid : list nat) (keys seen : list Z) (s : keyLoop) : Prop := mkKeyLoopInv {
  kli_newKeys : kl_newKeys s = Z.of_nat (length (newKeysOf km seen));
  kli_keyMap : ∀ k, kl_keyMap s !! k = keyMapAfter km vertexOffset numInternal cid keys seen k;
  kli_length : length (kl_indexTable s) = length keys;
  kli_table : ∀ j k, j < length seen → keys !! j = Some k →
    kl_indexTable s !! j =
    vertexId <$> keyMapAfter km vertexOffset numInternal cid keys seen k
}.

(** The external vertices that an [add] stores: for every new key the first
    vertex that has it, with its clump. *)
Definition storedExternal (km : gmap Z ExternalVertexData) (fr : fragment) (cid : list nat)
    (seen : list Z) : list (vertex_type * nat) :=
  (λ k, (default (0, 0, 0)%Z (f_vertices fr !! (f_numInternal fr + rank (f_keys fr) k)),
         default 0 (cid !! (f_numInternal fr + rank (f_keys fr) k))))
    <$> newKeysOf km seen.

(** What a [StxxlMesh] holds after the fragments [frs]: the internal
    vertices and one vertex for every key; the key map sends a key to the
    place of the first vertex that had it; the triangles are the triangles
    of the fragments. *)
Record stxxlInv (frs : list fragment) (s : StxxlMesh.t) : Prop := mkStxxlInv {
  si_length : length (StxxlMesh.vertices s) =
              length (allInternal frs) + length (distinctKeys (allKeys frs));
  si_dom : ∀ k, is_Some (keyMap (StxxlMesh.mesh s) !! k) ↔ k ∈ allKeys frs;
  si_key : ∀ k ed, keyMap (StxxlMesh.mesh s) !! k = Some ed →
    (0 ≤ vertexId ed)%Z ∧
    (StxxlMesh.vertices s).*1 !! Z.to_nat (vertexId ed) =
    allExternal frs !! rank (allKeys frs) k;
  si_closed : closed (StxxlMesh.vertices s).*1 (StxxlMesh.triangles s);
  si_soup : soup (StxxlMesh.vertices s).*1 (StxxlMesh.triangles s) = soups frs
}.

(** The writing pass of [BigMesh] and a [StxxlMesh] after the same
    fragments: the same clumps and key map, and the file holds what the
    [StxxlMesh] stores. *)
Record bigSim (b : BigMesh.t) (s : StxxlMesh.t) : Prop := mkBigSim {
  bs_mesh : BigMesh.mesh b = StxxlMesh.mesh s;
  bs_nextVertex : BigMesh.nextVertex b = Z.of_nat (length (StxxlMesh.vertices s));
  bs_nextTriangle : BigMesh.nextTriangle b = Z.of_nat (length (StxxlMesh.triangles s));
  bs_vertices_seq : sequential 0 (Writer.vertexWrites (BigMesh.writer b));
  bs_vertices : flat (Writer.vertexWrites (BigMesh.writer b)) = (StxxlMesh.vertices s).*1;
  bs_triangles_seq : sequential 0 (Writer.triangleWrites (BigMesh.writer b));
  bs_triangles : flat (Writer.triangleWrites (BigMesh.writer b)) = StxxlMesh.triangles s
}.

(** ** The vertices that are counted *)

(** External vertex [j] of a fragment, with key [k], as the loop of
    [updateKeyMap] sees it: it is counted when its key is new to the key map
    and was not seen earlier in the fragment. *)
Definition keyOcc (km : gmap Z ExternalVertexData) (numInternal : nat) (cid : list nat)
    (keys : list Z) (j : nat) (k : Z) : occurrence :=
  mkOcc (default 0 (cid !! (j + numInternal))) (Some k)
        (bool_decide (km !! k = None ∧ k ∉ take j keys)).

(** The external vertices from [from] on, [rest] being their keys. *)
Definition keyOccs (km : gmap Z ExternalVertexData) (numInternal : nat) (cid : list nat)
    (keys : list Z) (from : nat) (rest : list Z) : list occurrence :=
  imap (λ j, keyOcc km numInternal cid keys (from + j)) rest.

(** ** The triangle counters *)

(** The clump in which [computeLocalComponents] counts a triangle of a
    fragment: the clump of its first vertex. *)
Definition triangleClumps (cid : list nat) (tris : list triangle_type) : list nat :=
  (λ tri, default 0 (cid !! Z.to_nat tri.1.1)) <$> tris.

(** [TL] holds, for every triangle seen so far, the clump in which it was
    counted: the triangle counter of a root is the number of triangles
    counted in its component. *)
Record triInv (cl : list Clump) (TL : list nat) : Prop := mkTriInv {
  ti_range : ∀ c, c ∈ TL → c < length cl;
  ti_count : ∀ r s d, cl !! r = Some (mkNode (Root s) d) →
    triangles d = wrap64 (Z.of_nat (countIn Some (root cl) r TL))
}.

(** What [StxxlMesh::write] relies on.  [P] are the vertices seen and [TL]
    the clumps in which the triangles were counted: the label of a stored
    vertex is the clump of the vertex that was counted, the key map sends a
    key to a stored vertex with the clump that the key map holds, and the
    three corners of a stored triangle are in the component in which the
    triangle was counted. *)
Record labelInv (s : StxxlMesh.t) (P : list occurrence) (TL : list nat) : Prop := mkLabelInv {
  li_weld : weldInv (clumps (StxxlMesh.mesh s)) (keyMap (StxxlMesh.mesh s)) P [];
  li_tri : triInv (clumps (StxxlMesh.mesh s)) TL;
  li_labels : (StxxlMesh.vertices s).*2 = omap uniqueClump P;
  li_keys : ∀ k ed, keyMap (StxxlMesh.mesh s) !! k = Some ed →
    (StxxlMesh.vertices s).*2 !! Z.to_nat (vertexId ed) = Some (clumpId ed);
  li_corners : Forall2 (λ tri c, ∀ x, x ∈ indices tri →
      ∃ lbl, (StxxlMesh.vertices s).*2 !! Z.to_nat x = Some lbl ∧
             root (clumps (StxxlMesh.mesh s)) lbl = root (clumps (StxxlMesh.mesh s)) c)
    (StxxlMesh.triangles s) TL
}.

(** ** What [StxxlMesh::write] keeps *)

(** The test of [StxxlMesh::write] on the clump of a stored vertex: the
    root of the clump counts at least [threshold] vertices. *)
Definition keptClump (threshold : Z) (cl : list Clump) (c : nat) : Prop :=
  (threshold ≤ verticesAt cl (root cl c))%Z.

#[global] Instance keptClump_dec threshold cl c : Decision (keptClump threshold cl c).
Proof. unfold keptClump. apply _. Defined.

(** The stored vertices that pass the test. *)
Definition keptVertices (threshold : Z) (s : StxxlMesh.t) : list (vertex_type * nat) :=
  filter (λ v, keptClump threshold (clumps (StxxlMesh.mesh s)) v.2) (StxxlMesh.vertices s).

(** The stored vertex at an index passes the test. *)
Definition keptIndex (threshold : Z) (s : StxxlMesh.t) (index : Z) : Prop :=
  ∃ v, StxxlMesh.vertices s !! Z.to_nat index = Some v ∧
       keptClump threshold (clumps (StxxlMesh.mesh s)) v.2.

#[global] Instance keptIndex_dec threshold s index : Decision (keptIndex threshold s index).
Proof.
  unfold keptIndex. destruct (StxxlMesh.vertices s !! Z.to_nat index) as [v|].
  - destruct (decide (keptClump threshold (clumps (StxxlMesh.mesh s)) v.2)) as [Hk|Hk].
    + left. by exists v.
    + right. intros (v' & [= <-] & Hv). by apply Hk.
  - right. by intros (v & Hv & _).
Defined.

(** The stored triangles whose first vertex passes the test. *)
Definition keptTriangles (threshold : Z) (s : StxxlMesh.t) : list triangle_type :=
  filter (λ tri, keptIndex threshold s tri.1.1) (StxxlMesh.triangles s).

(** The table [vertexRemap] of [StxxlMesh::write] for the vertices [vs],
    [next] vertices having been written before them. *)
Fixpoint remapFrom (threshold : Z) (cl : list Clump) (next : nat)
    (vs : list (vertex_type * nat)) : list Z :=
  match vs with
  | [] => []
  | v :: vs' =>
      if decide (keptClump threshold cl v.2)
      then wrap32 (Z.of_nat next) :: remapFrom threshold cl (S next) vs'
      else UINT32_MAX :: remapFrom threshold cl next vs'
  end.

(** ** The blocks of a buffer *)

(** Every write carried a full buffer, and the buffer is not full. *)
Definition chunked {X : Type} (capacity : nat) (b : StxxlMesh.buffer X) : Prop :=
  Forall (λ e, length e.2 = capacity) (StxxlMesh.buf_log b) ∧
  length (StxxlMesh.buf_data b) < capacity.

(** Full blocks, then one block that is not full. *)
Definition blocks {X : Type} (capacity : nat) (log : list (Z * Z * list X)) : Prop :=
  ∃ full e, log = full ++ [e] ∧ Forall (λ e, length e.2 = capacity) full ∧
            length e.2 < capacity.

(** A triangle over the edge from (0, 0, 0) to (1, 0, 0): the apex is
    internal, the two ends of the edge are external with the keys 3 and
    4. *)
Definition wing (apex : Z) : fragment :=
  mkFragment [(0, apex, 0); (0, 0, 0); (1, 0, 0)]%Z 1 [3; 4]%Z [(0, 1, 2)%Z].

(** ** The components of the stored mesh *)

(** The stored vertices of the component whose root is the clump [r]. *)
Definition componentOf (s : StxxlMesh.t) (r : nat) : list (vertex_type * nat) :=
  filter (λ v, root (clumps (StxxlMesh.mesh s)) v.2 = r) (StxxlMesh.vertices s).

(** The stored vertex at an index is in the component of [r]. *)
Definition inComponent (s : StxxlMesh.t) (r : nat) (index : Z) : Prop :=
  ∃ v, StxxlMesh.vertices s !! Z.to_nat index = Some v ∧
       root (clumps (StxxlMesh.mesh s)) v.2 = r.

#[global] Instance inComponent_dec s r index : Decision (inComponent s r index).
Proof.
  unfold inComponent. destruct (StxxlMesh.vertices s !! Z.to_nat index) as [v|].
  - destruct (decide (root (clumps (StxxlMesh.mesh s)) v.2 = r)) as [Hr|Hr].
    + left. by exists v.
    + right. intros (v' & [= <-] & Hv). by apply Hr.
  - right. by intros (v & Hv & _).
Defined.

(** The stored triangles of the component of [r]: those whose first vertex
    is in it. *)
Definition componentTriangles (s : StxxlMesh.t) (r : nat) : list triangle_type :=
  filter (λ tri, inComponent s r tri.1.1) (StxxlMesh.triangles s).

(** A strip of 49 triangles over 49 internal vertices and the two ends of
    an edge, which are external with the keys 7 and 8. *)
Definition half (base : Z) : fragment :=
  mkFragment (points base 49 ++ [(5000, 0, 0); (5001, 0, 0)]%Z) 49 [7; 8]%Z (strip 51).

(** ** Manifold meshes *)

(** The three rotations of a triangle, as [isManifold] visits them. *)
Definition rotations (tri : triangle_type) : list triangle_type :=
  [(tri.1.1, tri.1.2, tri.2); (tri.1.2, tri.2, tri.1.1); (tri.2, tri.1.1, tri.1.2)].

(** The directed edges of the triangles, in the order of their corners. *)
Definition directedEdges (triangles : list triangle_type) : list (Z * Z) :=
  (λ r : triangle_type, (r.1.1, r.1.2)) <$> (triangles ≫= rotations).

(** The triangles around a vertex, each as the pair of its two other
    corners. *)
Definition spoke (v : nat) (r : triangle_type) : option (Z * Z) :=
  if decide (r.1.1 = Z.of_nat v) then Some (r.1.2, r.2) else None.

Definition fan (triangles : list triangle_type) (v : nat) : list (Z * Z) :=
  omap (spoke v) (triangles ≫= rotations).

(** The indices are values of an unsigned type. *)
Definition unsigned (triangles : list triangle_type) : Prop :=
  ∀ tri v, tri ∈ triangles → v ∈ indices tri → (0 ≤ v)%Z.

(** The edges that join the consecutive entries of a path. *)
Definition links (path : list Z) : list (Z * Z) := zip path (tail path).

(** The table of [isManifold] after the rotated triangles [R]. *)
Definition tableInv (numVertices : nat) (edges : MeshBase.edge_table)
    (R : list triangle_type) : Prop :=
  length edges = numVertices ∧
  ∀ v, (v < numVertices)%nat → edges !! v = Some (omap (spoke v) R).

(** [arrow] and [seen] after the pairs [done]. *)
Record arrowInv (done : list (Z * Z)) (st : gmap Z Z * gset Z) : Prop := mkArrowInv {
  ai_arrow : ∀ x y, st.1 !! x = Some y ↔ (x, y) ∈ done;
  ai_seen : ∀ y, y ∈ st.2 ↔ y ∈ done.*2;
  ai_first : NoDup done.*1;
  ai_second : NoDup done.*2
}.

(** Every entry of the path is sent to the next one. *)
Definition chained (arrow : gmap Z Z) (path : list Z) : Prop :=
  ∀ k x y, path !! k = Some x → path !! S k = Some y → arrow !! x = Some y.

(** A tetrahedron, wound outwards. *)
Definition tetrahedron : list triangle_type :=
  [(0, 1, 2); (0, 3, 1); (0, 2, 3); (1, 3, 2)]%Z.

(** * Union-find: counting, well-formed forests, link and merge *)

(** ** Counting *)
Section counting.
Context {X : Type} (P Q : X → Prop) `{!∀ x, Decision (P x)} `{!∀ x, Decision (Q x)}.

Lemma filter_length_ext (l : list X) :
  (∀ x, x ∈ l → (P x ↔ Q x)) → length (filter P l) = length (filter Q l).
Proof.
  induction l as [|x l IH]; intros HPQ; [done|].
  rewrite !filter_cons.
  assert (length (filter P l) = length (filter Q l)) as E.
  { apply IH. intros y Hy. apply HPQ. by right. }
  destruct (HPQ x) as [H1 H2]; [by left|].
  repeat case_decide; simpl; try lia; tauto.
Qed.

Lemma filter_length_or (l : list X) :
  (∀ x, x ∈ l → ¬ (P x ∧ Q x)) →
  length (filter (λ x, P x ∨ Q x) l) = length (filter P l) + length (filter Q l).
Proof.
  induction l as [|x l IH]; intros Hdis; [done|].
  rewrite !filter_cons.
  assert (length (filter (λ x, P x ∨ Q x) l) = length (filter P l) + length (filter Q l)) as E.
  { apply IH. intros y Hy. apply Hdis. by right. }
  specialize (Hdis x ltac:(by left)).
  repeat case_decide; simpl; try lia; tauto.
Qed.

Lemma filter_length_pos (l : list X) x : x ∈ l → P x → 0 < length (filter P l).
Proof.
  intros Hx HP. assert (x ∈ filter P l) as Hin by (by apply list_elem_of_filter).
  destruct (filter P l); [by apply not_elem_of_nil in Hin | simpl; lia].
Qed.
End counting.

Lemma count_ext (P Q : nat → Prop) `{!∀ x, Decision (P x)} `{!∀ x, Decision (Q x)} n :
  (∀ x, x < n → (P x ↔ Q x)) → count P n = count Q n.
Proof.
  intros Hext. apply filter_length_ext. intros x Hx%elem_of_seq. apply Hext. lia.
Qed.

Lemma count_or (P Q : nat → Prop) `{!∀ x, Decision (P x)} `{!∀ x, Decision (Q x)} n :
  (∀ x, x < n → ¬ (P x ∧ Q x)) →
  count (λ x, P x ∨ Q x) n = count P n + count Q n.
Proof.
  intros Hdis. apply filter_length_or. intros x Hx%elem_of_seq. apply Hdis. lia.
Qed.

Lemma count_le (P : nat → Prop) `{!∀ x, Decision (P x)} n : count P n ≤ n.
Proof. unfold count. etrans; [apply length_filter|]. by rewrite length_seq. Qed.

Lemma count_pos (P : nat → Prop) `{!∀ x, Decision (P x)} n x : x < n → P x → 0 < count P n.
Proof. intros Hx HP. apply (filter_length_pos P _ x); [apply elem_of_seq; lia | done]. Qed.

Lemma count_S (P : nat → Prop) `{!∀ x, Decision (P x)} n :
  count P (S n) = count P n + (if decide (P n) then 1 else 0).
Proof.
  unfold count. rewrite seq_S, filter_app, length_app. simpl.
  rewrite filter_cons, filter_nil. by case_decide.
Qed.

Lemma count_eq (r n : nat) : count (λ i, i = r) n = if decide (r < n) then 1 else 0.
Proof.
  induction n as [|n IH]; [done|].
  rewrite count_S, IH. repeat case_decide; lia.
Qed.

Lemma count_disjoint_le (P Q : nat → Prop) `{!∀ x, Decision (P x)} `{!∀ x, Decision (Q x)} n :
  (∀ x, x < n → ¬ (P x ∧ Q x)) → count P n + count Q n ≤ n.
Proof. intros Hdis. rewrite <-count_or by done. apply count_le. Qed.

(** ** Forest theory *)
Section forest_theory.
Context {A : Type} `{!Merge A}.
Implicit Types f : list (node A).

Lemma walk_out f fuel i : length f ≤ i → walk fuel f i = i.
Proof. intros Hi. destruct fuel; [done|]. simpl. by rewrite (proj2 (lookup_ge_None _ _) Hi). Qed.

Lemma walk_root f fuel r s d : f !! r = Some (mkNode (Root s) d) → walk fuel f r = r.
Proof. intros Hr. destruct fuel; [done|]. simpl. by rewrite Hr. Qed.

Lemma reach_walk f i k r fuel : reach f i k r → k ≤ fuel → walk fuel f i = r.
Proof.
  intros Hreach. revert fuel. induction Hreach as [r s d Hr|i p d k r Hi _ IH]; intros fuel Hk.
  - by eapply walk_root.
  - destruct fuel as [|fuel]; [lia|]. simpl. rewrite Hi. apply IH. lia.
Qed.

Lemma reach_det f i k r k' r' : reach f i k r → reach f i k' r' → k = k' ∧ r = r'.
Proof.
  intros H1. revert k' r'. induction H1 as [r s d Hr|i p d k r Hi _ IH]; intros k' r' H2.
  - inversion H2; simplify_eq; done.
  - inversion H2 as [|? ? ? ? ? Hi' H2']; simplify_eq.
    destruct (IH _ _ H2'); by subst.
Qed.

Lemma reach_end_root f i k r : reach f i k r → ∃ s d, f !! r = Some (mkNode (Root s) d).
Proof. induction 1; eauto. Qed.

Lemma reach_lt f i k r : reach f i k r → i < length f.
Proof. destruct 1; eauto using lookup_lt_Some. Qed.

Lemma class_size_le f r : class_size f r ≤ length f.
Proof. apply count_le. Qed.

Lemma forest_size_root f r s d : f !! r = Some (mkNode (Root s) d) → forest_size f r = s.
Proof. intros Hr. unfold forest_size. by rewrite Hr. Qed.

Lemma wf_forest_size f r :
  wf f → (forest_size f r ≤ Z.of_nat (length f))%Z.
Proof.
  intros Hwf. unfold forest_size.
  destruct (f !! r) as [[[s|p] d]|] eqn:Hr; unfold size; simpl; try lia.
  rewrite (wf_size f Hwf _ _ _ Hr). pose proof (class_size_le f r). lia.
Qed.

(** In a well-formed forest the fuel of [root] is enough. *)
Lemma wf_root_reach f i :
  wf f → i < length f →
  ∃ k, reach f i k (root f i) ∧ (Z.of_nat k < forest_size f (root f i))%Z.
Proof.
  intros Hwf Hi. destruct (wf_reach f Hwf i Hi) as (k & r & Hreach & Hk).
  pose proof (wf_forest_size f r Hwf).
  assert (root f i = r) as ->; [|eauto].
  eapply reach_walk; [done|lia].
Qed.

Lemma reach_root_eq f i k r : wf f → reach f i k r → root f i = r.
Proof.
  intros Hwf Hreach. destruct (wf_root_reach f i Hwf (reach_lt _ _ _ _ Hreach)) as (k' & H' & _).
  by destruct (reach_det _ _ _ _ _ _ H' Hreach).
Qed.

Lemma root_out f i : length f ≤ i → root f i = i.
Proof. apply walk_out. Qed.

Lemma root_of_root f r s d : f !! r = Some (mkNode (Root s) d) → root f r = r.
Proof. apply walk_root. Qed.

Lemma root_is_root f i :
  wf f → i < length f → ∃ s d, f !! root f i = Some (mkNode (Root s) d).
Proof. intros Hwf Hi. destruct (wf_root_reach f i Hwf Hi) as (k & Hk & _). by eapply reach_end_root. Qed.

Lemma root_lt f i : wf f → i < length f → root f i < length f.
Proof. intros Hwf Hi. destruct (root_is_root f i Hwf Hi) as (s & d & Hr). by eapply lookup_lt_Some. Qed.

Lemma root_idem f i : wf f → root f (root f i) = root f i.
Proof.
  intros Hwf. destruct (decide (i < length f)) as [Hi|Hi].
  - destruct (root_is_root f i Hwf Hi) as (s & d & Hr). by eapply root_of_root.
  - rewrite (root_out f i) by lia. apply root_out. lia.
Qed.

Lemma root_child f i p d : wf f → f !! i = Some (mkNode (Child p) d) → root f i = root f p.
Proof.
  intros Hwf Hi. destruct (wf_root_reach f i Hwf (lookup_lt_Some _ _ _ Hi)) as (k & Hreach & _).
  remember (root f i) as r eqn:Er. clear Er.
  inversion Hreach as [? ? ? Hr|? p' ? k' ? Hi' Hp]; simplify_eq.
  symmetry. by eapply reach_root_eq.
Qed.

Lemma root_fixed_is_root f r :
  wf f → r < length f → root f r = r → ∃ s d, f !! r = Some (mkNode (Root s) d).
Proof. intros Hwf Hr Heq. rewrite <-Heq. by apply root_is_root. Qed.

Lemma class_size_pos f r s d :
  wf f → f !! r = Some (mkNode (Root s) d) → 0 < class_size f r.
Proof.
  intros Hwf Hr. apply (count_pos _ _ r); [by eapply lookup_lt_Some | by eapply root_of_root].
Qed.

(** *** Path compression *)

Lemma shortcut_refl f : shortcut f f.
Proof. split; [done|]. by left. Qed.

Lemma shortcut_root_node f f' r s d :
  shortcut f f' → f !! r = Some (mkNode (Root s) d) → f' !! r = Some (mkNode (Root s) d).
Proof.
  intros [_ Hsc] Hr. destruct (Hsc r) as [->|(p & d' & Hf & _)]; [done|congruence].
Qed.

Lemma shortcut_root_node_inv f f' r s d :
  shortcut f f' → f' !! r = Some (mkNode (Root s) d) → f !! r = Some (mkNode (Root s) d).
Proof.
  intros [_ Hsc] Hr. destruct (Hsc r) as [<-|(p & d' & _ & Hf)]; [done|congruence].
Qed.

Lemma shortcut_data f f' j : shortcut f f' → node_data <$> f' !! j = node_data <$> f !! j.
Proof.
  intros [_ Hsc]. destruct (Hsc j) as [->|(p & d' & -> & ->)]; done.
Qed.

Lemma shortcut_forest_size f f' r : shortcut f f' → forest_size f' r = forest_size f r.
Proof.
  intros [_ Hsc]. unfold forest_size.
  destruct (Hsc r) as [->|(p & d' & -> & ->)]; done.
Qed.

Lemma shortcut_reach f f' i k r :
  wf f → shortcut f f' → reach f i k r → ∃ k', k' ≤ k ∧ reach f' i k' r.
Proof.
  intros Hwf Hsc Hreach. induction Hreach as [r s d Hr|i p d k r Hi Hp (k' & Hk' & IH)].
  - exists 0. split; [done|]. econstructor. by eapply shortcut_root_node.
  - destruct (proj2 Hsc i) as [Heq|(p' & d' & Hf & Hf')].
    + exists (S k'). split; [lia|]. econstructor; [|done]. by rewrite Heq.
    + assert (root f i = r) as Hroot.
      { eapply reach_root_eq; [done|]. exact (reach_step _ _ _ _ _ _ Hi Hp). }
      rewrite Hroot in Hf'. exists 1. split; [lia|].
      econstructor; [done|]. destruct (reach_end_root _ _ _ _ Hp) as (s & d0 & Hr).
      econstructor. by eapply shortcut_root_node.
Qed.

Lemma shortcut_root f f' i : wf f → shortcut f f' → root f' i = root f i.
Proof.
  intros Hwf Hsc. destruct (decide (i < length f)) as [Hi|Hi].
  - destruct (wf_root_reach f i Hwf Hi) as (k & Hreach & Hk).
    destruct (shortcut_reach _ _ _ _ _ Hwf Hsc Hreach) as (k' & Hk' & Hreach').
    pose proof (wf_forest_size f (root f i) Hwf).
    eapply reach_walk; [done|]. rewrite (proj1 Hsc). lia.
  - rewrite !root_out; [done|lia|rewrite (proj1 Hsc); lia].
Qed.

Lemma shortcut_class_size f f' r : wf f → shortcut f f' → class_size f' r = class_size f r.
Proof.
  intros Hwf Hsc. unfold class_size. rewrite (proj1 Hsc).
  apply count_ext. intros x _. by rewrite (shortcut_root f f').
Qed.

Lemma shortcut_wf f f' : wf f → shortcut f f' → wf f'.
Proof.
  intros Hwf Hsc. split.
  - intros i Hi. rewrite (proj1 Hsc) in Hi.
    destruct (wf_root_reach f i Hwf Hi) as (k & Hreach & Hk).
    destruct (shortcut_reach _ _ _ _ _ Hwf Hsc Hreach) as (k' & Hk' & Hreach').
    exists k', (root f i). split; [done|]. rewrite (shortcut_forest_size f f') by done. lia.
  - intros r s d Hr. rewrite (shortcut_class_size f f') by done.
    eapply wf_size; [done|]. by eapply shortcut_root_node_inv.
Qed.

Lemma shortcut_trans f f' f'' : wf f → shortcut f f' → shortcut f' f'' → shortcut f f''.
Proof.
  intros Hwf H1 H2. split; [by rewrite (proj1 H2), (proj1 H1)|].
  intros j. destruct (proj2 H2 j) as [->|(p & d & Hf & Hf')]; [apply (proj2 H1)|].
  right. rewrite (shortcut_root f f') in Hf' by done.
  destruct (proj2 H1 j) as [Heq|(p' & d' & Hg & Hg')].
  - rewrite Heq in Hf. eauto.
  - rewrite Hf in Hg'. simplify_eq. eauto.
Qed.

Lemma compress_shortcut f0 f fuel i r :
  wf f0 → shortcut f0 f → root f0 i = r → shortcut f0 (compress fuel f i r).
Proof.
  intros Hwf. revert f i. induction fuel as [|fuel IH]; intros f i Hsc Hroot; [done|].
  simpl. destruct (f !! i) as [[[s|p] d]|] eqn:Hi; [done| |done].
  assert (i < length f) as Hlt by (by eapply lookup_lt_Some).
  assert (∃ p0, f0 !! i = Some (mkNode (Child p0) d) ∧ root f0 p = r) as (p0 & Hi0 & Hp).
  { destruct (proj2 Hsc i) as [Heq|(p' & d' & Hf & Hf')].
    - rewrite Heq in Hi. exists p. split; [done|]. by rewrite <-(root_child f0 i p d).
    - rewrite Hi in Hf'. simplify_eq. exists p'. split; [done|]. by apply root_idem. }
  apply IH; [|done]. split; [by rewrite length_insert, (proj1 Hsc)|].
  intros j. destruct (decide (j = i)) as [->|Hne].
  - right. exists p0, d. split; [done|]. rewrite list_lookup_insert_eq by done. by rewrite Hroot.
  - rewrite list_lookup_insert_ne by done. apply (proj2 Hsc).
Qed.

Lemma findRoot_shortcut f i : wf f → shortcut f (findRoot f i).2.
Proof. intros Hwf. apply compress_shortcut; [done|apply shortcut_refl|done]. Qed.

Lemma findRoot_fst f i : (findRoot f i).1 = root f i.
Proof. done. Qed.
End forest_theory.

Section link_theory.
Context {A : Type} `{!Merge A}.
Context (f : list (node A)) (w l : nat) (sw sl : Z) (dw dl : A).
Context (Hwf : wf f) (Hne : w ≠ l).
Context (Hw : f !! w = Some (mkNode (Root sw) dw)).
Context (Hl : f !! l = Some (mkNode (Root sl) dl)).

Lemma link_roots_eq :
  link_roots f w l =
  <[l := mkNode (Child w) dl]> (<[w := mkNode (Root (sw + sl)) (merge_data dw dl)]> f).
Proof. unfold link_roots. by rewrite Hw, Hl. Qed.

Lemma link_length : length (link_roots f w l) = length f.
Proof. by rewrite link_roots_eq, !length_insert. Qed.

Lemma link_lookup_l : link_roots f w l !! l = Some (mkNode (Child w) dl).
Proof.
  rewrite link_roots_eq, list_lookup_insert_eq; [done|].
  rewrite length_insert. by eapply lookup_lt_Some.
Qed.

Lemma link_lookup_w :
  link_roots f w l !! w = Some (mkNode (Root (sw + sl)) (merge_data dw dl)).
Proof.
  rewrite link_roots_eq, list_lookup_insert_ne by done.
  rewrite list_lookup_insert_eq; [done|]. by eapply lookup_lt_Some.
Qed.

Lemma link_lookup_ne j : j ≠ w → j ≠ l → link_roots f w l !! j = f !! j.
Proof. intros. by rewrite link_roots_eq, !list_lookup_insert_ne. Qed.

Lemma link_reach_other i k r : reach f i k r → r ≠ l → reach (link_roots f w l) i k r.
Proof.
  intros Hreach Hr. induction Hreach as [r s d Hr'|i p d k r Hi Hp IH].
  - destruct (decide (r = w)) as [->|Hrw].
    + eapply reach_root, link_lookup_w.
    + eapply reach_root. by rewrite link_lookup_ne.
  - eapply reach_step; [|by apply IH].
    rewrite link_lookup_ne; [done|congruence|congruence].
Qed.

Lemma link_reach_l i k : reach f i k l → reach (link_roots f w l) i (S k) w.
Proof.
  assert (∀ r, reach f i k r → r = l → reach (link_roots f w l) i (S k) w) as Hgen;
    [|by eauto].
  intros r Hreach. induction Hreach as [r s d Hr'|i p d k r Hi Hp IH]; intros Er.
  - rewrite Er. eapply reach_step; [apply link_lookup_l|]. eapply reach_root, link_lookup_w.
  - eapply reach_step; [|by apply IH].
    rewrite link_lookup_ne; [done|congruence|congruence].
Qed.

Lemma link_sizes : sw = Z.of_nat (class_size f w) ∧ sl = Z.of_nat (class_size f l).
Proof. split; by eapply wf_size. Qed.

Lemma link_sizes_le : (0 < sw ∧ 0 < sl ∧ sw + sl ≤ Z.of_nat (length f))%Z.
Proof.
  destruct link_sizes as [-> ->].
  pose proof (class_size_pos f w _ _ Hwf Hw). pose proof (class_size_pos f l _ _ Hwf Hl).
  assert (class_size f w + class_size f l ≤ length f); [|lia].
  apply count_disjoint_le. intros x _ [? ?]. congruence.
Qed.

Lemma link_root i :
  root (link_roots f w l) i = if decide (root f i = l) then w else root f i.
Proof.
  destruct (decide (i < length f)) as [Hi|Hi].
  - destruct (wf_root_reach f i Hwf Hi) as (k & Hreach & Hk).
    pose proof link_sizes_le as (? & ? & ?).
    pose proof (wf_forest_size f (root f i) Hwf).
    destruct (decide (root f i = l)) as [Hr|Hr].
    + rewrite Hr in Hreach, Hk. rewrite (forest_size_root f l sl dl Hl) in Hk.
      eapply reach_walk; [by apply link_reach_l|]. rewrite link_length. lia.
    + eapply reach_walk; [by apply link_reach_other|]. rewrite link_length. lia.
  - rewrite (root_out f i) by lia. rewrite root_out by (rewrite link_length; lia).
    case_decide; [|done]. subst. apply lookup_lt_Some in Hl. lia.
Qed.

Lemma link_class_size_w :
  class_size (link_roots f w l) w = class_size f w + class_size f l.
Proof.
  unfold class_size. rewrite link_length, <-count_or.
  - apply count_ext. intros x _. rewrite link_root. destruct (decide (root f x = l)); intuition congruence.
  - intros x _ [? ?]. congruence.
Qed.

Lemma link_class_size_other r :
  r ≠ w → r ≠ l → class_size (link_roots f w l) r = class_size f r.
Proof.
  intros. unfold class_size. rewrite link_length.
  apply count_ext. intros x _. rewrite link_root. destruct (decide (root f x = l)); intuition congruence.
Qed.

Lemma link_wf : wf (link_roots f w l).
Proof.
  pose proof link_sizes_le as (? & ? & ?). split.
  - intros i Hi. rewrite link_length in Hi.
    destruct (wf_root_reach f i Hwf Hi) as (k & Hreach & Hk).
    destruct (decide (root f i = l)) as [Hr|Hr].
    + rewrite Hr in Hreach, Hk. rewrite (forest_size_root f l sl dl Hl) in Hk.
      exists (S k), w. split; [by apply link_reach_l|].
      rewrite (forest_size_root _ _ _ _ link_lookup_w). lia.
    + exists k, (root f i). split; [by apply link_reach_other|].
      destruct (decide (root f i = w)) as [Hrw|Hrw].
      * rewrite Hrw in Hk |- *. rewrite (forest_size_root f w sw dw Hw) in Hk.
        rewrite (forest_size_root _ _ _ _ link_lookup_w). lia.
      * unfold forest_size in *. by rewrite link_lookup_ne.
  - intros r s d Hr. destruct (decide (r = w)) as [->|Hrw].
    + rewrite link_lookup_w in Hr. simplify_eq. rewrite link_class_size_w.
      destruct link_sizes as [-> ->]. lia.
    + destruct (decide (r = l)) as [->|Hrl].
      { rewrite link_lookup_l in Hr. done. }
      rewrite link_lookup_ne in Hr by done. rewrite link_class_size_other by done.
      by eapply wf_size.
Qed.
End link_theory.

Section merge_theory.
Context {A : Type} `{!Merge A}.
Implicit Types f : list (node A).

Lemma merge_cases f a b :
  wf f → a < length f → b < length f →
  (root f a = root f b ∧ (merge f a b).1 = root f a ∧ shortcut f (merge f a b).2) ∨
  (root f a ≠ root f b ∧
   ∃ w l, ((w = root f a ∧ l = root f b) ∨ (w = root f b ∧ l = root f a)) ∧
          (merge f a b).1 = w ∧ linked f (merge f a b).2 w l).
Proof.
  intros Hwf Ha Hb. unfold merge.
  pose proof (findRoot_shortcut f a Hwf) as Hsc1.
  destruct (findRoot f a) as [ra f1] eqn:E1.
  assert (ra = root f a) as -> by (by rewrite <-(findRoot_fst f a), E1).
  simpl in Hsc1. pose proof (shortcut_wf _ _ Hwf Hsc1) as Hwf1.
  pose proof (findRoot_shortcut f1 b Hwf1) as Hsc2.
  destruct (findRoot f1 b) as [rb f2] eqn:E2.
  assert (rb = root f b) as ->.
  { rewrite <-(shortcut_root f f1) by done. by rewrite <-(findRoot_fst f1 b), E2. }
  simpl in Hsc2. pose proof (shortcut_trans _ _ _ Hwf Hsc1 Hsc2) as Hsc.
  case_decide as Heq; [left; done|right]. split; [done|].
  destruct (root_is_root f a Hwf Ha) as (sa & da & Hra).
  destruct (root_is_root f b Hwf Hb) as (sb & db & Hrb).
  pose proof (shortcut_root_node _ _ _ _ _ Hsc Hra) as Hra2.
  pose proof (shortcut_root_node _ _ _ _ _ Hsc Hrb) as Hrb2.
  case_decide.
  - exists (root f b), (root f a). split; [by right|]. split; [done|].
    exists f2, sb, sa, db, da. done.
  - exists (root f a), (root f b). split; [by left|]. split; [done|].
    exists f2, sa, sb, da, db. done.
Qed.

Lemma linked_wf f f' w l : wf f → linked f f' w l → wf f'.
Proof.
  intros Hwf (g & sw & sl & dw & dl & Hsc & Hne & Hw & Hl & ->).
  eapply link_wf; eauto using shortcut_wf.
Qed.

Lemma linked_length f f' w l : linked f f' w l → length f' = length f.
Proof.
  intros (g & sw & sl & dw & dl & Hsc & Hne & Hw & Hl & ->).
  erewrite link_length by done. apply Hsc.
Qed.

Lemma linked_root f f' w l i :
  wf f → linked f f' w l → root f' i = if decide (root f i = l) then w else root f i.
Proof.
  intros Hwf (g & sw & sl & dw & dl & Hsc & Hne & Hw & Hl & ->).
  erewrite link_root; eauto using shortcut_wf. by rewrite (shortcut_root f g).
Qed.

Lemma merge_wf f a b : wf f → a < length f → b < length f → wf (merge f a b).2.
Proof.
  intros Hwf Ha Hb.
  destruct (merge_cases f a b Hwf Ha Hb) as [(_ & _ & Hsc)|(_ & w & l & _ & _ & Hl)].
  - by eapply shortcut_wf.
  - by eapply linked_wf.
Qed.

Lemma merge_length f a b : wf f → a < length f → b < length f → length (merge f a b).2 = length f.
Proof.
  intros Hwf Ha Hb.
  destruct (merge_cases f a b Hwf Ha Hb) as [(_ & _ & Hsc)|(_ & w & l & _ & _ & Hl)].
  - apply Hsc.
  - by eapply linked_length.
Qed.

(** Two nodes are in one tree after a merge iff they were before, or the
    merge joined their trees. *)
Lemma merge_same f a b i j :
  wf f → a < length f → b < length f →
  root (merge f a b).2 i = root (merge f a b).2 j ↔
  root f i = root f j ∨
  (root f i = root f a ∧ root f j = root f b) ∨
  (root f i = root f b ∧ root f j = root f a).
Proof.
  intros Hwf Ha Hb.
  destruct (merge_cases f a b Hwf Ha Hb)
    as [(Heq & _ & Hsc)|(Hne & w & l & Hwl & _ & Hl)].
  - rewrite (shortcut_root f _ i), (shortcut_root f _ j) by done.
    rewrite Heq. intuition congruence.
  - rewrite (linked_root f _ w l i), (linked_root f _ w l j) by done.
    destruct (decide (root f i = l)), (decide (root f j = l)); intuition congruence.
Qed.

(** *** New nodes *)

Lemma reach_app f g i k r : reach f i k r → reach (f ++ g) i k r.
Proof.
  induction 1 as [r s d Hr|i p d k r Hi Hp IH].
  - eapply reach_root. rewrite lookup_app_l; [done|]. by eapply lookup_lt_Some.
  - eapply reach_step; [|done]. rewrite lookup_app_l; [done|]. by eapply lookup_lt_Some.
Qed.

Lemma root_snoc f d i :
  wf f → root (f ++ [makeNode d]) i = root f i.
Proof.
  intros Hwf. destruct (decide (i < length f)) as [Hi|Hi].
  - destruct (wf_root_reach f i Hwf Hi) as (k & Hreach & Hk).
    pose proof (wf_forest_size f (root f i) Hwf).
    eapply reach_walk; [by apply reach_app|]. rewrite length_app. simpl. lia.
  - rewrite (root_out f i) by lia. destruct (decide (i = length f)) as [->|Hne].
    + eapply root_of_root. by apply list_lookup_middle.
    + apply root_out. rewrite length_app. simpl. lia.
Qed.

Lemma wf_snoc f d : wf f → wf (f ++ [makeNode d]).
Proof.
  intros Hwf. split.
  - intros i Hi. rewrite length_app in Hi. simpl in Hi.
    destruct (decide (i < length f)) as [Hlt|Hge].
    + destruct (wf_root_reach f i Hwf Hlt) as (k & Hreach & Hk).
      destruct (reach_end_root _ _ _ _ Hreach) as (s & d' & Hr).
      exists k, (root f i). split; [by apply reach_app|].
      unfold forest_size in *. rewrite lookup_app_l; [done|]. by eapply lookup_lt_Some.
    + assert (i = length f) as -> by lia. exists 0, (length f).
      split; [eapply reach_root; by apply list_lookup_middle|].
      unfold forest_size. by rewrite list_lookup_middle.
  - intros r s d' Hr. unfold class_size. rewrite length_app. simpl.
    rewrite Nat.add_1_r, count_S.
    rewrite (count_ext (λ i, root (f ++ [makeNode d]) i = r) (λ i, root f i = r))
      by (intros; by rewrite root_snoc).
    rewrite (root_snoc f d (length f)) by done.
    rewrite (root_out f (length f)) by done.
    destruct (decide (r < length f)) as [Hlt|Hge].
    + rewrite lookup_app_l in Hr by done. rewrite (wf_size f Hwf _ _ _ Hr).
      unfold class_size. case_decide; lia.
    + assert (r = length f) as ->.
      { apply lookup_lt_Some in Hr. rewrite length_app in Hr. simpl in Hr. lia. }
      rewrite list_lookup_middle in Hr by done. unfold makeNode in Hr. simplify_eq.
      rewrite (count_ext (λ i, root f i = length f) (λ i, False)).
      * unfold count.
        assert (filter (λ _ : nat, False) (seq 0 (length f)) = []) as ->.
        { induction (seq 0 (length f)); [done|]. by rewrite filter_cons. }
        simpl. case_decide; [done|congruence].
      * intros x Hx. split; [|done]. intros Heq. pose proof (root_lt f x Hwf Hx). lia.
Qed.

Lemma wf_nil : wf (@nil (node A)).
Proof.
  split.
  - intros i Hi. simpl in Hi. lia.
  - intros r s d Hr. done.
Qed.

Lemma wf_replicate n (d : A) : wf (replicate n (makeNode d)).
Proof.
  induction n as [|n IH]; [exact wf_nil|].
  rewrite replicate_S_end. by apply wf_snoc.
Qed.

Lemma root_replicate n (d : A) i : root (replicate n (makeNode d)) i = i.
Proof.
  destruct (decide (i < n)) as [Hi|Hi].
  - eapply root_of_root. by apply lookup_replicate.
  - apply root_out. rewrite length_replicate. lia.
Qed.
End merge_theory.

Section relink_theory.
Context {A : Type} `{!Merge A}.
Implicit Types f : list (node A).

Lemma relink_lookup f f' i lk d :
  relink f f' → f !! i = Some (mkNode lk d) → ∃ d', f' !! i = Some (mkNode lk d').
Proof.
  intros [_ Hl] Hi. specialize (Hl i). rewrite Hi in Hl.
  destruct (f' !! i) as [[lk' d']|]; simplify_eq/=. eauto.
Qed.

Lemma relink_sym f f' : relink f f' → relink f' f.
Proof. intros [? ?]. split; [done|]. intros i. done. Qed.

Lemma relink_reach f f' i k r : relink f f' → reach f i k r → reach f' i k r.
Proof.
  intros Hrl. induction 1 as [r s d Hr|i p d k r Hi Hp IH].
  - destruct (relink_lookup _ _ _ _ _ Hrl Hr) as [d' Hr']. by eapply reach_root.
  - destruct (relink_lookup _ _ _ _ _ Hrl Hi) as [d' Hi']. by eapply reach_step.
Qed.

Lemma relink_forest_size f f' r : relink f f' → forest_size f' r = forest_size f r.
Proof.
  intros [_ Hl]. unfold forest_size, size. specialize (Hl r).
  destruct (f !! r) as [[lk d]|], (f' !! r) as [[lk' d']|]; by simplify_eq/=.
Qed.

Lemma relink_root f f' i : wf f → relink f f' → root f' i = root f i.
Proof.
  intros Hwf Hrl. destruct (decide (i < length f)) as [Hi|Hi].
  - destruct (wf_root_reach f i Hwf Hi) as (k & Hreach & Hk).
    pose proof (wf_forest_size f (root f i) Hwf).
    eapply reach_walk; [by eapply relink_reach|]. rewrite (proj1 Hrl). lia.
  - rewrite !root_out; [done|lia|rewrite (proj1 Hrl); lia].
Qed.

Lemma relink_wf f f' : wf f → relink f f' → wf f'.
Proof.
  intros Hwf Hrl. split.
  - intros i Hi. rewrite (proj1 Hrl) in Hi.
    destruct (wf_root_reach f i Hwf Hi) as (k & Hreach & Hk).
    exists k, (root f i). split; [by eapply relink_reach|].
    by rewrite (relink_forest_size f f').
  - intros r s d Hr.
    destruct (relink_lookup _ _ _ _ _ (relink_sym _ _ Hrl) Hr) as [d' Hr'].
    rewrite (wf_size f Hwf _ _ _ Hr'). unfold class_size. rewrite (proj1 Hrl).
    f_equal. apply count_ext. intros x _. by rewrite (relink_root f f').
Qed.

Lemma alter_relink f (g : node A → node A) i :
  (∀ x, node_link (g x) = node_link x) → relink f (alter g i f).
Proof.
  intros Hg. split; [apply length_alter|]. intros j. rewrite list_lookup_alter.
  case_decide; [subst|done]. destruct (f !! j); simpl; [|done]. by rewrite Hg.
Qed.

Lemma relink_trans f f' f'' : relink f f' → relink f' f'' → relink f f''.
Proof.
  intros [? H1] [? H2]. split; [congruence|]. intros i. by rewrite H2, H1.
Qed.

Lemma relink_refl f : relink f f.
Proof. done. Qed.

(** *** Several new nodes *)

Lemma wf_app_new f (ds : list A) : wf f → wf (f ++ (makeNode <$> ds)).
Proof.
  intros Hwf. induction ds as [|d ds IH] using rev_ind.
  - simpl. by rewrite app_nil_r.
  - rewrite fmap_app, app_assoc. simpl. by apply wf_snoc.
Qed.

Lemma root_app_new f (ds : list A) i : wf f → root (f ++ (makeNode <$> ds)) i = root f i.
Proof.
  intros Hwf. induction ds as [|d ds IH] using rev_ind.
  - simpl. by rewrite app_nil_r.
  - rewrite fmap_app, app_assoc. simpl. rewrite root_snoc; [done|]. by apply wf_app_new.
Qed.

(** *** The roots of a forest after a merge *)

Lemma linked_lookup f f' w l :
  wf f → linked f f' w l →
  ∃ sw sl dw dl,
    w ≠ l ∧
    f !! w = Some (mkNode (Root sw) dw) ∧ f !! l = Some (mkNode (Root sl) dl) ∧
    f' !! w = Some (mkNode (Root (sw + sl)) (merge_data dw dl)) ∧
    f' !! l = Some (mkNode (Child w) dl) ∧
    ∀ r s d, r ≠ w → r ≠ l →
      (f' !! r = Some (mkNode (Root s) d) ↔ f !! r = Some (mkNode (Root s) d)).
Proof.
  intros Hwf (g & sw & sl & dw & dl & Hsc & Hne & Hw & Hl & ->).
  exists sw, sl, dw, dl. split; [done|].
  split; [by eapply shortcut_root_node_inv|]. split; [by eapply shortcut_root_node_inv|].
  split; [by eapply link_lookup_w|]. split; [by eapply link_lookup_l|].
  intros r s d Hrw Hrl. erewrite link_lookup_ne by done. split.
  - by eapply shortcut_root_node_inv.
  - by eapply shortcut_root_node.
Qed.

Lemma shortcut_lookup_root f f' r s d :
  shortcut f f' → (f' !! r = Some (mkNode (Root s) d) ↔ f !! r = Some (mkNode (Root s) d)).
Proof. intros Hsc. split; [by eapply shortcut_root_node_inv|by eapply shortcut_root_node]. Qed.
End relink_theory.

(** * Local components *)

Lemma adjacent_sym tris i j : adjacent tris i j → adjacent tris j i.
Proof. intros (t & ? & ? & ?). by exists t. Qed.

Lemma connected_sym tris i j : connected tris i j → connected tris j i.
Proof.
  induction 1 as [|x y z Hxy _ IH]; [done|].
  eapply rtc_r; [done|]. by apply adjacent_sym.
Qed.

Lemma connected_mono tris tris' i j :
  (∀ t, t ∈ tris → t ∈ tris') → connected tris i j → connected tris' i j.
Proof.
  intros Hsub. apply rtc_subrel. intros x y (t & ? & ? & ?). exists t. auto.
Qed.

Lemma connected_nil i j : connected [] i j ↔ i = j.
Proof.
  split; [|by intros ->].
  destruct 1 as [|x y z (t & Ht & _) _]; [done|]. by apply not_elem_of_nil in Ht.
Qed.

Section merge_equiv.
Context {A : Type} `{!Merge A}.
Context (E : relation nat) (Esym : ∀ x y, E x y → E y x) (Etrans : ∀ x y z, E x y → E y z → E x z).

Lemma merge_sound (f : list (node A)) a b :
  wf f → a < length f → b < length f →
  (∀ x y, root f x = root f y → E x y) → E a b →
  ∀ x y, root (merge f a b).2 x = root (merge f a b).2 y → E x y.
Proof.
  intros Hwf Ha Hb Hsound Hab x y Hxy.
  apply merge_same in Hxy as [Hxy|[[Hx Hy]|[Hx Hy]]]; [by apply Hsound|..|done|done|done].
  - eapply Etrans; [by apply Hsound|]. eapply Etrans; [done|]. apply Hsound. done.
  - eapply Etrans; [by apply Hsound|]. eapply Etrans; [by apply Esym|]. apply Hsound. done.
Qed.
End merge_equiv.

Lemma merge_mono {A} `{!Merge A} (f : list (node A)) a b x y :
  wf f → a < length f → b < length f →
  root f x = root f y → root (merge f a b).2 x = root (merge f a b).2 y.
Proof. intros. apply merge_same; auto. Qed.

Lemma merge_joins {A} `{!Merge A} (f : list (node A)) a b :
  wf f → a < length f → b < length f →
  root (merge f a b).2 a = root (merge f a b).2 b.
Proof. intros. apply merge_same; auto. Qed.

Lemma mergeTriangle_spec nodes a b c :
  wf nodes → a < length nodes → b < length nodes → c < length nodes →
  let nodes' := mergeTriangle nodes (Z.of_nat a, Z.of_nat b, Z.of_nat c) in
  wf nodes' ∧ length nodes' = length nodes ∧
  (∀ x y, root nodes x = root nodes y → root nodes' x = root nodes' y) ∧
  root nodes' a = root nodes' b ∧ root nodes' b = root nodes' c ∧
  ∀ E : relation nat, (∀ x y, E x y → E y x) → (∀ x y z, E x y → E y z → E x z) →
    (∀ x y, root nodes x = root nodes y → E x y) → E a b → E b c →
    ∀ x y, root nodes' x = root nodes' y → E x y.
Proof.
  intros Hwf Ha Hb Hc. unfold mergeTriangle. rewrite !Nat2Z.id.
  set (f1 := (merge nodes a b).2).
  assert (wf f1) as Hwf1 by (by apply merge_wf).
  assert (length f1 = length nodes) as Hlen1 by (by apply merge_length).
  simpl. split; [apply merge_wf; [done|lia..]|].
  split; [rewrite merge_length; [done|done|lia..]|].
  split; [|split; [|split]].
  - intros x y Hxy. apply merge_mono; [done|lia..|]. by apply merge_mono.
  - apply merge_mono; [done|lia..|]. by apply merge_joins.
  - apply merge_joins; [done|lia..].
  - intros E Esym Etrans Hsound Hab Hbc.
    apply (merge_sound E Esym Etrans); [done|lia..| |done].
    by apply (merge_sound E Esym Etrans).
Qed.

Lemma elem_of_indices v a b c : v ∈ indices (a, b, c) ↔ v = a ∨ v = b ∨ v = c.
Proof. unfold indices. simpl. rewrite !elem_of_cons, elem_of_nil. tauto. Qed.

Lemma localNodes_spec n tris :
  wf_triangles n tris →
  wf (localNodes n tris) ∧ length (localNodes n tris) = n ∧
  ∀ i j, root (localNodes n tris) i = root (localNodes n tris) j ↔ connected tris i j.
Proof.
  unfold localNodes. induction tris as [|[[a b] c] tris IH] using rev_ind; intros Hwt.
  - simpl. split; [apply wf_replicate|]. split; [apply length_replicate|].
    intros i j. rewrite !root_replicate. by rewrite connected_nil.
  - rewrite foldl_snoc.
    destruct IH as (Hwf & Hlen & Hsame).
    { intros t v Ht. apply Hwt. apply elem_of_app. by left. }
    set (f := foldl mergeTriangle (replicate n (makeNode ())) tris) in *.
    assert (∀ v, v ∈ indices (a, b, c) → (0 ≤ v < Z.of_nat n)%Z) as Hin.
    { intros v. apply Hwt. apply elem_of_app. right. by apply list_elem_of_singleton. }
    pose proof (Hin a ltac:(apply elem_of_indices; auto)).
    pose proof (Hin b ltac:(apply elem_of_indices; auto)).
    pose proof (Hin c ltac:(apply elem_of_indices; auto)).
    destruct (mergeTriangle_spec f (Z.to_nat a) (Z.to_nat b) (Z.to_nat c))
      as (Hwf' & Hlen' & Hmono & Hab & Hbc & Hsound); [done|lia..|].
    rewrite !Z2Nat.id in * by lia.
    set (f' := mergeTriangle f (a, b, c)) in *.
    assert (∀ x, Z.of_nat x ∈ indices (a, b, c) → root f' x = root f' (Z.to_nat a)) as Htri.
    { intros x [Hx|[Hx|Hx]]%elem_of_indices.
      - f_equal. lia.
      - rewrite Hab. f_equal. lia.
      - rewrite Hab, Hbc. f_equal. lia. }
    split; [done|]. split; [lia|]. intros i j. split.
    + apply (Hsound (connected (tris ++ [(a, b, c)]))).
      * apply connected_sym.
      * intros x y z ? ?. by etrans.
      * intros x y Hxy. apply Hsame in Hxy. eapply connected_mono; [|done].
        intros t Ht. apply elem_of_app. by left.
      * apply rtc_once. exists (a, b, c). rewrite !Z2Nat.id by lia.
        split; [apply elem_of_app; right; by apply list_elem_of_singleton|].
        split; apply elem_of_indices; auto.
      * apply rtc_once. exists (a, b, c). rewrite !Z2Nat.id by lia.
        split; [apply elem_of_app; right; by apply list_elem_of_singleton|].
        split; apply elem_of_indices; auto.
    + induction 1 as [|x y z (t & Ht & Hx & Hy) _ IH]; [done|].
      rewrite <-IH. apply elem_of_app in Ht as [Ht|Ht%list_elem_of_singleton].
      * apply Hmono, Hsame. apply rtc_once. by exists t.
      * subst t. by rewrite (Htri x), (Htri y).
Qed.

Lemma foldlM_app {A B} (step : A → B → result A) a l k :
  foldlM step a (l ++ k) = a' ← foldlM step a l; foldlM step a' k.
Proof.
  revert a. induction l as [|x l IH]; intros a; [done|].
  simpl. destruct (step a x); simpl; [apply IH|done..].
Qed.

Lemma bind_Ok {A B} (a : A) (k : A → result B) : (Ok a ≫= k) = k a.
Proof. done. Qed.

Lemma foldlM_snoc {A B} (step : A → B → result A) a l x :
  foldlM step a (l ++ [x]) = a' ← foldlM step a l; step a' x.
Proof.
  rewrite foldlM_app. destruct (foldlM step a l) as [a'| |]; [|done..].
  simpl. by destruct (step a' x).
Qed.

Lemma count_mono (P : nat → Prop) `{!∀ x, Decision (P x)} m n : m ≤ n → count P m ≤ count P n.
Proof.
  induction 1 as [|n _ IH]; [done|]. rewrite count_S. lia.
Qed.

Lemma rootAt_true {A} (f : list (node A)) i :
  rootAt f i = true ↔ ∃ s d, f !! i = Some (mkNode (Root s) d).
Proof.
  unfold rootAt. destruct (f !! i) as [[[s|p] d]|]; simpl; split; try done; eauto.
  all: intros (? & ? & ?); done.
Qed.

Lemma rootAt_root {A} `{!Merge A} (f : list (node A)) i :
  wf f → i < length f → (rootAt f i = true ↔ root f i = i).
Proof.
  intros Hwf Hi. rewrite rootAt_true. split.
  - intros (s & d & Hr). by eapply root_of_root.
  - intros Hr. by apply root_fixed_is_root.
Qed.

Lemma rootsBelow_S {A} (f : list (node A)) n :
  rootsBelow f (S n) = rootsBelow f n + (if rootAt f n then 1 else 0).
Proof. unfold rootsBelow. rewrite count_S. case_decide; by destruct (rootAt f n). Qed.

Lemma rootsBelow_inj {A} (f : list (node A)) r r' :
  rootAt f r = true → rootAt f r' = true → rootsBelow f r = rootsBelow f r' → r = r'.
Proof.
  intros Hr Hr' Heq.
  assert (∀ a b, rootAt f a = true → a < b → rootsBelow f a < rootsBelow f b) as Hlt.
  { intros a b Ha Hab. pose proof (count_mono (λ i, rootAt f i = true) (S a) b Hab).
    unfold rootsBelow in *. rewrite count_S in *. case_decide; [lia|done]. }
  destruct (Nat.lt_trichotomy r r') as [?|[?|?]]; [|done|].
  - specialize (Hlt r r' Hr). lia.
  - specialize (Hlt r' r Hr'). lia.
Qed.

Lemma newClumps_S nodes n :
  newClumps nodes (S n) =
  newClumps nodes n ++ (if rootAt nodes n then [newClump (forest_size nodes n)] else []).
Proof.
  unfold newClumps. rewrite seq_S, filter_app, fmap_app. f_equal. simpl.
  rewrite filter_cons, filter_nil. case_decide as Hd; destruct (rootAt nodes n); done.
Qed.

Lemma length_newClumps nodes n : length (newClumps nodes n) = rootsBelow nodes n.
Proof. unfold newClumps. by rewrite length_fmap. Qed.

Lemma allocClump_step nodes cl1 cid1 n :
  allocClump nodes (cl1, cid1) n =
  if rootAt nodes n then
    if (Z.of_nat (length cl1) >? CLUMP_ID_MAX)%Z
    then Throw (overflow_error "Too many clumps")
    else Ok (cl1 ++ [newClump (forest_size nodes n)], <[n := length cl1]> cid1)
  else Ok (cl1, cid1).
Proof.
  unfold allocClump, rootAt, forest_size. destruct (nodes !! n) as [x|]; [|done].
  simpl. by destruct (isRoot x).
Qed.

Section alloc.
Context (nodes : list (node unit)) (cl : list Clump) (cid0 : list nat).

Lemma allocClump_ok n :
  n ≤ length cid0 → hasRoom nodes cl n →
  ∃ cid1, foldlM (allocClump nodes) (cl, cid0) (seq 0 n) = Ok (cl ++ newClumps nodes n, cid1) ∧
          length cid1 = length cid0 ∧
          ∀ i, cid1 !! i = if decide (i < n ∧ rootAt nodes i = true)
                           then Some (length cl + rootsBelow nodes i) else cid0 !! i.
Proof.
  induction n as [|n IH]; intros Hn Hroom.
  - exists cid0. unfold newClumps. simpl. rewrite app_nil_r. split; [done|]. split; [done|].
    intros i. destruct (decide (i < 0 ∧ rootAt nodes i = true)) as [[? ?]|?]; [lia|done].
  - destruct IH as (cid1 & Hrun & Hlen & Hcid); [lia| |].
    { destruct Hroom as [Hz|Hle]; [left|right]; rewrite rootsBelow_S in *; lia. }
    rewrite seq_S, foldlM_snoc, Hrun, bind_Ok.
    rewrite newClumps_S, allocClump_step. simpl.
    unfold hasRoom in Hroom. rewrite rootsBelow_S in Hroom.
    destruct (rootAt nodes n) eqn:Hroot.
    + rewrite length_app, length_newClumps.
      destruct (Z.gtb_spec (Z.of_nat (length cl + rootsBelow nodes n)) CLUMP_ID_MAX) as [Hgt|Hle];
        [lia|].
      eexists. split; [by rewrite <-app_assoc|]. split; [by rewrite length_insert|].
      intros i. destruct (decide (i = n)) as [->|Hne].
      * rewrite list_lookup_insert_eq by lia.
        destruct (decide (n < S n ∧ rootAt nodes n = true)) as [?|Hno]; [done|].
        exfalso. apply Hno. split; [lia|done].
      * rewrite list_lookup_insert_ne by done. rewrite Hcid.
        destruct (decide (i < n ∧ rootAt nodes i = true)) as [[? ?]|Hno],
                 (decide (i < S n ∧ rootAt nodes i = true)) as [[? ?]|Hno']; try done.
        -- exfalso. apply Hno'. split; [lia|done].
        -- exfalso. apply Hno. split; [lia|done].
    + exists cid1. rewrite app_nil_r. split; [done|]. split; [done|].
      intros i. rewrite Hcid.
      destruct (decide (i < n ∧ rootAt nodes i = true)) as [[? ?]|Hno],
               (decide (i < S n ∧ rootAt nodes i = true)) as [[? ?]|Hno']; try done.
      * exfalso. apply Hno'. split; [lia|done].
      * exfalso. apply Hno. split; [|done].
        destruct (decide (i = n)) as [->|?]; [congruence|lia].
Qed.

Lemma allocClump_throw n :
  n ≤ length cid0 → ¬ hasRoom nodes cl n →
  foldlM (allocClump nodes) (cl, cid0) (seq 0 n) = Throw (overflow_error "Too many clumps").
Proof.
  induction n as [|n IH]; intros Hn Hroom.
  - exfalso. apply Hroom. by left.
  - rewrite seq_S, foldlM_snoc.
    destruct (decide (hasRoom nodes cl n)) as [Hprev|Hprev].
    + destruct (allocClump_ok n ltac:(lia) Hprev) as (cid1 & -> & _ & _).
      rewrite bind_Ok, allocClump_step. simpl.
      unfold hasRoom in *. rewrite rootsBelow_S in Hroom.
      destruct (rootAt nodes n) eqn:Hroot.
      * rewrite length_app, length_newClumps.
        destruct (Z.gtb_spec (Z.of_nat (length cl + rootsBelow nodes n)) CLUMP_ID_MAX) as [Hgt|Hle];
          [done|]. exfalso. apply Hroom. right. lia.
      * exfalso. apply Hroom. by rewrite Nat.add_0_r.
    + rewrite IH; [done|lia|done].
Qed.
End alloc.

Lemma labelVertex_step (f : list (node unit)) cid m :
  labelVertex (f, cid) m = ((findRoot f m).2, <[m := default 0 (cid !! root f m)]> cid).
Proof. done. Qed.

Lemma labelVertex_spec (nodes : list (node unit)) cid1 m :
  wf nodes → length cid1 = length nodes → m ≤ length nodes →
  shortcut nodes (foldl labelVertex (nodes, cid1) (seq 0 m)).1 ∧
  length (foldl labelVertex (nodes, cid1) (seq 0 m)).2 = length cid1 ∧
  ∀ i, (foldl labelVertex (nodes, cid1) (seq 0 m)).2 !! i =
       if decide (i < m) then cid1 !! root nodes i else cid1 !! i.
Proof.
  intros Hwf Hlen. induction m as [|m IH]; intros Hm.
  - simpl. split; [apply shortcut_refl|]. split; [done|]. intros i.
    destruct (decide (i < 0)); [lia|done].
  - destruct IH as (Hsc & Hlen' & Hcid); [lia|].
    rewrite seq_S, foldl_snoc.
    destruct (foldl labelVertex (nodes, cid1) (seq 0 m)) as [f cid] eqn:Hfold.
    rewrite labelVertex_step. cbn [fst snd] in *. rewrite Nat.add_0_l.
    pose proof (shortcut_wf _ _ Hwf Hsc) as Hwf'.
    pose proof (findRoot_shortcut f m Hwf') as Hsc'.
    rewrite (shortcut_root nodes f) by done.
    split; [exact (shortcut_trans _ _ _ Hwf Hsc Hsc')|]. split; [by rewrite length_insert|].
    pose proof (root_lt nodes m Hwf ltac:(lia)) as Hr.
    destruct (lookup_lt_is_Some_2 cid1 (root nodes m) ltac:(lia)) as [v Hv].
    assert (cid !! root nodes m = Some v) as Hcr.
    { rewrite Hcid. destruct (decide (root nodes m < m)); [by rewrite root_idem|done]. }
    rewrite Hcr. simpl. intros i. destruct (decide (i = m)) as [->|Hne].
    + rewrite list_lookup_insert_eq by lia. destruct (decide (m < S m)); [done|lia].
    + rewrite list_lookup_insert_ne by done. rewrite Hcid.
      destruct (decide (i < m)), (decide (i < S m)); try done; lia.
Qed.

Lemma rootsBelow_le {A} (f : list (node A)) n : rootsBelow f n ≤ n.
Proof. apply count_le. Qed.

Lemma computeLocalComponents_ok n tris cl :
  wf_triangles n tris → hasRoom (localNodes n tris) cl n →
  ∃ cid, computeLocalComponents n tris cl =
           Ok (foldl (countTriangle cid) (cl ++ newClumps (localNodes n tris) n) tris, cid) ∧
         length cid = n ∧
         ∀ i, i < n →
           cid !! i = Some (length cl + rootsBelow (localNodes n tris) (root (localNodes n tris) i)).
Proof.
  intros Hwt Hroom. destruct (localNodes_spec n tris Hwt) as (Hwf & Hlen & _).
  unfold computeLocalComponents.
  destruct (allocClump_ok (localNodes n tris) cl (replicate n 0) n) as (cid1 & -> & Hlen1 & Hcid1);
    [by rewrite length_replicate|done|].
  rewrite length_replicate in Hlen1. rewrite bind_Ok.
  destruct (labelVertex_spec (localNodes n tris) cid1 n) as (_ & Hlen2 & Hcid2); [done|lia..|].
  eexists. split; [done|]. split; [lia|]. intros i Hi.
  rewrite Hcid2. destruct (decide (i < n)); [|lia]. rewrite Hcid1.
  pose proof (root_lt (localNodes n tris) i Hwf ltac:(lia)).
  destruct (decide (root (localNodes n tris) i < n ∧
                    rootAt (localNodes n tris) (root (localNodes n tris) i) = true)) as [?|Hd];
    [done|]. exfalso. apply Hd. split; [lia|].
  apply rootAt_root; [done|lia|]. by apply root_idem.
Qed.

Lemma computeLocalComponents_throw n tris cl :
  ¬ hasRoom (localNodes n tris) cl n →
  computeLocalComponents n tris cl = Throw (overflow_error "Too many clumps").
Proof.
  intros Hroom. unfold computeLocalComponents.
  rewrite allocClump_throw; [done| |done]. by rewrite length_replicate.
Qed.

Lemma hasRoom_le nodes cl n :
  (Z.of_nat (length cl + n) ≤ CLUMP_ID_MAX + 1)%Z → hasRoom nodes cl n.
Proof. intros Hle. right. pose proof (rootsBelow_le nodes n). lia. Qed.

(** C1: for a fragment whose triangles index its vertices,
    [computeLocalComponents] (two unions for every triangle) returns when the
    clump table has room for a clump per vertex, and whenever it returns two
    vertices of the fragment carry the same clump id if and only if they are
    connected in the graph in which two vertices are adjacent when they share
    a triangle. *)
Theorem local_components_match_reference n tris cl :
  wf_triangles n tris →
  ((Z.of_nat (length cl + n) ≤ CLUMP_ID_MAX + 1)%Z →
   ∃ cl' cid, computeLocalComponents n tris cl = Ok (cl', cid)) ∧
  ∀ cl' cid, computeLocalComponents n tris cl = Ok (cl', cid) →
    length cid = n ∧
    ∀ i j, i < n → j < n → (cid !! i = cid !! j ↔ connected tris i j).
Proof.
  intros Hwt. split.
  - intros Hroom. apply (hasRoom_le (localNodes n tris)) in Hroom.
    destruct (computeLocalComponents_ok n tris cl Hwt Hroom) as (cid & -> & _). eauto.
  - intros cl' cid Hrun.
    destruct (decide (hasRoom (localNodes n tris) cl n)) as [Hroom|Hroom];
      [|by rewrite computeLocalComponents_throw in Hrun].
    destruct (computeLocalComponents_ok n tris cl Hwt Hroom) as (cid' & Hrun' & Hlen & Hcid).
    destruct (localNodes_spec n tris Hwt) as (Hwf & Hlenf & Hsame).
    rewrite Hrun' in Hrun. injection Hrun as _ <-. split; [done|]. intros i j Hi Hj.
    rewrite !Hcid by done. rewrite <-Hsame. split.
    + intros Heq. injection Heq as Heq.
      apply (rootsBelow_inj (localNodes n tris)); [| |lia].
      * apply rootAt_root; [done|apply root_lt; [done|lia]|by apply root_idem].
      * apply rootAt_root; [done|apply root_lt; [done|lia]|by apply root_idem].
    + by intros ->.
Qed.

(** * The welding invariant *)

Lemma wrap64_idem x : wrap64 (wrap64 x) = wrap64 x.
Proof. unfold wrap64. by rewrite Z.mod_mod. Qed.

Lemma wrap64_add x y : wrap64 (wrap64 x + wrap64 y) = wrap64 (x + y).
Proof. unfold wrap64. by rewrite <-Zplus_mod. Qed.

Lemma wrap64_sub_l x y : wrap64 (wrap64 x - y) = wrap64 (x - y).
Proof. unfold wrap64. by rewrite Zminus_mod_idemp_l. Qed.

Lemma wrap64_small x : (0 ≤ x < 2 ^ 64)%Z → wrap64 x = x.
Proof. intros. unfold wrap64. by apply Z.mod_small. Qed.

Lemma unify_eq (cl : list Clump) c c2 :
  unify cl c c2 =
  alter (λ x, setVertices (clumpVertices x - 1) x) (root (merge cl c c2).2 c)
        (findRoot (merge cl c c2).2 c).2.
Proof. done. Qed.

(** The clump table after the [else] branch of [updateKeyMap]. *)
Lemma unify_spec (cl : list Clump) c c2 :
  wf cl → c < length cl → c2 < length cl →
  wf (unify cl c c2) ∧ length (unify cl c c2) = length cl ∧
  ((root cl c = root cl c2 ∧
    (∀ i, root (unify cl c c2) i = root cl i) ∧
    (∀ r s d, unify cl c c2 !! r = Some (mkNode (Root s) d) →
       ∃ d0, cl !! r = Some (mkNode (Root s) d0) ∧ triangles d = triangles d0 ∧
             vertices d = if decide (r = root cl c) then wrap64 (vertices d0 - 1)
                          else vertices d0)) ∨
   (root cl c ≠ root cl c2 ∧
    ∃ w l sw sl dw dl,
      ((w = root cl c ∧ l = root cl c2) ∨ (w = root cl c2 ∧ l = root cl c)) ∧
      (∀ i, root (unify cl c c2) i = if decide (root cl i = l) then w else root cl i) ∧
      cl !! w = Some (mkNode (Root sw) dw) ∧ cl !! l = Some (mkNode (Root sl) dl) ∧
      unify cl c c2 !! w =
        Some (mkNode (Root (sw + sl))
                (mkClumpData (wrap64 (wrap64 (vertices dw + vertices dl) - 1))
                             (wrap64 (triangles dw + triangles dl)))) ∧
      (∀ r s d, r ≠ w → unify cl c c2 !! r = Some (mkNode (Root s) d) →
         r ≠ l ∧ cl !! r = Some (mkNode (Root s) d)))).
Proof.
  intros Hwf Hc Hc2. rewrite unify_eq.
  pose proof (merge_cases cl c c2 Hwf Hc Hc2) as Hcases.
  set (cl1 := (merge cl c c2).2) in *.
  assert (wf cl1) as Hwf1 by (by apply merge_wf).
  assert (length cl1 = length cl) as Hlen1 by (by apply merge_length).
  pose proof (findRoot_shortcut cl1 c Hwf1) as Hsc.
  set (cl2 := (findRoot cl1 c).2) in *.
  pose proof (shortcut_wf _ _ Hwf1 Hsc) as Hwf2.
  set (g := λ x : Clump, setVertices (clumpVertices x - 1) x).
  assert (relink cl2 (alter g (root cl1 c) cl2)) as Hrl by (by apply alter_relink).
  assert (∀ i, root (alter g (root cl1 c) cl2) i = root cl1 i) as Hroot.
  { intros i. rewrite (relink_root cl2) by done. by apply shortcut_root. }
  assert (∀ r s d, alter g (root cl1 c) cl2 !! r = Some (mkNode (Root s) d) →
            ∃ d1, cl1 !! r = Some (mkNode (Root s) d1) ∧ triangles d = triangles d1 ∧
                  vertices d = if decide (r = root cl1 c) then wrap64 (vertices d1 - 1)
                               else vertices d1) as Hlook.
  { intros r s d. rewrite list_lookup_alter. destruct (decide (root cl1 c = r)) as [<-|Hne].
    - destruct (cl2 !! root cl1 c) as [[lk d1]|] eqn:Hr; [|done]. simpl.
      intros [= -> <-]. exists d1. split; [by eapply shortcut_root_node_inv|].
      split; [done|]. by rewrite decide_True.
    - intros Hr. exists d. split; [by eapply shortcut_root_node_inv|].
      split; [done|]. by rewrite decide_False. }
  split; [by eapply relink_wf|].
  split; [etrans; [apply length_alter|]; etrans; [apply Hsc|done]|].
  destruct Hcases as [(Heq & _ & Hsc0)|(Hne & w & l & Hwl & _ & Hlinked)].
  - left. split; [done|].
    assert (∀ i, root cl1 i = root cl i) as Hroot1 by (intros; by apply shortcut_root).
    split; [intros i; by rewrite Hroot, Hroot1|].
    intros r s d Hr. destruct (Hlook r s d Hr) as (d1 & Hr1 & Ht & Hv).
    exists d1. split; [by eapply shortcut_root_node_inv|]. split; [done|].
    by rewrite <-Hroot1.
  - right. split; [done|].
    destruct (linked_lookup _ _ _ _ Hwf Hlinked)
      as (sw & sl & dw & dl & Hwl' & Hw & Hl & Hw1 & Hl1 & Hother).
    exists w, l, sw, sl, dw, dl. split; [done|].
    assert (∀ i, root cl1 i = if decide (root cl i = l) then w else root cl i) as Hroot1.
    { intros. by eapply linked_root. }
    split; [intros i; by rewrite Hroot, Hroot1|].
    split; [done|]. split; [done|].
    assert (root cl1 c = w) as Hrc.
    { rewrite Hroot1. destruct (decide (root cl c = l)); [done|]. intuition congruence. }
    rewrite Hrc in *. split.
    + rewrite list_lookup_alter, decide_True by done.
      rewrite (shortcut_root_node _ _ _ _ _ Hsc Hw1). done.
    + intros r s d Hrw Hr. destruct (Hlook r s d Hr) as (d1 & Hr1 & Ht & Hv).
      rewrite decide_False in Hv by done.
      assert (d = d1) as <-.
      { rewrite list_lookup_alter_ne in Hr by done.
        apply (shortcut_root_node_inv _ _ _ _ _ Hsc) in Hr. congruence. }
      destruct (decide (r = l)) as [->|Hrl']; [congruence|].
      split; [done|]. by apply Hother.
Qed.

Section countIn.
Context {X : Type} (sel : X → option nat).

Lemma countIn_app ρ r xs ys : countIn sel ρ r (xs ++ ys) = countIn sel ρ r xs + countIn sel ρ r ys.
Proof. unfold countIn. by rewrite filter_app, length_app. Qed.

Lemma countIn_nil ρ r : countIn sel ρ r [] = 0.
Proof. done. Qed.

Lemma countIn_cons ρ r x xs :
  countIn sel ρ r (x :: xs) =
  (if decide (ρ <$> sel x = Some r) then 1 else 0) + countIn sel ρ r xs.
Proof. unfold countIn. rewrite filter_cons. by case_decide. Qed.

Lemma countIn_ext ρ ρ' r xs :
  (∀ x c, x ∈ xs → sel x = Some c → ρ' c = ρ c) → countIn sel ρ' r xs = countIn sel ρ r xs.
Proof.
  intros Hext. apply filter_length_ext. intros x Hx.
  destruct (sel x) as [c|] eqn:Hc; [|done]. simpl. by rewrite (Hext x c).
Qed.

Lemma countIn_link_w ρ ρ' w l xs :
  w ≠ l → (∀ c, ρ' c = if decide (ρ c = l) then w else ρ c) →
  countIn sel ρ' w xs = countIn sel ρ w xs + countIn sel ρ l xs.
Proof.
  intros Hne Hρ. unfold countIn. rewrite <-filter_length_or.
  - apply filter_length_ext. intros x _. destruct (sel x) as [c|]; simpl; [|intuition congruence].
    rewrite Hρ. destruct (decide (ρ c = l)); intuition congruence.
  - intros x _ [H1 H2]. destruct (sel x); simplify_eq/=.
Qed.

Lemma countIn_link_other ρ ρ' w l r xs :
  r ≠ w → r ≠ l → (∀ c, ρ' c = if decide (ρ c = l) then w else ρ c) →
  countIn sel ρ' r xs = countIn sel ρ r xs.
Proof.
  intros Hrw Hrl Hρ. apply filter_length_ext. intros x _.
  destruct (sel x) as [c|]; simpl; [|done].
  rewrite Hρ. destruct (decide (ρ c = l)); intuition congruence.
Qed.
End countIn.

Lemma firstKeys_app os os' : firstKeys (os ++ os') = firstKeys os ++ firstKeys os'.
Proof. apply omap_app. Qed.

Lemma elem_of_firstKeys k os :
  k ∈ firstKeys os ↔ ∃ o, o ∈ os ∧ o_first o = true ∧ o_key o = Some k.
Proof.
  unfold firstKeys. rewrite list_elem_of_omap. unfold firstKey. split.
  - intros (o & Ho & Hk). exists o. destruct (o_first o); naive_solver.
  - intros (o & Ho & Hf & Hk). exists o. by rewrite Hf.
Qed.

Lemma elem_of_snoc {X} (l : list X) x y : y ∈ l ++ [x] ↔ y ∈ l ∨ y = x.
Proof. rewrite elem_of_app, list_elem_of_singleton. done. Qed.

Lemma countIn_unique_snoc ρ r P o :
  countIn uniqueClump ρ r (P ++ [o]) =
  countIn uniqueClump ρ r P +
  (if decide (o_first o = true ∧ ρ (o_clump o) = r) then 1 else 0).
Proof.
  rewrite countIn_app, countIn_cons, countIn_nil. unfold uniqueClump.
  destruct (o_first o); simpl; repeat destruct (decide _) as [?Hd|?Hd]; try lia; exfalso;
    first [congruence | tauto | intuition congruence].
Qed.

Lemma countIn_pending_cons ρ r k c Q :
  countIn pendingClump ρ r ((k, c) :: Q) =
  (if decide (ρ c = r) then 1 else 0) + countIn pendingClump ρ r Q.
Proof.
  rewrite countIn_cons. unfold pendingClump. simpl.
  repeat case_decide; try lia; exfalso; naive_solver.
Qed.

(** A key that is new to the key map. *)
Lemma weldInv_absent cl km P Q key c v :
  weldInv cl km P ((key, c) :: Q) → km !! key = None →
  weldInv cl (<[key := mkExternal v c]> km) (P ++ [mkOcc c (Some key) true]) Q.
Proof.
  intros [Hwf HP HQ Hdom Hweld Hnodup Hfirst Hcount] Hnone.
  assert (∀ o, o ∈ P → o_key o ≠ Some key) as Hfresh.
  { intros o Ho Hk. assert (is_Some (km !! key)) as [? ?]; [|congruence].
    apply Hdom. eauto. }
  assert (c < length cl) as Hc.
  { apply (HQ (key, c)). by left. }
  split.
  - done.
  - intros o [Ho| ->]%elem_of_snoc; [by apply HP|done].
  - intros e He. apply HQ. by right.
  - intros k. rewrite lookup_insert_is_Some. split.
    + intros [<-|[Hne [o [Ho Hk]]%Hdom]].
      * eexists. split; [apply elem_of_snoc; by right|done].
      * exists o. split; [apply elem_of_snoc; by left|done].
    + intros (o & [Ho| ->]%elem_of_snoc & Hk).
      * destruct (decide (key = k)) as [->|Hne]; [by left|].
        right. split; [done|]. apply Hdom. eauto.
      * left. simpl in Hk. congruence.
  - intros k ed. rewrite lookup_insert. case_decide as Hk.
    + subst k. intros [= <-]. simpl. split; [done|].
      intros o [Ho| ->]%elem_of_snoc Hkey; [|done]. by destruct (Hfresh o).
    + intros Hed. destruct (Hweld k ed Hed) as [Hlt Hroots]. split; [done|].
      intros o [Ho| ->]%elem_of_snoc Hkey; [by apply Hroots|]. simpl in Hkey. congruence.
  - rewrite firstKeys_app. apply NoDup_app. split; [done|]. split; [|by apply NoDup_singleton].
    intros k Hk. simpl. rewrite list_elem_of_singleton. intros ->.
    apply elem_of_firstKeys in Hk as (o & Ho & _ & Hkey). by destruct (Hfresh o).
  - intros o k [Ho| ->]%elem_of_snoc Hkey; rewrite firstKeys_app, elem_of_app.
    + left. by eapply Hfirst.
    + right. simpl in *. simplify_eq. by left.
  - intros r s d Hr. rewrite (Hcount r s d Hr). f_equal.
    rewrite countIn_unique_snoc, countIn_pending_cons. simpl.
    repeat case_decide; try lia; exfalso; naive_solver.
Qed.

(** A key that the key map already holds. *)
Lemma weldInv_present cl km P Q key c ed :
  weldInv cl km P ((key, c) :: Q) → km !! key = Some ed →
  weldInv (unify cl c (clumpId ed)) km (P ++ [mkOcc c (Some key) false]) Q.
Proof.
  intros [Hwf HP HQ Hdom Hweld Hnodup Hfirst Hcount] Hsome.
  assert (c < length cl) as Hc.
  { apply (HQ (key, c)). by left. }
  destruct (Hweld key ed Hsome) as [Hc2 Hroots].
  destruct (unify_spec cl c (clumpId ed) Hwf Hc Hc2) as (Hwf' & Hlen' & Hcases).
  set (cl' := unify cl c (clumpId ed)) in *.
  assert (∀ a b, root cl a = root cl b → root cl' a = root cl' b) as Hmono.
  { intros a b Hab.
    destruct Hcases as [(_ & Hroot & _)|(_ & w & l & sw & sl & dw & dl & _ & Hroot & _)].
    - by rewrite !Hroot.
    - by rewrite !Hroot, Hab. }
  assert (root cl' c = root cl' (clumpId ed)) as Hjoin.
  { destruct Hcases as [(Heq & Hroot & _)|(Hne & w & l & sw & sl & dw & dl & Hwl & Hroot & _)].
    - by rewrite !Hroot.
    - rewrite !Hroot.
      destruct (decide (root cl c = l)), (decide (root cl (clumpId ed) = l));
        intuition congruence. }
  split.
  - done.
  - intros o [Ho| ->]%elem_of_snoc; rewrite Hlen'; [by apply HP|done].
  - intros e He. rewrite Hlen'. apply HQ. by right.
  - intros k. rewrite Hdom. split.
    + intros (o & Ho & Hk). exists o. split; [apply elem_of_snoc; by left|done].
    + intros (o & [Ho| ->]%elem_of_snoc & Hk); [by eauto|].
      simpl in Hk. simplify_eq. apply Hdom. by eexists.
  - intros k ed' Hed'. destruct (Hweld k ed' Hed') as [Hlt Hr']. split; [by rewrite Hlen'|].
    intros o [Ho| ->]%elem_of_snoc Hkey; [by apply Hmono, Hr'|].
    simpl in *. by simplify_eq.
  - rewrite firstKeys_app. simpl. by rewrite app_nil_r.
  - intros o k [Ho| ->]%elem_of_snoc Hkey; rewrite firstKeys_app, elem_of_app; left.
    + by eapply Hfirst.
    + simpl in Hkey. simplify_eq.
      assert (is_Some (km !! k)) as (o & Ho & Hk)%Hdom by (by eexists).
      by eapply Hfirst.
  - intros r s d Hr. rewrite countIn_unique_snoc.
    rewrite decide_False by (by intros [? _]). rewrite Nat.add_0_r.
    destruct Hcases as [(Heq & Hroot & Hlook)|(Hne & w & l & sw & sl & dw & dl & Hwl & Hroot & Hw & Hl & Hw' & Hother)].
    + destruct (Hlook r s d Hr) as (d0 & Hr0 & _ & Hv). rewrite Hv.
      rewrite (Hcount r s d0 Hr0), countIn_pending_cons.
      rewrite (countIn_ext uniqueClump (root cl) (root cl')) by (intros; apply Hroot).
      rewrite (countIn_ext pendingClump (root cl) (root cl')) by (intros; apply Hroot).
      destruct (decide (r = root cl c)) as [->|Hne].
      * rewrite decide_True by done. rewrite wrap64_sub_l. f_equal. lia.
      * rewrite decide_False by done. f_equal.
    + destruct (decide (r = w)) as [->|Hrw].
      * rewrite Hw' in Hr. injection Hr as _ <-. simpl.
        rewrite (Hcount w sw dw Hw), (Hcount l sl dl Hl), !countIn_pending_cons.
        rewrite wrap64_add, wrap64_sub_l.
        assert (w ≠ l) as Hwl' by (intros ->; intuition congruence).
        rewrite (countIn_link_w uniqueClump (root cl) (root cl') w l) by done.
        rewrite (countIn_link_w pendingClump (root cl) (root cl') w l) by done.
        f_equal. destruct (decide (root cl c = w)), (decide (root cl c = l)); try lia;
          exfalso; intuition congruence.
      * destruct (Hother r s d Hrw Hr) as [Hrl Hr0].
        rewrite (Hcount r s d Hr0), countIn_pending_cons.
        rewrite (countIn_link_other uniqueClump (root cl) (root cl') w l r) by done.
        rewrite (countIn_link_other pendingClump (root cl) (root cl') w l r) by done.
        rewrite decide_False; [done|]. intuition congruence.
Qed.

(** *** The clump table after [computeLocalComponents] *)

Lemma sameVertices_refl cl : sameVertices cl cl.
Proof. split; [apply relink_refl|done]. Qed.

Lemma sameVertices_trans cl cl' cl'' :
  sameVertices cl cl' → sameVertices cl' cl'' → sameVertices cl cl''.
Proof.
  intros [H1 H2] [H3 H4]. split; [by eapply relink_trans|]. intros i. by rewrite H4, H2.
Qed.

Lemma sameVertices_lookup cl cl' r s d :
  sameVertices cl cl' → cl' !! r = Some (mkNode (Root s) d) →
  ∃ d0, cl !! r = Some (mkNode (Root s) d0) ∧ vertices d = vertices d0.
Proof.
  intros [Hrl Hv] Hr.
  destruct (relink_lookup _ _ _ _ _ (relink_sym _ _ Hrl) Hr) as [d0 Hr0].
  exists d0. split; [done|]. specialize (Hv r). rewrite Hr, Hr0 in Hv. by simplify_eq/=.
Qed.

Lemma countTriangle_sameVertices cid cl tri : sameVertices cl (countTriangle cid cl tri).
Proof.
  unfold countTriangle. split; [by apply alter_relink|].
  intros i. rewrite list_lookup_alter.
  destruct (decide (default 0 (cid !! Z.to_nat tri.1.1) = i)) as [Heq|?]; [|done].
  rewrite Heq. by destruct (cl !! i).
Qed.

Lemma countTriangles_sameVertices cid cl tris :
  sameVertices cl (foldl (countTriangle cid) cl tris).
Proof.
  revert cl. induction tris as [|tri tris IH]; intros cl; [apply sameVertices_refl|].
  simpl. eapply sameVertices_trans; [apply countTriangle_sameVertices|apply IH].
Qed.

Lemma filter_seq_lookup (P : nat → Prop) `{!∀ x, Decision (P x)} n j r :
  filter P (seq 0 n) !! j = Some r ↔ P r ∧ r < n ∧ j = count P r.
Proof.
  revert j r. induction n as [|n IH]; intros j r.
  - simpl. rewrite filter_nil, lookup_nil. split; [done|lia].
  - rewrite seq_S, filter_app. simpl. rewrite filter_cons, filter_nil.
    assert (length (filter P (seq 0 n)) = count P n) as Hlen by done.
    destruct (decide (j < count P n)) as [Hj|Hj].
    + rewrite lookup_app_l by lia. rewrite IH. split.
      * intros (? & ? & ?). split; [done|]. split; [lia|done].
      * intros (HP & Hr & ->). split; [done|]. split; [|done].
        destruct (decide (r = n)) as [->|?]; [lia|lia].
    + rewrite lookup_app_r by lia. rewrite Hlen. split.
      * case_decide as HPn; [|by rewrite lookup_nil].
        intros [Hj0 <-]%list_lookup_singleton_Some. split; [done|]. split; [lia|lia].
      * intros (HP & Hr & ->). destruct (decide (r = n)) as [->|Hne].
        -- rewrite decide_True by done. by rewrite Nat.sub_diag.
        -- exfalso. pose proof (count_mono P (S r) n ltac:(lia)) as Hm.
           rewrite count_S, decide_True in Hm by done. lia.
Qed.

Lemma newClumps_lookup nodes n j x :
  newClumps nodes n !! j = Some x ↔
  ∃ r, rootAt nodes r = true ∧ r < n ∧ j = rootsBelow nodes r ∧
       x = newClump (forest_size nodes r).
Proof.
  unfold newClumps. rewrite list_lookup_fmap, fmap_Some. split.
  - intros (r & (? & ? & ?)%filter_seq_lookup & ->). eauto.
  - intros (r & ? & ? & ? & ->). exists r. split; [|done]. by apply filter_seq_lookup.
Qed.

Lemma newClumps_makeNode nodes n :
  newClumps nodes n =
  makeNode <$> ((λ r, mkClumpData (wrap64 (forest_size nodes r)) 0) <$>
                filter (λ i, rootAt nodes i = true) (seq 0 n)).
Proof. unfold newClumps. by rewrite <-list_fmap_compose. Qed.

Lemma rootsBelow_lt {A} (f : list (node A)) r n :
  rootAt f r = true → r < n → rootsBelow f r < rootsBelow f n.
Proof.
  intros Hr Hn. pose proof (count_mono (λ i, rootAt f i = true) (S r) n Hn) as Hm.
  unfold rootsBelow. rewrite count_S, decide_True in Hm by done. lia.
Qed.

Lemma filter_fmap_length {X Y} (g : X → Y) (P : Y → Prop) `{!∀ y, Decision (P y)} (l : list X) :
  length (filter P (g <$> l)) = length (filter (λ x, P (g x)) l).
Proof.
  induction l as [|x l IH]; [done|]. rewrite fmap_cons, !filter_cons.
  case_decide; simpl; by rewrite IH.
Qed.

Lemma countIn_zero {X} (sel : X → option nat) ρ r xs :
  (∀ x c, x ∈ xs → sel x = Some c → ρ c ≠ r) → countIn sel ρ r xs = 0.
Proof.
  intros Hno. induction xs as [|x xs IH]; [done|].
  rewrite countIn_cons, IH by (intros; eapply Hno; [by right|done]).
  rewrite decide_False; [done|]. destruct (sel x) as [c|] eqn:Hc; [|done].
  simpl. intros [= Heq]. by eapply (Hno x c); [left| |].
Qed.

Lemma filter_length_zero {X} (P : X → Prop) `{!∀ x, Decision (P x)} (l : list X) :
  (∀ x, x ∈ l → ¬ P x) → length (filter P l) = 0.
Proof.
  intros Hno. induction l as [|x l IH]; [done|].
  rewrite filter_cons, decide_False by (apply Hno; by left).
  apply IH. intros y Hy. apply Hno. by right.
Qed.

Lemma countIn_internal ρ r cs :
  countIn uniqueClump ρ r (internalOcc <$> cs) = length (filter (λ c, ρ c = r) cs).
Proof.
  unfold countIn. rewrite filter_fmap_length. apply filter_length_ext.
  intros c _. simpl. split; [by intros [= ?]|by intros ->].
Qed.

Lemma countIn_pending_zip ρ r (ks : list Z) cs :
  length ks = length cs →
  countIn pendingClump ρ r (zip ks cs) = length (filter (λ c, ρ c = r) cs).
Proof.
  revert cs. induction ks as [|k ks IH]; intros [|c cs] Hlen; simplify_eq/=; [done|].
  rewrite countIn_pending_cons, filter_cons, IH by done. by case_decide.
Qed.

Lemma firstKeys_internal cs : firstKeys (internalOcc <$> cs) = [].
Proof. induction cs as [|c cs IH]; [done|]. done. Qed.

Lemma filter_take_drop {X} (P : X → Prop) `{!∀ x, Decision (P x)} n (l : list X) :
  length (filter P (take n l)) + length (filter P (drop n l)) = length (filter P l).
Proof. by rewrite <-length_app, <-filter_app, take_drop. Qed.

Section compute.
Context (cl : list Clump) (n : nat) (tris : list triangle_type) (cid : list nat).
Context (Hwt : wf_triangles n tris) (Hwf : wf cl).
Context (Hlen : length cid = n).
Context (Hcid : ∀ i, i < n →
  cid !! i = Some (length cl + rootsBelow (localNodes n tris) (root (localNodes n tris) i))).
Let nodes := localNodes n tris.
Let cl1 := foldl (countTriangle cid) (cl ++ newClumps nodes n) tris.

Lemma compute_nodes : wf nodes ∧ length nodes = n.
Proof. destruct (localNodes_spec n tris Hwt) as (? & ? & _). done. Qed.

Lemma compute_same : sameVertices (cl ++ newClumps nodes n) cl1.
Proof. apply countTriangles_sameVertices. Qed.

Lemma compute_wf : wf cl1.
Proof.
  eapply relink_wf; [|apply compute_same]. rewrite newClumps_makeNode. by apply wf_app_new.
Qed.

Lemma compute_length : length cl1 = length cl + rootsBelow nodes n.
Proof.
  rewrite (proj1 (proj1 compute_same)), length_app. by rewrite length_newClumps.
Qed.

Lemma compute_root i : root cl1 i = root cl i.
Proof.
  rewrite (relink_root (cl ++ newClumps nodes n)); [|  |apply compute_same].
  - rewrite newClumps_makeNode. by apply root_app_new.
  - rewrite newClumps_makeNode. by apply wf_app_new.
Qed.

Lemma compute_cid_eq :
  cid = (λ i, length cl + rootsBelow nodes (root nodes i)) <$> seq 0 n.
Proof.
  apply list_eq. intros i. rewrite list_lookup_fmap.
  destruct (decide (i < n)) as [Hi|Hi].
  - rewrite Hcid by done. by rewrite (lookup_seq_lt 0 n i).
  - rewrite (lookup_ge_None_2 cid) by lia. by rewrite lookup_seq_ge by lia.
Qed.

Lemma compute_cid_range c :
  c ∈ cid → length cl ≤ c < length cl1.
Proof.
  destruct compute_nodes as [Hwfn Hlenn].
  rewrite compute_cid_eq. intros (i & -> & Hi%elem_of_seq)%list_elem_of_fmap.
  rewrite compute_length. split; [lia|].
  assert (rootsBelow nodes (root nodes i) < rootsBelow nodes n); [|lia].
  apply rootsBelow_lt.
  - apply rootAt_root; [done|apply root_lt; [done|lia]|by apply root_idem].
  - rewrite <-Hlenn. apply root_lt; [done|lia].
Qed.

Lemma compute_class_size r0 :
  rootAt nodes r0 = true → r0 < n →
  length (filter (λ c, c = length cl + rootsBelow nodes r0) cid) = class_size nodes r0.
Proof.
  intros Hr0 Hlt. destruct compute_nodes as [Hwfn Hlenn].
  rewrite compute_cid_eq, filter_fmap_length. unfold class_size, count. rewrite Hlenn.
  apply filter_length_ext. intros i Hi%elem_of_seq. split.
  - intros Heq. apply (rootsBelow_inj nodes); [|done|lia].
    apply rootAt_root; [done|apply root_lt; [done|lia]|by apply root_idem].
  - by intros ->.
Qed.

Lemma compute_lookup_old r s d :
  r < length cl → cl1 !! r = Some (mkNode (Root s) d) →
  ∃ d0, cl !! r = Some (mkNode (Root s) d0) ∧ vertices d = vertices d0.
Proof.
  intros Hr Hr1. destruct (sameVertices_lookup _ _ _ _ _ compute_same Hr1) as (d0 & Hr0 & Hv).
  rewrite lookup_app_l in Hr0 by done. eauto.
Qed.

Lemma compute_lookup_new r s d :
  length cl ≤ r → cl1 !! r = Some (mkNode (Root s) d) →
  ∃ r0, rootAt nodes r0 = true ∧ r0 < n ∧ r = length cl + rootsBelow nodes r0 ∧
        vertices d = wrap64 (Z.of_nat (class_size nodes r0)).
Proof.
  intros Hr Hr1. destruct (sameVertices_lookup _ _ _ _ _ compute_same Hr1) as (d0 & Hr0 & Hv).
  rewrite lookup_app_r in Hr0 by done.
  apply newClumps_lookup in Hr0 as (r0 & Hroot & Hlt & Hj & Hx).
  exists r0. split; [done|]. split; [done|]. split; [lia|].
  unfold newClump, makeNode in Hx. injection Hx as _ Hd0. rewrite Hv, Hd0. simpl.
  destruct compute_nodes as [Hwfn Hlenn].
  apply rootAt_true in Hroot as (s0 & d1 & Hn0).
  rewrite (forest_size_root _ _ _ _ Hn0). by rewrite (wf_size nodes Hwfn _ _ _ Hn0).
Qed.
End compute.

Lemma computeLocalComponents_inv n tris cl cl1 cid :
  wf_triangles n tris →
  computeLocalComponents n tris cl = Ok (cl1, cid) →
  cl1 = foldl (countTriangle cid) (cl ++ newClumps (localNodes n tris) n) tris ∧
  length cid = n ∧
  ∀ i, i < n →
    cid !! i = Some (length cl + rootsBelow (localNodes n tris) (root (localNodes n tris) i)).
Proof.
  intros Hwt Hrun.
  destruct (decide (hasRoom (localNodes n tris) cl n)) as [Hroom|Hroom];
    [|by rewrite computeLocalComponents_throw in Hrun].
  destruct (computeLocalComponents_ok n tris cl Hwt Hroom) as (cid' & Hrun' & Hlen & Hcid).
  rewrite Hrun' in Hrun. injection Hrun as <- <-. done.
Qed.

Lemma weldInv_compute cl km P n tris nI (keys : list Z) cl1 cid :
  weldInv cl km P [] → wf_triangles n tris → nI ≤ n → length keys = n - nI →
  computeLocalComponents n tris cl = Ok (cl1, cid) →
  length cid = n ∧
  weldInv cl1 km (P ++ (internalOcc <$> take nI cid)) (zip keys (drop nI cid)).
Proof.
  intros [Hwf HP _ Hdom Hweld Hnodup Hfirst Hcount] Hwt HnI Hkeys Hrun.
  destruct (computeLocalComponents_inv n tris cl cl1 cid Hwt Hrun) as (-> & Hlen & Hcid).
  split; [done|].
  pose proof (compute_wf cl n tris cid Hwf) as Hwf1.
  pose proof (compute_length cl n tris cid) as Hlen1.
  pose proof (compute_root cl n tris cid Hwf) as Hroot.
  pose proof (compute_cid_range cl n tris cid Hwt Hlen Hcid) as Hrange.
  set (cl1 := foldl (countTriangle cid) (cl ++ newClumps (localNodes n tris) n) tris) in *.
  assert (∀ c, c ∈ take nI cid → c ∈ cid) as Htake.
  { intros c Hc. rewrite <-(take_drop nI cid). apply elem_of_app. by left. }
  assert (∀ c, c ∈ drop nI cid → c ∈ cid) as Hdrop.
  { intros c Hc. rewrite <-(take_drop nI cid). apply elem_of_app. by right. }
  assert (∀ e, e ∈ zip keys (drop nI cid) → e.2 ∈ cid) as Hzip.
  { intros [k c] He. apply Hdrop. by eapply elem_of_zip_r. }
  assert (∀ c, c ∈ cid → root cl c = c) as Hself.
  { intros c Hc. apply root_out. apply Hrange in Hc. lia. }
  split.
  - done.
  - intros o [Ho|(c & -> & Hc)%list_elem_of_fmap]%elem_of_app.
    + apply HP in Ho. lia.
    + simpl. apply Htake, Hrange in Hc. lia.
  - intros e He. apply Hzip, Hrange in He. lia.
  - intros k. rewrite Hdom. split.
    + intros (o & Ho & Hk). exists o. split; [apply elem_of_app; by left|done].
    + intros (o & [Ho|(c & -> & Hc)%list_elem_of_fmap]%elem_of_app & Hk); [by eauto|done].
  - intros k ed Hed. destruct (Hweld k ed Hed) as [Hlt Hr]. split; [lia|].
    intros o [Ho|(c & -> & Hc)%list_elem_of_fmap]%elem_of_app Hk; [|done].
    rewrite !Hroot. by apply Hr.
  - rewrite firstKeys_app, firstKeys_internal. by rewrite app_nil_r.
  - intros o k [Ho|(c & -> & Hc)%list_elem_of_fmap]%elem_of_app Hk; [|done].
    rewrite firstKeys_app, elem_of_app. left. by eapply Hfirst.
  - intros r s d Hr.
    rewrite countIn_app, countIn_internal.
    rewrite countIn_pending_zip by (rewrite length_drop; lia).
    rewrite (countIn_ext uniqueClump (root cl) (root cl1)) by (intros; apply Hroot).
    rewrite <-Nat.add_assoc, filter_take_drop.
    rewrite (filter_length_ext (λ c, root cl1 c = r) (λ c, c = r))
      by (intros c Hc; by rewrite Hroot, Hself).
    destruct (decide (r < length cl)) as [Hlt|Hge].
    + destruct (compute_lookup_old cl n tris cid r s d Hlt Hr) as (d0 & Hr0 & ->).
      rewrite (Hcount r s d0 Hr0), countIn_nil. f_equal.
      assert (length (filter (λ c, c = r) cid) = 0) as ->; [|lia].
      apply filter_length_zero. intros c Hc ->.
      apply Hrange in Hc. lia.
    + destruct (compute_lookup_new cl n tris cid Hwt Hlen r s d ltac:(lia) Hr)
        as (r0 & Hroot0 & Hlt0 & -> & ->).
      rewrite (compute_class_size cl n tris cid Hwt Hlen Hcid r0 Hroot0 Hlt0).
      rewrite countIn_zero; [f_equal; lia|].
      intros o c Ho Hsel. unfold uniqueClump in Hsel.
      destruct (o_first o); [|done]. injection Hsel as <-.
      pose proof (root_lt cl (o_clump o) Hwf (HP o Ho)). lia.
Qed.

Lemma updateKey_None nI off cid s i key :
  kl_keyMap s !! key = None →
  updateKey nI off cid s i key =
  mkKeyLoop (kl_clumps s)
    (<[key := mkExternal (wrap32 (off + kl_newKeys s)) (default 0 (cid !! (i + nI)))]> (kl_keyMap s))
    (kl_newKeys s + 1) (<[i := wrap32 (off + kl_newKeys s)]> (kl_indexTable s)).
Proof. intros Hk. unfold updateKey. by rewrite Hk. Qed.

Lemma updateKey_Some nI off cid s i key ed :
  kl_keyMap s !! key = Some ed →
  updateKey nI off cid s i key =
  mkKeyLoop (unify (kl_clumps s) (default 0 (cid !! (i + nI))) (clumpId ed)) (kl_keyMap s)
    (kl_newKeys s) (<[i := vertexId ed]> (kl_indexTable s)).
Proof. intros Hk. unfold updateKey. by rewrite Hk. Qed.

Lemma updateKeys_inv nI off cid keys i s P :
  nI + i + length keys ≤ length cid →
  weldInv (kl_clumps s) (kl_keyMap s) P (zip keys (drop (nI + i) cid)) →
  ∃ E, weldInv (kl_clumps (updateKeys nI off cid i keys s))
               (kl_keyMap (updateKeys nI off cid i keys s)) (P ++ E) [] ∧
       o_key <$> E = Some <$> keys ∧
       o_clump <$> E = take (length keys) (drop (nI + i) cid).
Proof.
  revert i s P. induction keys as [|key keys IH]; intros i s P Hlen Hinv.
  - exists []. rewrite app_nil_r. simpl in *. done.
  - simpl in Hlen.
    destruct (lookup_lt_is_Some_2 cid (nI + i) ltac:(lia)) as [c Hc].
    rewrite (drop_S _ _ _ Hc) in Hinv |- *. simpl in Hinv.
    assert (default 0 (cid !! (i + nI)) = c) as Hdef by (by rewrite Nat.add_comm, Hc).
    simpl.
    destruct (kl_keyMap s !! key) as [ed|] eqn:Hkey.
    + rewrite (updateKey_Some _ _ _ _ _ _ ed Hkey), Hdef.
      destruct (IH (S i) (mkKeyLoop (unify (kl_clumps s) c (clumpId ed)) (kl_keyMap s)
                  (kl_newKeys s) (<[i := vertexId ed]> (kl_indexTable s)))
                  (P ++ [mkOcc c (Some key) false])) as (E & HE & Hk & Hcl).
      { lia. }
      { simpl. rewrite Nat.add_succ_r. by apply weldInv_present. }
      exists (mkOcc c (Some key) false :: E). rewrite <-app_assoc in HE.
      split; [done|]. rewrite !fmap_cons, Hk, Hcl, Nat.add_succ_r. done.
    + rewrite (updateKey_None _ _ _ _ _ _ Hkey), Hdef.
      destruct (IH (S i) (mkKeyLoop (kl_clumps s)
                  (<[key := mkExternal (wrap32 (off + kl_newKeys s)) c]> (kl_keyMap s))
                  (kl_newKeys s + 1) (<[i := wrap32 (off + kl_newKeys s)]> (kl_indexTable s)))
                  (P ++ [mkOcc c (Some key) true])) as (E & HE & Hk & Hcl).
      { lia. }
      { simpl. rewrite Nat.add_succ_r. by apply weldInv_absent. }
      exists (mkOcc c (Some key) true :: E). rewrite <-app_assoc in HE.
      split; [done|]. rewrite !fmap_cons, Hk, Hcl, Nat.add_succ_r. done.
Qed.

(** The invariant is kept by the two calls that start every [add]. *)
Lemma weld_inv off fr m P cid m' nk it :
  weldInv (clumps m) (keyMap m) P [] → wf_fragment fr →
  weld off fr m = Ok (cid, (m', nk, it)) →
  length cid = f_numVertices fr ∧
  ∃ E, weldInv (clumps m') (keyMap m')
               (P ++ (internalOcc <$> take (f_numInternal fr) cid) ++ E) [] ∧
       o_key <$> E = Some <$> f_keys fr ∧
       o_clump <$> E = drop (f_numInternal fr) cid.
Proof.
  intros Hinv (HnI & Hkeys & Hwt) Hrun. unfold weld in Hrun.
  destruct (computeLocalComponents (f_numVertices fr) (f_triangles fr) (clumps m))
    as [[cl1 cid1]| |] eqn:Hcomp; [|done..].
  rewrite bind_Ok in Hrun. unfold updateKeyMap in Hrun. cbv zeta in Hrun.
  injection Hrun as -> <- _ _.
  destruct (weldInv_compute _ _ _ _ _ _ (f_keys fr) _ _ Hinv Hwt HnI Hkeys Hcomp)
    as [Hlen Hinv1].
  split; [done|]. cbn [clumps keyMap].
  assert (length cid - length (f_keys fr) = f_numInternal fr) as -> by lia.
  destruct (updateKeys_inv (f_numInternal fr) off cid (f_keys fr) 0
              (mkKeyLoop cl1 (keyMap m) 0 (replicate (length (f_keys fr)) 0%Z))
              (P ++ (internalOcc <$> take (f_numInternal fr) cid)))
    as (E & HE & Hk & Hcl).
  { lia. }
  { simpl. by rewrite Nat.add_0_r. }
  exists E. rewrite <-app_assoc in HE. split; [done|]. split; [done|].
  rewrite Hcl, Nat.add_0_r. apply take_ge. rewrite length_drop. lia.
Qed.

(** * Welding over a whole pass *)

Lemma intPart_app P P' : intPart (P ++ P') = intPart P ++ intPart P'.
Proof. apply omap_app. Qed.
Lemma extPart_app P P' : extPart (P ++ P') = extPart P ++ extPart P'.
Proof. apply omap_app. Qed.

Lemma intPart_internal cs : intPart (internalOcc <$> cs) = cs.
Proof. induction cs as [|c cs IH]; [done|]. rewrite fmap_cons. cbn. f_equal. exact IH. Qed.
Lemma extPart_internal cs : extPart (internalOcc <$> cs) = [].
Proof. induction cs as [|c cs IH]; [done|]. done. Qed.

Lemma intPart_external E (ks : list Z) : o_key <$> E = Some <$> ks → intPart E = [].
Proof.
  revert ks. induction E as [|o E IH]; intros [|k ks] Hk; [done..|].
  injection Hk as Hk Hks.
  cbn. rewrite Hk. by eapply IH.
Qed.
Lemma extPart_external E (ks : list Z) cs :
  o_key <$> E = Some <$> ks → o_clump <$> E = cs → extPart E = zip ks cs.
Proof.
  revert ks cs. induction E as [|o E IH]; intros [|k ks] [|c cs] Hk Hc; try done.
  injection Hk as Hk Hks. injection Hc as Hc Hcs.
  cbn. rewrite Hk. cbn. rewrite Hc. f_equal. by eapply IH.
Qed.

Lemma describes_nil : describes [] [] [].
Proof. split; [done|]. split; [done|]. by intros o Ho%not_elem_of_nil. Qed.

Lemma internalOccs_snoc frs tr fr cid :
  length frs = length tr →
  internalOccs (frs ++ [fr]) (tr ++ [cid]) = internalOccs frs tr ++ internalClumps fr cid.
Proof.
  intros Hlen. unfold internalOccs. rewrite zip_with_app by done.
  rewrite concat_app. simpl. by rewrite app_nil_r.
Qed.
Lemma externalOccs_snoc frs tr fr cid :
  length frs = length tr →
  externalOccs (frs ++ [fr]) (tr ++ [cid]) = externalOccs frs tr ++ externalClumps fr cid.
Proof.
  intros Hlen. unfold externalOccs. rewrite zip_with_app by done.
  rewrite concat_app. simpl. by rewrite app_nil_r.
Qed.

Lemma describes_snoc P frs tr fr cid E :
  length frs = length tr → describes P frs tr →
  o_key <$> E = Some <$> f_keys fr → o_clump <$> E = drop (f_numInternal fr) cid →
  describes (P ++ (internalOcc <$> take (f_numInternal fr) cid) ++ E) (frs ++ [fr]) (tr ++ [cid]).
Proof.
  intros Hlen (Hint & Hext & Hfirst) Hk Hc. split; [|split].
  - rewrite !intPart_app, intPart_internal, (intPart_external E _ Hk), app_nil_r.
    by rewrite internalOccs_snoc, Hint.
  - rewrite !extPart_app, extPart_internal, (extPart_external E _ _ Hk Hc). simpl.
    by rewrite externalOccs_snoc, Hext.
  - intros o [Ho|[(c & -> & _)%list_elem_of_fmap|Ho]%elem_of_app]%elem_of_app Hnone.
    + by apply Hfirst.
    + done.
    + assert (o_key o ∈ o_key <$> E) as Hin by (apply list_elem_of_fmap; eauto).
      rewrite Hk, Hnone in Hin. by apply list_elem_of_fmap in Hin as (? & ? & ?).
Qed.

Lemma elem_of_extPart k c P :
  (k, c) ∈ extPart P ↔ ∃ o, o ∈ P ∧ o_key o = Some k ∧ o_clump o = c.
Proof.
  unfold extPart. rewrite list_elem_of_omap. split.
  - intros (o & Ho & Hk). exists o. destruct (o_key o); simplify_eq/=. done.
  - intros (o & Ho & Hk & <-). exists o. by rewrite Hk.
Qed.

(** All the vertices with one key are in one component. *)
Lemma weldInv_same_key cl km P k c1 c2 :
  weldInv cl km P [] → (k, c1) ∈ extPart P → (k, c2) ∈ extPart P → root cl c1 = root cl c2.
Proof.
  intros Hinv (o1 & Ho1 & Hk1 & <-)%elem_of_extPart (o2 & Ho2 & Hk2 & <-)%elem_of_extPart.
  assert (is_Some (km !! k)) as [ed Hed] by (apply (wi_dom _ _ _ _ Hinv); eauto).
  destruct (wi_weld _ _ _ _ Hinv k ed Hed) as [_ Hroots].
  by rewrite (Hroots o1), (Hroots o2).
Qed.

Lemma intPart_cons o P :
  intPart (o :: P) = (if o_key o is None then [o_clump o] else []) ++ intPart P.
Proof. unfold intPart. simpl. by destruct (o_key o). Qed.

Lemma firstKeysIn_cons ρ r o P :
  firstKeysIn ρ r (o :: P) =
  (if decide (o_first o = true ∧ ρ (o_clump o) = r) then option_list (o_key o) else []) ++
  firstKeysIn ρ r P.
Proof.
  unfold firstKeysIn. simpl. case_decide; [|done]. by destruct (o_key o).
Qed.

Lemma countIn_unique_cons ρ r o P :
  countIn uniqueClump ρ r (o :: P) =
  (if decide (o_first o = true ∧ ρ (o_clump o) = r) then 1 else 0) + countIn uniqueClump ρ r P.
Proof.
  change (o :: P) with (([] ++ [o]) ++ P).
  rewrite (countIn_app uniqueClump ρ r ([] ++ [o]) P), countIn_unique_snoc.
  by rewrite countIn_nil.
Qed.

Lemma countIn_unique_split ρ r P :
  (∀ o, o ∈ P → o_key o = None → o_first o = true) →
  countIn uniqueClump ρ r P =
  length (filter (λ c, ρ c = r) (intPart P)) + length (firstKeysIn ρ r P).
Proof.
  induction P as [|o P IH]; intros Hfirst; [done|].
  rewrite countIn_unique_cons, IH by (intros; apply Hfirst; [by right|done]).
  rewrite intPart_cons, firstKeysIn_cons, filter_app, !length_app.
  specialize (Hfirst o ltac:(by left)).
  destruct (o_key o) as [k|] eqn:Hk.
  - rewrite filter_nil. destruct (decide (o_first o = true ∧ ρ (o_clump o) = r)); simpl; lia.
  - rewrite filter_cons, filter_nil. specialize (Hfirst eq_refl).
    destruct (decide (ρ (o_clump o) = r)) as [Hr|Hr],
             (decide (o_first o = true ∧ ρ (o_clump o) = r)) as [[? ?]|Hno];
      simpl; try lia; exfalso; auto.
Qed.

Lemma elem_of_firstKeysIn ρ r P k :
  k ∈ firstKeysIn ρ r P ↔
  ∃ o, o ∈ P ∧ o_first o = true ∧ ρ (o_clump o) = r ∧ o_key o = Some k.
Proof.
  unfold firstKeysIn. rewrite list_elem_of_omap. split.
  - intros (o & Ho & Hk). exists o. destruct (decide _) as [[Hf Hr]|Hd]; [done|done].
  - intros (o & Ho & Hf & Hr & Hk). exists o. by rewrite decide_True.
Qed.

Lemma firstKeysIn_NoDup ρ r P : NoDup (firstKeys P) → NoDup (firstKeysIn ρ r P).
Proof.
  induction P as [|o P IH]; intros Hnd; [constructor|].
  unfold firstKeys, firstKeysIn, firstKey in *. simpl in *.
  destruct (o_first o) eqn:Hf.
  - destruct (o_key o) as [k|] eqn:Hk.
    + apply NoDup_cons in Hnd as [Hnin Hnd]. case_decide.
      * simpl. apply NoDup_cons. split; [|by apply IH].
        intros (o' & Ho' & Hf' & _ & Hk')%elem_of_firstKeysIn. apply Hnin.
        apply list_elem_of_omap. exists o'. by rewrite Hf'.
      * by apply IH.
    + case_decide; by apply IH.
  - rewrite decide_False by (by intros [? _]). by apply IH.
Qed.

Lemma weldInv_empty : weldInv [] ∅ [] [].
Proof.
  split.
  - apply wf_nil.
  - by intros o Ho%not_elem_of_nil.
  - by intros e He%not_elem_of_nil.
  - intros k. rewrite lookup_empty. split; [by intros [? ?]|].
    by intros (o & Ho%not_elem_of_nil & _).
  - intros k ed. by rewrite lookup_empty.
  - constructor.
  - by intros o k Ho%not_elem_of_nil.
  - intros r s d. by rewrite lookup_nil.
Qed.

Lemma addTraced_weld fr s s' cid :
  StxxlMesh.addTraced fr s = Ok (s', cid) →
  ∃ off nk it, weld off fr (StxxlMesh.mesh s) = Ok (cid, (StxxlMesh.mesh s', nk, it)).
Proof.
  unfold StxxlMesh.addTraced. intros Hrun.
  destruct (weld _ fr (StxxlMesh.mesh s)) as [[cid' [[m nk] it]]| |] eqn:Hweld; [|done..].
  rewrite bind_Ok in Hrun. injection Hrun as <- <-. eauto.
Qed.

Lemma ingestStep_eq s0 tr0 fr :
  StxxlMesh.ingestStep (s0, tr0) fr =
  StxxlMesh.addTraced fr s0 ≫= λ '(s', cid), Ok (s', tr0 ++ [cid]).
Proof. done. Qed.

Lemma ingest_inv frs : ∀ frs0 s0 tr0 P0 s tr,
  length frs0 = length tr0 →
  weldInv (clumps (StxxlMesh.mesh s0)) (keyMap (StxxlMesh.mesh s0)) P0 [] →
  describes P0 frs0 tr0 →
  Forall wf_fragment frs →
  foldlM StxxlMesh.ingestStep (s0, tr0) frs = Ok (s, tr) →
  ∃ P, weldInv (clumps (StxxlMesh.mesh s)) (keyMap (StxxlMesh.mesh s)) P [] ∧
       describes P (frs0 ++ frs) tr ∧ length (frs0 ++ frs) = length tr.
Proof.
  induction frs as [|fr frs IH]; intros frs0 s0 tr0 P0 s tr Hlen Hinv Hdesc Hwf Hrun.
  - simpl in Hrun. injection Hrun as <- <-. exists P0. rewrite app_nil_r. auto.
  - apply Forall_cons in Hwf as [Hfr Hwf].
    change (foldlM StxxlMesh.ingestStep (s0, tr0) (fr :: frs))
      with (StxxlMesh.ingestStep (s0, tr0) fr ≫= (λ a', foldlM StxxlMesh.ingestStep a' frs)) in Hrun.
    rewrite ingestStep_eq in Hrun.
    destruct (StxxlMesh.addTraced fr s0) as [[s1 cid]| |] eqn:Hadd; [|done..].
    rewrite !bind_Ok in Hrun.
    destruct (addTraced_weld _ _ _ _ Hadd) as (off & nk & it & Hweld).
    destruct (weld_inv _ _ _ _ _ _ _ _ Hinv Hfr Hweld) as (Hcid & E & Hinv1 & Hk & Hc).
    destruct (IH (frs0 ++ [fr]) s1 (tr0 ++ [cid])
                (P0 ++ (internalOcc <$> take (f_numInternal fr) cid) ++ E) s tr)
      as (P & HP & HD & HL); try done.
    + rewrite !length_app. simpl. lia.
    + by apply describes_snoc.
    + exists P. by rewrite <-app_assoc in HD, HL.
Qed.

Lemma ingest_invariant frs s tr :
  Forall wf_fragment frs →
  StxxlMesh.ingest frs StxxlMesh.create = Ok (s, tr) →
  ∃ P, weldInv (clumps (StxxlMesh.mesh s)) (keyMap (StxxlMesh.mesh s)) P [] ∧
       describes P frs tr ∧ length frs = length tr.
Proof.
  intros Hwf Hrun.
  apply (ingest_inv frs [] StxxlMesh.create [] [] s tr); try done.
  - apply weldInv_empty.
  - apply describes_nil.
Qed.

(** C2: after a pass over any sequence of well-formed fragments, two
    external vertices that have the same key lie in clumps with the same
    root of the global forest. *)
Theorem shared_key_same_root frs s tr k c1 c2 :
  Forall wf_fragment frs →
  StxxlMesh.ingest frs StxxlMesh.create = Ok (s, tr) →
  (k, c1) ∈ externalOccs frs tr → (k, c2) ∈ externalOccs frs tr →
  root (clumps (StxxlMesh.mesh s)) c1 = root (clumps (StxxlMesh.mesh s)) c2.
Proof.
  intros Hwf Hrun H1 H2.
  destruct (ingest_invariant frs s tr Hwf Hrun) as (P & Hinv & (_ & Hext & _) & _).
  rewrite <-Hext in H1, H2. by eapply weldInv_same_key.
Qed.

Lemma weldInv_keys_set cl km P r :
  weldInv cl km P [] →
  (list_to_set (firstKeysIn (root cl) r P) : gset Z) =
  list_to_set (filter (λ e, root cl e.2 = r) (extPart P)).*1.
Proof.
  intros Hinv. apply set_eq. intros k.
  rewrite !elem_of_list_to_set, elem_of_firstKeysIn, list_elem_of_fmap. split.
  - intros (o & Ho & Hf & Hr & Hk). exists (k, o_clump o). split; [done|].
    apply list_elem_of_filter. split; [done|]. apply elem_of_extPart. eauto.
  - intros ([k' c] & -> & [Hr (o & Ho & Hk & Hc)%elem_of_extPart]%list_elem_of_filter).
    simpl in *. subst c.
    pose proof (wi_first _ _ _ _ Hinv o k' Ho Hk) as (o' & Ho' & Hf' & Hk')%elem_of_firstKeys.
    exists o'. split; [done|]. split; [done|]. split; [|done].
    assert (is_Some (km !! k')) as [ed Hed] by (apply (wi_dom _ _ _ _ Hinv); eauto).
    destruct (wi_weld _ _ _ _ Hinv k' ed Hed) as [_ Hroots].
    by rewrite (Hroots o'), <-(Hroots o).
Qed.

(** C3: after a pass, the vertex counter of every root clump is the number
    of internal vertices of its component plus the number of distinct keys
    of the external vertices of its component, in the 64 bits of the
    counter. *)
Theorem root_counts_unique_vertices frs s tr r c :
  Forall wf_fragment frs →
  StxxlMesh.ingest frs StxxlMesh.create = Ok (s, tr) →
  clumps (StxxlMesh.mesh s) !! r = Some c → isRoot c = true →
  clumpVertices c =
  wrap64 (Z.of_nat (internalIn (clumps (StxxlMesh.mesh s)) r frs tr +
                    base.size (keysIn (clumps (StxxlMesh.mesh s)) r frs tr))).
Proof.
  intros Hwf Hrun Hr Hroot.
  destruct (ingest_invariant frs s tr Hwf Hrun) as (P & Hinv & (Hint & Hext & Hfirst) & _).
  destruct c as [[sz|p] d]; [|done].
  unfold clumpVertices. cbn [node_data]. rewrite (wi_count _ _ _ _ Hinv r sz d Hr).
  rewrite countIn_nil, Nat.add_0_r, (countIn_unique_split _ _ _ Hfirst).
  unfold internalIn, keysIn. rewrite <-Hint, <-Hext.
  rewrite <-(weldInv_keys_set _ _ _ _ Hinv).
  rewrite size_list_to_set; [done|].
  apply firstKeysIn_NoDup, (wi_nodup _ _ _ _ Hinv).
Qed.

(** * The counter of a key that is present *)

Lemma wrap64_range x : (0 ≤ wrap64 x < 2 ^ 64)%Z.
Proof. unfold wrap64. apply Z.mod_pos_bound. lia. Qed.

(** C4, as the code has it: for an external vertex whose key the key map
    already holds, [updateKeyMap] unites the clump of the map with the clump
    of the vertex and decrements the vertex counter of the resulting root by
    one, whether or not the union merged two trees: the counter ends one
    below the sum of the two counters when the trees were distinct, and one
    below the counter of the common root when they were not. *)
Theorem present_key_decrements nI off cid cl km nk it i key ed c :
  wf cl → km !! key = Some ed → cid !! (i + nI) = Some c →
  c < length cl → clumpId ed < length cl →
  let s' := updateKey nI off cid (mkKeyLoop cl km nk it) i key in
  let r' := root (kl_clumps s') c in
  root (kl_clumps s') (clumpId ed) = r' ∧
  verticesAt (kl_clumps s') r' =
    wrap64 ((if decide (root cl c = root cl (clumpId ed))
             then verticesAt cl (root cl c)
             else verticesAt cl (root cl c) + verticesAt cl (root cl (clumpId ed))) - 1).
Proof.
  intros Hwf Hkey Hcid Hc Hc2. cbv zeta.
  rewrite (updateKey_Some nI off cid (mkKeyLoop cl km nk it) i key ed Hkey). cbn [kl_clumps]. rewrite Hcid. cbn [default from_option id].
  destruct (unify_spec cl c (clumpId ed) Hwf Hc Hc2) as (Hwf' & Hlen' & Hcases).
  remember (unify cl c (clumpId ed)) as cl' eqn:Ecl'. clear Ecl'.
  destruct Hcases as [(Heq & Hroot & Hlook)|(Hne & w & l & sw & sl & dw & dl & Hwl & Hroot & Hw & Hl & Hw' & Hother)].
  - rewrite !Hroot, decide_True by done. split; [done|].
    destruct (root_is_root cl' c Hwf' ltac:(lia)) as (s & d & Hr).
    rewrite Hroot in Hr. destruct (Hlook _ s d Hr) as (d0 & Hr0 & _ & Hv).
    unfold verticesAt, clumpVertices. rewrite Hr, Hr0. simpl.
    rewrite Hv. destruct (decide (root cl c = root cl c)); done.
  - destruct (decide (root cl c = root cl (clumpId ed))) as [?|_]; [done|].
    rewrite !Hroot.
    assert (w ≠ l) as Hwl' by (intros ->; intuition congruence).
    assert ((if decide (root cl c = l) then w else root cl c) = w) as ->.
    { destruct (decide (root cl c = l)); intuition congruence. }
    assert ((if decide (root cl (clumpId ed) = l) then w else root cl (clumpId ed)) = w) as ->.
    { destruct (decide (root cl (clumpId ed) = l)); intuition congruence. }
    split; [done|]. unfold verticesAt, clumpVertices. rewrite Hw'. simpl.
    rewrite wrap64_sub_l. f_equal.
    destruct Hwl as [[-> ->]|[-> ->]]; rewrite Hw, Hl; simpl; lia.
Qed.

(** C4, as stated, fails: the second shared key of a fragment finds the two
    clumps already merged, and the counter is decremented all the same. *)
Lemma decrement_without_merge :
  ∃ s cid,
    afterFirstKey = Some (s, cid) ∧
    kl_keyMap s !! 4%Z = Some (mkExternal 2 0) ∧ cid !! 2 = Some 1 ∧
    root (kl_clumps s) 1 = root (kl_clumps s) 0 ∧
    verticesAt (kl_clumps s) (root (kl_clumps s) 1) = 5%Z ∧
    verticesAt (kl_clumps (updateKey 1 4 cid s 1 4))
               (root (kl_clumps (updateKey 1 4 cid s 1 4)) 1) = 4%Z.
Proof. eexists _, _. split; [vm_compute; reflexivity|]. vm_compute. done. Qed.

(** * The overflow of the clump table *)

Lemma wf_trianglesb_correct n tris : wf_trianglesb n tris = true → wf_triangles n tris.
Proof.
  unfold wf_trianglesb. rewrite forallb_forall. intros Hall tri v Htri Hv.
  apply list_elem_of_In in Htri. specialize (Hall tri Htri).
  rewrite forallb_forall in Hall. apply list_elem_of_In in Hv. specialize (Hall v Hv).
  apply andb_true_iff in Hall as [H1%Z.leb_le H2%Z.ltb_lt]. lia.
Qed.

Lemma wf_fragmentb_correct fr : wf_fragmentb fr = true → wf_fragment fr.
Proof.
  unfold wf_fragmentb. intros [[H1%Nat.leb_le H2%Nat.eqb_eq]%andb_true_iff H3]%andb_true_iff.
  split; [done|]. split; [done|]. by apply wf_trianglesb_correct.
Qed.

Lemma Forall_wf_fragmentb frs : forallb wf_fragmentb frs = true → Forall wf_fragment frs.
Proof.
  rewrite forallb_forall, Forall_forall. intros Hall fr Hfr.
  apply wf_fragmentb_correct, Hall. by apply list_elem_of_In.
Qed.

(** A fragment with a vertex has a local root. *)
Lemma rootsBelow_pos n tris : wf_triangles n tris → 0 < n → 0 < rootsBelow (localNodes n tris) n.
Proof.
  intros Hwt Hn. destruct (localNodes_spec n tris Hwt) as (Hwf & Hlen & _).
  apply (count_pos _ _ (root (localNodes n tris) 0)).
  - pose proof (root_lt (localNodes n tris) 0 Hwf ltac:(lia)). lia.
  - apply rootAt_root; [done|apply root_lt; [done|lia]|by apply root_idem].
Qed.

Lemma no_room n tris cl :
  wf_triangles n tris → 0 < n → (CLUMP_ID_MAX < Z.of_nat (length cl))%Z →
  ¬ hasRoom (localNodes n tris) cl n.
Proof.
  intros Hwt Hn Hfull [Hz|Hle].
  - pose proof (rootsBelow_pos n tris Hwt Hn). lia.
  - pose proof (rootsBelow_pos n tris Hwt Hn). lia.
Qed.

Lemma weld_throw off fr m e :
  computeLocalComponents (f_numVertices fr) (f_triangles fr) (clumps m) = Throw e →
  weld off fr m = Throw e.
Proof. intros Hc. unfold weld. by rewrite Hc. Qed.

Lemma stxxl_add_throw fr s e :
  computeLocalComponents (f_numVertices fr) (f_triangles fr) (clumps (StxxlMesh.mesh s)) = Throw e →
  StxxlMesh.add fr s = Throw e.
Proof.
  intros Hc. unfold StxxlMesh.add, StxxlMesh.addTraced. by rewrite (weld_throw _ _ _ _ Hc).
Qed.

Lemma big_add_throw fr b e :
  computeLocalComponents (f_numVertices fr) (f_triangles fr) (clumps (BigMesh.mesh b)) = Throw e →
  BigMesh.add fr b = Throw e.
Proof. intros Hc. unfold BigMesh.add. by rewrite (weld_throw _ _ _ _ Hc). Qed.

(** C8, as the code has it: when a fragment with a vertex arrives and the
    clump table already holds more than [INT32_MAX] clumps,
    [computeLocalComponents] throws [std::overflow_error] with the message
    "Too many clumps", and [StxxlMesh::add] and [BigMesh::add] pass the
    exception on to their caller; the program is not aborted. *)
Theorem too_many_clumps_is_thrown fr s b :
  wf_fragment fr → 0 < f_numVertices fr →
  (CLUMP_ID_MAX < Z.of_nat (length (clumps (StxxlMesh.mesh s))))%Z →
  (CLUMP_ID_MAX < Z.of_nat (length (clumps (BigMesh.mesh b))))%Z →
  computeLocalComponents (f_numVertices fr) (f_triangles fr) (clumps (StxxlMesh.mesh s)) =
    Throw (overflow_error "Too many clumps") ∧
  StxxlMesh.add fr s = Throw (overflow_error "Too many clumps") ∧
  BigMesh.add fr b = Throw (overflow_error "Too many clumps").
Proof.
  intros (_ & _ & Hwt) Hn Hs Hb.
  assert (∀ cl, (CLUMP_ID_MAX < Z.of_nat (length cl))%Z →
            computeLocalComponents (f_numVertices fr) (f_triangles fr) cl =
            Throw (overflow_error "Too many clumps")) as Hthrow.
  { intros cl Hcl. apply computeLocalComponents_throw. by apply no_room. }
  split; [by apply Hthrow|]. split.
  - apply stxxl_add_throw. by apply Hthrow.
  - apply big_add_throw. by apply Hthrow.
Qed.

Lemma length_fullTable n : (0 ≤ n)%Z → Z.of_nat (length (fullTable n)) = n.
Proof. intros Hn. unfold fullTable. rewrite length_replicate. by apply Z2Nat.id. Qed.

(** C8, as stated, fails: with 2^31 clumps in the table the next fragment
    makes [add] throw, not abort; and with 2^31 - 1 clumps a further clump
    is allocated although the count then exceeds [INT32_MAX]. *)
Lemma overflow_is_not_abort :
  StxxlMesh.add oneVertex (StxxlMesh.mkStxxl (mkMesh (fullTable (2 ^ 31)) ∅) [] []) =
    Throw (overflow_error "Too many clumps") ∧
  ∃ cl cid, computeLocalComponents 1 [] (fullTable (2 ^ 31 - 1)) = Ok (cl, cid) ∧
            Z.of_nat (length cl) = (2 ^ 31)%Z.
Proof.
  split.
  - apply stxxl_add_throw. apply computeLocalComponents_throw. apply no_room.
    + by apply wf_trianglesb_correct.
    + unfold f_numVertices. simpl. lia.
    + cbn [StxxlMesh.mesh clumps]. rewrite length_fullTable by lia. unfold CLUMP_ID_MAX. lia.
  - destruct (computeLocalComponents_ok 1 [] (fullTable (2 ^ 31 - 1))) as (cid & Hrun & _ & _).
    + by apply wf_trianglesb_correct.
    + right. pose proof (rootsBelow_le (localNodes 1 []) 1).
      pose proof (length_fullTable (2 ^ 31 - 1) ltac:(lia)). unfold CLUMP_ID_MAX. lia.
    + eexists _, cid. split; [exact Hrun|].
      cbn [foldl]. rewrite length_app, length_newClumps, Nat2Z.inj_add.
      rewrite length_fullTable by lia. 
      assert (rootsBelow (localNodes 1 []) 1 = 1) as -> by (vm_compute; reflexivity). lia.
Qed.

(** * Counting pass and writing pass *)

Lemma sameKeys_insert km1 km2 k v1 v2 :
  sameKeys km1 km2 → sameKeys (<[k := v1]> km1) (<[k := v2]> km2).
Proof.
  intros Hs k'. rewrite !lookup_insert_is_Some. specialize (Hs k'). tauto.
Qed.

Lemma countKey_Some km n key e :
  km !! key = Some e → BigMesh.countKey (km, n) key = (km, n).
Proof. intros Hk. unfold BigMesh.countKey. simpl. by rewrite Hk. Qed.

Lemma countKey_None km n key :
  km !! key = None → BigMesh.countKey (km, n) key = (<[key := mkExternal 0 0]> km, (n + 1)%Z).
Proof. intros Hk. unfold BigMesh.countKey. simpl. by rewrite Hk. Qed.

(** The loop of [count] and the loop of [updateKeyMap] find the same keys
    new. *)
Lemma countKey_updateKeys nI off cid keys : ∀ i km n s,
  sameKeys km (kl_keyMap s) →
  sameKeys (foldl BigMesh.countKey (km, n) keys).1
           (kl_keyMap (updateKeys nI off cid i keys s)) ∧
  ((foldl BigMesh.countKey (km, n) keys).2 - n =
   kl_newKeys (updateKeys nI off cid i keys s) - kl_newKeys s)%Z ∧
  (0 ≤ kl_newKeys (updateKeys nI off cid i keys s) - kl_newKeys s ≤ Z.of_nat (length keys))%Z.
Proof.
  induction keys as [|key keys IH]; intros i km n s Hs.
  - simpl. split; [done|]. lia.
  - cbn [foldl updateKeys].
    pose proof (Hs key) as Hkey.
    destruct (km !! key) as [e|] eqn:Hk1.
    + destruct (kl_keyMap s !! key) as [ed|] eqn:Hk2; [|by destruct (proj1 Hkey)].
      rewrite (updateKey_Some _ _ _ _ _ _ ed Hk2), (countKey_Some _ _ _ _ Hk1).
      destruct (IH (S i) km n (mkKeyLoop (unify (kl_clumps s)
                  (default 0 (cid !! (i + nI))) (clumpId ed)) (kl_keyMap s)
                  (kl_newKeys s) (<[i := vertexId ed]> (kl_indexTable s))) Hs)
        as (H1 & H2 & H3).
      cbn [kl_newKeys] in *. split; [done|]. cbn [length]. lia.
    + destruct (kl_keyMap s !! key) as [ed|] eqn:Hk2; [by destruct (proj2 Hkey)|].
      rewrite (updateKey_None _ _ _ _ _ _ Hk2), (countKey_None _ _ _ Hk1).
      destruct (IH (S i) (<[key := mkExternal 0 0]> km) (n + 1)%Z
                  (mkKeyLoop (kl_clumps s)
                     (<[key := mkExternal (wrap32 (off + kl_newKeys s))
                                 (default 0 (cid !! (i + nI)))]> (kl_keyMap s))
                     (kl_newKeys s + 1)
                     (<[i := wrap32 (off + kl_newKeys s)]> (kl_indexTable s))))
        as (H1 & H2 & H3).
      { by apply sameKeys_insert. }
      cbn [kl_newKeys] in *. split; [done|]. cbn [length]. lia.
Qed.

Lemma written_snoc {X} (log : list (Z * Z * list X)) e :
  Writer.written (log ++ [e]) = (Writer.written log + e.1.2)%Z.
Proof.
  unfold Writer.written. induction log as [|e' log IH]; simpl; [lia|]. rewrite IH. lia.
Qed.

Lemma wrap64_add_l x y : wrap64 (wrap64 x + y) = wrap64 (x + y).
Proof. unfold wrap64. by rewrite Zplus_mod_idemp_l. Qed.

Lemma length_compact nextVertex nI indexTable vs l :
  length (foldl (BigMesh.compactVertex nextVertex nI indexTable) vs l) = length vs.
Proof.
  revert vs. induction l as [|i l IH]; intros vs; [done|].
  simpl. rewrite IH. unfold BigMesh.compactVertex.
  case_match; [|done]. case_match; [|done]. by rewrite length_insert.
Qed.

Lemma length_rewriteTriangles prior nI indexTable tris :
  length (rewriteTriangles prior nI indexTable tris) = length tris.
Proof. unfold rewriteTriangles. by rewrite length_fmap. Qed.

Lemma weld_Ok off fr m cid m' nk it :
  weld off fr m = Ok (cid, (m', nk, it)) →
  ∃ cl, computeLocalComponents (f_numVertices fr) (f_triangles fr) (clumps m) = Ok (cl, cid) ∧
        updateKeyMap off (f_keys fr) cid (mkMesh cl (keyMap m)) = (m', nk, it).
Proof.
  unfold weld. intros Hrun.
  destruct (computeLocalComponents _ _ _) as [[cl cid']| |]; [|done..].
  rewrite bind_Ok in Hrun. exists cl. split; congruence.
Qed.

(** One fragment, in the counting pass and in the writing pass. *)
Lemma count_add fr p q q' :
  passesAgree p q → writtenSoFar q → wf_fragment fr →
  BigMesh.add fr q = Ok q' →
  passesAgree (BigMesh.count fr p) q' ∧ writtenSoFar q' ∧
  BigMesh.nVertices q' = BigMesh.nVertices q ∧
  BigMesh.nTriangles q' = BigMesh.nTriangles q ∧
  Writer.numVertices (BigMesh.writer q') = Writer.numVertices (BigMesh.writer q) ∧
  Writer.numTriangles (BigMesh.writer q') = Writer.numTriangles (BigMesh.writer q).
Proof.
  intros (Hkeys & HnV & HnT) (HwV & HwT & HsV & HsT) (HnI & Hlen & Hwt) Hadd.
  unfold BigMesh.add in Hadd.
  destruct (weld _ fr (BigMesh.mesh q)) as [[cid [[m nk] it]]| |] eqn:Hweld; [|done..].
  rewrite bind_Ok in Hadd. injection Hadd as <-.
  destruct (weld_Ok _ _ _ _ _ _ _ Hweld) as (cl & Hcomp & Hupd).
  unfold updateKeyMap in Hupd. cbv zeta in Hupd. injection Hupd as <- <- _.
  destruct (countKey_updateKeys (length cid - length (f_keys fr))
              (wrap32 (BigMesh.nextVertex q + Z.of_nat (f_numInternal fr))) cid (f_keys fr) 0
              (keyMap (BigMesh.mesh p)) 0%Z
              (mkKeyLoop cl (keyMap (BigMesh.mesh q)) 0
                 (replicate (length (f_keys fr)) 0%Z)) Hkeys)
    as (Hkeys' & Hnew & Hbound).
  cbn [kl_newKeys] in Hnew, Hbound.
  set (s' := updateKeys _ _ _ _ _ _) in *.
  unfold BigMesh.count.
  destruct (foldl BigMesh.countKey (keyMap (BigMesh.mesh p), 0%Z) (f_keys fr))
    as [km newKeys] eqn:Hcount.
  cbn [fst snd] in *.
  assert (newKeys = kl_newKeys s') as -> by lia.
  split; [|split].
  - split; [done|]. cbn. split.
    + rewrite wrap64_add_l, HnV. f_equal. lia.
    + by rewrite HnT.
  - split; [|split; [|split]];
      unfold Writer.writeTriangles, Writer.writeVertices;
      cbn [BigMesh.nextVertex BigMesh.nextTriangle BigMesh.writer
           Writer.vertexWrites Writer.triangleWrites].
    + rewrite written_snoc. cbn [fst snd]. by rewrite HwV, wrap64_add_l.
    + rewrite written_snoc. cbn [fst snd]. by rewrite HwT, wrap64_add_l.
    + apply Forall_app. split; [done|]. apply Forall_singleton. cbn.
      rewrite length_take, length_compact. unfold f_numVertices in *. lia.
    + apply Forall_app. split; [done|]. apply Forall_singleton. cbn.
      by rewrite length_rewriteTriangles.
  - done.
Qed.

Lemma count_writer fr p : BigMesh.writer (BigMesh.count fr p) = BigMesh.writer p.
Proof. unfold BigMesh.count. by destruct (foldl _ _ _). Qed.

Lemma count_filename fr p : BigMesh.filename (BigMesh.count fr p) = BigMesh.filename p.
Proof. unfold BigMesh.count. by destruct (foldl _ _ _). Qed.

Lemma pass0_writer frs p p' :
  foldlM (BigMesh.functor 0) p frs = Ok p' → BigMesh.writer p' = BigMesh.writer p.
Proof.
  revert p. induction frs as [|fr frs IH]; intros p Hrun.
  - by injection Hrun as <-.
  - simpl in Hrun. apply IH in Hrun. by rewrite Hrun, count_writer.
Qed.

(** The two passes over the same fragments. *)
Lemma passes_agree frs : ∀ p q p' q',
  passesAgree p q → writtenSoFar q → Forall wf_fragment frs →
  foldlM (BigMesh.functor 0) p frs = Ok p' →
  foldlM (BigMesh.functor 1) q frs = Ok q' →
  passesAgree p' q' ∧ writtenSoFar q' ∧
  BigMesh.nVertices q' = BigMesh.nVertices q ∧
  BigMesh.nTriangles q' = BigMesh.nTriangles q ∧
  Writer.numVertices (BigMesh.writer q') = Writer.numVertices (BigMesh.writer q) ∧
  Writer.numTriangles (BigMesh.writer q') = Writer.numTriangles (BigMesh.writer q).
Proof.
  induction frs as [|fr frs IH]; intros p q p' q' Hagree Hwritten Hwf Hp Hq.
  - injection Hp as <-. injection Hq as <-. done.
  - apply Forall_cons in Hwf as [Hfr Hwf].
    change (foldlM (BigMesh.functor 0) p (fr :: frs))
      with (foldlM (BigMesh.functor 0) (BigMesh.count fr p) frs) in Hp.
    change (foldlM (BigMesh.functor 1) q (fr :: frs))
      with (BigMesh.add fr q ≫= λ a', foldlM (BigMesh.functor 1) a' frs) in Hq.
    destruct (BigMesh.add fr q) as [q1| |] eqn:Hadd; [|done..].
    rewrite bind_Ok in Hq.
    destruct (count_add fr p q q1 Hagree Hwritten Hfr Hadd)
      as (Hagree1 & Hwritten1 & E1 & E2 & E3 & E4).
    destruct (IH _ _ _ _ Hagree1 Hwritten1 Hwf Hp Hq) as (? & ? & F1 & F2 & F3 & F4).
    split; [done|]. split; [done|]. rewrite F1, F2, F3, F4. done.
Qed.

(** C10: when both passes of [BigMesh] run over the same well-formed
    fragments, the totals [nVertices] and [nTriangles] of the counting pass,
    which the writing pass declares to the writer, are the numbers of
    vertices and triangles that the writing pass writes, and every write
    carries as many records as it announces. *)
Theorem counting_pass_matches_writing_pass name frs b :
  Forall wf_fragment frs →
  BigMesh.run frs (BigMesh.create name) = Ok b →
  Writer.numVertices (BigMesh.writer b) = BigMesh.nVertices b ∧
  Writer.numTriangles (BigMesh.writer b) = BigMesh.nTriangles b ∧
  BigMesh.nVertices b = wrap64 (Writer.written (Writer.vertexWrites (BigMesh.writer b))) ∧
  BigMesh.nTriangles b = wrap64 (Writer.written (Writer.triangleWrites (BigMesh.writer b))) ∧
  wellSized (Writer.vertexWrites (BigMesh.writer b)) ∧
  wellSized (Writer.triangleWrites (BigMesh.writer b)).
Proof.
  intros Hwf Hrun. unfold BigMesh.run, BigMesh.runPass in Hrun.
  cbn [BigMesh.outputFunctor] in Hrun. rewrite bind_Ok in Hrun.
  destruct (foldlM (BigMesh.functor 0) (BigMesh.create name) frs) as [p| |] eqn:Hp; [|done..].
  rewrite !bind_Ok in Hrun.
  pose proof (pass0_writer _ _ _ Hp) as Hw.
  match type of Hrun with
  | foldlM _ ?q _ = _ =>
      destruct (passes_agree frs (BigMesh.create name) q p b)
        as ((_ & HnV & HnT) & (HwV & HwT & HsV & HsT) & E1 & E2 & E3 & E4); try done
  end.
  - unfold writtenSoFar. cbn. rewrite Hw. cbn. repeat split; constructor.
  - cbn in E1, E2, E3, E4. rewrite E1, E2, E3, E4.
    split; [done|]. split; [done|]. rewrite <-HwV, <-HwT, <-HnV, <-HnT. done.
Qed.

(** * Monotonicity of pruning *)

Lemma wrap32_small x : (0 ≤ x < 2 ^ 32)%Z → wrap32 x = x.
Proof. intros. unfold wrap32. by apply Z.mod_small. Qed.

Lemma numVertices_nonneg n : Qle 0%Q (inject_Z (Z.of_nat n)).
Proof. unfold Qle. simpl. lia. Qed.

Lemma floor_round_nonneg round n t :
  rounding round → Qle 0%Q t →
  (0 ≤ Qfloor (round (Qmult (inject_Z (Z.of_nat n)) t)))%Z.
Proof.
  intros [Hmono Hzero] Ht. change 0%Z with (Qfloor 0%Q). apply Qfloor_resp_le.
  rewrite <-Hzero. apply Hmono. apply Qmult_le_0_compat; [apply numVertices_nonneg|done].
Qed.

Lemma floor_round_mono round n t1 t2 :
  rounding round → Qle t1 t2 →
  (Qfloor (round (Qmult (inject_Z (Z.of_nat n)) t1)) ≤
   Qfloor (round (Qmult (inject_Z (Z.of_nat n)) t2)))%Z.
Proof.
  intros [Hmono _] Ht. apply Qfloor_resp_le, Hmono.
  rewrite !(Qmult_comm (inject_Z (Z.of_nat n))).
  apply Qmult_le_compat_r; [done|apply numVertices_nonneg].
Qed.

Lemma thresholdVertices_mono round n t1 t2 :
  rounding round → Qle 0%Q t1 → Qle t1 t2 →
  (Qfloor (round (Qmult (inject_Z (Z.of_nat n)) t2)) < 2 ^ 32)%Z →
  (StxxlMesh.thresholdVertices round n t1 ≤ StxxlMesh.thresholdVertices round n t2)%Z.
Proof.
  intros Hr H0 H12 Hrange. unfold StxxlMesh.thresholdVertices.
  pose proof (floor_round_nonneg round n t1 Hr H0).
  pose proof (floor_round_mono round n t1 t2 Hr H12).
  rewrite !wrap32_small by lia. done.
Qed.

(** A threshold that is a fraction of fewer than 2^32 vertices fits a
    [cl_uint], when the number of vertices itself is not rounded up. *)
Lemma threshold_of_fraction round n t :
  rounding round →
  Qle (round (inject_Z (Z.of_nat n))) (inject_Z (Z.of_nat n)) →
  Qle t 1 → (Z.of_nat n < 2 ^ 32)%Z →
  (Qfloor (round (Qmult (inject_Z (Z.of_nat n)) t)) < 2 ^ 32)%Z.
Proof.
  intros [Hmono _] Hn Ht Hlt.
  assert (Qle (round (Qmult (inject_Z (Z.of_nat n)) t)) (inject_Z (Z.of_nat n))) as Hle.
  { apply Qle_trans with (round (inject_Z (Z.of_nat n))); [|done]. apply Hmono.
    rewrite <-(Qmult_1_r (inject_Z (Z.of_nat n))) at 2.
    rewrite !(Qmult_comm (inject_Z (Z.of_nat n))).
    apply Qmult_le_compat_r; [done|apply numVertices_nonneg]. }
  apply Qfloor_resp_le in Hle. rewrite Qfloor_Z in Hle. lia.
Qed.

Lemma thresholdVertices_zero round n :
  rounding round → StxxlMesh.thresholdVertices round n 0%Q = 0%Z.
Proof.
  intros [Hmono Hzero]. unfold StxxlMesh.thresholdVertices.
  assert (Qeq (Qmult (inject_Z (Z.of_nat n)) 0%Q) 0%Q) as Hz by apply Qmult_0_r.
  assert (Qeq (round (Qmult (inject_Z (Z.of_nat n)) 0%Q)) 0%Q) as Hr.
  { apply Qle_antisym.
    - apply Qle_trans with (round 0%Q); [apply Hmono|].
      + apply Qle_lteq. by right.
      + apply Qle_lteq. by right.
    - apply Qle_trans with (round 0%Q); [|apply Hmono].
      + apply Qle_lteq. right. by symmetry.
      + apply Qle_lteq. right. by symmetry. }
  rewrite (Qfloor_comp _ _ Hr). done.
Qed.

Lemma elem_of_retained round t s r :
  r ∈ StxxlMesh.retained round t s ↔
  ∃ c, clumps (StxxlMesh.mesh s) !! r = Some c ∧ isRoot c = true ∧
       (StxxlMesh.thresholdVertices round (length (StxxlMesh.vertices s)) t ≤ clumpVertices c)%Z.
Proof.
  unfold StxxlMesh.retained. rewrite list_elem_of_filter, elem_of_seq. split.
  - intros [Hk Hr]. destruct (clumps (StxxlMesh.mesh s) !! r) as [c|] eqn:Hc; [|done].
    exists c. split; [done|]. simpl in Hk. unfold StxxlMesh.kept in Hk.
    apply andb_true_iff in Hk as [? ?%Z.leb_le]. done.
  - intros (c & Hc & Hroot & Hle). rewrite Hc. simpl. split.
    + unfold StxxlMesh.kept. rewrite Hroot. simpl. by apply Z.leb_le.
    + apply lookup_lt_Some in Hc. lia.
Qed.

(** After a pass the vertex counter of a root is not negative. *)
Lemma ingest_vertices_nonneg frs s tr r c :
  Forall wf_fragment frs →
  StxxlMesh.ingest frs StxxlMesh.create = Ok (s, tr) →
  clumps (StxxlMesh.mesh s) !! r = Some c → isRoot c = true → (0 ≤ clumpVertices c)%Z.
Proof.
  intros Hwf Hrun Hr Hroot.
  destruct (ingest_invariant frs s tr Hwf Hrun) as (P & Hinv & _).
  destruct c as [[sz|p] d]; [|done].
  unfold clumpVertices. cbn [node_data]. rewrite (wi_count _ _ _ _ Hinv r sz d Hr).
  apply Z.mod_pos_bound. lia.
Qed.

(** C7: after a pass, for prune thresholds [0 ≤ t1 ≤ t2] whose vertex
    threshold fits a [cl_uint], every root that [write] retains under [t2]
    is retained under [t1], and under the threshold 0 every root is
    retained. *)
Theorem prune_monotone round frs s tr t1 t2 :
  rounding round →
  Forall wf_fragment frs → StxxlMesh.ingest frs StxxlMesh.create = Ok (s, tr) →
  Qle 0%Q t1 → Qle t1 t2 →
  (Qfloor (round (Qmult (inject_Z (Z.of_nat (length (StxxlMesh.vertices s)))) t2)) < 2 ^ 32)%Z →
  (∀ r, r ∈ StxxlMesh.retained round t2 s → r ∈ StxxlMesh.retained round t1 s) ∧
  (∀ r, rootAt (clumps (StxxlMesh.mesh s)) r = true → r ∈ StxxlMesh.retained round 0%Q s).
Proof.
  intros Hround Hwf Hrun H0 H12 Hrange. split.
  - intros r (c & Hc & Hroot & Hle)%elem_of_retained. apply elem_of_retained.
    exists c. split; [done|]. split; [done|].
    pose proof (thresholdVertices_mono round (length (StxxlMesh.vertices s)) t1 t2
                  Hround H0 H12 Hrange). lia.
  - intros r Hr. apply elem_of_retained. unfold rootAt in Hr.
    destruct (clumps (StxxlMesh.mesh s) !! r) as [c|] eqn:Hc; [|done]. simpl in Hr.
    exists c. split; [done|]. split; [done|].
    rewrite thresholdVertices_zero by done. by eapply ingest_vertices_nonneg.
Qed.

(** * Buffered and sequential writes *)

Lemma flat_snoc {X} (log : list (Z * Z * list X)) e : flat (log ++ [e]) = flat log ++ e.2.
Proof. unfold flat. rewrite fmap_app, concat_app. simpl. by rewrite app_nil_r. Qed.

Lemma sequential_snoc {X} (log : list (Z * Z * list X)) e : ∀ start,
  sequential start (log ++ [e]) ↔
  sequential start log ∧ e.1.1 = (start + Z.of_nat (length (flat log)))%Z ∧
  e.1.2 = Z.of_nat (length e.2).
Proof.
  induction log as [|e' log IH]; intros start; simpl.
  - rewrite Z.add_0_r. tauto.
  - rewrite IH. assert (length (flat (e' :: log)) = length e'.2 + length (flat log)) as ->.
    { unfold flat. simpl. by rewrite length_app. }
    split.
    + intros (Hs & Hc & Hl & He & Hn). repeat split; try done. lia.
    + intros ((Hs & Hc & Hl) & He & Hn). repeat split; try done. lia.
Qed.

Lemma flush_buffered {X} (b : StxxlMesh.buffer X) :
  flat (StxxlMesh.buf_log (StxxlMesh.flush b)) = buffered b.
Proof. unfold StxxlMesh.flush, buffered. simpl. by rewrite flat_snoc. Qed.

Lemma flush_inv {X} (b : StxxlMesh.buffer X) : bufferInv b → bufferInv (StxxlMesh.flush b).
Proof.
  intros [Hs Hn]. unfold bufferInv, StxxlMesh.flush. simpl. split.
  - apply sequential_snoc. simpl. split; [done|]. split; [lia|done].
  - rewrite flat_snoc, length_app. simpl. lia.
Qed.

Lemma push_buffered {X} cap (x : X) b :
  buffered (StxxlMesh.push cap x b) = buffered b ++ [x].
Proof.
  unfold StxxlMesh.push. cbv zeta.
  destruct (decide _).
  - unfold buffered at 1. rewrite flush_buffered. unfold buffered. simpl.
    by rewrite app_nil_r, app_assoc.
  - unfold buffered. simpl. by rewrite app_assoc.
Qed.

Lemma push_inv {X} cap (x : X) b : bufferInv b → bufferInv (StxxlMesh.push cap x b).
Proof.
  intros Hb. unfold StxxlMesh.push. cbv zeta. destruct (decide _); [apply flush_inv|]; done.
Qed.

Lemma empty_inv {X} : bufferInv (StxxlMesh.mkBuffer (X:=X) [] 0 []).
Proof. done. Qed.

(** The vertex loop does not depend on the capacity of the buffer, except
    for the way the records are cut into writes. *)
Lemma writeVertex_capacity cap cap' thr s s' v :
  StxxlMesh.vl_clumps s = StxxlMesh.vl_clumps s' →
  StxxlMesh.vl_remap s = StxxlMesh.vl_remap s' →
  StxxlMesh.vl_next s = StxxlMesh.vl_next s' →
  buffered (StxxlMesh.vl_buffer s) = buffered (StxxlMesh.vl_buffer s') →
  let t := StxxlMesh.writeVertex cap thr s v in
  let t' := StxxlMesh.writeVertex cap' thr s' v in
  StxxlMesh.vl_clumps t = StxxlMesh.vl_clumps t' ∧
  StxxlMesh.vl_remap t = StxxlMesh.vl_remap t' ∧
  StxxlMesh.vl_next t = StxxlMesh.vl_next t' ∧
  buffered (StxxlMesh.vl_buffer t) = buffered (StxxlMesh.vl_buffer t').
Proof.
  intros Hc Hr Hn Hb. unfold StxxlMesh.writeVertex. rewrite <-Hc, <-Hr, <-Hn.
  destruct (findRoot _ _) as [r cl]. cbv zeta.
  destruct (_ <=? _)%Z; simpl; rewrite ?push_buffered, ?Hb; done.
Qed.

Lemma writeVertex_inv cap thr s v :
  bufferInv (StxxlMesh.vl_buffer s) →
  bufferInv (StxxlMesh.vl_buffer (StxxlMesh.writeVertex cap thr s v)).
Proof.
  intros Hb. unfold StxxlMesh.writeVertex. destruct (findRoot _ _) as [r cl].
  destruct (_ <=? _)%Z; simpl; [by apply push_inv|done].
Qed.

Lemma vertexLoop_capacity cap cap' thr vs : ∀ s s',
  StxxlMesh.vl_clumps s = StxxlMesh.vl_clumps s' →
  StxxlMesh.vl_remap s = StxxlMesh.vl_remap s' →
  StxxlMesh.vl_next s = StxxlMesh.vl_next s' →
  buffered (StxxlMesh.vl_buffer s) = buffered (StxxlMesh.vl_buffer s') →
  let t := foldl (StxxlMesh.writeVertex cap thr) s vs in
  let t' := foldl (StxxlMesh.writeVertex cap' thr) s' vs in
  StxxlMesh.vl_remap t = StxxlMesh.vl_remap t' ∧
  buffered (StxxlMesh.vl_buffer t) = buffered (StxxlMesh.vl_buffer t').
Proof.
  induction vs as [|v vs IH]; intros s s' Hc Hr Hn Hb; simpl; [done|].
  destruct (writeVertex_capacity cap cap' thr s s' v Hc Hr Hn Hb) as (? & ? & ? & ?).
  by apply IH.
Qed.

Lemma vertexLoop_inv cap thr vs : ∀ s,
  bufferInv (StxxlMesh.vl_buffer s) →
  bufferInv (StxxlMesh.vl_buffer (foldl (StxxlMesh.writeVertex cap thr) s vs)).
Proof.
  induction vs as [|v vs IH]; intros s Hb; simpl; [done|]. by apply IH, writeVertex_inv.
Qed.

Lemma writeTriangle_buffered cap cap' remap b b' tri :
  buffered b = buffered b' →
  buffered (StxxlMesh.writeTriangle cap remap b tri) =
  buffered (StxxlMesh.writeTriangle cap' remap b' tri).
Proof.
  intros Hb. unfold StxxlMesh.writeTriangle. cbv zeta.
  destruct (decide _); [done|]. by rewrite !push_buffered, Hb.
Qed.

Lemma triangleLoop_capacity cap cap' remap tris : ∀ b b',
  buffered b = buffered b' →
  buffered (foldl (StxxlMesh.writeTriangle cap remap) b tris) =
  buffered (foldl (StxxlMesh.writeTriangle cap' remap) b' tris).
Proof.
  induction tris as [|tri tris IH]; intros b b' Hb; simpl; [done|].
  by apply IH, writeTriangle_buffered.
Qed.

Lemma triangleLoop_inv cap remap tris : ∀ b,
  bufferInv b → bufferInv (foldl (StxxlMesh.writeTriangle cap remap) b tris).
Proof.
  induction tris as [|tri tris IH]; intros b Hb; simpl; [done|]. apply IH.
  unfold StxxlMesh.writeTriangle. cbv zeta. destruct (decide _); [done|by apply push_inv].
Qed.

(** What [write] leaves in the file does not depend on the capacities. *)
Lemma writeWith_capacity vc tc vc' tc' thr name s :
  let w := StxxlMesh.writeWith vc tc thr name s Writer.closed in
  let w' := StxxlMesh.writeWith vc' tc' thr name s Writer.closed in
  Writer.numVertices w = Writer.numVertices w' ∧
  Writer.numTriangles w = Writer.numTriangles w' ∧
  flat (Writer.vertexWrites w) = flat (Writer.vertexWrites w') ∧
  flat (Writer.triangleWrites w) = flat (Writer.triangleWrites w').
Proof.
  unfold StxxlMesh.writeWith. destruct (StxxlMesh.keptTotals _ _) as [nv nt].
  unfold Writer.open, Writer.setNumTriangles, Writer.setNumVertices, Writer.closed.
  cbn [Writer.numVertices Writer.numTriangles Writer.vertexWrites Writer.triangleWrites
       Writer.fileName app].
  destruct (vertexLoop_capacity vc vc' thr (StxxlMesh.vertices s)
    (StxxlMesh.mkVertexLoop (clumps (StxxlMesh.mesh s)) (StxxlMesh.mkBuffer [] 0%Z []) [] 0%Z)
    (StxxlMesh.mkVertexLoop (clumps (StxxlMesh.mesh s)) (StxxlMesh.mkBuffer [] 0%Z []) [] 0%Z))
    as [Hr Hb]; try done.
  split; [done|]. split; [done|]. rewrite !flush_buffered. split; [done|].
  rewrite Hr. by apply triangleLoop_capacity.
Qed.

Lemma writeWith_sequential vc tc thr name s :
  let w := StxxlMesh.writeWith vc tc thr name s Writer.closed in
  sequential 0 (Writer.vertexWrites w) ∧ sequential 0 (Writer.triangleWrites w).
Proof.
  unfold StxxlMesh.writeWith. destruct (StxxlMesh.keptTotals _ _) as [nv nt].
  unfold Writer.open, Writer.setNumTriangles, Writer.setNumVertices, Writer.closed.
  cbn [Writer.numVertices Writer.numTriangles Writer.vertexWrites Writer.triangleWrites
       Writer.fileName app].
  split.
  - apply flush_inv, vertexLoop_inv. apply empty_inv.
  - apply flush_inv, triangleLoop_inv. apply empty_inv.
Qed.

(** ** The file that sequential writes leave *)

Lemma store_from_lookup {X} (file : gmap Z X) first data : ∀ n k,
  foldr (λ e m, <[(first + Z.of_nat e.1)%Z := e.2]> m) file
        (imap (λ i x, (n + i, x)) data) !! k =
  match (if decide (first + Z.of_nat n ≤ k)%Z
         then data !! Z.to_nat (k - first - Z.of_nat n) else None) with
  | Some x => Some x
  | None => file !! k
  end.
Proof.
  induction data as [|x data IH]; intros n k.
  - simpl. by destruct (decide _).
  - rewrite imap_cons. cbn [foldr fst snd].
    rewrite (imap_ext _ (λ i y, (S n + i, y))) by (intros; simpl; f_equal; lia).
    destruct (decide (first + Z.of_nat (n + 0) = k)%Z) as [<-|Hne].
    + rewrite lookup_insert_eq. rewrite decide_True by lia.
      by replace (Z.to_nat _) with 0 by lia.
    + rewrite lookup_insert_ne by done. rewrite IH.
      destruct (decide (first + Z.of_nat (S n) ≤ k)%Z) as [Hle|Hgt].
      * rewrite decide_True by lia.
        replace (Z.to_nat (k - first - Z.of_nat n)) with (S (Z.to_nat (k - first - Z.of_nat (S n))))
          by lia.
        done.
      * destruct (decide (first + Z.of_nat n ≤ k)%Z) as [Hle|_]; [|done].
        exfalso. lia.
Qed.

Lemma store_lookup {X} (file : gmap Z X) first data k :
  Writer.store file first data !! k =
  match (if decide (first ≤ k)%Z then data !! Z.to_nat (k - first) else None) with
  | Some x => Some x
  | None => file !! k
  end.
Proof.
  unfold Writer.store.
  rewrite (imap_ext pair (λ i x, (0 + i, x))) by done.
  rewrite store_from_lookup. rewrite Z.add_0_r, Z.sub_0_r. done.
Qed.

Lemma contents_from {X} (log : list (Z * Z * list X)) : ∀ (file : gmap Z X) pre,
  sequential (Z.of_nat (length pre)) log →
  (∀ k, file !! k = fileOf pre k) →
  ∀ k, foldl (λ m e, Writer.store m e.1.1 e.2) file log !! k = fileOf (pre ++ flat log) k.
Proof.
  induction log as [|[[first count] data] log IH]; intros file pre Hseq Hfile k.
  - simpl. unfold flat. simpl. by rewrite app_nil_r.
  - destruct Hseq as (Hfirst & Hcount & Hseq). cbn [fst snd] in Hfirst, Hcount, Hseq.
    cbn [foldl fst snd].
    replace (pre ++ flat ((first, count, data) :: log)) with ((pre ++ data) ++ flat log)
      by (unfold flat; simpl; by rewrite <-(assoc_L (++))).
    apply IH.
    + rewrite length_app, Nat2Z.inj_add, <-Hcount. by subst first.
    + intros k'. rewrite store_lookup, Hfile. subst first. unfold fileOf.
      destruct (decide (Z.of_nat (length pre) ≤ k')%Z) as [Hle|Hgt].
      * rewrite !decide_True by lia. rewrite lookup_app_r by lia.
        replace (Z.to_nat k' - length pre) with (Z.to_nat (k' - Z.of_nat (length pre))) by lia.
        destruct (data !! _) eqn:Hd; [done|]. apply lookup_ge_None_2. lia.
      * destruct (decide (0 ≤ k')%Z); [|done]. rewrite lookup_app_l by lia. done.
Qed.

(** Sequential writes leave the records in the order of the calls. *)
Lemma contents_sequential {X} (log : list (Z * Z * list X)) k :
  sequential 0 log → Writer.contents log !! k = fileOf (flat log) k.
Proof.
  intros Hseq. unfold Writer.contents.
  apply (contents_from log ∅ []); [done|].
  intros k'. unfold fileOf. rewrite lookup_empty. by destruct (decide _).
Qed.

(** * Chunks and the encoding of indices *)

Lemma extent_snoc gs g : extent (gs ++ [g]) = max (extent gs) (S g).
Proof.
  induction gs as [|g' gs IH]; simpl; [lia|]. unfold extent in *. simpl. rewrite IH. lia.
Qed.

Lemma reserve_length id table :
  length (OOCMesher.reserve id table) = max (length table) (S (OOCMesher.gen id)).
Proof.
  unfold OOCMesher.reserve. cbv zeta. rewrite length_alter, length_app, length_replicate. lia.
Qed.

Lemma reserve_lookup_old id table g :
  g ≠ OOCMesher.gen id → g < length table → OOCMesher.reserve id table !! g = table !! g.
Proof.
  intros Hne Hlt. unfold OOCMesher.reserve. cbv zeta.
  rewrite list_lookup_alter_ne by done. by rewrite lookup_app_l.
Qed.

Lemma reserve_lookup_new id table g :
  g ≠ OOCMesher.gen id → length table ≤ g → g < S (OOCMesher.gen id) →
  OOCMesher.reserve id table !! g = Some (OOCMesher.newChunk OOCMesher.defaultId).
Proof.
  intros Hne Hle Hlt. unfold OOCMesher.reserve. cbv zeta.
  rewrite list_lookup_alter_ne by done. rewrite lookup_app_r by done.
  apply lookup_replicate_2. lia.
Qed.

Lemma add_chunks id fr s s' :
  OOCMesher.add id fr s = Ok s' →
  ∃ f, OOCMesher.chunks s' = alter f (OOCMesher.gen id) (OOCMesher.reserve id (OOCMesher.chunks s)).
Proof.
  unfold OOCMesher.add. destruct (weld _ _ _) as [[cid [[m nk] it]]| |]; [|done..].
  rewrite bind_Ok. intros [= <-]. cbn [OOCMesher.chunks]. eauto.
Qed.

Lemma add_dense id fr s s' gs :
  OOCMesher.add id fr s = Ok s' →
  dense gs (OOCMesher.chunks s) → dense (gs ++ [OOCMesher.gen id]) (OOCMesher.chunks s').
Proof.
  intros (f & ->)%add_chunks [Hlen Hdef]. split.
  - rewrite length_alter, reserve_length, extent_snoc. lia.
  - intros g. rewrite length_alter, reserve_length, elem_of_app, list_elem_of_singleton.
    intros Hg Hnot. assert (g ≠ OOCMesher.gen id) as Hne by tauto.
    rewrite list_lookup_alter_ne by done.
    destruct (decide (g < length (OOCMesher.chunks s))) as [Hlt|Hge].
    + rewrite reserve_lookup_old by done. apply Hdef; tauto.
    + apply reserve_lookup_new; lia.
Qed.

Lemma ingest_dense frs : ∀ s s' gs,
  OOCMesher.ingest frs s = Ok s' →
  dense gs (OOCMesher.chunks s) → dense (gs ++ generations frs) (OOCMesher.chunks s').
Proof.
  unfold OOCMesher.ingest.
  induction frs as [|[id fr] frs IH]; intros s s' gs Hrun Hd; simpl in Hrun.
  - injection Hrun as <-. unfold generations. simpl. by rewrite app_nil_r.
  - destruct (OOCMesher.add id fr s) as [s1| |] eqn:Hadd; [|done..]. rewrite bind_Ok in Hrun.
    replace (gs ++ generations ((id, fr) :: frs))
      with ((gs ++ [OOCMesher.gen id]) ++ generations frs)
      by (by rewrite <-(assoc_L (++))).
    apply (IH s1 s' _ Hrun). by eapply add_dense.
Qed.

Lemma write_lookup namer thr s g c :
  OOCMesher.chunks s !! g = Some c →
  OOCMesher.write namer thr s !! g =
  Some (OOCMesher.mkOutput (namer (OOCMesher.chunkId c))
          (OOCMesher.getChunkStatistics thr (OOCMesher.clumps s) c).1.1
          (OOCMesher.getChunkStatistics thr (OOCMesher.clumps s) c).1.2).
Proof.
  intros Hc. unfold OOCMesher.write. rewrite list_lookup_fmap, Hc. simpl.
  by destruct (OOCMesher.getChunkStatistics _ _ _) as [[? ?] ?].
Qed.

(** C9: after any fragments were added, the chunk table reaches from
    generation 0 to the last generation seen, [write] produces a file for
    every entry, and a generation without a fragment holds a
    default-constructed chunk, whose file has no vertex and no triangle. *)
Theorem chunk_table_dense namer thr frs s :
  OOCMesher.ingest frs OOCMesher.create = Ok s →
  length (OOCMesher.chunks s) = extent (generations frs) ∧
  length (OOCMesher.write namer thr s) = extent (generations frs) ∧
  ∀ g, g < extent (generations frs) → g ∉ generations frs →
       OOCMesher.chunks s !! g = Some (OOCMesher.newChunk OOCMesher.defaultId) ∧
       OOCMesher.write namer thr s !! g =
         Some (OOCMesher.mkOutput (namer OOCMesher.defaultId) 0 0).
Proof.
  intros Hrun.
  assert (dense [] (OOCMesher.chunks OOCMesher.create)) as Hd.
  { split; [done|]. simpl. lia. }
  destruct (ingest_dense frs OOCMesher.create s [] Hrun Hd) as [Hlen Hdef].
  rewrite app_nil_l in Hlen, Hdef. split; [done|]. split.
  - unfold OOCMesher.write. by rewrite length_fmap.
  - intros g Hg Hnot. rewrite <-Hlen in Hg. specialize (Hdef g Hg Hnot).
    split; [done|]. by rewrite (write_lookup _ _ _ _ _ Hdef).
Qed.

Lemma lnot32_eq e : (0 ≤ e < 2 ^ 32)%Z → lnot32 e = (2 ^ 32 - 1 - e)%Z.
Proof.
  intros He. unfold lnot32, wrap32, Z.lnot.
  replace (Z.pred (- e))%Z with ((2 ^ 32 - 1 - e) + (-1) * 2 ^ 32)%Z by lia.
  rewrite Z_mod_plus_full. apply Z.mod_small. lia.
Qed.

(** ** The two kinds of index *)




(** * The theorems at concrete inputs *)

(** C1 at a triangle and an isolated vertex. *)
Lemma local_components_match_reference_witness :
  ∃ cl cid, computeLocalComponents 4 [(0, 1, 2)%Z] [] = Ok (cl, cid) ∧ length cid = 4 ∧
            (cid !! 0 = cid !! 2 ↔ connected [(0, 1, 2)%Z] 0 2) ∧
            (cid !! 0 = cid !! 3 ↔ connected [(0, 1, 2)%Z] 0 3).
Proof.
  assert (wf_triangles 4 [(0, 1, 2)%Z]) as Hwt by (apply wf_trianglesb_correct; reflexivity).
  destruct (local_components_match_reference 4 [(0, 1, 2)%Z] [] Hwt) as [Hex Hall].
  destruct Hex as (cl & cid & Hrun); [vm_compute; discriminate|].
  exists cl, cid. split; [exact Hrun|].
  destruct (Hall cl cid Hrun) as [Hlen Hconn].
  split; [exact Hlen|]. split; apply Hconn; lia.
Defined.

(** C2 and C3 at two fragments that share the keys 3 and 4. *)
Lemma shared_key_same_root_witness :
  ∃ s tr, StxxlMesh.ingest [twoKeys 0; twoKeys 10] StxxlMesh.create = Ok (s, tr) ∧
          (3%Z, 0) ∈ externalOccs [twoKeys 0; twoKeys 10] tr ∧
          (3%Z, 1) ∈ externalOccs [twoKeys 0; twoKeys 10] tr ∧
          root (clumps (StxxlMesh.mesh s)) 0 = root (clumps (StxxlMesh.mesh s)) 1.
Proof.
  destruct (StxxlMesh.ingest [twoKeys 0; twoKeys 10] StxxlMesh.create) as [[s tr]| |] eqn:Hrun;
    pose proof Hrun as Hval; vm_compute in Hval; try discriminate Hval.
  injection Hval as <- <-.
  eexists _, _. split; [reflexivity|].
  assert (∀ e, e ∈ [(3%Z, 0); (4%Z, 0); (3%Z, 1); (4%Z, 1)] →
               e ∈ externalOccs [twoKeys 0; twoKeys 10] [[0; 0; 0]; [1; 1; 1]]) as Hocc.
  { intros e He. vm_compute. exact He. }
  assert ((3%Z, 0) ∈ externalOccs [twoKeys 0; twoKeys 10] [[0; 0; 0]; [1; 1; 1]]) as H0.
  { apply Hocc. apply list_elem_of_In. simpl. tauto. }
  assert ((3%Z, 1) ∈ externalOccs [twoKeys 0; twoKeys 10] [[0; 0; 0]; [1; 1; 1]]) as H1.
  { apply Hocc. apply list_elem_of_In. simpl. tauto. }
  assert (Forall wf_fragment [twoKeys 0; twoKeys 10]) as Hwf
    by (apply Forall_wf_fragmentb; vm_compute; reflexivity).
  split; [exact H0|]. split; [exact H1|].
  apply (shared_key_same_root [twoKeys 0; twoKeys 10] _ _ 3%Z 0 1 Hwf Hrun H0 H1).
Defined.

Lemma root_counts_unique_vertices_witness :
  ∃ s tr c, StxxlMesh.ingest [twoKeys 0; twoKeys 10] StxxlMesh.create = Ok (s, tr) ∧
            clumps (StxxlMesh.mesh s) !! 0 = Some c ∧ isRoot c = true ∧
            clumpVertices c =
              wrap64 (Z.of_nat (internalIn (clumps (StxxlMesh.mesh s)) 0 [twoKeys 0; twoKeys 10] tr +
                                base.size (keysIn (clumps (StxxlMesh.mesh s)) 0
                                                  [twoKeys 0; twoKeys 10] tr))) ∧
            clumpVertices c = 4%Z.
Proof.
  destruct (StxxlMesh.ingest [twoKeys 0; twoKeys 10] StxxlMesh.create) as [[s tr]| |] eqn:Hrun;
    pose proof Hrun as Hval; vm_compute in Hval; try discriminate Hval.
  injection Hval as <- <-.
  assert (Forall wf_fragment [twoKeys 0; twoKeys 10]) as Hwf
    by (apply Forall_wf_fragmentb; vm_compute; reflexivity).
  eexists _, _, _. split; [reflexivity|]. split; [reflexivity|]. split; [reflexivity|].
  split; [|reflexivity].
  apply (root_counts_unique_vertices [twoKeys 0; twoKeys 10] _ _ 0 _ Hwf Hrun eq_refl eq_refl).
Defined.

(** C4 at two clumps of three vertices each that a key joins. *)
Lemma present_key_decrements_witness :
  let cl := makeNode <$> [mkClumpData 3 1; mkClumpData 3 1] in
  let s' := updateKey 1 4 [1; 1; 1] (mkKeyLoop cl {[ 3%Z := mkExternal 1 0 ]} 0 [0%Z; 0%Z]) 0 3 in
  root (kl_clumps s') 0 = root (kl_clumps s') 1 ∧
  verticesAt (kl_clumps s') (root (kl_clumps s') 1) = 5%Z.
Proof.
  cbv zeta.
  assert (wf (makeNode <$> [mkClumpData 3 1; mkClumpData 3 1])) as Hwf
    by exact (wf_app_new [] [mkClumpData 3 1; mkClumpData 3 1] wf_nil).
  destruct (present_key_decrements 1 4 [1; 1; 1]
              (makeNode <$> [mkClumpData 3 1; mkClumpData 3 1])
              {[ 3%Z := mkExternal 1 0 ]} 0%Z [0%Z; 0%Z] 0 3%Z (mkExternal 1 0) 1 Hwf)
    as [Hroot Hcount]; [reflexivity|reflexivity|simpl; lia|simpl; lia|].
  split; [exact Hroot|]. rewrite Hcount. vm_compute. reflexivity.
Defined.


(** C7 at the pruning scenario, for the thresholds 0 and 1/20. *)
Lemma prune_monotone_witness :
  ∃ s tr, StxxlMesh.ingest [large; small] StxxlMesh.create = Ok (s, tr) ∧
          (∀ r, r ∈ StxxlMesh.retained (λ q, q) (1 # 20) s →
                r ∈ StxxlMesh.retained (λ q, q) 0%Q s) ∧
          StxxlMesh.retained (λ q, q) (1 # 20) s = [0] ∧
          StxxlMesh.retained (λ q, q) 0%Q s = [0; 1].
Proof.
  destruct (StxxlMesh.ingest [large; small] StxxlMesh.create) as [[s tr]| |] eqn:Hrun;
    pose proof Hrun as Hval; vm_compute in Hval; try discriminate Hval.
  injection Hval as <- <-.
  assert (Forall wf_fragment [large; small]) as Hwf
    by (apply Forall_wf_fragmentb; vm_compute; reflexivity).
  assert (rounding (λ q : Q, q)) as Hround by (split; [intros x y Hxy; exact Hxy|reflexivity]).
  eexists _, _. split; [reflexivity|].
  split; [|split; vm_compute; reflexivity].
  apply (prune_monotone (λ q, q) [large; small] _ _ 0%Q (1 # 20) Hround Hwf Hrun).
  - vm_compute. discriminate.
  - vm_compute. discriminate.
  - vm_compute. reflexivity.
Defined.

(** C8 at a table of 2^31 clumps. *)
Lemma too_many_clumps_is_thrown_witness :
  StxxlMesh.add oneVertex (StxxlMesh.mkStxxl (mkMesh (fullTable (2 ^ 31)) ∅) [] []) =
    Throw (overflow_error "Too many clumps") ∧
  BigMesh.add oneVertex
    (BigMesh.mkBig (mkMesh (fullTable (2 ^ 31)) ∅) Writer.closed "out.ply" 0 0 0 0) =
    Throw (overflow_error "Too many clumps").
Proof.
  assert (CLUMP_ID_MAX < Z.of_nat (length (fullTable (2 ^ 31))))%Z as Hfull
    by (rewrite length_fullTable by lia; unfold CLUMP_ID_MAX; lia).
  destruct (too_many_clumps_is_thrown oneVertex
              (StxxlMesh.mkStxxl (mkMesh (fullTable (2 ^ 31)) ∅) [] [])
              (BigMesh.mkBig (mkMesh (fullTable (2 ^ 31)) ∅) Writer.closed "out.ply" 0 0 0 0))
    as (_ & Hs & Hb).
  - apply wf_fragmentb_correct. reflexivity.
  - unfold f_numVertices. simpl. lia.
  - exact Hfull.
  - exact Hfull.
  - split; [exact Hs|exact Hb].
Defined.

(** C9 at fragments of the generations 0 and 2. *)
Lemma chunk_table_dense_witness :
  ∃ s, OOCMesher.ingest [(OOCMesher.mkChunkId 0 (0, 0, 0)%Z, twoKeys 0);
                         (OOCMesher.mkChunkId 2 (2, 0, 0)%Z, twoKeys 10)]
                        OOCMesher.create = Ok s ∧
       length (OOCMesher.write (λ _, "out.ply"%string) 0 s) = 3 ∧
       OOCMesher.write (λ _, "out.ply"%string) 0 s !! 1 = Some (OOCMesher.mkOutput "out.ply" 0 0).
Proof.
  destruct (OOCMesher.ingest [(OOCMesher.mkChunkId 0 (0, 0, 0)%Z, twoKeys 0);
                              (OOCMesher.mkChunkId 2 (2, 0, 0)%Z, twoKeys 10)]
                             OOCMesher.create) as [s| |] eqn:Hrun;
    [|vm_compute in Hrun; discriminate..].
  exists s. split; [reflexivity|].
  destruct (chunk_table_dense (λ _, "out.ply"%string) 0%Z _ s Hrun) as (_ & Hlen & Hdef).
  split; [exact Hlen|].
  destruct (Hdef 1) as [_ Hout].
  - vm_compute. lia.
  - vm_compute. intros Hin. apply list_elem_of_In in Hin. simpl in Hin. intuition lia.
  - exact Hout.
Defined.

(** C10 at two fragments that share the keys 3 and 4. *)
Lemma counting_pass_matches_writing_pass_witness :
  ∃ b, BigMesh.run [twoKeys 0; twoKeys 10] (BigMesh.create "out.ply") = Ok b ∧
       BigMesh.nVertices b = 4%Z ∧ BigMesh.nTriangles b = 2%Z ∧
       BigMesh.nVertices b = wrap64 (Writer.written (Writer.vertexWrites (BigMesh.writer b))) ∧
       BigMesh.nTriangles b = wrap64 (Writer.written (Writer.triangleWrites (BigMesh.writer b))).
Proof.
  destruct (BigMesh.run [twoKeys 0; twoKeys 10] (BigMesh.create "out.ply")) as [b| |] eqn:Hrun;
    pose proof Hrun as Hval; vm_compute in Hval; try discriminate Hval.
  injection Hval as <-.
  assert (Forall wf_fragment [twoKeys 0; twoKeys 10]) as Hwf
    by (apply Forall_wf_fragmentb; vm_compute; reflexivity).
  eexists. split; [reflexivity|]. split; [reflexivity|]. split; [reflexivity|].
  destruct (counting_pass_matches_writing_pass "out.ply" [twoKeys 0; twoKeys 10] _ Hwf Hrun)
    as (_ & _ & Hv & Ht & _).
  split; [exact Hv|exact Ht].
Defined.

(** * [SimpleMesh]: the geometry is kept *)

(** ** Triangle soups *)

Lemma indices_corners tri :
  tri.1.1 ∈ indices tri ∧ tri.1.2 ∈ indices tri ∧ tri.2 ∈ indices tri.
Proof. unfold indices. split_and!; repeat constructor. Qed.

(** The three corners of a triangle all satisfy what its indices satisfy. *)
Lemma corners_all (P : Z → Prop) tri :
  (∀ v, v ∈ indices tri → P v) → P tri.1.1 ∧ P tri.1.2 ∧ P tri.2.
Proof.
  intros HP. destruct (indices_corners tri) as (H1 & H2 & H3). split_and!; by apply HP.
Qed.

Lemma corner_app_l vs vs' index :
  (0 ≤ index < Z.of_nat (length vs))%Z → corner (vs ++ vs') index = corner vs index.
Proof.
  intros Hi. unfold corner. rewrite !decide_True by lia. apply lookup_app_l. lia.
Qed.

Lemma corner_app_r vs vs' index :
  (0 ≤ index)%Z → corner (vs ++ vs') (index + Z.of_nat (length vs)) = corner vs' index.
Proof.
  intros Hi. unfold corner. rewrite !decide_True by lia.
  rewrite lookup_app_r by lia. f_equal. lia.
Qed.

Lemma soup_app vs tris tris' : soup vs (tris ++ tris') = soup vs tris ++ soup vs tris'.
Proof. unfold soup. by rewrite fmap_app. Qed.

Lemma soup_closed_app vs vs' tris :
  closed vs tris → soup (vs ++ vs') tris = soup vs tris.
Proof.
  intros Hc. unfold soup. apply list_fmap_ext. intros k tri Htri.
  apply list_elem_of_lookup_2 in Htri.
  destruct (corners_all (λ v, 0 ≤ v < Z.of_nat (length vs))%Z tri) as (H1 & H2 & H3);
    [intros v; apply (Hc tri v Htri)|].
  by rewrite !corner_app_l.
Qed.

Lemma closed_app vs vs' tris tris' :
  closed vs tris → closed (vs ++ vs') tris' → closed (vs ++ vs') (tris ++ tris').
Proof.
  intros Hc Hc' tri v [Htri|Htri]%elem_of_app Hv.
  - rewrite length_app. specialize (Hc tri v Htri Hv). lia.
  - by apply (Hc' tri v).
Qed.

Lemma soups_snoc frs fr : soups (frs ++ [fr]) = soups frs ++ soup (f_vertices fr) (f_triangles fr).
Proof. unfold soups. rewrite fmap_app, concat_app. simpl. by rewrite app_nil_r. Qed.

Lemma soups_cons fr frs : soups (fr :: frs) = soup (f_vertices fr) (f_triangles fr) ++ soups frs.
Proof. done. Qed.

Lemma totalVertices_cons fr frs :
  totalVertices (fr :: frs) = f_numVertices fr + totalVertices frs.
Proof. unfold totalVertices. simpl. by rewrite length_app. Qed.

(** ** [SimpleMesh] *)

Lemma globalIndex_small old index :
  (0 ≤ index)%Z → (index + Z.of_nat old < 2 ^ 32)%Z →
  SimpleMesh.globalIndex old index = (index + Z.of_nat old)%Z.
Proof. intros. unfold SimpleMesh.globalIndex. apply wrap32_small. lia. Qed.

Lemma simple_add fr s :
  closed (SimpleMesh.vertices s) (SimpleMesh.triangles s) →
  wf_triangles (f_numVertices fr) (f_triangles fr) →
  (Z.of_nat (length (SimpleMesh.vertices s) + f_numVertices fr) ≤ 2 ^ 32)%Z →
  let s' := SimpleMesh.add fr s in
  closed (SimpleMesh.vertices s') (SimpleMesh.triangles s') ∧
  SimpleMesh.vertices s' = SimpleMesh.vertices s ++ f_vertices fr ∧
  soup (SimpleMesh.vertices s') (SimpleMesh.triangles s') =
    soup (SimpleMesh.vertices s) (SimpleMesh.triangles s) ++
    soup (f_vertices fr) (f_triangles fr).
Proof.
  intros Hc Hwt Hfit. cbv zeta. unfold SimpleMesh.add. cbn [SimpleMesh.vertices SimpleMesh.triangles].
  assert (∀ tri v, tri ∈ f_triangles fr → v ∈ indices tri →
            (0 ≤ v)%Z ∧ (v + Z.of_nat (length (SimpleMesh.vertices s)) < 2 ^ 32)%Z ∧
            (v < Z.of_nat (f_numVertices fr))%Z) as Hidx.
  { intros tri v Htri Hv. specialize (Hwt tri v Htri Hv). lia. }
  split; [|split; [done|]].
  - apply closed_app; [done|].
    intros tri v (tri0 & -> & Htri0)%list_elem_of_fmap Hv. rewrite length_app.
    destruct (corners_all _ tri0 (λ v, Hidx tri0 v Htri0)) as (H1 & H2 & H3).
    unfold indices in Hv. cbn [fst snd] in Hv.
    rewrite !globalIndex_small in Hv by lia.
    fold (f_numVertices fr). rewrite !elem_of_cons, elem_of_nil in Hv. lia.
  - rewrite soup_app, soup_closed_app by done. f_equal.
    unfold soup. rewrite <-list_fmap_compose. apply list_fmap_ext. intros k tri Htri.
    apply list_elem_of_lookup_2 in Htri. simpl.
    destruct (corners_all _ tri (λ v, Hidx tri v Htri)) as (H1 & H2 & H3).
    rewrite !globalIndex_small by lia. rewrite !corner_app_r by lia. done.
Qed.

Lemma simple_addAll frs : ∀ s,
  closed (SimpleMesh.vertices s) (SimpleMesh.triangles s) →
  Forall (λ fr, wf_triangles (f_numVertices fr) (f_triangles fr)) frs →
  (Z.of_nat (length (SimpleMesh.vertices s) + totalVertices frs) ≤ 2 ^ 32)%Z →
  let s' := SimpleMesh.addAll frs s in
  closed (SimpleMesh.vertices s') (SimpleMesh.triangles s') ∧
  SimpleMesh.vertices s' = SimpleMesh.vertices s ++ concat (f_vertices <$> frs) ∧
  soup (SimpleMesh.vertices s') (SimpleMesh.triangles s') =
    soup (SimpleMesh.vertices s) (SimpleMesh.triangles s) ++ soups frs.
Proof.
  induction frs as [|fr frs IH]; intros s Hc Hwf Hfit; cbv zeta.
  - simpl. unfold soups. simpl. by rewrite !app_nil_r.
  - apply Forall_cons in Hwf as [Hwt Hwf]. rewrite totalVertices_cons in Hfit.
    destruct (simple_add fr s Hc Hwt ltac:(lia)) as (Hc1 & Hv1 & Hs1).
    unfold SimpleMesh.addAll. cbn [foldl]. fold (SimpleMesh.addAll frs (SimpleMesh.add fr s)).
    destruct (IH (SimpleMesh.add fr s) Hc1 Hwf) as (Hc2 & Hv2 & Hs2).
    { rewrite Hv1, length_app. fold (f_numVertices fr). lia. }
    split; [done|]. split.
    + rewrite Hv2, Hv1. cbn [fmap list_fmap concat]. by rewrite <-(assoc_L (++)).
    + rewrite Hs2, Hs1, soups_cons. by rewrite <-(assoc_L (++)).
Qed.

Lemma length_soup vs tris : length (soup vs tris) = length tris.
Proof. unfold soup. by rewrite length_fmap. Qed.

(** X1: [SimpleMesh] keeps the geometry.  When every fragment indexes its
    own vertices and there are no more than 2^32 vertices in all, the
    vertices of the mesh are the vertices of the fragments in the order in
    which they were added, its triangle soup is the soup of the fragments,
    and [write] declares and writes exactly these vertices and triangles,
    each in one write from position 0. *)
Theorem simple_mesh_keeps_geometry frs name :
  Forall (λ fr, wf_triangles (f_numVertices fr) (f_triangles fr)) frs →
  (Z.of_nat (totalVertices frs) ≤ 2 ^ 32)%Z →
  let s := SimpleMesh.addAll frs SimpleMesh.create in
  let w := SimpleMesh.write name s Writer.closed in
  SimpleMesh.vertices s = concat (f_vertices <$> frs) ∧
  closed (SimpleMesh.vertices s) (SimpleMesh.triangles s) ∧
  soup (SimpleMesh.vertices s) (SimpleMesh.triangles s) = soups frs ∧
  Writer.numVertices w = Z.of_nat (totalVertices frs) ∧
  Writer.numTriangles w = Z.of_nat (length (soups frs)) ∧
  Writer.vertexWrites w =
    [(0%Z, Z.of_nat (totalVertices frs), SimpleMesh.vertices s)] ∧
  Writer.triangleWrites w =
    [(0%Z, Z.of_nat (length (soups frs)), SimpleMesh.triangles s)].
Proof.
  intros Hwf Hfit. cbv zeta.
  destruct (simple_addAll frs SimpleMesh.create) as (Hc & Hv & Hs); [|done|simpl; lia|].
  { intros tri v Htri. by apply not_elem_of_nil in Htri. }
  simpl in Hv, Hs.
  assert (length (SimpleMesh.triangles (SimpleMesh.addAll frs SimpleMesh.create)) =
          length (soups frs)) as Hlt by (by rewrite <-Hs, length_soup).
  assert (length (SimpleMesh.vertices (SimpleMesh.addAll frs SimpleMesh.create)) =
          totalVertices frs) as Hlv by (by rewrite Hv).
  split_and!; try done.
  - unfold SimpleMesh.write. cbn. by rewrite Hlv.
  - unfold SimpleMesh.write. cbn. by rewrite Hlt.
  - unfold SimpleMesh.write. cbn. by rewrite Hlv.
  - unfold SimpleMesh.write. cbn. by rewrite Hlt.
Qed.

(** * [WeldMesh]: encoding, welding and the geometry *)

(** ** The encoding of [WeldMesh::add] *)

Lemma lnot32_involutive e : (0 ≤ e < 2 ^ 32)%Z → lnot32 (lnot32 e) = e.
Proof. intros He. rewrite (lnot32_eq e) by lia. rewrite lnot32_eq by lia. lia. Qed.

Lemma wrap32_add_r x y : wrap32 (x + wrap32 y) = wrap32 (x + y).
Proof. unfold wrap32. by rewrite Zplus_mod_idemp_r. Qed.

Lemma resize_exact {X} (d : X) (l : list X) : WeldMesh.resize (length l) d l = l.
Proof. unfold WeldMesh.resize. by rewrite firstn_all, Nat.sub_diag, app_nil_r. Qed.

Lemma length_resize {X} n (d : X) (l : list X) : length (WeldMesh.resize n d l) = n.
Proof. unfold WeldMesh.resize. rewrite length_app, length_take, length_replicate. lia. Qed.

(** An internal index moves by the number of internal vertices held. *)
Lemma encodeIndex_internal nI oldI oldE v :
  (0 ≤ v < Z.of_nat nI)%Z → (v + Z.of_nat oldI < 2 ^ 32)%Z →
  WeldMesh.encodeIndex nI (wrap32 (Z.of_nat oldI)) (wrap32 (Z.of_nat oldE - Z.of_nat nI)) v =
  (v + Z.of_nat oldI)%Z.
Proof.
  intros Hv Hfit. unfold WeldMesh.encodeIndex.
  destruct (Z.ltb_spec v (Z.of_nat nI)); [|lia].
  rewrite wrap32_add_r. apply wrap32_small. lia.
Qed.

(** An external index becomes the complement of its position among the
    external vertices held, also when the offset wraps around. *)
Lemma encodeIndex_external nI oldI oldE v :
  (Z.of_nat nI ≤ v)%Z → (Z.of_nat oldE + (v - Z.of_nat nI) < 2 ^ 32)%Z →
  WeldMesh.encodeIndex nI (wrap32 (Z.of_nat oldI)) (wrap32 (Z.of_nat oldE - Z.of_nat nI)) v =
  lnot32 (Z.of_nat oldE + (v - Z.of_nat nI)).
Proof.
  intros Hv Hfit. unfold WeldMesh.encodeIndex.
  destruct (Z.ltb_spec v (Z.of_nat nI)); [lia|].
  rewrite wrap32_add_r. f_equal. rewrite wrap32_small by lia. lia.
Qed.

Lemma weldCorner_internal int ext int' ext' v :
  (0 ≤ v < Z.of_nat (length int))%Z →
  weldCorner (int ++ int') (ext ++ ext') v = weldCorner int ext v.
Proof.
  intros Hv. unfold weldCorner. rewrite length_app.
  rewrite !decide_True by lia. apply lookup_app_l. lia.
Qed.

Lemma weldCorner_external int ext int' ext' e :
  (Z.of_nat (length int + length int') + Z.of_nat e < 2 ^ 32)%Z →
  e < length ext →
  weldCorner (int ++ int') (ext ++ ext') (lnot32 (Z.of_nat e)) =
  weldCorner int ext (lnot32 (Z.of_nat e)).
Proof.
  intros Hfit He. unfold weldCorner. rewrite length_app.
  rewrite (lnot32_eq (Z.of_nat e)) by lia.
  rewrite !decide_False by lia.
  rewrite lnot32_eq by lia. apply lookup_app_l. lia.
Qed.

Lemma weldCorner_new_internal int ext int' ext' v :
  (0 ≤ v < Z.of_nat (length int'))%Z →
  weldCorner (int ++ int') (ext ++ ext') (v + Z.of_nat (length int)) = int' !! Z.to_nat v.
Proof.
  intros Hv. unfold weldCorner. rewrite length_app. rewrite decide_True by lia.
  rewrite lookup_app_r by lia. f_equal. lia.
Qed.

Lemma weldCorner_new_external int ext int' ext' e :
  (Z.of_nat (length int + length int') + (Z.of_nat (length ext) + e) < 2 ^ 32)%Z → (0 ≤ e)%Z →
  weldCorner (int ++ int') (ext ++ ext') (lnot32 (Z.of_nat (length ext) + e)) =
  ext' !! Z.to_nat e.
Proof.
  intros Hfit He. unfold weldCorner. rewrite length_app.
  rewrite (lnot32_eq (Z.of_nat (length ext) + e)) by lia.
  rewrite !decide_False by lia.
  rewrite lnot32_eq by lia. rewrite lookup_app_r by lia. f_equal. lia.
Qed.

Lemma weld_add fr s :
  weldable s → wf_fragment fr →
  (Z.of_nat (length (WeldMesh.internalVertices s) + length (WeldMesh.externalVertices s) +
             f_numVertices fr) ≤ 2 ^ 32)%Z →
  let s' := WeldMesh.add fr s in
  weldable s' ∧
  WeldMesh.internalVertices s' =
    WeldMesh.internalVertices s ++ take (f_numInternal fr) (f_vertices fr) ∧
  WeldMesh.externalVertices s' =
    WeldMesh.externalVertices s ++ drop (f_numInternal fr) (f_vertices fr) ∧
  WeldMesh.externalKeys s' = WeldMesh.externalKeys s ++ f_keys fr ∧
  weldSoup s' = weldSoup s ++ soup (f_vertices fr) (f_triangles fr).
Proof.
  intros [Hkeys Hfits Hcoded] (HnI & Hnk & Hwt) Hfit. cbv zeta.
  set (int := WeldMesh.internalVertices s) in *.
  set (ext := WeldMesh.externalVertices s) in *.
  assert (length (take (f_numInternal fr) (f_vertices fr)) = f_numInternal fr) as Hlt
    by (rewrite length_take; unfold f_numVertices in HnI; lia).
  assert (length (drop (f_numInternal fr) (f_vertices fr)) =
          f_numVertices fr - f_numInternal fr) as Hld by (by rewrite length_drop).
  assert (WeldMesh.externalKeys (WeldMesh.add fr s) = WeldMesh.externalKeys s ++ f_keys fr) as Hk.
  { unfold WeldMesh.add. cbn [WeldMesh.externalKeys]. fold ext. rewrite <-Hnk, resize_exact.
    f_equal. unfold WeldMesh.resize. rewrite (take_ge (WeldMesh.externalKeys s)) by lia.
    rewrite take_app_le by lia. apply take_ge. lia. }
  assert (∀ tri v, tri ∈ f_triangles fr → v ∈ indices tri →
            let x := WeldMesh.encodeIndex (f_numInternal fr) (wrap32 (Z.of_nat (length int)))
                       (wrap32 (Z.of_nat (length ext) - Z.of_nat (f_numInternal fr))) v in
            ((0 ≤ x < Z.of_nat (length int + f_numInternal fr))%Z ∨
             ∃ e, e < length ext + (f_numVertices fr - f_numInternal fr) ∧
                  x = lnot32 (Z.of_nat e)) ∧
            weldCorner (int ++ take (f_numInternal fr) (f_vertices fr))
                       (ext ++ drop (f_numInternal fr) (f_vertices fr)) x =
            corner (f_vertices fr) v) as Hidx.
  { intros tri v Htri Hv. cbv zeta. specialize (Hwt tri v Htri Hv).
    destruct (decide (v < Z.of_nat (f_numInternal fr))%Z) as [Hi|He].
    - rewrite encodeIndex_internal by lia. split; [left; lia|].
      rewrite weldCorner_new_internal by lia. unfold corner. rewrite decide_True by lia.
      apply lookup_take_lt. lia.
    - rewrite encodeIndex_external by lia. split.
      + right. exists (length ext + Z.to_nat (v - Z.of_nat (f_numInternal fr))).
        split; [lia|]. f_equal. lia.
      + rewrite weldCorner_new_external by lia. unfold corner. rewrite decide_True by lia.
        rewrite lookup_drop. f_equal. lia. }
  split; [|split; [done|split; [done|split; [done|]]]].
  - split.
    + rewrite Hk. unfold WeldMesh.add. cbn [WeldMesh.externalVertices]. fold ext.
      rewrite !length_app, Hld. lia.
    + unfold WeldMesh.add. cbn [WeldMesh.internalVertices WeldMesh.externalVertices].
      fold int ext. rewrite !length_app, Hlt, Hld. lia.
    + unfold WeldMesh.add.
      cbn [WeldMesh.internalVertices WeldMesh.externalVertices WeldMesh.triangles].
      fold int ext. rewrite !length_app, Hlt, Hld.
      intros tri x [Htri|Htri]%elem_of_app Hx.
      * destruct (Hcoded tri x Htri Hx) as [Hin|(e & He & ->)]; [left; lia|].
        right. exists e. split; [lia|done].
      * apply list_elem_of_fmap in Htri as (tri0 & -> & Htri0).
        apply elem_of_indices in Hx.
        destruct (corners_all _ tri0 (λ v, Hidx tri0 v Htri0)) as ([H1 _] & [H2 _] & [H3 _]).
        destruct Hx as [-> | [-> | ->]]; assumption.
  - unfold weldSoup at 1. unfold WeldMesh.add.
    cbn [WeldMesh.internalVertices WeldMesh.externalVertices WeldMesh.triangles].
    fold int ext. rewrite fmap_app. f_equal.
    + unfold weldSoup. fold int ext. apply list_fmap_ext. intros k tri Htri.
      apply list_elem_of_lookup_2 in Htri.
      assert (∀ x, x ∈ indices tri →
                weldCorner (int ++ take (f_numInternal fr) (f_vertices fr))
                           (ext ++ drop (f_numInternal fr) (f_vertices fr)) x =
                weldCorner int ext x) as Hsame.
      { intros x Hx. destruct (Hcoded tri x Htri Hx) as [Hin|(e & He & ->)].
        - by apply weldCorner_internal.
        - apply weldCorner_external; [rewrite Hlt|done]. unfold f_numVertices in *. lia. }
      destruct (corners_all _ tri Hsame) as (-> & -> & ->). done.
    + unfold soup. rewrite <-list_fmap_compose. apply list_fmap_ext. intros k tri Htri.
      apply list_elem_of_lookup_2 in Htri. simpl.
      destruct (corners_all _ tri (λ v, Hidx tri v Htri)) as ([_ ->] & [_ ->] & [_ ->]). done.
Qed.

Lemma weldable_create : weldable WeldMesh.create.
Proof. split; [done|simpl; lia|]. intros tri x Htri. by apply not_elem_of_nil in Htri. Qed.

Lemma weldSoup_create : weldSoup WeldMesh.create = [].
Proof. done. Qed.

Lemma allKeys_cons fr frs : allKeys (fr :: frs) = f_keys fr ++ allKeys frs.
Proof. done. Qed.
Lemma allInternal_cons fr frs :
  allInternal (fr :: frs) = take (f_numInternal fr) (f_vertices fr) ++ allInternal frs.
Proof. done. Qed.
Lemma allExternal_cons fr frs :
  allExternal (fr :: frs) = drop (f_numInternal fr) (f_vertices fr) ++ allExternal frs.
Proof. done. Qed.

Lemma weld_addAll frs : ∀ s,
  weldable s → Forall wf_fragment frs →
  (Z.of_nat (length (WeldMesh.internalVertices s) + length (WeldMesh.externalVertices s) +
             totalVertices frs) ≤ 2 ^ 32)%Z →
  let s' := WeldMesh.addAll frs s in
  weldable s' ∧
  WeldMesh.internalVertices s' = WeldMesh.internalVertices s ++ allInternal frs ∧
  WeldMesh.externalVertices s' = WeldMesh.externalVertices s ++ allExternal frs ∧
  WeldMesh.externalKeys s' = WeldMesh.externalKeys s ++ allKeys frs ∧
  weldSoup s' = weldSoup s ++ soups frs.
Proof.
  induction frs as [|fr frs IH]; intros s Hs Hwf Hfit; cbv zeta.
  - simpl. unfold allInternal, allExternal, allKeys, soups. simpl. by rewrite !app_nil_r.
  - apply Forall_cons in Hwf as [Hfr Hwf]. rewrite totalVertices_cons in Hfit.
    destruct (weld_add fr s Hs Hfr ltac:(lia)) as (Hs1 & Hi1 & He1 & Hk1 & Hsoup1).
    unfold WeldMesh.addAll. cbn [foldl]. fold (WeldMesh.addAll frs (WeldMesh.add fr s)).
    destruct (IH (WeldMesh.add fr s) Hs1 Hwf) as (Hs2 & Hi2 & He2 & Hk2 & Hsoup2).
    { rewrite Hi1, He1, !length_app, length_take, length_drop.
      destruct Hfr as (HnI & _). unfold f_numVertices in *. lia. }
    split; [done|].
    rewrite Hi2, He2, Hk2, Hsoup2, Hi1, He1, Hk1, Hsoup1.
    rewrite allInternal_cons, allExternal_cons, allKeys_cons, soups_cons.
    by rewrite <-!(assoc_L (++)).
Qed.

(** ** Distinct keys and their ranks *)

Lemma distinctKeys_snoc keys k :
  distinctKeys (keys ++ [k]) =
  if decide (k ∈ distinctKeys keys) then distinctKeys keys else distinctKeys keys ++ [k].
Proof. unfold distinctKeys. by rewrite foldl_snoc. Qed.

Lemma elem_of_distinctKeys keys k : k ∈ distinctKeys keys ↔ k ∈ keys.
Proof.
  induction keys as [|k' keys IH] using rev_ind.
  - done.
  - rewrite distinctKeys_snoc, elem_of_app, list_elem_of_singleton.
    destruct (decide (k' ∈ distinctKeys keys)) as [Hin|Hout].
    + rewrite IH. split; [tauto|]. intros [?| ->]; [done|]. by apply IH.
    + rewrite elem_of_app, list_elem_of_singleton, IH. done.
Qed.

Lemma distinctKeys_NoDup keys : NoDup (distinctKeys keys).
Proof.
  induction keys as [|k keys IH] using rev_ind.
  - constructor.
  - rewrite distinctKeys_snoc. destruct (decide _) as [Hin|Hout]; [done|].
    apply NoDup_app. split; [done|]. split; [|apply NoDup_singleton].
    intros x Hx ->%list_elem_of_singleton. done.
Qed.

Lemma distinctKeys_length keys : length (distinctKeys keys) ≤ length keys.
Proof.
  induction keys as [|k keys IH] using rev_ind; [done|].
  rewrite distinctKeys_snoc, length_app. simpl.
  destruct (decide _); [lia|]. rewrite length_app. simpl. lia.
Qed.

(** The rank of a key is the position of its first occurrence. *)
Lemma rank_first ks k i :
  ks !! i = Some k → (∀ j, j < i → ks !! j ≠ Some k) → rank ks k = i.
Proof.
  intros Hi Hfirst. unfold rank.
  assert (list_find (λ x, x = k) ks = Some (i, k)) as ->; [|done].
  apply list_find_Some. split; [done|]. split; [done|].
  intros j y Hj Hlt ->. by apply (Hfirst j).
Qed.

Lemma rank_elem ks k :
  k ∈ ks → ks !! rank ks k = Some k ∧ ∀ j, j < rank ks k → ks !! j ≠ Some k.
Proof.
  intros Hk. unfold rank.
  destruct (list_find (λ x, x = k) ks) as [[i x]|] eqn:Hfind.
  - apply list_find_Some in Hfind as (Hi & -> & Hfirst). simpl. split; [done|].
    intros j Hj Hjk. by apply (Hfirst j k).
  - apply list_find_None in Hfind. exfalso.
    rewrite Forall_forall in Hfind. by apply (Hfind k).
Qed.

Lemma rank_lt ks k : k ∈ ks → rank ks k < length ks.
Proof. intros Hk. destruct (rank_elem ks k Hk) as [Hl _]. by eapply lookup_lt_Some. Qed.

Lemma rank_app_l ks ks' k : k ∈ ks → rank (ks ++ ks') k = rank ks k.
Proof.
  intros Hk. destruct (rank_elem ks k Hk) as [Hl Hfirst].
  apply rank_first.
  - by apply lookup_app_l_Some.
  - intros j Hj. rewrite lookup_app_l by (pose proof (rank_lt ks k Hk); lia). by apply Hfirst.
Qed.

Lemma rank_snoc_new ks k : k ∉ ks → rank (ks ++ [k]) k = length ks.
Proof.
  intros Hk. apply rank_first.
  - rewrite lookup_app_r by lia. by rewrite Nat.sub_diag.
  - intros j Hj. rewrite lookup_app_l by lia. intros Hjk. apply Hk.
    by eapply list_elem_of_lookup_2.
Qed.

Lemma rank_NoDup ks k q : NoDup ks → ks !! q = Some k → rank ks k = q.
Proof.
  intros Hnd Hq. apply rank_first; [done|].
  intros j Hj Hjk. pose proof (NoDup_lookup ks j q k Hnd Hjk Hq). lia.
Qed.

(** The first occurrence of a key that is new after [i] keys is at [i]. *)
Lemma rank_take_new keys i k :
  keys !! i = Some k → k ∉ take i keys → rank keys k = i.
Proof.
  intros Hi Hnew. apply rank_first; [done|].
  intros j Hj Hjk. apply Hnew. apply list_elem_of_lookup. exists j.
  by rewrite lookup_take_lt.
Qed.

Lemma rank_take_old keys i k : k ∈ take i keys → rank (take i keys) k = rank keys k.
Proof.
  intros Hk. rewrite <-(take_drop i keys) at 2. by rewrite rank_app_l.
Qed.

(** ** The welding loop of [WeldMesh::finalize] *)

Lemma wrap32_add_l x y : wrap32 (wrap32 x + y) = wrap32 (x + y).
Proof. unfold wrap32. by rewrite Zplus_mod_idemp_l. Qed.

Lemma weldVertex_inv nI keys ext i l :
  length keys = length ext → i < length keys →
  weldLoopInv nI keys ext i l → weldLoopInv nI keys ext (S i) (WeldMesh.weldVertex nI keys l i).
Proof.
  intros Hlen Hi [Hwelded Hplace Hrlen Hremap Hvlen Hrest Hkept].
  destruct (lookup_lt_is_Some_2 keys i Hi) as [k Hk].
  assert (take (S i) keys = take i keys ++ [k]) as Htake by (by apply take_S_r).
  set (ks := distinctKeys (take i keys)) in *.
  assert (distinctKeys (take (S i) keys) = if decide (k ∈ ks) then ks else ks ++ [k]) as Hks
    by (by rewrite Htake, distinctKeys_snoc).
  assert (∀ k', k' ∈ take (S i) keys ↔ k' ∈ take i keys ∨ k' = k) as Hmem
    by (intros k'; by rewrite Htake, elem_of_snoc).
  assert (WeldMesh.wl_welded l ≤ i) as Hle.
  { rewrite Hwelded. pose proof (distinctKeys_length (take i keys)).
    rewrite length_take in *. unfold ks. lia. }
  unfold WeldMesh.weldVertex. rewrite Hk. cbn [default from_option id].
  rewrite (Hplace k).
  destruct (decide (k ∈ take i keys)) as [Hold|Hnew].
  - (* the key has a place *)
    assert (k ∈ ks) as Hin by (by apply elem_of_distinctKeys).
    rewrite decide_True in Hks by done.
    split; cbn [WeldMesh.wl_welded WeldMesh.wl_place WeldMesh.wl_remap WeldMesh.wl_vertices];
      rewrite ?Hks.
    + done.
    + intros k'. rewrite Hplace. destruct (decide (k' ∈ take i keys)) as [Hk'|Hk'].
      * rewrite decide_True; [done|]. apply Hmem. by left.
      * rewrite decide_False; [done|]. rewrite Hmem. intros [?| ->]; done.
    + by rewrite length_insert.
    + intros j k' Hj Hjk. destruct (decide (j = i)) as [->|Hne].
      * assert (k' = k) as -> by congruence.
        rewrite list_lookup_insert_eq by lia. by rewrite wrap32_add_l.
      * rewrite list_lookup_insert_ne by done. apply Hremap; [lia|done].
    + done.
    + intros j Hj. apply Hrest. lia.
    + done.
  - (* the key is new *)
    assert (k ∉ ks) as Hout by (unfold ks; by rewrite elem_of_distinctKeys).
    rewrite decide_False in Hks by done.
    assert (is_Some (WeldMesh.wl_vertices l !! i)) as [v Hv]
      by (apply lookup_lt_is_Some_2; lia).
    rewrite Hv.
    split; cbn [WeldMesh.wl_welded WeldMesh.wl_place WeldMesh.wl_remap WeldMesh.wl_vertices];
      rewrite ?Hks.
    + rewrite length_app. simpl. lia.
    + intros k'. destruct (decide (k' = k)) as [->|Hne].
      * rewrite lookup_insert_eq. rewrite decide_True by (apply Hmem; by right).
        by rewrite rank_snoc_new, Hwelded.
      * rewrite lookup_insert_ne by done. rewrite Hplace.
        destruct (decide (k' ∈ take i keys)) as [Hk'|Hk'].
        -- rewrite decide_True by (apply Hmem; by left).
           rewrite rank_app_l; [done|]. by apply elem_of_distinctKeys.
        -- rewrite decide_False; [done|]. rewrite Hmem. tauto.
    + by rewrite length_insert.
    + intros j k' Hj Hjk. destruct (decide (j = i)) as [->|Hne].
      * assert (k' = k) as -> by congruence.
        rewrite list_lookup_insert_eq by lia. by rewrite rank_snoc_new, Hwelded.
      * rewrite list_lookup_insert_ne by done. rewrite (Hremap j k') by (done || lia).
        rewrite rank_app_l; [done|]. apply elem_of_distinctKeys.
        apply list_elem_of_lookup. exists j. rewrite lookup_take_lt by lia. done.
    + by rewrite length_insert.
    + intros j Hj. rewrite list_lookup_insert_ne by lia. apply Hrest. lia.
    + intros q k' Hq. destruct (decide (q = length ks)) as [->|Hne].
      * rewrite lookup_app_r in Hq by lia. rewrite Nat.sub_diag in Hq. injection Hq as <-.
        rewrite Hwelded. rewrite list_lookup_insert_eq by (rewrite Hvlen; fold ks in Hle; lia).
        rewrite (rank_take_new keys i k Hk Hnew). rewrite <-Hv. apply Hrest. lia.
      * assert (q < length ks) as Hlt.
        { apply lookup_lt_Some in Hq. rewrite length_app in Hq. simpl in Hq. lia. }
        rewrite lookup_app_l in Hq by done.
        rewrite list_lookup_insert_ne by (rewrite Hwelded; lia). by apply Hkept.
Qed.

Lemma weldLoop_inv nI keys ext : ∀ n l,
  length keys = length ext → n ≤ length keys →
  weldLoopInv nI keys ext 0 l →
  weldLoopInv nI keys ext n (foldl (WeldMesh.weldVertex nI keys) l (seq 0 n)).
Proof.
  intros n l Hlen. induction n as [|n IH]; intros Hn Hinv; [done|].
  rewrite seq_S, foldl_snoc. simpl. apply weldVertex_inv; [done|lia|]. apply IH; [lia|done].
Qed.

Lemma weldLoop_init nI keys ext :
  weldLoopInv nI keys ext 0 (WeldMesh.mkWeldLoop ∅ (replicate (length ext) 0%Z) ext 0).
Proof.
  split; cbn [WeldMesh.wl_welded WeldMesh.wl_place WeldMesh.wl_remap WeldMesh.wl_vertices].
  - done.
  - intros k. rewrite lookup_empty. rewrite take_0. by rewrite decide_False by apply not_elem_of_nil.
  - by rewrite length_replicate.
  - intros j k Hj. lia.
  - done.
  - done.
  - intros q k Hq. rewrite take_0 in Hq. done.
Qed.

Lemma weldAll_inv s :
  weldable s →
  weldLoopInv (length (WeldMesh.internalVertices s)) (WeldMesh.externalKeys s)
              (WeldMesh.externalVertices s) (length (WeldMesh.externalVertices s))
              (WeldMesh.weldAll s).
Proof.
  intros [Hkeys _ _]. unfold WeldMesh.weldAll. cbv zeta.
  apply weldLoop_inv; [done|lia|apply weldLoop_init].
Qed.

(** What [finalize] does to an index. *)
Lemma finalIndex_internal nI remap x :
  (x < Z.of_nat nI)%Z → WeldMesh.finalIndex nI remap x = x.
Proof. intros Hx. unfold WeldMesh.finalIndex. destruct (Z.leb_spec (Z.of_nat nI) x); [lia|done]. Qed.

Lemma finalIndex_external s e k :
  weldable s → WeldMesh.externalKeys s !! e = Some k →
  WeldMesh.finalIndex (length (WeldMesh.internalVertices s))
    (WeldMesh.wl_remap (WeldMesh.weldAll s)) (lnot32 (Z.of_nat e)) =
  (Z.of_nat (length (WeldMesh.internalVertices s)) +
   Z.of_nat (rank (distinctKeys (WeldMesh.externalKeys s)) k))%Z.
Proof.
  intros Hs Hk. pose proof (weldAll_inv s Hs) as Hinv. destruct Hs as [Hkeys Hfits _].
  assert (e < length (WeldMesh.externalVertices s)) as He
    by (rewrite <-Hkeys; by eapply lookup_lt_Some).
  unfold WeldMesh.finalIndex. rewrite (lnot32_eq (Z.of_nat e)) by lia.
  destruct (Z.leb_spec (Z.of_nat (length (WeldMesh.internalVertices s)))
                       (2 ^ 32 - 1 - Z.of_nat e)); [|lia].
  rewrite lnot32_eq by lia.
  replace (Z.to_nat (2 ^ 32 - 1 - (2 ^ 32 - 1 - Z.of_nat e))) with e by lia.
  rewrite (wli_remap _ _ _ _ _ Hinv e k He Hk). cbn [default from_option id].
  rewrite <-Hkeys, firstn_all.
  assert (rank (distinctKeys (WeldMesh.externalKeys s)) k <
          length (distinctKeys (WeldMesh.externalKeys s))) as Hr.
  { apply rank_lt, elem_of_distinctKeys. by eapply list_elem_of_lookup_2. }
  pose proof (distinctKeys_length (WeldMesh.externalKeys s)).
  rewrite wrap32_small by lia. lia.
Qed.

Lemma finalize_external s :
  weldable s →
  length (WeldMesh.externalVertices (WeldMesh.finalize s)) =
    length (distinctKeys (WeldMesh.externalKeys s)) ∧
  ∀ q k, distinctKeys (WeldMesh.externalKeys s) !! q = Some k →
    WeldMesh.externalVertices (WeldMesh.finalize s) !! q =
    WeldMesh.externalVertices s !! rank (WeldMesh.externalKeys s) k.
Proof.
  intros Hs. pose proof (weldAll_inv s Hs) as Hinv. destruct Hs as [Hkeys _ _].
  pose proof (wli_welded _ _ _ _ _ Hinv) as Hw. rewrite <-Hkeys, firstn_all in Hw.
  pose proof (wli_length _ _ _ _ _ Hinv) as Hl.
  pose proof (distinctKeys_length (WeldMesh.externalKeys s)) as Hd.
  unfold WeldMesh.finalize. cbn [WeldMesh.externalVertices]. split.
  - by rewrite length_resize.
  - intros q k Hq. unfold WeldMesh.resize.
    assert (q < WeldMesh.wl_welded (WeldMesh.weldAll s)) as Hlt
      by (rewrite Hw; by eapply lookup_lt_Some).
    rewrite lookup_app_l by (rewrite length_take; lia).
    rewrite lookup_take_lt by done.
    apply (wli_kept _ _ _ _ _ Hinv). by rewrite <-Hkeys, firstn_all.
Qed.

Lemma finalize_soup s :
  weldable s → consistent (WeldMesh.externalKeys s) (WeldMesh.externalVertices s) →
  let s' := WeldMesh.finalize s in
  closed (WeldMesh.internalVertices s' ++ WeldMesh.externalVertices s') (WeldMesh.triangles s') ∧
  soup (WeldMesh.internalVertices s' ++ WeldMesh.externalVertices s') (WeldMesh.triangles s') =
    weldSoup s.
Proof.
  intros Hs Hcons. cbv zeta.
  destruct (finalize_external s Hs) as [Hlen Hkept].
  pose proof Hs as [Hkeys Hfits Hcoded].
  set (int := WeldMesh.internalVertices s) in *.
  set (ext := WeldMesh.externalVertices s) in *.
  set (keys := WeldMesh.externalKeys s) in *.
  set (ext' := WeldMesh.externalVertices (WeldMesh.finalize s)) in *.
  assert (WeldMesh.internalVertices (WeldMesh.finalize s) = int) as -> by done.
  assert (∀ tri x, tri ∈ WeldMesh.triangles s → x ∈ indices tri →
            let y := WeldMesh.finalIndex (length int)
                       (WeldMesh.wl_remap (WeldMesh.weldAll s)) x in
            (0 ≤ y < Z.of_nat (length (int ++ ext')))%Z ∧
            corner (int ++ ext') y = weldCorner int ext x) as Hidx.
  { intros tri x Htri Hx. cbv zeta.
    destruct (Hcoded tri x Htri Hx) as [Hin|(e & He & ->)].
    - rewrite finalIndex_internal by lia. rewrite length_app. split; [lia|].
      unfold corner, weldCorner. rewrite !decide_True by lia. apply lookup_app_l. lia.
    - destruct (lookup_lt_is_Some_2 keys e) as [k Hk]; [lia|].
      pose proof (finalIndex_external s e k Hs Hk) as Hfe. fold int keys in Hfe. rewrite Hfe.
      assert (k ∈ distinctKeys keys) as Hin
        by (apply elem_of_distinctKeys; by eapply list_elem_of_lookup_2).
      pose proof (rank_lt _ _ Hin) as Hr. destruct (rank_elem _ _ Hin) as [Hrk _].
      rewrite length_app. split; [lia|].
      unfold corner. rewrite decide_True by lia.
      rewrite lookup_app_r by lia.
      replace (Z.to_nat (Z.of_nat (length int) + Z.of_nat (rank (distinctKeys keys) k)) -
               length int) with (rank (distinctKeys keys) k) by lia.
      rewrite (Hkept _ _ Hrk).
      assert (k ∈ keys) as Hink by (by eapply list_elem_of_lookup_2).
      destruct (rank_elem _ _ Hink) as [Hfirst _].
      rewrite (Hcons _ _ _ Hfirst Hk).
      unfold weldCorner. rewrite (lnot32_eq (Z.of_nat e)) by lia.
      rewrite decide_False by lia. rewrite lnot32_eq by lia. f_equal. lia. }
  split.
  - intros tri y (tri0 & -> & Htri0)%list_elem_of_fmap Hy.
    apply elem_of_indices in Hy.
    destruct (corners_all _ tri0 (λ x, Hidx tri0 x Htri0)) as ([H1 _] & [H2 _] & [H3 _]).
    destruct Hy as [-> | [-> | ->]]; assumption.
  - unfold soup, weldSoup. fold int ext. cbn [WeldMesh.triangles WeldMesh.finalize].
    rewrite <-list_fmap_compose. apply list_fmap_ext. intros j tri Htri.
    apply list_elem_of_lookup_2 in Htri. simpl. fold int.
    destruct (corners_all _ tri (λ x, Hidx tri x Htri)) as ([_ ->] & [_ ->] & [_ ->]). done.
Qed.

Lemma weld_addAll_create frs :
  Forall wf_fragment frs → (Z.of_nat (totalVertices frs) ≤ 2 ^ 32)%Z →
  let s := WeldMesh.addAll frs WeldMesh.create in
  weldable s ∧
  WeldMesh.internalVertices s = allInternal frs ∧
  WeldMesh.externalVertices s = allExternal frs ∧
  WeldMesh.externalKeys s = allKeys frs ∧
  weldSoup s = soups frs.
Proof.
  intros Hwf Hfit.
  apply (weld_addAll frs WeldMesh.create weldable_create Hwf). simpl. lia.
Qed.

(** X2: between [WeldMesh::add] and [WeldMesh::finalize] every index of a
    stored triangle can be decoded.  When the fragments are well formed and
    have no more than 2^32 vertices in all, an index below the number of
    internal vertices stands for an internal vertex and any other index is
    the complement of an external index, also when the offset of the
    external indices wrapped around; decoded this way, the triangles are the
    triangle soup of the fragments. *)
Theorem weld_mesh_add_decodes frs :
  Forall wf_fragment frs → (Z.of_nat (totalVertices frs) ≤ 2 ^ 32)%Z →
  let s := WeldMesh.addAll frs WeldMesh.create in
  WeldMesh.internalVertices s = allInternal frs ∧
  WeldMesh.externalVertices s = allExternal frs ∧
  WeldMesh.externalKeys s = allKeys frs ∧
  coded (length (allInternal frs)) (length (allExternal frs)) (WeldMesh.triangles s) ∧
  weldSoup s = soups frs.
Proof.
  intros Hwf Hfit. cbv zeta.
  destruct (weld_addAll_create frs Hwf Hfit) as ([_ _ Hcoded] & Hi & He & Hk & Hs).
  rewrite Hi, He in Hcoded. done.
Qed.

(** X3: [WeldMesh::finalize] keeps one external vertex for every distinct
    key: the first vertex that has the key, in the order in which the keys
    first occur.  The internal vertices stay and the keys are thrown away. *)
Theorem weld_mesh_keeps_first_vertices frs :
  Forall wf_fragment frs → (Z.of_nat (totalVertices frs) ≤ 2 ^ 32)%Z →
  let s := WeldMesh.finalize (WeldMesh.addAll frs WeldMesh.create) in
  WeldMesh.internalVertices s = allInternal frs ∧
  WeldMesh.externalKeys s = [] ∧
  length (WeldMesh.externalVertices s) = length (distinctKeys (allKeys frs)) ∧
  ∀ q k, distinctKeys (allKeys frs) !! q = Some k →
    WeldMesh.externalVertices s !! q = allExternal frs !! rank (allKeys frs) k.
Proof.
  intros Hwf Hfit. cbv zeta.
  destruct (weld_addAll_create frs Hwf Hfit) as (Hw & Hi & He & Hk & _).
  destruct (finalize_external _ Hw) as [Hlen Hkept]. rewrite Hk in Hlen, Hkept.
  rewrite He in Hkept. split; [done|]. split; [done|]. split; [done|]. exact Hkept.
Qed.

(** X4: [WeldMesh::finalize] welds by key.  The indices that it gives to two
    external vertices are equal if and only if the keys of the vertices are
    equal, and each is the index of a welded external vertex. *)
Theorem weld_mesh_same_index_iff_same_key s e1 e2 k1 k2 :
  weldable s →
  WeldMesh.externalKeys s !! e1 = Some k1 → WeldMesh.externalKeys s !! e2 = Some k2 →
  let final := WeldMesh.finalIndex (length (WeldMesh.internalVertices s))
                                   (WeldMesh.wl_remap (WeldMesh.weldAll s)) in
  (final (lnot32 (Z.of_nat e1)) = final (lnot32 (Z.of_nat e2)) ↔ k1 = k2) ∧
  (Z.of_nat (length (WeldMesh.internalVertices s)) ≤ final (lnot32 (Z.of_nat e1)) <
   Z.of_nat (length (WeldMesh.internalVertices s) +
             length (WeldMesh.externalVertices (WeldMesh.finalize s))))%Z.
Proof.
  intros Hs H1 H2. cbv zeta.
  rewrite (finalIndex_external s e1 k1 Hs H1), (finalIndex_external s e2 k2 Hs H2).
  destruct (finalize_external s Hs) as [Hlen _].
  assert (k1 ∈ distinctKeys (WeldMesh.externalKeys s)) as Hin1
    by (apply elem_of_distinctKeys; by eapply list_elem_of_lookup_2).
  assert (k2 ∈ distinctKeys (WeldMesh.externalKeys s)) as Hin2
    by (apply elem_of_distinctKeys; by eapply list_elem_of_lookup_2).
  split.
  - split; [|by intros ->]. intros Heq.
    destruct (rank_elem _ _ Hin1) as [Hr1 _]. destruct (rank_elem _ _ Hin2) as [Hr2 _].
    assert (rank (distinctKeys (WeldMesh.externalKeys s)) k1 =
            rank (distinctKeys (WeldMesh.externalKeys s)) k2) as Hr by lia.
    rewrite Hr in Hr1. congruence.
  - pose proof (rank_lt _ _ Hin1). lia.
Qed.

(** X5: [WeldMesh] keeps the geometry.  When the fragments are well formed,
    have no more than 2^32 vertices in all, and give the same coordinates to
    external vertices with the same key, the triangle soup of the finalized
    mesh is the soup of the fragments; [write] declares the internal
    vertices plus one vertex for every distinct key, and writes the internal
    vertices, then the welded external vertices behind them, then the
    triangles. *)
Theorem weld_mesh_keeps_geometry frs name :
  Forall wf_fragment frs → (Z.of_nat (totalVertices frs) ≤ 2 ^ 32)%Z →
  consistent (allKeys frs) (allExternal frs) →
  let s := WeldMesh.finalize (WeldMesh.addAll frs WeldMesh.create) in
  let vs := WeldMesh.internalVertices s ++ WeldMesh.externalVertices s in
  let w := WeldMesh.write name s Writer.closed in
  closed vs (WeldMesh.triangles s) ∧
  soup vs (WeldMesh.triangles s) = soups frs ∧
  Writer.numVertices w =
    Z.of_nat (length (allInternal frs) + length (distinctKeys (allKeys frs))) ∧
  Writer.numTriangles w = Z.of_nat (length (soups frs)) ∧
  sequential 0 (Writer.vertexWrites w) ∧ flat (Writer.vertexWrites w) = vs ∧
  sequential 0 (Writer.triangleWrites w) ∧
  flat (Writer.triangleWrites w) = WeldMesh.triangles s.
Proof.
  intros Hwf Hfit Hcons. cbv zeta.
  destruct (weld_addAll_create frs Hwf Hfit) as (Hw & Hi & He & Hk & Hs).
  rewrite <-Hk, <-He in Hcons.
  destruct (finalize_soup _ Hw Hcons) as [Hclosed Hsoup]. cbv zeta in Hclosed, Hsoup.
  destruct (finalize_external _ Hw) as [Hlen _]. rewrite Hk in Hlen.
  set (s := WeldMesh.finalize (WeldMesh.addAll frs WeldMesh.create)) in *.
  assert (WeldMesh.internalVertices s = allInternal frs) as Hint by (by rewrite <-Hi).
  assert (length (WeldMesh.triangles s) = length (soups frs)) as Hlt.
  { rewrite <-Hs, <-Hsoup. by rewrite length_soup. }
  split; [done|]. split; [by rewrite Hsoup|].
  clearbody s. unfold WeldMesh.write. cbn. rewrite Hlt, Hlen, Hint.
  split_and!; try done.
  - lia.
  - unfold flat. simpl. by rewrite app_nil_r.
  - unfold flat. simpl. by rewrite app_nil_r.
Qed.

(** * The key map after [updateKeyMap] *)

(** ** The loop of [updateKeyMap] *)

Lemma newKeysOf_snoc km seen k :
  newKeysOf km (seen ++ [k]) =
  if decide (km !! k = None ∧ k ∉ seen) then newKeysOf km seen ++ [k] else newKeysOf km seen.
Proof.
  unfold newKeysOf. rewrite filter_app, filter_cons, filter_nil.
  destruct (decide (km !! k = None)) as [Hnone|Hsome].
  - rewrite distinctKeys_snoc.
    destruct (decide (k ∈ distinctKeys (filter (λ k0, km !! k0 = None) seen))) as [Hin|Hout].
    + rewrite decide_False; [done|]. intros [_ Hk]. apply Hk.
      apply elem_of_distinctKeys, list_elem_of_filter in Hin. tauto.
    + rewrite decide_True; [done|]. split; [done|]. intros Hk. apply Hout.
      apply elem_of_distinctKeys, list_elem_of_filter. done.
  - rewrite app_nil_r. rewrite decide_False; [done|]. tauto.
Qed.

Lemma elem_of_newKeysOf km seen k : k ∈ newKeysOf km seen ↔ km !! k = None ∧ k ∈ seen.
Proof. unfold newKeysOf. by rewrite elem_of_distinctKeys, list_elem_of_filter. Qed.

Lemma keyMapAfter_snoc_old km off nI cid keys seen k k' :
  k' ∈ seen ∨ is_Some (km !! k') →
  keyMapAfter km off nI cid keys (seen ++ [k]) k' = keyMapAfter km off nI cid keys seen k'.
Proof.
  intros Hk'. unfold keyMapAfter. destruct (km !! k') as [ed|] eqn:Hkm; [done|].
  destruct Hk' as [Hin|[? ?]]; [|done].
  rewrite !decide_True by (rewrite ?elem_of_snoc; tauto).
  rewrite newKeysOf_snoc. destruct (decide _); [|done].
  rewrite rank_app_l; [done|]. by apply elem_of_newKeysOf.
Qed.

Lemma updateKey_inv km off nI cid keys seen s k :
  keys !! length seen = Some k → take (length seen) keys = seen →
  keyLoopInv km off nI cid keys seen s →
  keyLoopInv km off nI cid keys (seen ++ [k]) (updateKey nI off cid s (length seen) k).
Proof.
  intros Hk Hseen [Hnk Hkm Hlen Htab].
  assert (length seen < length keys) as Hlt by (by eapply lookup_lt_Some).
  destruct (kl_keyMap s !! k) as [ed|] eqn:Hlook.
  - (* the key is present *)
    rewrite (updateKey_Some _ _ _ _ _ _ ed Hlook).
    assert (k ∈ seen ∨ is_Some (km !! k)) as Hold.
    { rewrite Hkm in Hlook. unfold keyMapAfter in Hlook.
      destruct (km !! k); [by right; eauto|]. destruct (decide (k ∈ seen)); [by left|done]. }
    assert (newKeysOf km (seen ++ [k]) = newKeysOf km seen) as Hnews.
    { rewrite newKeysOf_snoc. rewrite decide_False; [done|].
      intros [Hnone Hout]. destruct Hold as [?|[? ?]]; [done|congruence]. }
    split; cbn [kl_newKeys kl_keyMap kl_indexTable].
    + by rewrite Hnews.
    + intros k'. rewrite Hkm. unfold keyMapAfter. rewrite Hnews.
      destruct (km !! k') as [?|] eqn:Hkm'; [done|].
      destruct (decide (k' ∈ seen)) as [Hin|Hout].
      * rewrite decide_True; [done|]. rewrite elem_of_snoc. tauto.
      * rewrite decide_False; [done|]. rewrite elem_of_snoc. intros [?| ->]; [done|].
        destruct Hold as [?|[? ?]]; [done|congruence].
    + by rewrite length_insert.
    + intros j k' Hj Hjk. rewrite length_app in Hj. simpl in Hj.
      destruct (decide (j = length seen)) as [->|Hne].
      * assert (k' = k) as -> by congruence.
        rewrite list_lookup_insert_eq by lia.
        rewrite keyMapAfter_snoc_old by done. by rewrite <-Hkm, Hlook.
      * rewrite list_lookup_insert_ne by done. rewrite (Htab j k') by (done || lia).
        rewrite keyMapAfter_snoc_old; [done|]. left. rewrite <-Hseen.
        apply list_elem_of_lookup. exists j. rewrite lookup_take_lt by lia. done.
  - (* the key is new *)
    rewrite (updateKey_None _ _ _ _ _ _ Hlook).
    assert (km !! k = None ∧ k ∉ seen) as [Hnone Hout].
    { rewrite Hkm in Hlook. unfold keyMapAfter in Hlook.
      destruct (km !! k); [done|]. destruct (decide (k ∈ seen)); [done|]. done. }
    assert (newKeysOf km (seen ++ [k]) = newKeysOf km seen ++ [k]) as Hnews.
    { rewrite newKeysOf_snoc. by rewrite decide_True. }
    assert (k ∉ newKeysOf km seen) as Hnot by (rewrite elem_of_newKeysOf; tauto).
    assert (rank keys k = length seen) as Hrank.
    { apply rank_take_new; [done|]. by rewrite Hseen. }
    assert (keyMapAfter km off nI cid keys (seen ++ [k]) k =
            Some (mkExternal (wrap32 (off + kl_newKeys s))
                             (default 0 (cid !! (length seen + nI))))) as Hnew.
    { unfold keyMapAfter. rewrite Hnone. rewrite decide_True by (rewrite elem_of_snoc; tauto).
      by rewrite Hnews, rank_snoc_new, Hrank, Hnk. }
    split; cbn [kl_newKeys kl_keyMap kl_indexTable].
    + rewrite Hnews, length_app, Hnk. simpl. lia.
    + intros k'. destruct (decide (k' = k)) as [->|Hne].
      * by rewrite lookup_insert_eq, Hnew.
      * rewrite lookup_insert_ne by done. rewrite Hkm. unfold keyMapAfter.
        destruct (km !! k') as [?|] eqn:Hkm'; [done|].
        destruct (decide (k' ∈ seen)) as [Hin|Hout'].
        -- rewrite decide_True by (rewrite elem_of_snoc; tauto).
           rewrite Hnews, rank_app_l; [done|]. by apply elem_of_newKeysOf.
        -- rewrite decide_False; [done|]. rewrite elem_of_snoc. tauto.
    + by rewrite length_insert.
    + intros j k' Hj Hjk. rewrite length_app in Hj. simpl in Hj.
      destruct (decide (j = length seen)) as [->|Hne].
      * assert (k' = k) as -> by congruence.
        rewrite list_lookup_insert_eq by lia. by rewrite Hnew.
      * rewrite list_lookup_insert_ne by done. rewrite (Htab j k') by (done || lia).
        rewrite keyMapAfter_snoc_old; [done|]. left. rewrite <-Hseen.
        apply list_elem_of_lookup. exists j. rewrite lookup_take_lt by lia. done.
Qed.

Lemma updateKeys_table km off nI cid keys : ∀ rest seen s,
  keys = seen ++ rest →
  keyLoopInv km off nI cid keys seen s →
  keyLoopInv km off nI cid keys keys (updateKeys nI off cid (length seen) rest s).
Proof.
  induction rest as [|k rest IH]; intros seen s Hkeys Hinv.
  - rewrite app_nil_r in Hkeys. by subst.
  - cbn [updateKeys].
    replace (S (length seen)) with (length (seen ++ [k])) by (rewrite length_app; simpl; lia).
    apply IH; [by rewrite <-(assoc_L (++))|].
    apply updateKey_inv; [| |done].
    + rewrite Hkeys, lookup_app_r by lia. by rewrite Nat.sub_diag.
    + rewrite Hkeys. by rewrite take_app_length.
Qed.

Lemma keyLoopInv_init km off nI cid keys cl :
  keyLoopInv km off nI cid keys [] (mkKeyLoop cl km 0 (replicate (length keys) 0%Z)).
Proof.
  split; cbn [kl_newKeys kl_keyMap kl_indexTable].
  - done.
  - intros k. unfold keyMapAfter. destruct (km !! k); [done|].
    by rewrite decide_False by apply not_elem_of_nil.
  - by rewrite length_replicate.
  - intros j k Hj. simpl in Hj. lia.
Qed.

Lemma updateKeyMap_table off keys cid m :
  let '(m', nk, it) := updateKeyMap off keys cid m in
  keyLoopInv (keyMap m) off (length cid - length keys) cid keys keys
             (mkKeyLoop (clumps m') (keyMap m') nk it).
Proof.
  unfold updateKeyMap. cbv zeta.
  pose proof (updateKeys_table (keyMap m) off (length cid - length keys) cid keys keys []
                (mkKeyLoop (clumps m) (keyMap m) 0 (replicate (length keys) 0%Z)) eq_refl
                (keyLoopInv_init _ _ _ _ _ _)) as Hinv.
  simpl in Hinv. destruct Hinv as [H1 H2 H3 H4]. split; done.
Qed.

(** X6: [KeyMapMesh::updateKeyMap] never changes or removes an entry of the
    key map and adds no key that the fragment does not have.  The keys that
    are new get consecutive output indices from [vertexOffset] on, in the
    order in which they first occur, together with the clump of the first
    vertex that has the key; their number is the value returned.  The index
    table has one entry for every external vertex: the output index that the
    key map holds for the key of that vertex. *)
Theorem update_key_map_assigns_indices off keys cid m :
  let r := updateKeyMap off keys cid m in
  let news := newKeysOf (keyMap m) keys in
  r.1.2 = Z.of_nat (length news) ∧
  length r.2 = length keys ∧
  (∀ k ed, keyMap m !! k = Some ed → keyMap r.1.1 !! k = Some ed) ∧
  (∀ k, keyMap m !! k = None → k ∉ keys → keyMap r.1.1 !! k = None) ∧
  (∀ q k, news !! q = Some k →
     keyMap r.1.1 !! k =
     Some (mkExternal (wrap32 (off + Z.of_nat q))
                      (default 0 (cid !! (rank keys k + (length cid - length keys)))))) ∧
  (∀ i k, keys !! i = Some k →
     ∃ ed, keyMap r.1.1 !! k = Some ed ∧ r.2 !! i = Some (vertexId ed)).
Proof.
  intros r news. pose proof (updateKeyMap_table off keys cid m) as Hinv.
  fold r in Hinv. destruct r as [[m' nk] it]. destruct Hinv as [Hnk Hkm Hlen Htab].
  cbn [fst snd kl_newKeys kl_keyMap kl_indexTable] in *.
  split_and!.
  - done.
  - done.
  - intros k ed Hk. rewrite Hkm. unfold keyMapAfter. by rewrite Hk.
  - intros k Hk Hout. rewrite Hkm. unfold keyMapAfter. rewrite Hk. by rewrite decide_False.
  - intros q k Hq.
    assert (k ∈ news) as Hin by (by eapply list_elem_of_lookup_2).
    apply elem_of_newKeysOf in Hin as [Hnone Hin].
    rewrite Hkm. unfold keyMapAfter. rewrite Hnone, decide_True by done.
    fold news. rewrite (rank_NoDup news k q); [done| |done]. apply distinctKeys_NoDup.
  - intros i k Hi.
    assert (k ∈ keys) as Hin by (by eapply list_elem_of_lookup_2).
    rewrite (Htab i k) by (done || by eapply lookup_lt_Some).
    rewrite Hkm. destruct (keyMapAfter _ _ _ _ _ _ k) as [ed|] eqn:Hafter; [by exists ed|].
    unfold keyMapAfter in Hafter. destruct (keyMap m !! k); [done|].
    by rewrite decide_True in Hafter.
Qed.

(** * [StxxlMesh]: what is stored *)

(** ** New keys of a growing list *)

Lemma distinctKeys_app_prefix l l' : ∃ X, distinctKeys (l ++ l') = distinctKeys l ++ X.
Proof.
  induction l' as [|k l' IH] using rev_ind.
  - exists []. by rewrite !app_nil_r.
  - destruct IH as [X HX]. rewrite (assoc_L (++)), distinctKeys_snoc, HX.
    destruct (decide _); [by exists X|]. exists (X ++ [k]). by rewrite <-(assoc_L (++)).
Qed.

Lemma newKeysOf_app_prefix km l l' : ∃ X, newKeysOf km (l ++ l') = newKeysOf km l ++ X.
Proof. unfold newKeysOf. rewrite filter_app. apply distinctKeys_app_prefix. Qed.

Lemma newKeysOf_take_prefix km keys i :
  ∃ X, newKeysOf km keys = newKeysOf km (take i keys) ++ X.
Proof.
  destruct (newKeysOf_app_prefix km (take i keys) (drop i keys)) as [X HX].
  rewrite take_drop in HX. by exists X.
Qed.

(** The rank of a new key among the new keys of the whole list is its rank
    among the new keys of any prefix that holds it. *)
Lemma rank_newKeysOf_take km keys i k :
  k ∈ newKeysOf km (take i keys) →
  rank (newKeysOf km keys) k = rank (newKeysOf km (take i keys)) k.
Proof.
  intros Hk. destruct (newKeysOf_take_prefix km keys i) as [X ->]. by apply rank_app_l.
Qed.

(** A key that is new at position [i] is the next of the new keys. *)
Lemma rank_newKeysOf_first km keys i k :
  keys !! i = Some k → km !! k = None → k ∉ take i keys →
  rank (newKeysOf km keys) k = length (newKeysOf km (take i keys)).
Proof.
  intros Hi Hnone Hnew.
  rewrite (rank_newKeysOf_take km keys (S i)).
  - rewrite (take_S_r _ _ _ Hi), newKeysOf_snoc. rewrite decide_True by done.
    apply rank_snoc_new. rewrite elem_of_newKeysOf. tauto.
  - rewrite (take_S_r _ _ _ Hi). apply elem_of_newKeysOf. split; [done|].
    apply elem_of_snoc. by right.
Qed.

Lemma rank_app_r (l l' : list Z) k :
  k ∉ l → k ∈ l' → rank (l ++ l') k = length l + rank l' k.
Proof.
  intros Hout Hin. destruct (rank_elem l' k Hin) as [Hl Hfirst]. apply rank_first.
  - rewrite lookup_app_r by lia. by replace (length l + rank l' k - length l) with (rank l' k) by lia.
  - intros j Hj Hjk. destruct (decide (j < length l)) as [Hlt|Hge].
    + rewrite lookup_app_l in Hjk by done. apply Hout. by eapply list_elem_of_lookup_2.
    + rewrite lookup_app_r in Hjk by lia. apply (Hfirst (j - length l)); [lia|done].
Qed.

(** The output index of a key that is new to the key map. *)
Lemma keyMapAfter_new (km : gmap Z ExternalVertexData) (base nI : nat) cid (keys : list Z) k :
  km !! k = None → k ∈ keys → (Z.of_nat (base + length keys) < 2 ^ 32)%Z →
  vertexId <$> keyMapAfter km (Z.of_nat base) nI cid keys keys k =
  Some (Z.of_nat (base + rank (newKeysOf km keys) k)).
Proof.
  intros Hnone Hin Hfit. unfold keyMapAfter. rewrite Hnone, decide_True by done. simpl. f_equal.
  assert (rank (newKeysOf km keys) k < length (newKeysOf km keys)) as Hr
    by (apply rank_lt, elem_of_newKeysOf; done).
  assert (length (newKeysOf km keys) ≤ length keys) as Hle.
  { unfold newKeysOf. etrans; [apply distinctKeys_length|]. apply length_filter. }
  rewrite wrap32_small by lia. lia.
Qed.

(** ** The storing loops of [StxxlMesh::add] *)

Section store.
Context (km : gmap Z ExternalVertexData) (fr : fragment) (cid : list nat).
Context (off : Z) (it : list Z) (vs1 : list (vertex_type * nat)).
Context (Hoff : (off = Z.of_nat (length vs1))%Z).
Context (Hfit : (Z.of_nat (length vs1 + length (f_keys fr)) < 2 ^ 32)%Z).
Context (Hold : ∀ k ed, km !! k = Some ed → (0 ≤ vertexId ed < Z.of_nat (length vs1))%Z).
Context (Htab : ∀ j k, f_keys fr !! j = Some k →
it !! j = vertexId <$> keyMapAfter km off (f_numInternal fr) cid (f_keys fr) (f_keys fr) k).

Lemma keyMapAfter_new_id k :
km !! k = None → k ∈ f_keys fr →
vertexId <$> keyMapAfter km off (f_numInternal fr) cid (f_keys fr) (f_keys fr) k =
Some (Z.of_nat (length vs1 + rank (newKeysOf km (f_keys fr)) k)).
Proof. intros Hnone Hin. rewrite Hoff. by apply keyMapAfter_new. Qed.

Lemma storeExternal_loop n :
n ≤ length (f_keys fr) →
foldl (StxxlMesh.storeExternal fr cid it) vs1 (seq 0 n) =
vs1 ++ storedExternal km fr cid (take n (f_keys fr)).
Proof.
induction n as [|n IH]; intros Hn.
- unfold storedExternal. rewrite take_0. simpl. by rewrite app_nil_r.
- rewrite seq_S, foldl_snoc, IH by lia. simpl.
  destruct (lookup_lt_is_Some_2 (f_keys fr) n ltac:(lia)) as [k Hk].
  assert (k ∈ f_keys fr) as Hin by (by eapply list_elem_of_lookup_2).
  unfold StxxlMesh.storeExternal. rewrite (Htab n k Hk).
  rewrite (take_S_r _ _ _ Hk). unfold storedExternal. rewrite newKeysOf_snoc.
  rewrite length_app, length_fmap.
  destruct (km !! k) as [ed|] eqn:Hkm.
  + (* a key of an earlier fragment *)
    rewrite (decide_False (P := _ ∧ _)) by (intros [? ?]; done).
    assert (keyMapAfter km off (f_numInternal fr) cid (f_keys fr) (f_keys fr) k = Some ed) as ->
      by (unfold keyMapAfter; by rewrite Hkm).
    simpl. pose proof (Hold k ed Hkm). rewrite decide_False by lia. done.
  + rewrite (keyMapAfter_new_id k Hkm Hin). simpl.
    destruct (decide (k ∈ take n (f_keys fr))) as [Hseen|Hnew].
    * (* a key seen earlier in this fragment *)
      rewrite (decide_False (P := _ ∧ _)) by tauto.
      assert (k ∈ newKeysOf km (take n (f_keys fr))) as Hnk by (by apply elem_of_newKeysOf).
      rewrite (rank_newKeysOf_take km (f_keys fr) n k Hnk).
      pose proof (rank_lt _ _ Hnk). rewrite decide_False by lia. done.
    * (* a new key *)
      rewrite (decide_True (P := _ ∧ _)) by done.
      rewrite (rank_newKeysOf_first km (f_keys fr) n k Hk Hkm Hnew).
      rewrite decide_True by lia.
      rewrite fmap_app. cbn [fmap list_fmap].
      rewrite (rank_take_new (f_keys fr) n k Hk Hnew). by rewrite <-(assoc_L (++)).
Qed.
End store.

(** ** What [StxxlMesh::add] keeps *)

Lemma allKeys_snoc frs fr : allKeys (frs ++ [fr]) = allKeys frs ++ f_keys fr.
Proof. unfold allKeys. rewrite fmap_app, concat_app. simpl. by rewrite app_nil_r. Qed.
Lemma allInternal_snoc frs fr :
  allInternal (frs ++ [fr]) = allInternal frs ++ take (f_numInternal fr) (f_vertices fr).
Proof. unfold allInternal. rewrite fmap_app, concat_app. simpl. by rewrite app_nil_r. Qed.
Lemma allExternal_snoc frs fr :
  allExternal (frs ++ [fr]) = allExternal frs ++ drop (f_numInternal fr) (f_vertices fr).
Proof. unfold allExternal. rewrite fmap_app, concat_app. simpl. by rewrite app_nil_r. Qed.
Lemma totalVertices_snoc frs fr :
  totalVertices (frs ++ [fr]) = totalVertices frs + f_numVertices fr.
Proof.
  unfold totalVertices. rewrite fmap_app, concat_app, length_app. simpl.
  by rewrite app_nil_r.
Qed.

Lemma allExternal_length frs :
  Forall wf_fragment frs → length (allExternal frs) = length (allKeys frs).
Proof.
  induction 1 as [|fr frs (HnI & Hkeys & _) _ IH]; [done|].
  rewrite allExternal_cons, allKeys_cons, !length_app, IH, length_drop, Hkeys. done.
Qed.

Lemma total_split frs :
  Forall wf_fragment frs →
  totalVertices frs = length (allInternal frs) + length (allKeys frs).
Proof.
  induction 1 as [|fr frs (HnI & Hkeys & _) _ IH]; [done|].
  rewrite totalVertices_cons, allInternal_cons, allKeys_cons, !length_app, IH.
  rewrite length_take, Hkeys. unfold f_numVertices in *. lia.
Qed.

(** The distinct keys of a pass, when the key map holds the keys of the
    fragments before the last one. *)
Lemma distinctKeys_app_new (km : gmap Z ExternalVertexData) l l' :
  (∀ k, is_Some (km !! k) ↔ k ∈ l) →
  distinctKeys (l ++ l') = distinctKeys l ++ newKeysOf km l'.
Proof.
  intros Hdom. induction l' as [|k l' IH] using rev_ind.
  - unfold newKeysOf. rewrite filter_nil. simpl. by rewrite !app_nil_r.
  - rewrite (assoc_L (++)), distinctKeys_snoc, newKeysOf_snoc, IH.
    destruct (decide (km !! k = None ∧ k ∉ l')) as [[Hnone Hout]|Hold].
    + rewrite decide_False; [by rewrite <-(assoc_L (++))|].
      rewrite elem_of_app, elem_of_distinctKeys, elem_of_newKeysOf, <-Hdom.
      intros [[? ?]|[_ ?]]; [congruence|done].
    + rewrite decide_True; [done|].
      rewrite elem_of_app, elem_of_distinctKeys, elem_of_newKeysOf, <-Hdom.
      destruct (km !! k) as [ed|] eqn:Hk; [by left; eauto|]. right. split; [done|].
      destruct (decide (k ∈ l')); [done|]. exfalso. by apply Hold.
Qed.

Lemma stxxl_old_ids frs s :
  stxxlInv frs s → Forall wf_fragment frs →
  ∀ k ed, keyMap (StxxlMesh.mesh s) !! k = Some ed →
    (0 ≤ vertexId ed < Z.of_nat (length (StxxlMesh.vertices s)))%Z.
Proof.
  intros [Hlen Hdom Hkey Hclosed Hsoup] Hwfs k ed Hk.
  pose proof (allExternal_length frs Hwfs) as Hext.
  destruct (Hkey k ed Hk) as [H0 Hv]. split; [done|].
  assert (k ∈ allKeys frs) as Hin by (apply Hdom; eauto).
  pose proof (rank_lt _ _ Hin) as Hr.
  destruct (lookup_lt_is_Some_2 (allExternal frs) (rank (allKeys frs) k)) as [v Hsome]; [lia|].
  rewrite Hsome in Hv. apply lookup_lt_Some in Hv. rewrite length_fmap in Hv. lia.
Qed.

(** What one [StxxlMesh::add] does, spelled out: the clumps of the fragment
    are computed, the key map is updated, the internal vertices and the
    first vertex of every new key are stored, and the rewritten triangles
    are appended. *)
Lemma stxxl_add_shape frs fr s s' :
  stxxlInv frs s → Forall wf_fragment frs → wf_fragment fr →
  (Z.of_nat (totalVertices (frs ++ [fr])) < 2 ^ 32)%Z →
  StxxlMesh.add fr s = Ok s' →
  ∃ cl cid nk it,
    computeLocalComponents (f_numVertices fr) (f_triangles fr) (clumps (StxxlMesh.mesh s)) =
      Ok (cl, cid) ∧
    length cid = f_numVertices fr ∧
    updateKeyMap (Z.of_nat (length (StxxlMesh.vertices s) + f_numInternal fr)) (f_keys fr) cid
                 (mkMesh cl (keyMap (StxxlMesh.mesh s))) = (StxxlMesh.mesh s', nk, it) ∧
    (Z.of_nat (length (StxxlMesh.vertices s) + f_numInternal fr + length (f_keys fr))
     < 2 ^ 32)%Z ∧
    StxxlMesh.vertices s' =
      (StxxlMesh.vertices s ++
       zip (take (f_numInternal fr) (f_vertices fr)) (take (f_numInternal fr) cid)) ++
      storedExternal (keyMap (StxxlMesh.mesh s)) fr cid (f_keys fr) ∧
    StxxlMesh.triangles s' =
      StxxlMesh.triangles s ++
      rewriteTriangles (wrap32 (Z.of_nat (length (StxxlMesh.vertices s))))
                       (f_numInternal fr) it (f_triangles fr).
Proof.
  intros Hinv Hwfs Hwf Hfit Hadd.
  pose proof (stxxl_old_ids frs s Hinv Hwfs) as Hold0.
  destruct Hinv as [Hlen Hdom Hkey Hclosed Hsoup].
  pose proof Hwf as (HnI & Hkeys & Htris).
  pose proof (total_split frs Hwfs) as Htot.
  pose proof (distinctKeys_length (allKeys frs)) as Hdk.
  rewrite totalVertices_snoc in Hfit.
  unfold StxxlMesh.add, StxxlMesh.addTraced in Hadd. cbv zeta in Hadd.
  destruct (weld _ fr (StxxlMesh.mesh s)) as [[cid [[m nk] it]]| |] eqn:Hweld;
    simpl in Hadd; [|done..].
  injection Hadd as <-.
  unfold weld in Hweld.
  destruct (computeLocalComponents _ _ _) as [[cl cid0]| |] eqn:Hcomp; [|done..].
  change (Ok (cid0, updateKeyMap (wrap32 (Z.of_nat (length (StxxlMesh.vertices s)) +
                                          Z.of_nat (f_numInternal fr)))
                                 (f_keys fr) cid0 (mkMesh cl (keyMap (StxxlMesh.mesh s)))) =
          Ok (cid, (m, nk, it))) in Hweld.
  assert (cid0 = cid) as -> by congruence.
  assert (updateKeyMap (wrap32 (Z.of_nat (length (StxxlMesh.vertices s)) +
                                Z.of_nat (f_numInternal fr)))
                       (f_keys fr) cid (mkMesh cl (keyMap (StxxlMesh.mesh s))) = (m, nk, it))
    as Hupd by congruence.
  clear Hweld.
  destruct (computeLocalComponents_inv _ _ _ _ _ Htris Hcomp) as (_ & Hcid & _).
  set (km := keyMap (StxxlMesh.mesh s)) in *.
  set (nI := f_numInternal fr) in *.
  set (keys := f_keys fr) in *.
  set (vs := StxxlMesh.vertices s) in *.
  assert (wrap32 (Z.of_nat (length vs) + Z.of_nat nI) = Z.of_nat (length vs + nI)) as Hoff0.
  { rewrite wrap32_small; unfold f_numVertices in *; lia. }
  rewrite Hoff0 in Hupd.
  set (off := Z.of_nat (length vs + nI)) in *.
  set (vs1 := vs ++ zip (take nI (f_vertices fr)) (take nI cid)).
  assert (length vs1 = length vs + nI) as Hlen1.
  { unfold vs1. rewrite length_app, length_zip, !length_take.
    unfold f_numVertices in *. lia. }
  assert (off = Z.of_nat (length vs1)) as Hoff by (unfold off; by rewrite Hlen1).
  pose proof (updateKeyMap_table off keys cid (mkMesh cl km)) as Hinv.
  rewrite Hupd in Hinv. cbn [keyMap clumps] in Hinv.
  replace (length cid - length keys) with nI in Hinv
    by (unfold keys, nI, f_numVertices in *; lia).
  destruct Hinv as [_ Hkm' _ Htab]. cbn [kl_keyMap kl_indexTable] in Hkm', Htab.
  assert (∀ k ed, km !! k = Some ed → (0 ≤ vertexId ed < Z.of_nat (length vs1))%Z) as Hold.
  { intros k ed Hk. pose proof (Hold0 k ed Hk). fold vs in H. lia. }
  assert (foldl (StxxlMesh.storeExternal fr cid it) vs1
                (seq 0 (f_numVertices fr - nI)) =
          vs1 ++ storedExternal km fr cid keys) as Hstore.
  { rewrite <-Hkeys.
    assert (Z.of_nat (length vs1 + length (f_keys fr)) < 2 ^ 32)%Z as Hfit1
      by (fold keys; unfold f_numVertices in *; lia).
    assert (∀ j k, f_keys fr !! j = Some k →
              it !! j = vertexId <$> keyMapAfter km off (f_numInternal fr) cid
                                                 (f_keys fr) (f_keys fr) k) as Htab1
      by (intros j k Hj; apply Htab; [by eapply lookup_lt_Some|done]).
    rewrite (storeExternal_loop km fr cid off it vs1 Hoff Hfit1 Hold Htab1 (length keys))
      by done.
    by rewrite take_ge by done. }
  exists cl, cid, nk, it. cbn [StxxlMesh.mesh StxxlMesh.vertices StxxlMesh.triangles].
  split; [done|]. split; [done|]. split; [done|].
  split; [unfold keys, f_numVertices in *; lia|].
  split; [fold vs1; by rewrite Hstore|done].
Qed.

(** The key map and the index table after one [add]. *)
Lemma stxxl_add_table fr s cl cid m nk it :
  f_numInternal fr ≤ f_numVertices fr →
  length (f_keys fr) = f_numVertices fr - f_numInternal fr →
  length cid = f_numVertices fr →
  updateKeyMap (Z.of_nat (length (StxxlMesh.vertices s) + f_numInternal fr)) (f_keys fr) cid
               (mkMesh cl (keyMap (StxxlMesh.mesh s))) = (m, nk, it) →
  nk = Z.of_nat (length (newKeysOf (keyMap (StxxlMesh.mesh s)) (f_keys fr))) ∧
  (∀ k, keyMap m !! k =
        keyMapAfter (keyMap (StxxlMesh.mesh s))
                    (Z.of_nat (length (StxxlMesh.vertices s) + f_numInternal fr))
                    (f_numInternal fr) cid (f_keys fr) (f_keys fr) k) ∧
  (∀ j k, f_keys fr !! j = Some k →
     it !! j = vertexId <$>
       keyMapAfter (keyMap (StxxlMesh.mesh s))
                   (Z.of_nat (length (StxxlMesh.vertices s) + f_numInternal fr))
                   (f_numInternal fr) cid (f_keys fr) (f_keys fr) k).
Proof.
  intros HnI Hkeys Hcid Hupd.
  pose proof (updateKeyMap_table (Z.of_nat (length (StxxlMesh.vertices s) + f_numInternal fr))
                (f_keys fr) cid (mkMesh cl (keyMap (StxxlMesh.mesh s)))) as Hinv.
  rewrite Hupd in Hinv. cbn [keyMap clumps] in Hinv.
  replace (length cid - length (f_keys fr)) with (f_numInternal fr) in Hinv by lia.
  destruct Hinv as [Hnk Hkm' _ Htab]. cbn [kl_newKeys kl_keyMap kl_indexTable] in *.
  split; [done|]. split; [done|].
  intros j k Hj. apply Htab; [by eapply lookup_lt_Some|done].
Qed.

Lemma stxxl_add frs fr s s' :
  stxxlInv frs s → Forall wf_fragment frs → wf_fragment fr →
  consistent (allKeys (frs ++ [fr])) (allExternal (frs ++ [fr])) →
  (Z.of_nat (totalVertices (frs ++ [fr])) < 2 ^ 32)%Z →
  StxxlMesh.add fr s = Ok s' →
  stxxlInv (frs ++ [fr]) s'.
Proof.
  intros Hinv Hwfs Hwf Hcons Hfit Hadd.
  pose proof (stxxl_old_ids frs s Hinv Hwfs) as Hold0.
  destruct (stxxl_add_shape frs fr s s' Hinv Hwfs Hwf Hfit Hadd)
    as (cl & cid & nk & it & Hcomp & Hcid & Hupd & Hfit1 & Hvs' & Htris').
  destruct Hinv as [Hlen Hdom Hkey Hclosed Hsoup].
  pose proof Hwf as (HnI & Hkeys & Htris).
  destruct (stxxl_add_table fr s cl cid _ nk it HnI Hkeys Hcid Hupd) as (_ & Hkm' & Htab1).
  pose proof (allExternal_length frs Hwfs) as Hext.
  pose proof (total_split frs Hwfs) as Htot.
  pose proof (distinctKeys_length (allKeys frs)) as Hdk.
  destruct s' as [m vs' tris']. cbn [StxxlMesh.mesh StxxlMesh.vertices StxxlMesh.triangles] in *.
  subst vs' tris'.
  set (km := keyMap (StxxlMesh.mesh s)) in *.
  set (nI := f_numInternal fr) in *.
  set (keys := f_keys fr) in *.
  set (vs := StxxlMesh.vertices s) in *.
  set (off := Z.of_nat (length vs + nI)) in *.
  set (vs1 := vs ++ zip (take nI (f_vertices fr)) (take nI cid)).
  assert (length vs1 = length vs + nI) as Hlen1.
  { unfold vs1. rewrite length_app, length_zip, !length_take.
    unfold f_numVertices in *. lia. }
  assert (off = Z.of_nat (length vs1)) as Hoff by (unfold off; by rewrite Hlen1).
  assert (∀ j k, j < length keys → keys !! j = Some k →
            it !! j = vertexId <$> keyMapAfter km off nI cid keys keys k) as Htab
    by (intros j k _ Hj; by apply Htab1).
  assert (∀ k ed, km !! k = Some ed → (0 ≤ vertexId ed < Z.of_nat (length vs1))%Z) as Hold.
  { intros k ed Hk. pose proof (Hold0 k ed Hk). fold vs in H. lia. }
  set (vs2 := vs1 ++ storedExternal km fr cid keys).
  assert (vs2.*1 = vs.*1 ++ (take nI (f_vertices fr) ++ (storedExternal km fr cid keys).*1))
    as Hvs2.
  { unfold vs2, vs1. rewrite !fmap_app, fst_zip, (assoc_L (++)); [done|].
    rewrite !length_take. unfold f_numVertices in *. lia. }
  assert (∀ k, k ∈ keys → km !! k = None →
            vs2.*1 !! (length vs1 + rank (newKeysOf km keys) k) =
            f_vertices fr !! (nI + rank keys k)) as Hnewv.
  { intros k Hin Hnone.
    assert (k ∈ newKeysOf km keys) as Hnk by (by apply elem_of_newKeysOf).
    destruct (rank_elem _ _ Hnk) as [Hr _].
    unfold vs2. rewrite fmap_app, lookup_app_r by (rewrite length_fmap; lia).
    rewrite length_fmap, Nat.add_comm, Nat.add_sub. unfold storedExternal.
    rewrite <-list_fmap_compose, list_lookup_fmap, Hr. cbn [compose fst fmap option_fmap option_map].
    pose proof (rank_lt _ _ Hin) as Hlt. fold keys nI.
    assert (nI + rank keys k < length (f_vertices fr)) as Hb
      by (unfold keys, nI, f_numVertices in *; lia).
    destruct (lookup_lt_is_Some_2 (f_vertices fr) (nI + rank keys k) Hb) as [v Hv].
    unfold vertex_type in *. by rewrite Hv. }
  assert (∀ k ed, keyMap m !! k = Some ed →
            (0 ≤ vertexId ed)%Z ∧
            vs2.*1 !! Z.to_nat (vertexId ed) =
            allExternal (frs ++ [fr]) !! rank (allKeys (frs ++ [fr])) k) as Hkey'.
  { intros k ed. rewrite Hkm'. unfold keyMapAfter.
    rewrite allKeys_snoc, allExternal_snoc. fold keys nI.
    destruct (km !! k) as [ed0|] eqn:Hk.
    - intros [= ->]. destruct (Hkey k ed Hk) as [H0 Hv]. split; [done|].
      assert (k ∈ allKeys frs) as Hin by (apply Hdom; eauto).
      pose proof (rank_lt _ _ Hin) as Hr.
      rewrite rank_app_l by done. rewrite (lookup_app_l (allExternal frs)) by lia.
      rewrite <-Hv. rewrite Hvs2. apply lookup_app_l. rewrite length_fmap.
      pose proof (Hold k ed Hk). fold vs. 
      destruct (lookup_lt_is_Some_2 (allExternal frs) (rank (allKeys frs) k)) as [v Hsome]; [lia|].
      rewrite Hsome in Hv. apply lookup_lt_Some in Hv. by rewrite length_fmap in Hv.
    - destruct (decide (k ∈ keys)) as [Hin|]; [|done]. intros [= <-]. simpl.
      assert (k ∈ newKeysOf km keys) as Hnk by (by apply elem_of_newKeysOf).
      pose proof (rank_lt _ _ Hnk) as Hr.
      assert (length (newKeysOf km keys) ≤ length keys) as Hle.
      { unfold newKeysOf. etrans; [apply distinctKeys_length|]. apply length_filter. }
      rewrite Hoff, wrap32_small by (unfold keys, f_numVertices in *; lia).
      split; [lia|].
      replace (Z.to_nat (Z.of_nat (length vs1) + Z.of_nat (rank (newKeysOf km keys) k)))
        with (length vs1 + rank (newKeysOf km keys) k) by lia.
      rewrite (Hnewv k Hin Hk).
      assert (k ∉ allKeys frs) as Hout.
      { intros [? ?]%Hdom. fold km in H. congruence. }
      rewrite rank_app_r by done. rewrite lookup_app_r by lia.
      rewrite lookup_drop. f_equal. lia. }
  assert (∀ x, (0 ≤ x < Z.of_nat (f_numVertices fr))%Z →
            (0 ≤ rewriteIndex (wrap32 (Z.of_nat (length vs))) nI it x)%Z ∧
            vs2.*1 !! Z.to_nat (rewriteIndex (wrap32 (Z.of_nat (length vs))) nI it x) =
            f_vertices fr !! Z.to_nat x) as Hrewrite.
  { intros x Hx. unfold rewriteIndex.
    destruct (x <? Z.of_nat nI)%Z eqn:Hlt.
    - apply Z.ltb_lt in Hlt. rewrite wrap32_add_l.
      rewrite wrap32_small by lia. split; [lia|].
      replace (Z.to_nat (Z.of_nat (length vs) + x)) with (length vs + Z.to_nat x) by lia.
      rewrite Hvs2, lookup_app_r by (rewrite length_fmap; lia).
      rewrite length_fmap, Nat.add_comm, Nat.add_sub.
      rewrite lookup_app_l by (rewrite length_take; unfold f_numVertices in *; lia).
      apply lookup_take_lt. lia.
    - apply Z.ltb_ge in Hlt.
      destruct (lookup_lt_is_Some_2 keys (Z.to_nat x - nI)) as [k Hk];
        [unfold keys, f_numVertices in *; lia|].
      assert (k ∈ keys) as Hin by (by eapply list_elem_of_lookup_2).
      rewrite (Htab _ k) by (done || by eapply lookup_lt_Some).
      destruct (keyMapAfter km off nI cid keys keys k) as [ed|] eqn:Hafter.
      + rewrite <-Hkm' in Hafter. destruct (Hkey' k ed Hafter) as [H0 Hv].
        simpl. split; [done|]. rewrite Hv.
        assert (k ∈ allKeys (frs ++ [fr])) as Hall
          by (rewrite allKeys_snoc, elem_of_app; by right).
        destruct (rank_elem _ _ Hall) as [Hr _].
        rewrite (Hcons (rank (allKeys (frs ++ [fr])) k)
                       (length (allKeys frs) + (Z.to_nat x - nI)) k Hr).
        * rewrite allExternal_snoc, lookup_app_r by lia.
          rewrite lookup_drop. f_equal. fold nI. lia.
        * rewrite allKeys_snoc, lookup_app_r by lia.
          by rewrite Nat.add_comm, Nat.add_sub.
      + unfold keyMapAfter in Hafter. destruct (km !! k); [done|].
        by rewrite decide_True in Hafter. }
  assert (length vs2.*1 = length vs + nI + length (newKeysOf km keys)) as Hlen2.
  { rewrite length_fmap. unfold vs2. rewrite length_app, Hlen1. unfold storedExternal.
    by rewrite length_fmap. }
  split; cbn [StxxlMesh.mesh StxxlMesh.vertices StxxlMesh.triangles]; fold vs2.
  - rewrite length_fmap in Hlen2. rewrite Hlen2.
    rewrite allInternal_snoc, allKeys_snoc, length_app, length_take.
    rewrite (distinctKeys_app_new km) by done. rewrite length_app. fold vs in Hlen.
    fold nI keys. unfold f_numVertices in *. lia.
  - intros k. rewrite Hkm', allKeys_snoc, elem_of_app, <-Hdom. fold km keys.
    unfold keyMapAfter. destruct (km !! k) as [ed|] eqn:Hk.
    + split; [by left; eauto|by eauto].
    + destruct (decide (k ∈ keys)) as [Hin|Hout].
      * split; [by right|by eauto].
      * split; [by intros [? ?]|]. intros [[? ?]|?]; done.
  - exact Hkey'.
  - rewrite Hvs2. apply closed_app; [exact Hclosed|]. rewrite <-Hvs2.
    intros tri v Htri Hv. unfold rewriteTriangles in Htri.
    apply list_elem_of_fmap in Htri as ([[a b] c] & -> & Htri).
    destruct (corners_all (λ v, 0 ≤ v < Z.of_nat (f_numVertices fr))%Z (a, b, c))
      as (Ha & Hb & Hc); [intros y; apply (Htris _ y Htri)|].
    simpl in Ha, Hb, Hc.
    assert (∀ x, (0 ≤ x < Z.of_nat (f_numVertices fr))%Z →
              (0 ≤ rewriteIndex (wrap32 (Z.of_nat (length vs))) nI it x
               < Z.of_nat (length vs2.*1))%Z) as Hrange.
    { intros x Hx. destruct (Hrewrite x Hx) as [H0 Hl]. split; [done|].
      destruct (lookup_lt_is_Some_2 (f_vertices fr) (Z.to_nat x)) as [w Hw];
        [unfold f_numVertices in *; lia|].
      rewrite Hw in Hl. apply lookup_lt_Some in Hl. lia. }
    unfold indices in Hv. simpl in Hv. fold vs nI in Hv.
    apply elem_of_cons in Hv as [->|Hv]; [by apply Hrange|].
    apply elem_of_cons in Hv as [->|Hv]; [by apply Hrange|].
    apply elem_of_cons in Hv as [->|Hv]; [by apply Hrange|].
    by apply not_elem_of_nil in Hv.
  - rewrite soup_app, soups_snoc. f_equal.
    + rewrite Hvs2. rewrite soup_closed_app by exact Hclosed. exact Hsoup.
    + unfold soup, rewriteTriangles. rewrite <-list_fmap_compose.
      apply list_fmap_ext. intros j [[a b] c] Htri. apply list_elem_of_lookup_2 in Htri.
      destruct (corners_all (λ v, 0 ≤ v < Z.of_nat (f_numVertices fr))%Z (a, b, c))
        as (Ha & Hb & Hc); [intros y; apply (Htris _ y Htri)|].
      simpl in Ha, Hb, Hc. simpl. fold vs nI.
      assert (∀ x, (0 ≤ x < Z.of_nat (f_numVertices fr))%Z →
                corner vs2.*1 (rewriteIndex (wrap32 (Z.of_nat (length vs))) nI it x) =
                corner (f_vertices fr) x) as Hcorner.
      { intros x Hx. destruct (Hrewrite x Hx) as [H0 Hl]. unfold corner.
        by rewrite !decide_True by lia. }
      by rewrite !Hcorner.
Qed.

Lemma consistent_prefix (ks ks' : list Z) (vs vs' : list vertex_type) :
  length vs = length ks → consistent (ks ++ ks') (vs ++ vs') → consistent ks vs.
Proof.
  intros Hlen Hcons i j k Hi Hj.
  pose proof (lookup_lt_Some _ _ _ Hi). pose proof (lookup_lt_Some _ _ _ Hj).
  rewrite <-(lookup_app_l vs vs' i), <-(lookup_app_l vs vs' j) by lia.
  apply (Hcons i j k); by rewrite lookup_app_l by lia.
Qed.

Lemma stxxlInv_create : stxxlInv [] StxxlMesh.create.
Proof.
  split; simpl.
  - done.
  - intros k. rewrite lookup_empty. split; [by intros [? ?]|by intros ?%not_elem_of_nil].
  - intros k ed. by rewrite lookup_empty.
  - intros tri v Htri. by apply not_elem_of_nil in Htri.
  - done.
Qed.

Lemma stxxl_addAll frs : ∀ s,
  Forall wf_fragment frs →
  consistent (allKeys frs) (allExternal frs) →
  (Z.of_nat (totalVertices frs) < 2 ^ 32)%Z →
  StxxlMesh.addAll frs StxxlMesh.create = Ok s →
  stxxlInv frs s.
Proof.
  induction frs as [|fr frs IH] using rev_ind; intros s Hwf Hcons Hfit Hrun.
  - injection Hrun as <-. apply stxxlInv_create.
  - apply Forall_app in Hwf as [Hwfs Hwf]. apply Forall_cons in Hwf as [Hwf _].
    unfold StxxlMesh.addAll in Hrun. rewrite foldlM_snoc in Hrun.
    destruct (foldlM _ StxxlMesh.create frs) as [s0| |] eqn:Hrun0; [|done..].
    rewrite bind_Ok in Hrun.
    apply (stxxl_add frs fr s0 s); try done.
    apply IH; try done.
    + rewrite allKeys_snoc, allExternal_snoc in Hcons.
      eapply consistent_prefix; [|exact Hcons]. by apply allExternal_length.
    + rewrite totalVertices_snoc in Hfit. lia.
Qed.

(** X7: [StxxlMesh::add] keeps the geometry.  When the fragments are well
    formed, have fewer than 2^32 vertices in all, give the same coordinates
    to external vertices with the same key, and every [add] returned, the
    mesh stores the internal vertices and one vertex for every distinct
    key; the key map holds exactly the keys of the fragments and sends each
    to the place of the first vertex that had it; every index of every
    stored triangle is the place of a stored vertex, and the triangle soup
    of the stored mesh is the soup of the fragments. *)
Theorem stxxl_mesh_keeps_geometry frs s :
  Forall wf_fragment frs →
  consistent (allKeys frs) (allExternal frs) →
  (Z.of_nat (totalVertices frs) < 2 ^ 32)%Z →
  StxxlMesh.addAll frs StxxlMesh.create = Ok s →
  let vs := (StxxlMesh.vertices s).*1 in
  length vs = length (allInternal frs) + length (distinctKeys (allKeys frs)) ∧
  (∀ k, is_Some (keyMap (StxxlMesh.mesh s) !! k) ↔ k ∈ allKeys frs) ∧
  (∀ k ed, keyMap (StxxlMesh.mesh s) !! k = Some ed →
     (0 ≤ vertexId ed)%Z ∧
     vs !! Z.to_nat (vertexId ed) = allExternal frs !! rank (allKeys frs) k) ∧
  closed vs (StxxlMesh.triangles s) ∧
  soup vs (StxxlMesh.triangles s) = soups frs.
Proof.
  intros Hwf Hcons Hfit Hrun. cbv zeta.
  destruct (stxxl_addAll frs s Hwf Hcons Hfit Hrun) as [H1 H2 H3 H4 H5].
  rewrite length_fmap. done.
Qed.

(** * [BigMesh]: what the writing pass writes *)

(** ** The compaction loop of [BigMesh::add] *)

Lemma consistent_suffix (ks ks' : list Z) (vs vs' : list vertex_type) :
  length vs = length ks → consistent (ks ++ ks') (vs ++ vs') → consistent ks' vs'.
Proof.
  intros Hlen Hcons i j k Hi Hj.
  pose proof (Hcons (length ks + i) (length ks + j) k) as H.
  rewrite !lookup_app_r in H by lia.
  replace (length ks + i - length ks) with i in H by lia.
  replace (length ks + j - length ks) with j in H by lia.
  replace (length ks + i - length vs) with i in H by lia.
  replace (length ks + j - length vs) with j in H by lia.
  by apply H.
Qed.

Section compact.
Context (km : gmap Z ExternalVertexData) (fr : fragment) (cid : list nat).
Context (prior : nat) (it : list Z).
Context (HnI : f_numInternal fr ≤ f_numVertices fr).
Context (Hkeys : length (f_keys fr) = f_numVertices fr - f_numInternal fr).
Context (Hfit : (Z.of_nat (prior + f_numInternal fr + length (f_keys fr)) < 2 ^ 32)%Z).
Context (Hold : ∀ k ed, km !! k = Some ed → (0 ≤ vertexId ed < Z.of_nat prior)%Z).
Context (Htab : ∀ j k, f_keys fr !! j = Some k →
it !! j = vertexId <$> keyMapAfter km (Z.of_nat (prior + f_numInternal fr))
                                   (f_numInternal fr) cid (f_keys fr) (f_keys fr) k).
Context (Hcons : consistent (f_keys fr) (drop (f_numInternal fr) (f_vertices fr))).

Lemma compact_loop n :
n ≤ length (f_keys fr) →
let vs := foldl (BigMesh.compactVertex (Z.of_nat prior) (f_numInternal fr) it)
                (f_vertices fr) (seq 0 n) in
length vs = length (f_vertices fr) ∧
(∀ j, j < f_numInternal fr ∨ f_numInternal fr + n ≤ j → vs !! j = f_vertices fr !! j) ∧
(∀ q k, newKeysOf km (take n (f_keys fr)) !! q = Some k →
   vs !! (f_numInternal fr + q) =
   f_vertices fr !! (f_numInternal fr + rank (f_keys fr) k)).
Proof.
induction n as [|n IH]; intros Hn; cbv zeta.
- simpl. split; [done|]. split; [done|]. intros q k. by rewrite take_0.
- rewrite seq_S, foldl_snoc. simpl.
  destruct IH as (Hlen & Hrest & Hkept); [lia|].
  set (vs := foldl _ (f_vertices fr) (seq 0 n)) in *.
  destruct (lookup_lt_is_Some_2 (f_keys fr) n ltac:(lia)) as [k Hk].
  assert (k ∈ f_keys fr) as Hin by (by eapply list_elem_of_lookup_2).
  assert (length (newKeysOf km (take n (f_keys fr))) ≤ n) as Hnews.
  { unfold newKeysOf. etrans; [apply distinctKeys_length|].
    etrans; [apply length_filter|]. rewrite length_take. lia. }
  unfold BigMesh.compactVertex. rewrite (Htab n k Hk).
  rewrite (take_S_r _ _ _ Hk), newKeysOf_snoc.
  destruct (km !! k) as [ed|] eqn:Hkm.
  + (* a key of an earlier fragment *)
    rewrite decide_False by (intros [? ?]; done).
    assert (keyMapAfter km (Z.of_nat (prior + f_numInternal fr)) (f_numInternal fr) cid
              (f_keys fr) (f_keys fr) k = Some ed) as ->
      by (unfold keyMapAfter; by rewrite Hkm).
    simpl. pose proof (Hold k ed Hkm).
    destruct (Z.of_nat prior <=? vertexId ed)%Z eqn:Hle; [apply Z.leb_le in Hle; lia|].
    split; [done|]. split; [|done]. intros j Hj. apply Hrest. lia.
  + assert (Z.of_nat (prior + f_numInternal fr + length (f_keys fr)) < 2 ^ 32)%Z
      as Hfit' by done.
    rewrite (keyMapAfter_new km (prior + f_numInternal fr) (f_numInternal fr) cid
               (f_keys fr) k Hkm Hin Hfit'). simpl.
    destruct (Z.of_nat prior <=? _)%Z eqn:Hle; [|apply Z.leb_gt in Hle; lia].
    replace (Z.to_nat (Z.of_nat (prior + f_numInternal fr +
                                 rank (newKeysOf km (f_keys fr)) k) - Z.of_nat prior))
      with (f_numInternal fr + rank (newKeysOf km (f_keys fr)) k) by lia.
    assert (f_numInternal fr + n < length (f_vertices fr)) as Hb
      by (unfold f_numVertices in *; lia).
    assert (vs !! (f_numInternal fr + n) = f_vertices fr !! (f_numInternal fr + n)) as Hread
      by (apply Hrest; lia).
    destruct (lookup_lt_is_Some_2 (f_vertices fr) (f_numInternal fr + n) Hb) as [v Hv].
    rewrite Hread, Hv.
    destruct (decide (k ∈ take n (f_keys fr))) as [Hseen|Hnew].
    * (* a key seen earlier in this fragment *)
      rewrite decide_False by tauto.
      assert (k ∈ newKeysOf km (take n (f_keys fr))) as Hnk by (by apply elem_of_newKeysOf).
      rewrite (rank_newKeysOf_take km (f_keys fr) n k Hnk).
      pose proof (rank_lt _ _ Hnk) as Hr.
      destruct (rank_elem _ _ Hnk) as [Hat _].
      split; [by rewrite length_insert|]. split.
      -- intros j Hj. rewrite list_lookup_insert_ne by lia. apply Hrest. lia.
      -- intros q k' Hq.
         destruct (decide (q = rank (newKeysOf km (take n (f_keys fr))) k)) as [->|Hne].
         ++ assert (k' = k) as -> by congruence.
            rewrite list_lookup_insert_eq by lia. rewrite <-Hv.
            assert (k ∈ f_keys fr) as Hin' by done.
            destruct (rank_elem _ _ Hin') as [Hfirst _].
            pose proof (Hcons n (rank (f_keys fr) k) k Hk Hfirst) as Hsame.
            by rewrite !lookup_drop in Hsame.
         ++ rewrite list_lookup_insert_ne by lia. by apply Hkept.
    * (* a new key *)
      rewrite decide_True by done.
      rewrite (rank_newKeysOf_first km (f_keys fr) n k Hk Hkm Hnew).
      split; [by rewrite length_insert|]. split.
      -- intros j Hj. rewrite list_lookup_insert_ne by lia. apply Hrest. lia.
      -- intros q k' Hq.
         destruct (decide (q = length (newKeysOf km (take n (f_keys fr))))) as [->|Hne].
         ++ rewrite lookup_app_r, Nat.sub_diag in Hq by lia. injection Hq as <-.
            rewrite list_lookup_insert_eq by lia.
            by rewrite (rank_take_new (f_keys fr) n k Hk Hnew).
         ++ assert (q < length (newKeysOf km (take n (f_keys fr)))) as Hlt.
            { apply lookup_lt_Some in Hq. rewrite length_app in Hq. simpl in Hq. lia. }
            rewrite lookup_app_l in Hq by done.
            rewrite list_lookup_insert_ne by lia. by apply Hkept.
Qed.

(** What [BigMesh::add] writes: the internal vertices, then for every new
  key the coordinates of its first vertex. *)
Lemma compact_take :
take (f_numInternal fr + length (newKeysOf km (f_keys fr)))
     (foldl (BigMesh.compactVertex (Z.of_nat prior) (f_numInternal fr) it)
            (f_vertices fr) (seq 0 (length (f_keys fr)))) =
take (f_numInternal fr) (f_vertices fr) ++ (storedExternal km fr cid (f_keys fr)).*1.
Proof.
destruct (compact_loop (length (f_keys fr)) (le_n _)) as (Hlen & Hrest & Hkept).
set (vs := foldl _ (f_vertices fr) _) in *. rewrite take_ge in Hkept by done.
assert (length (newKeysOf km (f_keys fr)) ≤ length (f_keys fr)) as Hle.
{ unfold newKeysOf. etrans; [apply distinctKeys_length|]. apply length_filter. }
apply list_eq. intros j.
destruct (decide (j < f_numInternal fr)) as [Hj|Hj].
- rewrite lookup_take_lt by lia.
  rewrite lookup_app_l by (rewrite length_take; unfold f_numVertices in *; lia).
  rewrite lookup_take_lt by lia. apply Hrest. by left.
- rewrite lookup_app_r by (rewrite length_take; lia).
  rewrite length_take. replace (f_numInternal fr `min` length (f_vertices fr))
    with (f_numInternal fr) by (unfold f_numVertices in *; lia).
  destruct (decide (j < f_numInternal fr + length (newKeysOf km (f_keys fr)))) as [Hlt|Hge].
  + rewrite lookup_take_lt by lia.
    destruct (lookup_lt_is_Some_2 (newKeysOf km (f_keys fr)) (j - f_numInternal fr)
                ltac:(lia)) as [k Hk].
    replace j with (f_numInternal fr + (j - f_numInternal fr)) at 1 by lia.
    rewrite (Hkept _ k Hk). unfold storedExternal.
    rewrite <-list_fmap_compose, list_lookup_fmap, Hk. cbn [compose fst fmap option_fmap option_map].
    assert (k ∈ f_keys fr) as Hin.
    { apply list_elem_of_lookup_2 in Hk. by apply elem_of_newKeysOf in Hk as [_ ?]. }
    pose proof (rank_lt _ _ Hin) as Hr.
    assert (f_numInternal fr + rank (f_keys fr) k < length (f_vertices fr)) as Hb
      by (unfold f_numVertices in *; lia).
    destruct (lookup_lt_is_Some_2 (f_vertices fr) _ Hb) as [v Hv].
    unfold vertex_type in *. by rewrite Hv.
  + rewrite lookup_take_ge by lia. symmetry. apply lookup_ge_None.
    unfold storedExternal. rewrite !length_fmap. lia.
Qed.
End compact.

(** ** The writing pass of [BigMesh] and [StxxlMesh] *)

Lemma length_soups_snoc frs fr :
  length (soups (frs ++ [fr])) = length (soups frs) + length (f_triangles fr).
Proof. by rewrite soups_snoc, length_app, length_soup. Qed.

Lemma big_add_sim frs fr b s b' :
  bigSim b s → stxxlInv frs s → Forall wf_fragment frs → wf_fragment fr →
  consistent (allKeys (frs ++ [fr])) (allExternal (frs ++ [fr])) →
  (Z.of_nat (totalVertices (frs ++ [fr])) < 2 ^ 32)%Z →
  (Z.of_nat (length (soups (frs ++ [fr]))) < 2 ^ 64)%Z →
  BigMesh.add fr b = Ok b' →
  ∃ s', StxxlMesh.add fr s = Ok s' ∧ bigSim b' s' ∧
        Writer.numVertices (BigMesh.writer b') = Writer.numVertices (BigMesh.writer b) ∧
        Writer.numTriangles (BigMesh.writer b') = Writer.numTriangles (BigMesh.writer b).
Proof.
  intros [Hmesh Hnv Hnt Hvseq Hvflat Htseq Htflat] Hinv Hwfs Hwf Hcons Hfit Hfit64 Hadd.
  pose proof Hwf as (HnI & Hkeys & Htris).
  assert (length (StxxlMesh.triangles s) = length (soups frs)) as Hlt.
  { rewrite <-(si_soup _ _ Hinv). by rewrite length_soup. }
  rewrite length_soups_snoc in Hfit64.
  unfold BigMesh.add in Hadd. cbv zeta in Hadd. rewrite Hmesh, Hnv in Hadd.
  destruct (weld _ fr (StxxlMesh.mesh s)) as [[cid [[m nk] it]]| |] eqn:Hweld; [|done..].
  rewrite bind_Ok in Hadd. injection Hadd as <-.
  assert (∃ s', StxxlMesh.add fr s = Ok s') as [s' Hadd'].
  { unfold StxxlMesh.add, StxxlMesh.addTraced. cbv zeta. rewrite Hweld. simpl. eauto. }
  exists s'. split; [done|].
  pose proof (stxxl_old_ids frs s Hinv Hwfs) as Hold.
  destruct (stxxl_add_shape frs fr s s' Hinv Hwfs Hwf Hfit Hadd')
    as (cl & cid' & nk' & it' & Hcomp & Hcid & Hupd & Hfit1 & Hvs' & Htris').
  destruct (weld_Ok _ _ _ _ _ _ _ Hweld) as (cl0 & Hcomp0 & Hupd0).
  rewrite Hcomp in Hcomp0. injection Hcomp0 as <- <-.
  rewrite wrap32_small in Hupd0 by lia.
  replace (Z.of_nat (length (StxxlMesh.vertices s)) + Z.of_nat (f_numInternal fr))%Z
    with (Z.of_nat (length (StxxlMesh.vertices s) + f_numInternal fr)) in Hupd0 by lia.
  rewrite Hupd in Hupd0. injection Hupd0 as Hm <- <-.
  destruct (stxxl_add_table fr s cl cid' _ nk' it' HnI Hkeys Hcid Hupd) as (Hnk & _ & Htab).
  assert (consistent (f_keys fr) (drop (f_numInternal fr) (f_vertices fr))) as Hcons'.
  { rewrite allKeys_snoc, allExternal_snoc in Hcons.
    eapply consistent_suffix; [|exact Hcons]. by apply allExternal_length. }
  pose proof (compact_take (keyMap (StxxlMesh.mesh s)) fr cid' (length (StxxlMesh.vertices s))
                it' HnI Hkeys Hfit1 Hold Htab Hcons') as Htake.
  assert (length (newKeysOf (keyMap (StxxlMesh.mesh s)) (f_keys fr)) ≤ length (f_keys fr))
    as Hle.
  { unfold newKeysOf. etrans; [apply distinctKeys_length|]. apply length_filter. }
  assert (Z.to_nat (Z.of_nat (f_numInternal fr) + nk') =
          f_numInternal fr + length (newKeysOf (keyMap (StxxlMesh.mesh s)) (f_keys fr)))
    as Hcount by lia.
  rewrite <-Hkeys, Hcount, Htake.
  assert (length (take (f_numInternal fr) (f_vertices fr) ++
                  (storedExternal (keyMap (StxxlMesh.mesh s)) fr cid' (f_keys fr)).*1) =
          f_numInternal fr + length (newKeysOf (keyMap (StxxlMesh.mesh s)) (f_keys fr)))
    as Hlen.
  { rewrite length_app, length_take, length_fmap. unfold storedExternal.
    rewrite length_fmap. unfold f_numVertices in *. lia. }
  assert ((StxxlMesh.vertices s').*1 =
          (StxxlMesh.vertices s).*1 ++
          (take (f_numInternal fr) (f_vertices fr) ++
           (storedExternal (keyMap (StxxlMesh.mesh s)) fr cid' (f_keys fr)).*1)) as Hfst.
  { rewrite Hvs', !fmap_app, fst_zip, (assoc_L (++)); [done|].
    rewrite !length_take. unfold f_numVertices in *. lia. }
  assert (length (StxxlMesh.vertices s') =
          length (StxxlMesh.vertices s) + f_numInternal fr +
          length (newKeysOf (keyMap (StxxlMesh.mesh s)) (f_keys fr))) as Hlen'.
  { rewrite <-(length_fmap fst (StxxlMesh.vertices s')), Hfst, length_app, Hlen, length_fmap.
    lia. }
  split; [|done].
  split; cbn [BigMesh.mesh BigMesh.nextVertex BigMesh.nextTriangle BigMesh.writer
              Writer.writeVertices Writer.writeTriangles Writer.vertexWrites
              Writer.triangleWrites].
  - done.
  - rewrite wrap64_small by lia. rewrite Hlen'. lia.
  - rewrite Hnt, Htris', length_app, length_rewriteTriangles, wrap64_small by lia. lia.
  - apply sequential_snoc. split; [done|]. cbn [fst snd].
    rewrite Hvflat, length_fmap, Hlen. split; lia.
  - by rewrite flat_snoc, Hvflat, Hfst.
  - apply sequential_snoc. split; [done|]. cbn [fst snd].
    rewrite Htflat, length_rewriteTriangles. split; lia.
  - rewrite flat_snoc, Htflat, Htris'. cbn [snd]. by rewrite wrap32_small by lia.
Qed.

Lemma big_pass1 frs : ∀ q b,
  bigSim q StxxlMesh.create → Forall wf_fragment frs →
  consistent (allKeys frs) (allExternal frs) →
  (Z.of_nat (totalVertices frs) < 2 ^ 32)%Z →
  (Z.of_nat (length (soups frs)) < 2 ^ 64)%Z →
  foldlM (BigMesh.functor 1) q frs = Ok b →
  ∃ s, StxxlMesh.addAll frs StxxlMesh.create = Ok s ∧ bigSim b s ∧ stxxlInv frs s ∧
       Writer.numVertices (BigMesh.writer b) = Writer.numVertices (BigMesh.writer q) ∧
       Writer.numTriangles (BigMesh.writer b) = Writer.numTriangles (BigMesh.writer q).
Proof.
  induction frs as [|fr frs IH] using rev_ind; intros q b Hsim Hwf Hcons Hfit Hfit64 Hrun.
  - injection Hrun as <-. exists StxxlMesh.create. split; [done|]. split; [done|].
    split; [apply stxxlInv_create|done].
  - apply Forall_app in Hwf as [Hwfs Hwf]. apply Forall_cons in Hwf as [Hwf _].
    rewrite foldlM_snoc in Hrun.
    destruct (foldlM (BigMesh.functor 1) q frs) as [b0| |] eqn:Hrun0; [|done..].
    rewrite bind_Ok in Hrun.
    destruct (IH q b0) as (s0 & Hs0 & Hsim0 & Hinv0 & E1 & E2); try done.
    + rewrite allKeys_snoc, allExternal_snoc in Hcons.
      eapply consistent_prefix; [|exact Hcons]. by apply allExternal_length.
    + rewrite totalVertices_snoc in Hfit. lia.
    + rewrite length_soups_snoc in Hfit64. lia.
    + destruct (big_add_sim frs fr b0 s0 b Hsim0 Hinv0 Hwfs Hwf Hcons Hfit Hfit64 Hrun)
        as (s & Hadd & Hsim' & F1 & F2).
      exists s. split.
      { unfold StxxlMesh.addAll in *. rewrite foldlM_snoc, Hs0. by rewrite bind_Ok. }
      split; [done|]. split; [|by rewrite F1, F2].
      by apply (stxxl_add frs fr s0 s).
Qed.

Lemma bigSim_start p :
  Writer.vertexWrites (BigMesh.writer p) = [] →
  Writer.triangleWrites (BigMesh.writer p) = [] →
  clumps (BigMesh.mesh p) = [] →
  ∃ q, BigMesh.outputFunctor 1 p = Ok q ∧ bigSim q StxxlMesh.create ∧
       Writer.numVertices (BigMesh.writer q) = BigMesh.nVertices p ∧
       Writer.numTriangles (BigMesh.writer q) = BigMesh.nTriangles p ∧
       Writer.fileName (BigMesh.writer q) = Some (BigMesh.filename p).
Proof.
  intros Hv Ht Hcl. eexists. split; [reflexivity|]. split; [|done].
  split; cbn; rewrite ?Hv, ?Ht, ?Hcl; done.
Qed.

Lemma count_clumps fr p : clumps (BigMesh.mesh (BigMesh.count fr p)) = clumps (BigMesh.mesh p).
Proof. unfold BigMesh.count. by destruct (foldl _ _ _). Qed.

Lemma pass0_clumps frs : ∀ p p',
  foldlM (BigMesh.functor 0) p frs = Ok p' →
  clumps (BigMesh.mesh p') = clumps (BigMesh.mesh p) ∧ BigMesh.filename p' = BigMesh.filename p.
Proof.
  induction frs as [|fr frs IH]; intros p p' Hrun.
  - by injection Hrun as <-.
  - simpl in Hrun. apply IH in Hrun. by rewrite count_clumps, count_filename in Hrun.
Qed.

Lemma big_add_fileName fr b b' :
  BigMesh.add fr b = Ok b' →
  Writer.fileName (BigMesh.writer b') = Writer.fileName (BigMesh.writer b).
Proof.
  unfold BigMesh.add. cbv zeta.
  destruct (weld _ fr (BigMesh.mesh b)) as [[cid [[m nk] it]]| |]; [|done..].
  rewrite bind_Ok. by intros [= <-].
Qed.

Lemma pass1_fileName frs : ∀ q b,
  foldlM (BigMesh.functor 1) q frs = Ok b →
  Writer.fileName (BigMesh.writer b) = Writer.fileName (BigMesh.writer q).
Proof.
  induction frs as [|fr frs IH]; intros q b Hrun.
  - by injection Hrun as <-.
  - change (foldlM (BigMesh.functor 1) q (fr :: frs))
      with (BigMesh.add fr q ≫= λ a', foldlM (BigMesh.functor 1) a' frs) in Hrun.
    destruct (BigMesh.add fr q) as [q1| |] eqn:Hadd; [|done..].
    rewrite bind_Ok in Hrun. rewrite (IH _ _ Hrun). by eapply big_add_fileName.
Qed.

(** Both passes of [BigMesh], next to a [StxxlMesh] that is given the same
    fragments. *)
Lemma big_run name frs b :
  Forall wf_fragment frs →
  consistent (allKeys frs) (allExternal frs) →
  (Z.of_nat (totalVertices frs) < 2 ^ 32)%Z →
  (Z.of_nat (length (soups frs)) < 2 ^ 64)%Z →
  BigMesh.run frs (BigMesh.create name) = Ok b →
  ∃ s, StxxlMesh.addAll frs StxxlMesh.create = Ok s ∧ bigSim b s ∧ stxxlInv frs s ∧
       Writer.numVertices (BigMesh.writer b) = Z.of_nat (length (StxxlMesh.vertices s)) ∧
       Writer.numTriangles (BigMesh.writer b) = Z.of_nat (length (StxxlMesh.triangles s)) ∧
       Writer.fileName (BigMesh.writer b) = Some name.
Proof.
  intros Hwf Hcons Hfit Hfit64 Hrun. unfold BigMesh.run, BigMesh.runPass in Hrun.
  change (BigMesh.outputFunctor 0 (BigMesh.create name)) with (Ok (BigMesh.create name)) in Hrun.
  rewrite bind_Ok in Hrun.
  destruct (foldlM (BigMesh.functor 0) (BigMesh.create name) frs) as [p| |] eqn:Hp; [|done..].
  rewrite bind_Ok in Hrun.
  pose proof (pass0_writer _ _ _ Hp) as Hw.
  destruct (pass0_clumps _ _ _ Hp) as [Hcl Hname].
  destruct (bigSim_start p) as (q & Hq & Hsim & N1 & N2 & N3);
    [by rewrite Hw|by rewrite Hw|by rewrite Hcl|].
  rewrite Hq, bind_Ok in Hrun.
  destruct (big_pass1 frs q b Hsim Hwf Hcons Hfit Hfit64 Hrun) as (s & Hs & Hsim' & Hinv & E1 & E2).
  exists s. split; [done|]. split; [done|]. split; [done|].
  destruct (passes_agree frs (BigMesh.create name) q p b)
    as ((_ & HnV & HnT) & _); try done.
  { injection Hq as <-. done. }
  { injection Hq as <-. unfold writtenSoFar. cbn. rewrite Hw. cbn. repeat split; constructor. }
  rewrite E1, E2, N1, N2, HnV, HnT, (bs_nextVertex _ _ Hsim'), (bs_nextTriangle _ _ Hsim').
  split; [done|]. split; [done|].
  rewrite (pass1_fileName _ _ _ Hrun), N3, Hname. done.
Qed.

(** X8: [BigMesh] keeps the geometry.  When both passes run over the same
    well-formed fragments, with fewer than 2^32 vertices and fewer than
    2^64 triangles in all and the same coordinates for external vertices
    with the same key, the file gets its vertices and its triangles in
    sequential writes from position 0; the number of vertices declared
    before the writing pass is the number written, the internal vertices
    plus one for every distinct key, the number of triangles declared is
    the number written, every index written is the position of a vertex
    written, and the triangle soup of the file is the soup of the
    fragments. *)
Theorem big_mesh_keeps_geometry name frs b :
  Forall wf_fragment frs →
  consistent (allKeys frs) (allExternal frs) →
  (Z.of_nat (totalVertices frs) < 2 ^ 32)%Z →
  (Z.of_nat (length (soups frs)) < 2 ^ 64)%Z →
  BigMesh.run frs (BigMesh.create name) = Ok b →
  let vw := Writer.vertexWrites (BigMesh.writer b) in
  let tw := Writer.triangleWrites (BigMesh.writer b) in
  Writer.fileName (BigMesh.writer b) = Some name ∧
  sequential 0 vw ∧ sequential 0 tw ∧
  Writer.numVertices (BigMesh.writer b) = Z.of_nat (length (flat vw)) ∧
  length (flat vw) = length (allInternal frs) + length (distinctKeys (allKeys frs)) ∧
  Writer.numTriangles (BigMesh.writer b) = Z.of_nat (length (flat tw)) ∧
  closed (flat vw) (flat tw) ∧
  soup (flat vw) (flat tw) = soups frs.
Proof.
  intros Hwf Hcons Hfit Hfit64 Hrun. cbv zeta.
  destruct (big_run name frs b Hwf Hcons Hfit Hfit64 Hrun)
    as (s & _ & [_ _ _ Hvseq Hvflat Htseq Htflat] & [Hlen _ _ Hclosed Hsoup] & HnV & HnT & Hname).
  rewrite Hvflat, Htflat, length_fmap. done.
Qed.

(** * The buffers of [StxxlMesh::write] *)

(** ** The blocks of [VertexBuffer] and [TriangleBuffer] *)

Lemma push_chunked {X} cap (x : X) b :
  0 < cap → chunked cap b → chunked cap (StxxlMesh.push cap x b).
Proof.
  intros Hcap [Hlog Hdata]. unfold StxxlMesh.push. cbv zeta.
  destruct (decide _) as [Hfull|Hroom]; unfold chunked, StxxlMesh.flush; simpl in *.
  - split; [|done]. apply Forall_app. split; [done|]. by apply Forall_singleton.
  - split; [done|]. rewrite length_app in *. simpl in *. lia.
Qed.

Lemma writeVertex_chunked cap thr s v :
  0 < cap → chunked cap (StxxlMesh.vl_buffer s) →
  chunked cap (StxxlMesh.vl_buffer (StxxlMesh.writeVertex cap thr s v)).
Proof.
  intros Hcap Hb. unfold StxxlMesh.writeVertex. destruct (findRoot _ _) as [r cl].
  destruct (_ <=? _)%Z; simpl; [by apply push_chunked|done].
Qed.

Lemma vertexLoop_chunked cap thr vs : ∀ s,
  0 < cap → chunked cap (StxxlMesh.vl_buffer s) →
  chunked cap (StxxlMesh.vl_buffer (foldl (StxxlMesh.writeVertex cap thr) s vs)).
Proof.
  induction vs as [|v vs IH]; intros s Hcap Hb; simpl; [done|].
  by apply IH, writeVertex_chunked.
Qed.

Lemma triangleLoop_chunked cap remap tris : ∀ b,
  0 < cap → chunked cap b → chunked cap (foldl (StxxlMesh.writeTriangle cap remap) b tris).
Proof.
  induction tris as [|tri tris IH]; intros b Hcap Hb; simpl; [done|]. apply IH; [done|].
  unfold StxxlMesh.writeTriangle. cbv zeta. destruct (decide _); [done|by apply push_chunked].
Qed.

Lemma flush_blocks {X} cap (b : StxxlMesh.buffer X) :
  chunked cap b → blocks cap (StxxlMesh.buf_log (StxxlMesh.flush b)).
Proof.
  intros [Hlog Hdata]. unfold blocks, StxxlMesh.flush. simpl.
  exists (StxxlMesh.buf_log b), (StxxlMesh.buf_next b, Z.of_nat (length (StxxlMesh.buf_data b)),
                                 StxxlMesh.buf_data b).
  done.
Qed.

(** X9: [StxxlMesh::write] hands the vertices and the triangles to the
    writer in blocks.  For buffers of positive capacity, every write but
    the last one carries exactly as many records as the buffer holds, the
    last one carries fewer, and possibly none, since the final [flush]
    always writes; each write starts where the one before it ended, from
    position 0. *)
Theorem write_fills_blocks vcap tcap thr name s :
  0 < vcap → 0 < tcap →
  let w := StxxlMesh.writeWith vcap tcap thr name s Writer.closed in
  blocks vcap (Writer.vertexWrites w) ∧ sequential 0 (Writer.vertexWrites w) ∧
  blocks tcap (Writer.triangleWrites w) ∧ sequential 0 (Writer.triangleWrites w).
Proof.
  intros Hv Ht. cbv zeta.
  destruct (writeWith_sequential vcap tcap thr name s) as [Hsv Hst].
  split; [|split; [done|split; [|done]]]; clear Hsv Hst.
  - unfold StxxlMesh.writeWith. destruct (StxxlMesh.keptTotals _ _) as [nv nt].
    cbn [Writer.vertexWrites Writer.open Writer.setNumTriangles Writer.setNumVertices
         Writer.closed app].
    apply flush_blocks, vertexLoop_chunked; [done|]. split; [constructor|simpl; lia].
  - unfold StxxlMesh.writeWith. destruct (StxxlMesh.keptTotals _ _) as [nv nt].
    cbn [Writer.triangleWrites Writer.open Writer.setNumTriangles Writer.setNumVertices
         Writer.closed app].
    apply flush_blocks, triangleLoop_chunked; [done|]. split; [constructor|simpl; lia].
Qed.

(** * Triangle counters and counted vertices *)

(** ** The triangle counters *)

Lemma triangleClumps_cons cid tri tris :
  triangleClumps cid (tri :: tris) =
  default 0 (cid !! Z.to_nat tri.1.1) :: triangleClumps cid tris.
Proof. done. Qed.

(** The last loop of [computeLocalComponents] changes nothing but the
    triangle counters, and adds to the counter of a clump the number of
    triangles whose first vertex is in the clump. *)
Lemma countTriangles_lookup cid tris : ∀ (cl : list Clump) r lk d,
  foldl (countTriangle cid) cl tris !! r = Some (mkNode lk d) →
  ∃ d0, cl !! r = Some (mkNode lk d0) ∧ vertices d = vertices d0 ∧
        triangles d =
        if decide (length (filter (λ c, c = r) (triangleClumps cid tris)) = 0)
        then triangles d0
        else wrap64 (triangles d0 +
                     Z.of_nat (length (filter (λ c, c = r) (triangleClumps cid tris)))).
Proof.
  induction tris as [|tri tris IH]; intros cl r lk d Hr.
  - exists d. by rewrite decide_True by done.
  - simpl in Hr. destruct (IH _ _ _ _ Hr) as (d1 & Hr1 & Hv1 & Ht1).
    rewrite triangleClumps_cons, filter_cons.
    set (k := length (filter (λ c, c = r) (triangleClumps cid tris))) in *.
    unfold countTriangle in Hr1. rewrite list_lookup_alter in Hr1.
    destruct (decide (default 0 (cid !! Z.to_nat tri.1.1) = r)) as [Heq|Hne].
    + rewrite Heq in Hr1.
      destruct (cl !! r) as [[lk0 d0]|] eqn:Hr0; [|done]. simpl in Hr1.
      injection Hr1 as -> <-. exists d0. split; [done|]. split; [done|].
      cbn [length]. rewrite decide_False by lia. rewrite Ht1. unfold clumpTriangles.
      cbn [triangles node_data]. fold k. clearbody k.
      destruct (decide (k = 0)) as [->|?].
      * f_equal.
      * rewrite wrap64_add_l. f_equal. lia.
    + exists d1. done.
Qed.

Lemma countIn_Some ρ r (l : list nat) :
  countIn Some ρ r l = length (filter (λ c, ρ c = r) l).
Proof.
  unfold countIn. apply filter_length_ext. intros c _. simpl.
  split; [by intros [= ?]|by intros ->].
Qed.

Lemma triInv_nil : triInv [] [].
Proof. split; [by intros c Hc%not_elem_of_nil|by intros r s d Hr]. Qed.

(** The counters after [computeLocalComponents]. *)
Lemma triInv_compute cl TL n tris cl1 cid :
  triInv cl TL → wf cl → wf_triangles n tris →
  computeLocalComponents n tris cl = Ok (cl1, cid) →
  triInv cl1 (TL ++ triangleClumps cid tris).
Proof.
  intros [Hrange Hcount] Hwf Hwt Hrun.
  destruct (computeLocalComponents_inv n tris cl cl1 cid Hwt Hrun) as (-> & Hlen & Hcid).
  pose proof (compute_length cl n tris cid) as Hlen1.
  pose proof (compute_root cl n tris cid Hwf) as Hroot.
  pose proof (compute_cid_range cl n tris cid Hwt Hlen Hcid) as Hcr.
  set (nodes := localNodes n tris) in *.
  set (cl1 := foldl (countTriangle cid) (cl ++ newClumps nodes n) tris) in *.
  assert (∀ c, c ∈ triangleClumps cid tris → c ∈ cid) as Hin.
  { intros c (tri & -> & Htri)%list_elem_of_fmap.
    destruct (corners_all (λ v, 0 ≤ v < Z.of_nat n)%Z tri) as (Ha & _);
      [intros v; apply (Hwt tri v Htri)|].
    destruct (lookup_lt_is_Some_2 cid (Z.to_nat tri.1.1)) as [c Hc]; [lia|].
    rewrite Hc. simpl. by eapply list_elem_of_lookup_2. }
  assert (∀ c, c ∈ cid → root cl c = c) as Hself.
  { intros c Hc. apply root_out. apply Hcr in Hc. lia. }
  split.
  - intros c [Hc|Hc]%elem_of_app.
    + apply Hrange in Hc. lia.
    + apply Hin, Hcr in Hc. lia.
  - intros r s d Hr.
    destruct (countTriangles_lookup cid tris _ r _ d Hr) as (d0 & Hr0 & _ & Ht).
    rewrite countIn_app, !countIn_Some.
    rewrite (filter_length_ext (λ c, root cl1 c = r) (λ c, root cl c = r) TL)
      by (intros c _; by rewrite Hroot).
    rewrite (filter_length_ext (λ c, root cl1 c = r) (λ c, c = r) (triangleClumps cid tris))
      by (intros c Hc; by rewrite Hroot, (Hself c (Hin c Hc))).
    set (k := length (filter (λ c, c = r) (triangleClumps cid tris))) in *.
    destruct (decide (r < length cl)) as [Hlt|Hge].
    + rewrite lookup_app_l in Hr0 by done.
      assert (k = 0) as Hk.
      { apply filter_length_zero. intros c Hc ->. apply Hin, Hcr in Hc. lia. }
      rewrite Hk in *. rewrite decide_True in Ht by done.
      rewrite Ht, (Hcount r s d0 Hr0), countIn_Some. f_equal. lia.
    + rewrite lookup_app_r in Hr0 by lia.
      apply newClumps_lookup in Hr0 as (r0 & _ & _ & _ & Hx).
      unfold newClump, makeNode in Hx. injection Hx as _ Hd0. subst d0. simpl in Ht.
      assert (length (filter (λ c, root cl c = r) TL) = 0) as ->.
      { apply filter_length_zero. intros c Hc Heq.
        pose proof (root_lt cl c Hwf (Hrange c Hc)). lia. }
      rewrite Ht. destruct (decide (k = 0)) as [->|?]; [done|]. f_equal.
Qed.

(** The counters after a key that is present. *)
Lemma triInv_unify cl TL c c2 :
  triInv cl TL → wf cl → c < length cl → c2 < length cl →
  triInv (unify cl c c2) TL.
Proof.
  intros [Hrange Hcount] Hwf Hc Hc2.
  destruct (unify_spec cl c c2 Hwf Hc Hc2) as (Hwf' & Hlen' & Hcases).
  set (cl' := unify cl c c2) in *.
  split; [intros x Hx; rewrite Hlen'; by apply Hrange|].
  intros r s d Hr.
  destruct Hcases as [(Heq & Hroot & Hlook)|(Hne & w & l & sw & sl & dw & dl & Hwl & Hroot & Hw & Hl & Hw' & Hother)].
  - destruct (Hlook r s d Hr) as (d0 & Hr0 & Ht & _). rewrite Ht, (Hcount r s d0 Hr0).
    by rewrite (countIn_ext Some (root cl) (root cl')) by (intros; apply Hroot).
  - assert (w ≠ l) as Hwl' by (intros ->; intuition congruence).
    destruct (decide (r = w)) as [->|Hrw].
    + rewrite Hw' in Hr. injection Hr as _ <-. simpl.
      rewrite (Hcount w sw dw Hw), (Hcount l sl dl Hl), wrap64_add.
      rewrite (countIn_link_w Some (root cl) (root cl') w l) by done.
      f_equal. lia.
    + destruct (Hother r s d Hrw Hr) as [Hrl Hr0].
      rewrite (Hcount r s d Hr0).
      by rewrite (countIn_link_other Some (root cl) (root cl') w l r) by done.
Qed.

(** ** The loop of [updateKeyMap], with the vertices it counts *)

Lemma unify_mono (cl : list Clump) c c2 :
  wf cl → c < length cl → c2 < length cl →
  ∀ a b, root cl a = root cl b → root (unify cl c c2) a = root (unify cl c c2) b.
Proof.
  intros Hwf Hc Hc2 a b Hab.
  destruct (unify_spec cl c c2 Hwf Hc Hc2) as (_ & _ & Hcases).
  destruct Hcases as [(_ & Hroot & _)|(_ & w & l & sw & sl & dw & dl & _ & Hroot & _)].
  - by rewrite !Hroot.
  - by rewrite !Hroot, Hab.
Qed.

Lemma keyOccs_cons km nI cid keys from k rest :
  keyOccs km nI cid keys from (k :: rest) =
  keyOcc km nI cid keys from k :: keyOccs km nI cid keys (S from) rest.
Proof.
  unfold keyOccs. rewrite imap_cons, Nat.add_0_r. f_equal.
  apply imap_ext. intros j x _. simpl. f_equal. lia.
Qed.

Lemma updateKeys_occs km off nI cid keys TL : ∀ rest seen s P,
  keys = seen ++ rest → nI + length keys ≤ length cid →
  keyLoopInv km off nI cid keys seen s →
  weldInv (kl_clumps s) (kl_keyMap s) P (zip rest (drop (nI + length seen) cid)) →
  triInv (kl_clumps s) TL →
  let s' := updateKeys nI off cid (length seen) rest s in
  weldInv (kl_clumps s') (kl_keyMap s') (P ++ keyOccs km nI cid keys (length seen) rest) [] ∧
  triInv (kl_clumps s') TL ∧
  length (kl_clumps s') = length (kl_clumps s) ∧
  (∀ a b, root (kl_clumps s) a = root (kl_clumps s) b →
          root (kl_clumps s') a = root (kl_clumps s') b).
Proof.
  induction rest as [|k rest IH]; intros seen s P Hkeys Hlen Hloop Hinv Htri; cbv zeta.
  - simpl. rewrite app_nil_r. done.
  - assert (length keys = length seen + S (length rest)) as Hlk
      by (rewrite Hkeys, length_app; done).
    destruct (lookup_lt_is_Some_2 cid (nI + length seen) ltac:(lia)) as [c Hc].
    rewrite (drop_S _ _ _ Hc) in Hinv. simpl in Hinv.
    assert (default 0 (cid !! (length seen + nI)) = c) as Hdef
      by (by rewrite Nat.add_comm, Hc).
    assert (keys !! length seen = Some k) as Hk.
    { rewrite Hkeys, lookup_app_r by lia. by rewrite Nat.sub_diag. }
    assert (take (length seen) keys = seen) as Htake
      by (rewrite Hkeys; by rewrite take_app_length).
    pose proof (updateKey_inv km off nI cid keys seen s k Hk Htake Hloop) as Hloop'.
    pose proof (kli_keyMap _ _ _ _ _ _ _ Hloop k) as Hat.
    cbn [updateKeys]. rewrite keyOccs_cons.
    replace (S (length seen)) with (length (seen ++ [k])) by (rewrite length_app; simpl; lia).
    assert (c < length (kl_clumps s)) as Hclt.
    { apply (wi_Q _ _ _ _ Hinv (k, c)). by left. }
    destruct (kl_keyMap s !! k) as [ed|] eqn:Hkey.
    + (* the key is present *)
      destruct (wi_weld _ _ _ _ Hinv k ed Hkey) as [Hc2 _].
      assert (keyOcc km nI cid keys (length seen) k = mkOcc c (Some k) false) as ->.
      { unfold keyOcc. rewrite Hdef, Htake. f_equal. apply bool_decide_eq_false.
        intros [Hnone Hout]. unfold keyMapAfter in Hat. rewrite Hnone in Hat.
        by rewrite decide_False in Hat. }
      pose proof (weldInv_present _ _ _ _ _ _ _ Hinv Hkey) as Hinv'.
      pose proof (triInv_unify _ _ c (clumpId ed) Htri (wi_wf _ _ _ _ Hinv) Hclt Hc2) as Htri'.
      rewrite (updateKey_Some _ _ _ _ _ _ ed Hkey), Hdef in Hloop' |- *.
      destruct (IH (seen ++ [k])
                  (mkKeyLoop (unify (kl_clumps s) c (clumpId ed)) (kl_keyMap s)
                     (kl_newKeys s) (<[length seen := vertexId ed]> (kl_indexTable s)))
                  (P ++ [mkOcc c (Some k) false])) as (H1 & H2 & H3 & H4);
        [by rewrite <-(assoc_L (++))|done|done| |done|].
      { cbn [kl_clumps kl_keyMap]. rewrite length_app. simpl.
        by replace (nI + (length seen + 1)) with (S (nI + length seen)) by lia. }
      cbn [kl_clumps kl_keyMap] in *. rewrite <-(assoc_L (++)) in H1.
      split; [done|]. split; [done|]. split.
      * rewrite H3. destruct (unify_spec (kl_clumps s) c (clumpId ed)
                                (wi_wf _ _ _ _ Hinv) Hclt Hc2) as (_ & ? & _). done.
      * intros a b Hab. apply H4.
        by apply (unify_mono _ _ _ (wi_wf _ _ _ _ Hinv) Hclt Hc2).
    + (* the key is new *)
      assert (keyOcc km nI cid keys (length seen) k = mkOcc c (Some k) true) as ->.
      { unfold keyOcc. rewrite Hdef, Htake. f_equal. apply bool_decide_eq_true.
        unfold keyMapAfter in Hat. destruct (km !! k); [done|].
        destruct (decide (k ∈ seen)); done. }
      pose proof (weldInv_absent _ _ _ _ _ _ (wrap32 (off + kl_newKeys s)) Hinv Hkey) as Hinv'.
      rewrite (updateKey_None _ _ _ _ _ _ Hkey), Hdef in Hloop' |- *.
      destruct (IH (seen ++ [k])
                  (mkKeyLoop (kl_clumps s)
                     (<[k := mkExternal (wrap32 (off + kl_newKeys s)) c]> (kl_keyMap s))
                     (kl_newKeys s + 1)
                     (<[length seen := wrap32 (off + kl_newKeys s)]> (kl_indexTable s)))
                  (P ++ [mkOcc c (Some k) true])) as (H1 & H2 & H3 & H4);
        [by rewrite <-(assoc_L (++))|done|done| |done|].
      { cbn [kl_clumps kl_keyMap]. rewrite length_app. simpl.
        by replace (nI + (length seen + 1)) with (S (nI + length seen)) by lia. }
      cbn [kl_clumps kl_keyMap] in *. rewrite <-(assoc_L (++)) in H1. done.
Qed.

(** * The clumps of the stored vertices *)

(** ** The labels of the stored vertices *)

Lemma keyOccs_snoc km nI cid keys l k :
  keyOccs km nI cid keys 0 (l ++ [k]) =
  keyOccs km nI cid keys 0 l ++ [keyOcc km nI cid keys (length l) k].
Proof. unfold keyOccs. rewrite imap_app. simpl. by rewrite Nat.add_0_r. Qed.

(** The vertices that the loop of [updateKeyMap] counts are the ones that
    [StxxlMesh::add] stores. *)
Lemma omap_keyOccs km fr cid n :
  n ≤ length (f_keys fr) →
  omap uniqueClump (keyOccs km (f_numInternal fr) cid (f_keys fr) 0 (take n (f_keys fr))) =
  (storedExternal km fr cid (take n (f_keys fr))).*2.
Proof.
  induction n as [|n IH]; intros Hn.
  - rewrite take_0. done.
  - destruct (lookup_lt_is_Some_2 (f_keys fr) n ltac:(lia)) as [k Hk].
    rewrite (take_S_r _ _ _ Hk), keyOccs_snoc, omap_app, IH by lia.
    unfold storedExternal. rewrite newKeysOf_snoc.
    rewrite length_take, Nat.min_l by lia.
    unfold keyOcc. cbn [omap list_omap uniqueClump o_first o_clump].
    destruct (decide (km !! k = None ∧ k ∉ take n (f_keys fr))) as [[Hnone Hnew]|Hold].
    + rewrite bool_decide_eq_true_2 by done. rewrite !fmap_app. simpl.
      rewrite (rank_take_new (f_keys fr) n k Hk Hnew). by rewrite (Nat.add_comm n).
    + rewrite bool_decide_eq_false_2 by done. simpl. by rewrite app_nil_r.
Qed.

Lemma elem_of_keyOccs km nI cid keys j k :
  keys !! j = Some k → keyOcc km nI cid keys j k ∈ keyOccs km nI cid keys 0 keys.
Proof.
  intros Hj. unfold keyOccs. apply list_elem_of_lookup. exists j.
  rewrite list_lookup_imap, Hj. done.
Qed.

(** Two vertices of a triangle get the same clump. *)
Lemma same_triangle_same_clump n tris cl cl1 cid tri x y :
  wf_triangles n tris → computeLocalComponents n tris cl = Ok (cl1, cid) →
  tri ∈ tris → x ∈ indices tri → y ∈ indices tri →
  cid !! Z.to_nat x = cid !! Z.to_nat y ∧ is_Some (cid !! Z.to_nat x).
Proof.
  intros Hwt Hrun Htri Hx Hy.
  destruct (computeLocalComponents_inv n tris cl cl1 cid Hwt Hrun) as (_ & Hlen & Hcid).
  destruct (localNodes_spec n tris Hwt) as (_ & _ & Hsame).
  pose proof (Hwt tri x Htri Hx) as Hxr. pose proof (Hwt tri y Htri Hy) as Hyr.
  rewrite !Hcid by lia. split; [|by eauto]. do 2 f_equal. f_equal.
  apply Hsame. apply rtc_once. exists tri.
  rewrite !Z2Nat.id by lia. done.
Qed.

Lemma labelInv_create : labelInv StxxlMesh.create [] [].
Proof.
  split; simpl.
  - apply weldInv_empty.
  - apply triInv_nil.
  - done.
  - intros k ed. by rewrite lookup_empty.
  - constructor.
Qed.

Lemma omap_internal (cs : list nat) : omap uniqueClump (internalOcc <$> cs) = cs.
Proof. induction cs as [|c cs IH]; [done|]. simpl. by f_equal. Qed.

(** One [StxxlMesh::add]. *)
Lemma label_add frs fr s s' P TL :
  stxxlInv frs s → labelInv s P TL → Forall wf_fragment frs → wf_fragment fr →
  (Z.of_nat (totalVertices (frs ++ [fr])) < 2 ^ 32)%Z →
  StxxlMesh.add fr s = Ok s' →
  ∃ P' TL', labelInv s' P' TL'.
Proof.
  intros Hinv [Hweld Htri Hlabels Hkeysl Hcorners] Hwfs Hwf Hfit Hadd.
  pose proof (stxxl_old_ids frs s Hinv Hwfs) as Hold.
  destruct (stxxl_add_shape frs fr s s' Hinv Hwfs Hwf Hfit Hadd)
    as (cl1 & cid & nk & it & Hcomp & Hcid & Hupd & Hfit1 & Hvs' & Htris').
  pose proof Hwf as (HnI & Hkeys & Htris).
  destruct (stxxl_add_table fr s cl1 cid _ nk it HnI Hkeys Hcid Hupd) as (Hnk & Hkm' & Htab).
  pose proof (wi_wf _ _ _ _ Hweld) as Hwfcl.
  destruct (weldInv_compute _ _ _ _ _ (f_numInternal fr) (f_keys fr) _ _
              Hweld Htris HnI Hkeys Hcomp) as [_ Hweld1].
  pose proof (triInv_compute _ _ _ _ _ _ Htri Hwfcl Htris Hcomp) as Htri1.
  assert (∀ i, root cl1 i = root (clumps (StxxlMesh.mesh s)) i) as Hroot1.
  { destruct (computeLocalComponents_inv _ _ _ _ _ Htris Hcomp) as (-> & Hl & Hc).
    apply (compute_root _ _ _ cid Hwfcl). }
  set (cl := clumps (StxxlMesh.mesh s)) in *.
  set (km := keyMap (StxxlMesh.mesh s)) in *.
  set (nI := f_numInternal fr) in *.
  set (keys := f_keys fr) in *.
  set (vs := StxxlMesh.vertices s) in *.
  set (off := Z.of_nat (length vs + nI)) in *.
  destruct (updateKeys_occs km off nI cid keys (TL ++ triangleClumps cid (f_triangles fr))
              keys [] (mkKeyLoop cl1 km 0 (replicate (length keys) 0%Z))
              (P ++ (internalOcc <$> take nI cid)))
    as (Hweld' & Htri' & Hlen' & Hmono');
    [done|unfold keys, nI, f_numVertices in *; lia|apply keyLoopInv_init|
     simpl; by rewrite Nat.add_0_r|done|].
  cbn [length kl_clumps] in Hweld', Htri', Hlen', Hmono'.
  assert (StxxlMesh.mesh s' =
          mkMesh (kl_clumps (updateKeys nI off cid 0 keys
                               (mkKeyLoop cl1 km 0 (replicate (length keys) 0%Z))))
                 (kl_keyMap (updateKeys nI off cid 0 keys
                               (mkKeyLoop cl1 km 0 (replicate (length keys) 0%Z))))) as Hm.
  { unfold updateKeyMap in Hupd. cbv zeta in Hupd. cbn [clumps keyMap] in Hupd.
    replace (length cid - length keys) with nI in Hupd
      by (unfold keys, nI, f_numVertices in *; lia).
    congruence. }
  set (s1 := updateKeys nI off cid 0 keys (mkKeyLoop cl1 km 0 (replicate (length keys) 0%Z)))
    in *.
  destruct s' as [m' vs' tris'].
  cbn [StxxlMesh.mesh StxxlMesh.vertices StxxlMesh.triangles] in *. subst m' vs' tris'.
  cbn [clumps keyMap] in *.
  assert (∀ a b, root cl a = root cl b → root (kl_clumps s1) a = root (kl_clumps s1) b)
    as Hmono.
  { intros a b Hab. apply Hmono'. by rewrite !Hroot1. }
  assert (((vs ++ zip (take nI (f_vertices fr)) (take nI cid)) ++
           storedExternal km fr cid keys).*2 =
          vs.*2 ++ take nI cid ++ (storedExternal km fr cid keys).*2) as Hsnd.
  { rewrite !fmap_app, snd_zip, (assoc_L (++)); [done|].
    rewrite !length_take. unfold f_numVertices in *. lia. }
  assert (length (take nI cid) = nI) as Hlti
    by (rewrite length_take; unfold f_numVertices in *; lia).
  assert (length vs.*2 = length vs) as Hlv by (by rewrite length_fmap).
  assert (∀ k, keys !! (rank keys k) = Some k → km !! k = None →
            (vs.*2 ++ take nI cid ++ (storedExternal km fr cid keys).*2) !!
              (length vs + nI + rank (newKeysOf km keys) k) =
            Some (default 0 (cid !! (nI + rank keys k)))) as Hnewl.
  { intros k Hk Hnone.
    assert (k ∈ keys) as Hin by (by eapply list_elem_of_lookup_2).
    assert (k ∈ newKeysOf km keys) as Hnk' by (by apply elem_of_newKeysOf).
    destruct (rank_elem _ _ Hnk') as [Hr _].
    rewrite lookup_app_r by lia. rewrite lookup_app_r by lia.
    replace (length vs + nI + rank (newKeysOf km keys) k - length vs.*2 - length (take nI cid))
      with (rank (newKeysOf km keys) k) by lia.
    unfold storedExternal. rewrite <-list_fmap_compose, list_lookup_fmap, Hr. done. }
  assert (∀ k ed, kl_keyMap s1 !! k = Some ed →
            (vs.*2 ++ take nI cid ++ (storedExternal km fr cid keys).*2) !!
              Z.to_nat (vertexId ed) = Some (clumpId ed)) as Hkeys'.
  { intros k ed. rewrite Hkm'. unfold keyMapAfter.
    destruct (km !! k) as [ed0|] eqn:Hk.
    - intros [= ->]. pose proof (Hold k ed Hk). fold vs in H.
      rewrite lookup_app_l by lia. by apply (Hkeysl k).
    - destruct (decide (k ∈ keys)) as [Hin|]; [|done]. intros [= <-]. simpl.
      assert (k ∈ newKeysOf km keys) as Hnk' by (by apply elem_of_newKeysOf).
      pose proof (rank_lt _ _ Hnk') as Hr.
      assert (length (newKeysOf km keys) ≤ length keys) as Hle.
      { unfold newKeysOf. etrans; [apply distinctKeys_length|]. apply length_filter. }
      rewrite wrap32_small by (unfold off; lia).
      replace (Z.to_nat (off + Z.of_nat (rank (newKeysOf km keys) k)))
        with (length vs + nI + rank (newKeysOf km keys) k) by (unfold off; lia).
      destruct (rank_elem _ _ Hin) as [Hfirst _].
      rewrite (Hnewl k Hfirst Hk). by rewrite (Nat.add_comm nI). }
  exists (P ++ (internalOcc <$> take nI cid) ++ keyOccs km nI cid keys 0 keys),
         (TL ++ triangleClumps cid (f_triangles fr)).
  split; cbn [StxxlMesh.mesh StxxlMesh.vertices StxxlMesh.triangles clumps keyMap].
  - by rewrite (assoc_L (++)).
  - done.
  - pose proof (omap_keyOccs km fr cid (length keys) (le_n _)) as Hom.
    rewrite take_ge in Hom by done. fold nI keys in Hom.
    by rewrite Hsnd, !omap_app, <-Hlabels, omap_internal, Hom.
  - rewrite Hsnd. exact Hkeys'.
  - rewrite Hsnd. apply Forall2_app.
    + eapply Forall2_impl; [exact Hcorners|]. intros tri c Hc x Hx.
      destruct (Hc x Hx) as (lbl & Hl & Hr). exists lbl. split; [|by apply Hmono].
      rewrite lookup_app_l; [done|]. by eapply lookup_lt_Some.
    + unfold rewriteTriangles, triangleClumps. apply Forall2_fmap, Forall_Forall2_diag.
      apply Forall_forall. intros [[a b] c] Hin3 x' Hx'. simpl.
      assert (∀ x, x ∈ indices (a, b, c) →
                ∃ lbl, (vs.*2 ++ take nI cid ++ (storedExternal km fr cid keys).*2) !!
                         Z.to_nat (rewriteIndex (wrap32 (Z.of_nat (length vs))) nI it x) =
                       Some lbl ∧
                       root (kl_clumps s1) lbl =
                       root (kl_clumps s1) (default 0 (cid !! Z.to_nat a))) as Hall.
      { intros x Hx.
        assert (a ∈ indices (a, b, c)) as Ha by (apply elem_of_indices; tauto).
        destruct (same_triangle_same_clump _ _ _ _ _ _ x a Htris Hcomp Hin3 Hx Ha)
          as [Hsame [cx Hcx]].
        rewrite <-Hsame, Hcx. simpl.
        pose proof (Htris _ x Hin3 Hx) as Hxr.
        unfold rewriteIndex. destruct (x <? Z.of_nat nI)%Z eqn:Hlt.
        - apply Z.ltb_lt in Hlt. rewrite wrap32_add_l, wrap32_small by lia.
          exists cx. split; [|done].
          replace (Z.to_nat (Z.of_nat (length vs) + x)) with (length vs + Z.to_nat x) by lia.
          rewrite lookup_app_r by lia. rewrite lookup_app_l by lia.
          rewrite lookup_take_lt by lia.
          by replace (length vs + Z.to_nat x - length vs.*2) with (Z.to_nat x) by lia.
        - apply Z.ltb_ge in Hlt.
          destruct (lookup_lt_is_Some_2 keys (Z.to_nat x - nI)) as [k Hk];
            [unfold keys, f_numVertices in *; lia|].
          assert (k ∈ keys) as Hin by (by eapply list_elem_of_lookup_2).
          rewrite (Htab _ k Hk).
          destruct (keyMapAfter km off nI cid keys keys k) as [ed|] eqn:Hafter.
          + rewrite <-Hkm' in Hafter. simpl. exists (clumpId ed).
            split; [by apply (Hkeys' k)|].
            destruct (wi_weld _ _ _ _ Hweld' k ed Hafter) as [_ Hroots].
            symmetry.
            pose proof (Hroots (keyOcc km nI cid keys (Z.to_nat x - nI) k)) as Hocc.
            unfold keyOcc in Hocc at 2 3. simpl in Hocc.
            replace (Z.to_nat x - nI + nI) with (Z.to_nat x) in Hocc by lia.
            rewrite Hcx in Hocc. simpl in Hocc. apply Hocc; [|done].
            apply elem_of_app. right. by apply elem_of_keyOccs.
          + unfold keyMapAfter in Hafter. destruct (km !! k); [done|].
            by rewrite decide_True in Hafter. }
      unfold indices in Hx'. simpl in Hx'.
      apply elem_of_cons in Hx' as [->|Hx']; [apply Hall, elem_of_indices; tauto|].
      apply elem_of_cons in Hx' as [->|Hx']; [apply Hall, elem_of_indices; tauto|].
      apply elem_of_cons in Hx' as [->|Hx']; [apply Hall, elem_of_indices; tauto|].
      by apply not_elem_of_nil in Hx'.
Qed.

(** Everything that is known of a [StxxlMesh] after the fragments
    [frs]. *)
Lemma stxxl_addAll_labels frs : ∀ s,
  Forall wf_fragment frs →
  consistent (allKeys frs) (allExternal frs) →
  (Z.of_nat (totalVertices frs) < 2 ^ 32)%Z →
  StxxlMesh.addAll frs StxxlMesh.create = Ok s →
  stxxlInv frs s ∧ ∃ P TL, labelInv s P TL.
Proof.
  induction frs as [|fr frs IH] using rev_ind; intros s Hwf Hcons Hfit Hrun.
  - injection Hrun as <-. split; [apply stxxlInv_create|].
    exists [], []. apply labelInv_create.
  - apply Forall_app in Hwf as [Hwfs Hwf]. apply Forall_cons in Hwf as [Hwf _].
    unfold StxxlMesh.addAll in Hrun. rewrite foldlM_snoc in Hrun.
    destruct (foldlM _ StxxlMesh.create frs) as [s0| |] eqn:Hrun0; [|done..].
    rewrite bind_Ok in Hrun.
    destruct (IH s0) as (Hinv0 & P & TL & Hlab0); try done.
    + rewrite allKeys_snoc, allExternal_snoc in Hcons.
      eapply consistent_prefix; [|exact Hcons]. by apply allExternal_length.
    + rewrite totalVertices_snoc in Hfit. lia.
    + split; [by apply (stxxl_add frs fr s0 s)|].
      by apply (label_add frs fr s0 s P TL).
Qed.

(** * [StxxlMesh::write]: pruning *)

(** ** The vertex loop of [StxxlMesh::write] *)

Lemma shortcut_verticesAt (cl cl' : list Clump) r :
  shortcut cl cl' → from_option clumpVertices 0%Z (cl' !! r) = verticesAt cl r.
Proof.
  intros Hsc. pose proof (shortcut_data _ _ r Hsc) as Hd. unfold verticesAt, clumpVertices.
  destruct (cl' !! r) as [x'|], (cl !! r) as [x|]; simplify_eq/=; congruence.
Qed.

Lemma writeVertex_spec cap T cl l v n :
  wf cl → shortcut cl (StxxlMesh.vl_clumps l) →
  StxxlMesh.vl_next l = wrap32 (Z.of_nat n) →
  let l' := StxxlMesh.writeVertex cap T l v in
  shortcut cl (StxxlMesh.vl_clumps l') ∧
  if decide (keptClump T cl v.2) then
    buffered (StxxlMesh.vl_buffer l') = buffered (StxxlMesh.vl_buffer l) ++ [v.1] ∧
    StxxlMesh.vl_remap l' = StxxlMesh.vl_remap l ++ [wrap32 (Z.of_nat n)] ∧
    StxxlMesh.vl_next l' = wrap32 (Z.of_nat (S n))
  else
    buffered (StxxlMesh.vl_buffer l') = buffered (StxxlMesh.vl_buffer l) ∧
    StxxlMesh.vl_remap l' = StxxlMesh.vl_remap l ++ [UINT32_MAX] ∧
    StxxlMesh.vl_next l' = wrap32 (Z.of_nat n).
Proof.
  intros Hwf Hsc Hnext. cbv zeta. unfold StxxlMesh.writeVertex.
  pose proof (shortcut_wf _ _ Hwf Hsc) as Hwf'.
  pose proof (findRoot_shortcut (StxxlMesh.vl_clumps l) v.2 Hwf') as Hsc'.
  pose proof (findRoot_fst (StxxlMesh.vl_clumps l) v.2) as Hfst.
  destruct (findRoot (StxxlMesh.vl_clumps l) v.2) as [r cl'] eqn:Hfind.
  simpl in Hsc', Hfst. subst r.
  pose proof (shortcut_trans _ _ _ Hwf Hsc Hsc') as Hsc''.
  rewrite (shortcut_verticesAt cl cl' _ Hsc''), (shortcut_root cl _ _ Hwf Hsc).
  unfold keptClump.
  destruct (decide (T ≤ verticesAt cl (root cl v.2))%Z) as [Hk|Hk].
  - rewrite (proj2 (Z.leb_le _ _) Hk). cbn. split; [done|].
    rewrite push_buffered, Hnext, wrap32_add_l. split; [done|]. split; [done|].
    f_equal. lia.
  - destruct (T <=? _)%Z eqn:Hle; [apply Z.leb_le in Hle; lia|]. cbn. done.
Qed.

Lemma vertexLoop_spec cap T cl : ∀ vs l n,
  wf cl → shortcut cl (StxxlMesh.vl_clumps l) →
  StxxlMesh.vl_next l = wrap32 (Z.of_nat n) →
  let l' := foldl (StxxlMesh.writeVertex cap T) l vs in
  buffered (StxxlMesh.vl_buffer l') =
    buffered (StxxlMesh.vl_buffer l) ++ (filter (λ v, keptClump T cl v.2) vs).*1 ∧
  StxxlMesh.vl_remap l' = StxxlMesh.vl_remap l ++ remapFrom T cl n vs.
Proof.
  induction vs as [|v vs IH]; intros l n Hwf Hsc Hnext; cbv zeta.
  - simpl. by rewrite !app_nil_r.
  - simpl. rewrite filter_cons.
    destruct (writeVertex_spec cap T cl l v n Hwf Hsc Hnext) as [Hsc' Hstep].
    destruct (decide (keptClump T cl v.2)) as [Hk|Hk].
    + destruct Hstep as (Hb & Hr & Hn).
      destruct (IH _ (S n) Hwf Hsc' Hn) as [Hb' Hr'].
      rewrite Hb', Hr', Hb, Hr, fmap_cons, <-!(assoc_L (++)). done.
    + destruct Hstep as (Hb & Hr & Hn).
      destruct (IH _ n Hwf Hsc' Hn) as [Hb' Hr'].
      rewrite Hb', Hr', Hb, Hr, <-!(assoc_L (++)). done.
Qed.

(** The table [vertexRemap]: a vertex that is kept gets the number of kept
    vertices before it, any other vertex gets [UINT32_MAX]. *)
Lemma remapFrom_lookup T cl : ∀ vs n i v,
  vs !! i = Some v →
  remapFrom T cl n vs !! i =
  Some (if decide (keptClump T cl v.2)
        then wrap32 (Z.of_nat (n + length (filter (λ v, keptClump T cl v.2) (take i vs))))
        else UINT32_MAX).
Proof.
  induction vs as [|v0 vs IH]; intros n i v Hi; [done|].
  destruct i as [|i].
  - simpl in Hi. injection Hi as ->. simpl.
    destruct (decide (keptClump T cl v.2)); simpl; [|done]. by rewrite Nat.add_0_r.
  - simpl in Hi. cbn [remapFrom take]. rewrite filter_cons.
    destruct (decide (keptClump T cl v0.2)); simpl; rewrite (IH _ _ _ Hi);
      destruct (decide (keptClump T cl v.2)); try done.
    do 3 f_equal. lia.
Qed.

Lemma length_remapFrom T cl : ∀ vs n, length (remapFrom T cl n vs) = length vs.
Proof.
  induction vs as [|v vs IH]; intros n; [done|]. simpl.
  destruct (decide _); simpl; by rewrite IH.
Qed.

(** The kept vertex at an index is found at the place that the table
    gives. *)
Lemma filter_lookup_take {X} (Q : X → Prop) `{!∀ x, Decision (Q x)} (l : list X) i x :
  l !! i = Some x → Q x → filter Q l !! length (filter Q (take i l)) = Some x.
Proof.
  intros Hi Hx.
  replace (filter Q l) with (filter Q (take i l ++ drop i l)) by (by rewrite take_drop).
  rewrite filter_app.
  rewrite lookup_app_r by lia. rewrite Nat.sub_diag.
  rewrite (drop_S _ _ _ Hi), filter_cons, decide_True by done. done.
Qed.

Lemma filter_take_lt {X} (Q : X → Prop) `{!∀ x, Decision (Q x)} (l : list X) i x :
  l !! i = Some x → Q x → length (filter Q (take i l)) < length (filter Q l).
Proof.
  intros Hi Hx. pose proof (filter_lookup_take Q l i x Hi Hx) as Hat.
  by apply lookup_lt_Some in Hat.
Qed.

(** ** The triangle loop *)

Lemma triangleLoop_spec cap remap : ∀ tris b,
  buffered (foldl (StxxlMesh.writeTriangle cap remap) b tris) =
  buffered b ++
  (StxxlMesh.remapTriangle remap <$>
   filter (λ tri, (StxxlMesh.remapTriangle remap tri).1.1 ≠ UINT32_MAX) tris).
Proof.
  induction tris as [|tri tris IH]; intros b.
  - simpl. by rewrite app_nil_r.
  - simpl. rewrite IH, filter_cons. unfold StxxlMesh.writeTriangle. cbv zeta.
    destruct (decide ((StxxlMesh.remapTriangle remap tri).1.1 = UINT32_MAX)) as [Heq|Hne].
    + by rewrite decide_False by (intros ?; done).
    + rewrite decide_True by done. rewrite push_buffered, fmap_cons, <-(assoc_L (++)). done.
Qed.

(** ** The counts that [StxxlMesh::write] declares *)

Section totals.
Context (T : Z) (cl : list Clump) (L TL : list nat).
Context (Hwf : wf cl).
Context (HL : ∀ c, c ∈ L → c < length cl) (HTL : ∀ c, c ∈ TL → c < length cl).
Context (HLfit : (Z.of_nat (length L) < 2 ^ 64)%Z) (HTLfit : (Z.of_nat (length TL) < 2 ^ 64)%Z).
Context (Hvertices : ∀ r s d, cl !! r = Some (mkNode (Root s) d) →
vertices d = wrap64 (Z.of_nat (length (filter (λ c, root cl c = r) L)))).
Context (Htriangles : ∀ r s d, cl !! r = Some (mkNode (Root s) d) →
triangles d = wrap64 (Z.of_nat (length (filter (λ c, root cl c = r) TL)))).

Lemma filter_length_le {X} (Q : X → Prop) `{!∀ x, Decision (Q x)} (l : list X) :
length (filter Q l) ≤ length l.
Proof. apply length_filter. Qed.

Lemma below_S (l : list nat) j (Hj : Prop) `{!Decision Hj} :
(∀ c, c ∈ l → root cl c = j → (keptClump T cl c ↔ Hj)) →
length (filter (λ c, root cl c < S j ∧ keptClump T cl c) l) =
length (filter (λ c, root cl c < j ∧ keptClump T cl c) l) +
(if decide Hj then length (filter (λ c, root cl c = j) l) else 0).
Proof.
intros Hkept.
rewrite (filter_length_ext (λ c, root cl c < S j ∧ keptClump T cl c)
           (λ c, (root cl c < j ∧ keptClump T cl c) ∨ (root cl c = j ∧ Hj))).
- rewrite filter_length_or by (intros c _ [[? _] [? _]]; lia). f_equal.
  destruct (decide Hj) as [Hyes|Hno].
  + apply filter_length_ext. intros c _. tauto.
  + apply filter_length_zero. intros c _ [_ ?]. done.
- intros c Hc. specialize (Hkept c Hc). split.
  + intros [Hlt Hk]. destruct (decide (root cl c = j)) as [Heq|Hne]; [|left; split; [lia|done]].
    right. split; [done|]. by apply Hkept.
  + intros [[Hlt Hk]|[Heq Hk]]; [split; [lia|done]|]. split; [lia|]. by apply Hkept.
Qed.

Lemma keptTotals_prefix j :
j ≤ length cl →
foldl (λ acc c, if StxxlMesh.kept T c
                then (wrap64 (acc.1 + clumpVertices c), wrap64 (acc.2 + clumpTriangles c))
                else acc) (0, 0)%Z (take j cl) =
(Z.of_nat (length (filter (λ c, root cl c < j ∧ keptClump T cl c) L)),
 Z.of_nat (length (filter (λ c, root cl c < j ∧ keptClump T cl c) TL))).
Proof.
induction j as [|j IH]; intros Hj.
- rewrite take_0. simpl.
  rewrite !filter_length_zero by (intros c _ [? _]; lia). done.
- destruct (lookup_lt_is_Some_2 cl j ltac:(lia)) as [x Hx].
  rewrite (take_S_r _ _ _ Hx), foldl_snoc, IH by lia. cbn [fst snd].
  pose proof (filter_length_le (λ c, root cl c < S j ∧ keptClump T cl c) L) as HbL.
  pose proof (filter_length_le (λ c, root cl c < S j ∧ keptClump T cl c) TL) as HbT.
  destruct x as [[s|p] d].
  + (* a root *)
    assert (verticesAt cl j = vertices d) as Hat by (unfold verticesAt; by rewrite Hx).
    assert (∀ (l : list nat) c, c ∈ l → root cl c = j → (keptClump T cl c ↔ (T ≤ vertices d)%Z))
      as Hkept by (intros l c _ Hc; unfold keptClump; by rewrite Hc, Hat).
    rewrite (below_S L j (T ≤ vertices d)%Z (Hkept L)) in HbL |- *.
    rewrite (below_S TL j (T ≤ vertices d)%Z (Hkept TL)) in HbT |- *.
    unfold StxxlMesh.kept, isRoot, clumpVertices, clumpTriangles. cbn [node_link node_data andb].
    destruct (decide (T ≤ vertices d)%Z) as [Hk|Hk].
    * rewrite (proj2 (Z.leb_le _ _) Hk).
      rewrite (Hvertices j s d Hx), (Htriangles j s d Hx).
      rewrite (wrap64_small (Z.of_nat (length (filter (λ c, root cl c = j) L)))) by lia.
      rewrite (wrap64_small (Z.of_nat (length (filter (λ c, root cl c = j) TL)))) by lia.
      rewrite !wrap64_small by lia. f_equal; lia.
    * destruct (T <=? vertices d)%Z eqn:Hle; [apply Z.leb_le in Hle; lia|].
      f_equal; lia.
  + (* a child: no root *)
    assert (∀ l : list nat, (∀ c, c ∈ l → c < length cl) →
              ∀ c, c ∈ l → root cl c = j → (keptClump T cl c ↔ False)) as Hkept.
    { intros l Hl c Hc Hr. destruct (root_is_root cl c Hwf (Hl c Hc)) as (s & d' & Hroot).
      rewrite Hr, Hx in Hroot. done. }
    rewrite (below_S L j False (Hkept L HL)), (below_S TL j False (Hkept TL HTL)).
    unfold StxxlMesh.kept, isRoot. cbn [node_link andb]. rewrite !decide_False by tauto.
    f_equal; lia.
Qed.

(** The counts declared: the labels and the triangle clumps whose component
  is kept. *)
Lemma keptTotals_spec :
StxxlMesh.keptTotals T cl =
(Z.of_nat (length (filter (keptClump T cl) L)),
 Z.of_nat (length (filter (keptClump T cl) TL))).
Proof.
unfold StxxlMesh.keptTotals.
pose proof (keptTotals_prefix (length cl) (le_n _)) as Hall.
rewrite take_ge in Hall by done. rewrite Hall. f_equal; f_equal.
- apply filter_length_ext. intros c Hc. pose proof (root_lt cl c Hwf (HL c Hc)). tauto.
- apply filter_length_ext. intros c Hc. pose proof (root_lt cl c Hwf (HTL c Hc)). tauto.
Qed.
End totals.

(** ** What [StxxlMesh::write] writes *)

Lemma countIn_omap {X} (sel : X → option nat) ρ r (xs : list X) :
  countIn sel ρ r xs = length (filter (λ c, ρ c = r) (omap sel xs)).
Proof.
  unfold countIn. induction xs as [|x xs IH]; [done|].
  rewrite filter_cons. cbn [omap list_omap]. fold (omap sel xs).
  destruct (sel x) as [c|]; cbn [fmap option_fmap option_map].
  - rewrite filter_cons.
    destruct (decide (Some (ρ c) = Some r)) as [Heq|Hne], (decide (ρ c = r)) as [Heq'|Hne'];
      simpl; rewrite ?IH; try done; exfalso; congruence.
  - destruct (decide (None = Some r)); [done|]. exact IH.
Qed.

Lemma filter_ext_in {X} (Q Q' : X → Prop) `{!∀ x, Decision (Q x)} `{!∀ x, Decision (Q' x)}
    (l : list X) :
  (∀ x, x ∈ l → (Q x ↔ Q' x)) → filter Q l = filter Q' l.
Proof.
  induction l as [|x l IH]; intros Hext; [done|].
  rewrite !filter_cons, IH by (intros y Hy; apply Hext; by right).
  destruct (Hext x) as [H1 H2]; [by left|].
  destruct (decide (Q x)), (decide (Q' x)); tauto.
Qed.

Lemma Forall2_filter_length {X Y} (Q : X → Prop) (Q' : Y → Prop)
    `{!∀ x, Decision (Q x)} `{!∀ y, Decision (Q' y)} (l : list X) (k : list Y) :
  Forall2 (λ x y, Q x ↔ Q' y) l k → length (filter Q l) = length (filter Q' k).
Proof.
  induction 1 as [|x y l k Hxy _ IH]; [done|]. rewrite !filter_cons.
  destruct (decide (Q x)), (decide (Q' y)); simpl; try lia; tauto.
Qed.

Lemma keptClump_root T (cl : list Clump) c c' :
  root cl c = root cl c' → (keptClump T cl c ↔ keptClump T cl c').
Proof. unfold keptClump. by intros ->. Qed.

Section written.
Context (frs : list fragment) (s : StxxlMesh.t) (P : list occurrence) (TL : list nat).
Context (T : Z) (vcap tcap : nat) (name : string).
Context (Hinv : stxxlInv frs s) (Hlab : labelInv s P TL).
Context (Hwfs : Forall wf_fragment frs).
Context (Hfit : (Z.of_nat (totalVertices frs) < 2 ^ 32)%Z).
Context (Hfit64 : (Z.of_nat (length (soups frs)) < 2 ^ 64)%Z).

Let cl := clumps (StxxlMesh.mesh s).
Let vs := StxxlMesh.vertices s.
Let w := StxxlMesh.writeWith vcap tcap T name s Writer.closed.
Let remap := remapFrom T cl 0 vs.

Lemma written_bound : (Z.of_nat (length vs) < 2 ^ 32)%Z.
Proof.
pose proof (si_length _ _ Hinv) as Hlen. pose proof (total_split frs Hwfs) as Htot.
pose proof (distinctKeys_length (allKeys frs)). fold vs in Hlen. lia.
Qed.

Lemma written_wf : wf cl.
Proof. apply (wi_wf _ _ _ _ (li_weld _ _ _ Hlab)). Qed.

Lemma written_labels c : c ∈ vs.*2 → c < length cl.
Proof.
unfold vs. rewrite (li_labels _ _ _ Hlab). intros (o & Ho & Hc)%list_elem_of_omap.
unfold uniqueClump in Hc. destruct (o_first o); [|done]. injection Hc as <-.
by apply (wi_P _ _ _ _ (li_weld _ _ _ Hlab)).
Qed.

Lemma written_vertices :
flat (Writer.vertexWrites w) = (keptVertices T s).*1.
Proof.
unfold w, StxxlMesh.writeWith. destruct (StxxlMesh.keptTotals _ _) as [nv nt].
cbn [Writer.vertexWrites Writer.open Writer.setNumTriangles Writer.setNumVertices
     Writer.closed app].
rewrite flush_buffered.
destruct (vertexLoop_spec vcap T cl vs
            (StxxlMesh.mkVertexLoop cl (StxxlMesh.mkBuffer [] 0%Z []) [] 0%Z) 0
            written_wf (shortcut_refl _) eq_refl) as [Hb _].
fold cl vs. rewrite Hb. done.
Qed.

Lemma written_triangles :
flat (Writer.triangleWrites w) =
StxxlMesh.remapTriangle remap <$>
filter (λ tri, (StxxlMesh.remapTriangle remap tri).1.1 ≠ UINT32_MAX) (StxxlMesh.triangles s).
Proof.
unfold w, StxxlMesh.writeWith. destruct (StxxlMesh.keptTotals _ _) as [nv nt].
cbn [Writer.triangleWrites Writer.open Writer.setNumTriangles Writer.setNumVertices
     Writer.closed app].
rewrite flush_buffered.
destruct (vertexLoop_spec vcap T cl vs
            (StxxlMesh.mkVertexLoop cl (StxxlMesh.mkBuffer [] 0%Z []) [] 0%Z) 0
            written_wf (shortcut_refl _) eq_refl) as [_ Hr].
fold cl vs. rewrite Hr. cbn [StxxlMesh.vl_remap app]. fold remap.
by rewrite triangleLoop_spec.
Qed.

(** The entry of the table for an index of a stored triangle. *)
Lemma written_remap x v :
vs !! Z.to_nat x = Some v →
default 0%Z (remap !! Z.to_nat x) =
if decide (keptClump T cl v.2)
then Z.of_nat (length (filter (λ v, keptClump T cl v.2) (take (Z.to_nat x) vs)))
else UINT32_MAX.
Proof.
intros Hv. unfold remap. rewrite (remapFrom_lookup T cl vs 0 _ v Hv). simpl.
destruct (decide _); [|done].
pose proof written_bound.
pose proof (length_filter (λ v, keptClump T cl v.2) (take (Z.to_nat x) vs)) as Hle.
rewrite length_take in Hle. apply wrap32_small. lia.
Qed.

Lemma written_remap_kept x v :
vs !! Z.to_nat x = Some v →
(default 0%Z (remap !! Z.to_nat x) ≠ UINT32_MAX ↔ keptClump T cl v.2).
Proof.
intros Hv. rewrite (written_remap x v Hv).
pose proof written_bound.
pose proof (length_filter (λ v, keptClump T cl v.2) (take (Z.to_nat x) vs)) as Hle.
rewrite length_take in Hle. apply lookup_lt_Some in Hv.
destruct (decide _); [|tauto]. unfold UINT32_MAX. split; [done|]. intros _. lia.
Qed.

Lemma written_index x :
(0 ≤ x)%Z → (keptIndex T s x ↔ ∃ v, vs !! Z.to_nat x = Some v ∧ keptClump T cl v.2).
Proof. done. Qed.

(** The corners of a stored triangle are stored vertices of one
  component. *)
Lemma written_corners tri x :
tri ∈ StxxlMesh.triangles s → x ∈ indices tri →
(0 ≤ x)%Z ∧ ∃ v, vs !! Z.to_nat x = Some v ∧
                (keptClump T cl v.2 ↔ keptIndex T s tri.1.1).
Proof.
intros Htri Hx.
pose proof (si_closed _ _ Hinv tri x Htri Hx) as Hxr.
destruct (indices_corners tri) as (Ha & _).
pose proof (si_closed _ _ Hinv tri _ Htri Ha) as Har.
rewrite length_fmap in Hxr, Har. fold vs in Hxr, Har.
split; [lia|].
apply list_elem_of_lookup in Htri as [j Hj].
destruct (Forall2_lookup_l _ _ _ _ _ (li_corners _ _ _ Hlab) Hj) as (c & Hc & Hall).
destruct (Hall x Hx) as (lx & Hlx & Hrx). destruct (Hall _ Ha) as (la & Hla & Hra).
fold vs cl in Hlx, Hrx, Hla, Hra.
rewrite list_lookup_fmap in Hlx, Hla.
destruct (vs !! Z.to_nat x) as [v|] eqn:Hv; [|done].
destruct (vs !! Z.to_nat tri.1.1) as [va|] eqn:Hva; [|done].
simpl in Hlx, Hla. injection Hlx as <-. injection Hla as <-.
exists v. split; [done|]. unfold keptIndex. fold vs cl. rewrite Hva.
rewrite (keptClump_root T cl v.2 va.2) by congruence. split.
- intros Hk. by exists va.
- by intros (v' & [= <-] & Hk).
Qed.

Lemma written_kept_triangles :
filter (λ tri, (StxxlMesh.remapTriangle remap tri).1.1 ≠ UINT32_MAX) (StxxlMesh.triangles s) =
keptTriangles T s.
Proof.
unfold keptTriangles. apply filter_ext_in. intros [[a b] c] Htri.
destruct (written_corners (a, b, c) a Htri) as (H0 & v & Hv & Hk);
  [apply elem_of_indices; tauto|].
cbn [StxxlMesh.remapTriangle fst snd] in *.
rewrite (written_remap_kept a v Hv). done.
Qed.

(** An index that is written stands for the vertex that it stood for. *)
Lemma written_corner tri x :
tri ∈ keptTriangles T s → x ∈ indices tri →
(0 ≤ default 0%Z (remap !! Z.to_nat x) < Z.of_nat (length (keptVertices T s).*1))%Z ∧
corner (keptVertices T s).*1 (default 0%Z (remap !! Z.to_nat x)) = corner vs.*1 x.
Proof.
intros [Hkept Htri]%list_elem_of_filter Hx.
destruct (written_corners tri x Htri Hx) as (H0 & v & Hv & Hk).
apply Hk in Hkept.
rewrite (written_remap x v Hv), decide_True by done.
pose proof (filter_take_lt (λ v, keptClump T cl v.2) vs _ v Hv Hkept) as Hlt.
pose proof (filter_lookup_take (λ v, keptClump T cl v.2) vs _ v Hv Hkept) as Hat.
rewrite length_fmap. unfold keptVertices. fold cl vs. split; [lia|].
unfold corner. rewrite !decide_True by lia. rewrite Nat2Z.id.
by rewrite !list_lookup_fmap, Hat, Hv.
Qed.

Lemma written_closed : closed (flat (Writer.vertexWrites w)) (flat (Writer.triangleWrites w)).
Proof.
rewrite written_vertices, written_triangles, written_kept_triangles.
intros tri' x' (tri & -> & Htri)%list_elem_of_fmap Hx'.
destruct tri as [[a b] c]. cbn [StxxlMesh.remapTriangle] in Hx'.
unfold indices in Hx'. cbn [fst snd] in Hx'.
assert (∀ x, x ∈ indices (a, b, c) →
          (0 ≤ default 0%Z (remap !! Z.to_nat x)
           < Z.of_nat (length (keptVertices T s).*1))%Z) as Hall
  by (intros x Hx; by destruct (written_corner (a, b, c) x Htri Hx)).
apply elem_of_cons in Hx' as [->|Hx']; [apply Hall, elem_of_indices; tauto|].
apply elem_of_cons in Hx' as [->|Hx']; [apply Hall, elem_of_indices; tauto|].
apply elem_of_cons in Hx' as [->|Hx']; [apply Hall, elem_of_indices; tauto|].
by apply not_elem_of_nil in Hx'.
Qed.

Lemma written_soup :
soup (flat (Writer.vertexWrites w)) (flat (Writer.triangleWrites w)) =
soup vs.*1 (keptTriangles T s).
Proof.
rewrite written_vertices, written_triangles, written_kept_triangles.
unfold soup. rewrite <-list_fmap_compose. apply list_fmap_ext.
intros j [[a b] c] Htri. apply list_elem_of_lookup_2 in Htri.
cbn [compose StxxlMesh.remapTriangle fst snd].
assert (∀ x, x ∈ indices (a, b, c) →
          corner (keptVertices T s).*1 (default 0%Z (remap !! Z.to_nat x)) = corner vs.*1 x)
  as Hall by (intros x Hx; by destruct (written_corner (a, b, c) x Htri Hx)).
rewrite !Hall by (apply elem_of_indices; tauto). done.
Qed.

Lemma written_counts :
Writer.numVertices w = Z.of_nat (length (keptVertices T s)) ∧
Writer.numTriangles w = Z.of_nat (length (keptTriangles T s)).
Proof.
pose proof written_bound as Hb.
assert (length TL = length (StxxlMesh.triangles s)) as HTL
  by (symmetry; apply (Forall2_length _ _ _ (li_corners _ _ _ Hlab))).
assert (length (StxxlMesh.triangles s) = length (soups frs)) as Hlt.
{ rewrite <-(si_soup _ _ Hinv). by rewrite length_soup. }
assert (Z.of_nat (length vs.*2) < 2 ^ 64)%Z as HLfit by (rewrite length_fmap; lia).
assert (Z.of_nat (length TL) < 2 ^ 64)%Z as HTLfit by lia.
assert (∀ r sz d, cl !! r = Some (mkNode (Root sz) d) →
          vertices d = wrap64 (Z.of_nat (length (filter (λ c, root cl c = r) vs.*2))))
  as Hv.
{ intros r sz d Hr.
  rewrite (wi_count _ _ _ _ (li_weld _ _ _ Hlab) r sz d Hr), countIn_nil, Nat.add_0_r.
  rewrite countIn_omap. unfold vs. by rewrite (li_labels _ _ _ Hlab). }
assert (∀ r sz d, cl !! r = Some (mkNode (Root sz) d) →
          triangles d = wrap64 (Z.of_nat (length (filter (λ c, root cl c = r) TL))))
  as Ht.
{ intros r sz d Hr.
  rewrite (ti_count _ _ (li_tri _ _ _ Hlab) r sz d Hr). by rewrite countIn_Some. }
pose proof (keptTotals_spec T cl vs.*2 TL written_wf written_labels
              (ti_range _ _ (li_tri _ _ _ Hlab)) HLfit HTLfit Hv Ht) as Htot.
unfold w, StxxlMesh.writeWith. fold cl. rewrite Htot.
cbn [Writer.numVertices Writer.numTriangles Writer.open Writer.setNumTriangles
     Writer.setNumVertices].
split.
- f_equal. rewrite filter_fmap_length. done.
- f_equal. symmetry. unfold keptTriangles.
  apply Forall2_filter_length.
  eapply Forall2_impl; [apply (li_corners _ _ _ Hlab)|].
  intros tri c Hall. cbv beta.
  destruct (indices_corners tri) as (Ha & _).
  destruct (Hall _ Ha) as (la & Hla & Hra). fold cl vs in Hla, Hra.
  rewrite list_lookup_fmap in Hla.
  destruct (vs !! Z.to_nat tri.1.1) as [va|] eqn:Hva; [|done].
  simpl in Hla. injection Hla as <-.
  unfold keptIndex. fold vs cl. rewrite Hva.
  rewrite <-(keptClump_root T cl va.2 c) by done. split.
  + by intros (v' & [= <-] & Hk).
  + intros Hk. by exists va.
Qed.
End written.

(** ** Without pruning *)

Lemma filter_all {X} (Q : X → Prop) `{!∀ x, Decision (Q x)} (l : list X) :
  (∀ x, x ∈ l → Q x) → filter Q l = l.
Proof.
  induction l as [|x l IH]; intros Hall; [done|].
  rewrite filter_cons, decide_True by (apply Hall; by left).
  f_equal. apply IH. intros y Hy. apply Hall. by right.
Qed.

(** Under the threshold 0 every stored vertex passes the test. *)
Lemma kept_all s P TL v :
  labelInv s P TL →
  v ∈ StxxlMesh.vertices s → keptClump 0 (clumps (StxxlMesh.mesh s)) v.2.
Proof.
  intros Hlab Hv.
  assert (v.2 ∈ (StxxlMesh.vertices s).*2) as Hl by (apply list_elem_of_fmap; by exists v).
  pose proof (written_labels s P TL Hlab _ Hl) as Hlt.
  pose proof (written_wf s P TL Hlab) as Hwf.
  destruct (root_is_root _ _ Hwf Hlt) as (sz & d & Hr).
  unfold keptClump, verticesAt, clumpVertices. rewrite Hr. cbn [from_option node_data].
  rewrite (wi_count _ _ _ _ (li_weld _ _ _ Hlab) _ sz d Hr).
  apply Z.mod_pos_bound. lia.
Qed.

Lemma keptVertices_all s P TL : labelInv s P TL → keptVertices 0 s = StxxlMesh.vertices s.
Proof.
  intros Hlab. unfold keptVertices. apply filter_all. intros v Hv. by apply (kept_all s P TL).
Qed.

Section unpruned.
Context (frs : list fragment) (s : StxxlMesh.t) (P : list occurrence) (TL : list nat).
Context (vcap tcap : nat) (name : string).
Context (Hinv : stxxlInv frs s) (Hlab : labelInv s P TL).
Context (Hwfs : Forall wf_fragment frs).
Context (Hfit : (Z.of_nat (totalVertices frs) < 2 ^ 32)%Z).

Lemma keptTriangles_all : keptTriangles 0 s = StxxlMesh.triangles s.
Proof.
unfold keptTriangles. apply filter_all. intros tri Htri.
destruct (indices_corners tri) as (Ha & _).
destruct (written_corners frs s P TL 0 Hinv Hlab tri _ Htri Ha) as (H0 & v & Hv & _).
exists v. split; [done|]. apply (kept_all s P TL); [done|]. by eapply list_elem_of_lookup_2.
Qed.

(** Without pruning the table [vertexRemap] is the identity. *)
Lemma remap_all tri :
tri ∈ StxxlMesh.triangles s →
StxxlMesh.remapTriangle
  (remapFrom 0 (clumps (StxxlMesh.mesh s)) 0 (StxxlMesh.vertices s)) tri = tri.
Proof.
intros Htri. destruct tri as [[a b] c].
assert (∀ x, x ∈ indices (a, b, c) →
          default 0%Z (remapFrom 0 (clumps (StxxlMesh.mesh s)) 0 (StxxlMesh.vertices s)
                         !! Z.to_nat x) = x) as Hall.
{ intros x Hx.
  destruct (written_corners frs s P TL 0 Hinv Hlab _ x Htri Hx) as (H0 & v & Hv & _).
  rewrite (written_remap frs s 0 Hinv Hwfs Hfit x v Hv).
  rewrite decide_True by (apply (kept_all s P TL); [done|]; by eapply list_elem_of_lookup_2).
  rewrite filter_all
    by (intros y (i & Hi & _)%elem_of_take; apply (kept_all s P TL); [done|];
        by eapply list_elem_of_lookup_2).
  rewrite length_take. apply lookup_lt_Some in Hv. lia. }
cbn [StxxlMesh.remapTriangle].
rewrite !Hall by (apply elem_of_indices; tauto). done.
Qed.

Lemma unpruned_file :
let w := StxxlMesh.writeWith vcap tcap 0 name s Writer.closed in
flat (Writer.vertexWrites w) = (StxxlMesh.vertices s).*1 ∧
flat (Writer.triangleWrites w) = StxxlMesh.triangles s.
Proof.
cbv zeta. split.
- by rewrite (written_vertices s P TL 0 vcap tcap name Hlab), (keptVertices_all s P TL).
- rewrite (written_triangles s P TL 0 vcap tcap name Hlab).
  rewrite (written_kept_triangles frs s P TL 0 Hinv Hlab Hwfs Hfit), keptTriangles_all.
  rewrite <-(list_fmap_id (StxxlMesh.triangles s)) at 2.
  apply list_fmap_ext. intros j tri Hj. apply remap_all. by eapply list_elem_of_lookup_2.
Qed.
End unpruned.

(** X10: [StxxlMesh::write] prunes whole components and leaves a valid
    file.  When the fragments are well formed, have fewer than 2^32
    vertices and fewer than 2^64 triangles in all and the same coordinates
    for external vertices with the same key, and every [add] returned, then
    for any prune threshold: the vertices written are the stored vertices
    whose component counts at least the threshold number of vertices, in
    the order in which they are stored; the counts declared to the writer
    are the numbers of vertices and triangles written; every index written
    is the position of a vertex written; the three corners of a stored
    triangle are kept or dropped together; and the triangles written are,
    corner for corner, the stored triangles of the kept components, so the
    triangle soup of the file is a part of the soup of the fragments. *)
Theorem write_prunes_whole_components round pt vcap tcap name frs s :
  Forall wf_fragment frs →
  consistent (allKeys frs) (allExternal frs) →
  (Z.of_nat (totalVertices frs) < 2 ^ 32)%Z →
  (Z.of_nat (length (soups frs)) < 2 ^ 64)%Z →
  StxxlMesh.addAll frs StxxlMesh.create = Ok s →
  let T := StxxlMesh.thresholdVertices round (length (StxxlMesh.vertices s)) pt in
  let w := StxxlMesh.write round pt vcap tcap name s Writer.closed in
  let vw := flat (Writer.vertexWrites w) in
  let tw := flat (Writer.triangleWrites w) in
  vw = (keptVertices T s).*1 ∧
  Writer.numVertices w = Z.of_nat (length vw) ∧
  Writer.numTriangles w = Z.of_nat (length tw) ∧
  closed vw tw ∧
  (∀ tri x, tri ∈ StxxlMesh.triangles s → x ∈ indices tri →
     (keptIndex T s x ↔ keptIndex T s tri.1.1)) ∧
  soup vw tw = soup (StxxlMesh.vertices s).*1 (keptTriangles T s) ∧
  soup vw tw `sublist_of` soups frs.
Proof.
  intros Hwf Hcons Hfit Hfit64 Hrun. cbv zeta. unfold StxxlMesh.write.
  set (T := StxxlMesh.thresholdVertices round (length (StxxlMesh.vertices s)) pt).
  destruct (stxxl_addAll_labels frs s Hwf Hcons Hfit Hrun) as (Hinv & P & TL & Hlab).
  pose proof (written_vertices s P TL T vcap tcap name Hlab) as Hv.
  pose proof (written_triangles s P TL T vcap tcap name Hlab) as Ht.
  rewrite (written_kept_triangles frs s P TL T Hinv Hlab Hwf Hfit) in Ht.
  destruct (written_counts frs s P TL T vcap tcap name Hinv Hlab Hwf Hfit Hfit64) as [Hnv Hnt].
  pose proof (written_soup frs s P TL T vcap tcap name Hinv Hlab Hwf Hfit) as Hs.
  split; [done|]. split; [by rewrite Hnv, Hv, length_fmap|].
  split; [by rewrite Hnt, Ht, length_fmap|].
  split; [by apply (written_closed frs s P TL T vcap tcap name Hinv Hlab Hwf Hfit)|].
  split.
  - intros tri x Htri Hx.
    destruct (written_corners frs s P TL T Hinv Hlab tri x Htri Hx) as (H0 & v & Hat & Hk).
    rewrite <-Hk. unfold keptIndex. rewrite Hat. split.
    + by intros (v' & [= <-] & Hkept).
    + intros Hkept. by exists v.
  - split; [done|]. rewrite Hs, <-(si_soup _ _ Hinv). unfold soup, keptTriangles.
    apply fmap_sublist, sublist_filter.
Qed.

Lemma unpruned_write round vcap tcap name frs s :
  rounding round →
  Forall wf_fragment frs →
  consistent (allKeys frs) (allExternal frs) →
  (Z.of_nat (totalVertices frs) < 2 ^ 32)%Z →
  (Z.of_nat (length (soups frs)) < 2 ^ 64)%Z →
  StxxlMesh.addAll frs StxxlMesh.create = Ok s →
  let w := StxxlMesh.write round 0%Q vcap tcap name s Writer.closed in
  stxxlInv frs s ∧
  flat (Writer.vertexWrites w) = (StxxlMesh.vertices s).*1 ∧
  flat (Writer.triangleWrites w) = StxxlMesh.triangles s ∧
  Writer.numVertices w = Z.of_nat (length (StxxlMesh.vertices s)) ∧
  Writer.numTriangles w = Z.of_nat (length (StxxlMesh.triangles s)) ∧
  Writer.fileName w = Some name.
Proof.
  intros Hround Hwf Hcons Hfit Hfit64 Hrun. cbv zeta. unfold StxxlMesh.write.
  rewrite (thresholdVertices_zero round _ Hround).
  destruct (stxxl_addAll_labels frs s Hwf Hcons Hfit Hrun) as (Hinv & P & TL & Hlab).
  destruct (unpruned_file frs s P TL vcap tcap name Hinv Hlab Hwf Hfit) as [Hv Ht].
  destruct (written_counts frs s P TL 0 vcap tcap name Hinv Hlab Hwf Hfit Hfit64) as [Hnv Hnt].
  rewrite (keptVertices_all s P TL Hlab) in Hnv.
  rewrite (keptTriangles_all frs s P TL Hinv Hlab) in Hnt.
  split; [done|]. split; [done|]. split; [done|]. split; [done|]. split; [done|].
  unfold StxxlMesh.writeWith. by destruct (StxxlMesh.keptTotals _ _).
Qed.

(** X11: with the prune threshold 0 [StxxlMesh::write] writes the whole
    mesh.  When the rounding of the threshold is monotone and leaves zero
    alone, and the fragments are as for pruning, every stored vertex and
    every stored triangle is written, in the order in which it is stored
    and with its indices unchanged; the counts declared are the internal
    vertices plus one vertex for every distinct key, and the triangles of
    the fragments; the triangle soup of the file is the soup of the
    fragments. *)
Theorem unpruned_write_keeps_geometry round vcap tcap name frs s :
  rounding round →
  Forall wf_fragment frs →
  consistent (allKeys frs) (allExternal frs) →
  (Z.of_nat (totalVertices frs) < 2 ^ 32)%Z →
  (Z.of_nat (length (soups frs)) < 2 ^ 64)%Z →
  StxxlMesh.addAll frs StxxlMesh.create = Ok s →
  let w := StxxlMesh.write round 0%Q vcap tcap name s Writer.closed in
  let vw := flat (Writer.vertexWrites w) in
  let tw := flat (Writer.triangleWrites w) in
  vw = (StxxlMesh.vertices s).*1 ∧ tw = StxxlMesh.triangles s ∧
  Writer.numVertices w =
    Z.of_nat (length (allInternal frs) + length (distinctKeys (allKeys frs))) ∧
  Writer.numTriangles w = Z.of_nat (length (soups frs)) ∧
  closed vw tw ∧ soup vw tw = soups frs.
Proof.
  intros Hround Hwf Hcons Hfit Hfit64 Hrun. cbv zeta.
  destruct (unpruned_write round vcap tcap name frs s Hround Hwf Hcons Hfit Hfit64 Hrun)
    as ([Hlen _ _ Hclosed Hsoup] & Hv & Ht & Hnv & Hnt & _).
  rewrite Hv, Ht, Hnv, Hnt, Hlen. split; [done|]. split; [done|]. split; [done|].
  split; [|done]. by rewrite <-Hsoup, length_soup.
Qed.

(** X12: [BigMesh] and [StxxlMesh] agree.  Over the same fragments (as for
    pruning), when the two passes of [BigMesh] return, every [add] of
    [StxxlMesh] returns and leaves the same clumps and the same key map,
    and with the prune threshold 0 [StxxlMesh::write] declares the same
    counts and writes the same vertices and the same triangles, in the same
    order, to a file of the same name. *)
Theorem big_mesh_agrees_with_stxxl_mesh round vcap tcap name frs b :
  rounding round →
  Forall wf_fragment frs →
  consistent (allKeys frs) (allExternal frs) →
  (Z.of_nat (totalVertices frs) < 2 ^ 32)%Z →
  (Z.of_nat (length (soups frs)) < 2 ^ 64)%Z →
  BigMesh.run frs (BigMesh.create name) = Ok b →
  ∃ s, StxxlMesh.addAll frs StxxlMesh.create = Ok s ∧
       BigMesh.mesh b = StxxlMesh.mesh s ∧
       let w := StxxlMesh.write round 0%Q vcap tcap name s Writer.closed in
       Writer.numVertices (BigMesh.writer b) = Writer.numVertices w ∧
       Writer.numTriangles (BigMesh.writer b) = Writer.numTriangles w ∧
       Writer.fileName (BigMesh.writer b) = Writer.fileName w ∧
       flat (Writer.vertexWrites (BigMesh.writer b)) = flat (Writer.vertexWrites w) ∧
       flat (Writer.triangleWrites (BigMesh.writer b)) = flat (Writer.triangleWrites w).
Proof.
  intros Hround Hwf Hcons Hfit Hfit64 Hrun.
  destruct (big_run name frs b Hwf Hcons Hfit Hfit64 Hrun)
    as (s & Hs & [Hmesh _ _ _ Hvflat _ Htflat] & _ & HnV & HnT & Hname).
  exists s. split; [done|]. split; [done|]. cbv zeta.
  destruct (unpruned_write round vcap tcap name frs s Hround Hwf Hcons Hfit Hfit64 Hs)
    as (_ & Hv & Ht & Hnv & Hnt & Hn).
  by rewrite Hv, Ht, Hnv, Hnt, Hn, HnV, HnT, Hname, Hvflat, Htflat.
Qed.

(** * The pruning scenario *)

(** ** The counter of a component *)

Lemma filter_split_length {X} (Q Q' : X → Prop) `{!∀ x, Decision (Q x)}
    `{!∀ x, Decision (Q' x)} (l : list X) :
  (∀ x, x ∈ l → Q x ∨ Q' x) → (∀ x, x ∈ l → Q x → Q' x → False) →
  length l = length (filter Q l) + length (filter Q' l).
Proof.
  induction l as [|x l IH]; intros Hor Hnot; [done|].
  rewrite !filter_cons. simpl. rewrite IH.
  - destruct (Hor x) as [HQx|HQx]; [by left| |].
    + rewrite decide_True by done. rewrite decide_False; [simpl; lia|].
      intros HQ'. by apply (Hnot x); [left|..].
    + rewrite (decide_True (P := Q' x)) by done. rewrite decide_False; [simpl; lia|].
      intros HQ. by apply (Hnot x); [left|..].
  - intros y Hy. apply Hor. by right.
  - intros y Hy. apply Hnot. by right.
Qed.

Lemma filter_nonempty {X} (Q : X → Prop) `{!∀ x, Decision (Q x)} (l : list X) :
  0 < length (filter Q l) → ∃ x, x ∈ l ∧ Q x.
Proof.
  destruct (filter Q l) as [|x k] eqn:Hf; simpl; [lia|]. intros _.
  assert (x ∈ filter Q l) as Hx by (rewrite Hf; left).
  apply list_elem_of_filter in Hx as [HQ Hx]. by exists x.
Qed.

(** The counter of the root of a component that holds a stored vertex is the
    number of stored vertices of the component. *)
Lemma component_counter s P TL r :
  labelInv s P TL → 0 < length (componentOf s r) →
  verticesAt (clumps (StxxlMesh.mesh s)) r = wrap64 (Z.of_nat (length (componentOf s r))).
Proof.
  intros Hlab Hpos. set (cl := clumps (StxxlMesh.mesh s)).
  destruct (filter_nonempty _ _ Hpos) as (v & Hv & Hr). fold cl in Hr.
  assert (v.2 < length cl) as Hlt.
  { apply (written_labels s P TL Hlab). apply list_elem_of_fmap. by exists v. }
  destruct (root_is_root cl v.2 (written_wf s P TL Hlab) Hlt) as (sz & d & Hroot).
  rewrite Hr in Hroot. unfold verticesAt. rewrite Hroot. unfold clumpVertices. simpl.
  rewrite (wi_count _ _ _ _ (li_weld _ _ _ Hlab) r sz d Hroot), countIn_nil, Nat.add_0_r.
  rewrite countIn_omap, <-(li_labels _ _ _ Hlab), filter_fmap_length. done.
Qed.

(** ** Two components of 100 and 3 vertices *)

Section scenario.
Context (frs : list fragment) (s : StxxlMesh.t) (P : list occurrence) (TL : list nat).
Context (big little : nat).
Context (Hlab : labelInv s P TL).
Context (Htwo : ∀ v, v ∈ StxxlMesh.vertices s →
root (clumps (StxxlMesh.mesh s)) v.2 = big ∨ root (clumps (StxxlMesh.mesh s)) v.2 = little).
Context (Hbig : length (componentOf s big) = 100).
Context (Hlittle : length (componentOf s little) = 3).

Lemma scenario_length : length (StxxlMesh.vertices s) = 103.
Proof.
rewrite (filter_split_length
           (λ v, root (clumps (StxxlMesh.mesh s)) v.2 = big)
           (λ v, root (clumps (StxxlMesh.mesh s)) v.2 = little) _ Htwo).
- fold (componentOf s big) (componentOf s little). by rewrite Hbig, Hlittle.
- intros v _ H1 H2. congruence.
Qed.

(** A stored vertex passes the test of [write] exactly when it is in the
  component of 100 vertices. *)
Lemma scenario_kept v :
v ∈ StxxlMesh.vertices s →
(keptClump 5 (clumps (StxxlMesh.mesh s)) v.2 ↔ root (clumps (StxxlMesh.mesh s)) v.2 = big).
Proof.
intros Hv. unfold keptClump.
pose proof (component_counter s P TL big Hlab ltac:(lia)) as Hcb.
pose proof (component_counter s P TL little Hlab ltac:(lia)) as Hcl.
rewrite Hbig in Hcb. rewrite Hlittle in Hcl.
rewrite wrap64_small in Hcb, Hcl by lia.
destruct (Htwo v Hv) as [Hr|Hr]; rewrite Hr.
- rewrite Hcb. split; [done|lia].
- rewrite Hcl. split; [lia|]. intros ->. rewrite Hbig in Hlittle. done.
Qed.

Lemma scenario_vertices : keptVertices 5 s = componentOf s big.
Proof.
unfold keptVertices, componentOf. apply filter_ext_in. intros v Hv. by apply scenario_kept.
Qed.

Lemma scenario_index x : keptIndex 5 s x ↔ inComponent s big x.
Proof.
unfold keptIndex, inComponent. split; intros (v & Hv & Hk); exists v; (split; [done|]);
  by apply (scenario_kept v (list_elem_of_lookup_2 _ _ _ Hv)).
Qed.

Lemma scenario_triangles : keptTriangles 5 s = componentTriangles s big.
Proof.
unfold keptTriangles, componentTriangles. apply filter_ext_in. intros tri _.
apply scenario_index.
Qed.

End scenario.

(** C6: fragments of any number and shape are added, with internal and with
    external vertices, and the vertices that are stored form two components
    of the clump forest, one of 100 and one of 3 vertices; the prune
    threshold is 1/20, which makes the vertex threshold 5.  Whatever the
    capacities of the buffers, the writer is told of 100 vertices and
    receives, in sequential writes, exactly the vertices of the component of
    100 vertices, in the order in which they are stored, and these are what
    the file holds; the triangles written are the triangles of that
    component and no other; every index written is below 100, and every
    corner of every triangle written is the vertex of the component of 100
    vertices that it was before the write. *)
Theorem pruning_scenario round vcap tcap name frs s big little :
  Forall wf_fragment frs →
  consistent (allKeys frs) (allExternal frs) →
  (Z.of_nat (totalVertices frs) < 2 ^ 32)%Z →
  (Z.of_nat (length (soups frs)) < 2 ^ 64)%Z →
  StxxlMesh.addAll frs StxxlMesh.create = Ok s →
  (∀ v, v ∈ StxxlMesh.vertices s →
        root (clumps (StxxlMesh.mesh s)) v.2 = big ∨
        root (clumps (StxxlMesh.mesh s)) v.2 = little) →
  length (componentOf s big) = 100 →
  length (componentOf s little) = 3 →
  StxxlMesh.thresholdVertices round 103 (1 # 20) = 5%Z →
  let w := StxxlMesh.write round (1 # 20) vcap tcap name s Writer.closed in
  let vw := flat (Writer.vertexWrites w) in
  let tw := flat (Writer.triangleWrites w) in
  length (StxxlMesh.vertices s) = 103 ∧
  Writer.numVertices w = 100%Z ∧
  vw = (componentOf s big).*1 ∧ length vw = 100 ∧
  Forall (λ v, v ∉ componentOf s big) (componentOf s little) ∧
  Writer.numTriangles w = Z.of_nat (length (componentTriangles s big)) ∧
  length tw = length (componentTriangles s big) ∧
  sequential 0 (Writer.vertexWrites w) ∧ sequential 0 (Writer.triangleWrites w) ∧
  (∀ k, Writer.contents (Writer.vertexWrites w) !! k = fileOf (componentOf s big).*1 k) ∧
  (∀ k, Writer.contents (Writer.triangleWrites w) !! k = fileOf tw k) ∧
  Forall (λ tri, Forall (λ i, 0 ≤ i < 100)%Z (indices tri)) tw ∧
  (∀ tri x, tri ∈ componentTriangles s big → x ∈ indices tri → inComponent s big x) ∧
  (∀ tri x, tri ∈ StxxlMesh.triangles s → x ∈ indices tri → inComponent s little x →
            tri ∉ componentTriangles s big) ∧
  soup vw tw = soup (StxxlMesh.vertices s).*1 (componentTriangles s big).
Proof.
  intros Hwf Hcons Hfit Hfit64 Hrun Htwo Hbig Hlittle Hthr. cbv zeta.
  destruct (stxxl_addAll_labels frs s Hwf Hcons Hfit Hrun) as (Hinv & P & TL & Hlab).
  pose proof (scenario_length s big little Htwo Hbig Hlittle) as Hlen.
  pose proof (scenario_vertices s P TL big little Hlab Htwo Hbig Hlittle) as Hkv.
  pose proof (scenario_triangles s P TL big little Hlab Htwo Hbig Hlittle) as Hkt.
  unfold StxxlMesh.write. rewrite Hlen, Hthr.
  pose proof (written_vertices s P TL 5 vcap tcap name Hlab) as Hv.
  pose proof (written_triangles s P TL 5 vcap tcap name Hlab) as Ht.
  rewrite (written_kept_triangles frs s P TL 5 Hinv Hlab Hwf Hfit) in Ht.
  destruct (written_counts frs s P TL 5 vcap tcap name Hinv Hlab Hwf Hfit Hfit64) as [Hnv Hnt].
  pose proof (written_soup frs s P TL 5 vcap tcap name Hinv Hlab Hwf Hfit) as Hs.
  pose proof (written_closed frs s P TL 5 vcap tcap name Hinv Hlab Hwf Hfit) as Hcl.
  destruct (writeWith_sequential vcap tcap 5%Z name s) as [Hsv Hst].
  rewrite Hkv in Hv, Hnv. rewrite Hkt in Ht, Hnt, Hs.
  assert (∀ tri x, tri ∈ componentTriangles s big → x ∈ indices tri → inComponent s big x)
    as Hcorners.
  { intros tri x [Hfirst Htri]%list_elem_of_filter Hx.
    destruct (written_corners frs s P TL 5 Hinv Hlab tri x Htri Hx) as (_ & v & Hat & Hk).
    exists v. split; [done|].
    apply (scenario_kept s P TL big little Hlab Htwo Hbig Hlittle v
             (list_elem_of_lookup_2 _ _ _ Hat)).
    apply Hk. by apply (scenario_index s P TL big little Hlab Htwo Hbig Hlittle). }
  split_and!.
  - done.
  - by rewrite Hnv, Hbig.
  - done.
  - by rewrite Hv, length_fmap.
  - apply Forall_forall. intros v [Hr _]%list_elem_of_filter [Hr' _]%list_elem_of_filter.
    simpl in Hr, Hr'. assert (big = little) as Heq by congruence.
    rewrite Heq, Hlittle in Hbig. done.
  - done.
  - by rewrite Ht, length_fmap.
  - done.
  - done.
  - intros k. by rewrite (contents_sequential _ k Hsv), Hv.
  - intros k. by rewrite (contents_sequential _ k Hst).
  - apply Forall_forall. intros tri Htri. apply Forall_forall. intros i Hi.
    pose proof (Hcl tri i Htri Hi) as Hrange. rewrite Hv, length_fmap, Hbig in Hrange. lia.
  - done.
  - intros tri x Htri Hx (v & Hat & Hr) Hin.
    destruct (Hcorners tri x Hin Hx) as (v' & Hat' & Hr').
    assert (big = little) as Heq by congruence. rewrite Heq, Hlittle in Hbig. done.
  - done.
Qed.

(** * What [computeLocalComponents] appends *)

(** ** The clumps that [computeLocalComponents] appends *)

Lemma ClumpData_eq (d d' : ClumpData) :
  vertices d = vertices d' → triangles d = triangles d' → d = d'.
Proof. destruct d, d'. simpl. by intros -> ->. Qed.

(** X13: [computeLocalComponents] only appends to the clump table.  When it
    returns, the clumps that were in the table are unchanged; the clumps of
    the vertices of the fragment are exactly the new places of the table,
    each of them used; and every new clump is a root whose vertex counter
    is the number of vertices of the fragment with that clump and whose
    triangle counter is the number of triangles whose first vertex has
    that clump (both modulo 2^64). *)
Theorem local_components_are_appended n tris cl cl' cid :
  wf_triangles n tris →
  computeLocalComponents n tris cl = Ok (cl', cid) →
  take (length cl) cl' = cl ∧
  (∀ c, c ∈ cid ↔ length cl ≤ c < length cl') ∧
  (∀ c x, length cl ≤ c → cl' !! c = Some x →
     isRoot x = true ∧
     clumpVertices x = wrap64 (Z.of_nat (length (filter (λ c', c' = c) cid))) ∧
     clumpTriangles x =
       wrap64 (Z.of_nat (length (filter (λ c', c' = c) (triangleClumps cid tris))))).
Proof.
  intros Hwt Hrun.
  destruct (computeLocalComponents_inv n tris cl cl' cid Hwt Hrun) as (-> & Hlen & Hcid).
  pose proof (compute_length cl n tris cid) as Hlen1.
  pose proof (compute_cid_range cl n tris cid Hwt Hlen Hcid) as Hrange.
  destruct (localNodes_spec n tris Hwt) as (Hwfn & Hlenn & _).
  set (nodes := localNodes n tris) in *.
  set (cl1 := foldl (countTriangle cid) (cl ++ newClumps nodes n) tris) in *.
  assert (∀ c, c ∈ triangleClumps cid tris → c ∈ cid) as Hin.
  { intros c (tri & -> & Htri)%list_elem_of_fmap.
    destruct (corners_all (λ v, 0 ≤ v < Z.of_nat n)%Z tri) as (Ha & _);
      [intros v; apply (Hwt tri v Htri)|].
    destruct (lookup_lt_is_Some_2 cid (Z.to_nat tri.1.1)) as [c Hc]; [lia|].
    rewrite Hc. simpl. by eapply list_elem_of_lookup_2. }
  split; [|split].
  - apply list_eq. intros i. destruct (decide (i < length cl)) as [Hi|Hi].
    + rewrite lookup_take_lt by done.
      destruct (lookup_lt_is_Some_2 cl1 i ltac:(lia)) as [[lk d] Hx].
      destruct (countTriangles_lookup cid tris _ i lk d Hx) as (d0 & Hx0 & Hv & Ht).
      rewrite lookup_app_l in Hx0 by done.
      rewrite filter_length_zero in Ht by (intros c Hc ->; apply Hin, Hrange in Hc; lia).
      rewrite decide_True in Ht by done.
      rewrite Hx, Hx0. by rewrite (ClumpData_eq d d0).
    + rewrite lookup_take_ge by lia. symmetry. apply lookup_ge_None. lia.
  - intros c. split; [apply Hrange|]. intros [Hlo Hhi].
    destruct (lookup_lt_is_Some_2 (newClumps nodes n) (c - length cl)) as [x Hx];
      [rewrite length_newClumps; lia|].
    apply newClumps_lookup in Hx as (r0 & Hroot & Hr0 & Hj & _).
    apply list_elem_of_lookup. exists r0. rewrite (Hcid r0 Hr0). f_equal.
    assert (root nodes r0 = r0) as ->; [|lia].
    apply rootAt_root; [done|lia|done].
  - intros c [lk d] Hc Hx.
    destruct (countTriangles_lookup cid tris _ c lk d Hx) as (d0 & Hx0 & Hv & Ht).
    rewrite lookup_app_r in Hx0 by done.
    apply newClumps_lookup in Hx0 as (r0 & Hroot & Hr0 & Hj & Hnew).
    unfold newClump, makeNode in Hnew. injection Hnew as -> ->.
    split; [done|]. unfold clumpVertices, clumpTriangles. cbn [node_data].
    rewrite Hv. cbn [vertices triangles] in *. split.
    + replace c with (length cl + rootsBelow nodes r0) by lia.
      pose proof (compute_class_size cl n tris cid Hwt Hlen Hcid r0 Hroot Hr0) as Hcs.
      fold nodes in Hcs. rewrite Hcs.
      apply rootAt_true in Hroot as (s0 & d1 & Hn0).
      rewrite (forest_size_root _ _ _ _ Hn0). by rewrite (wf_size nodes Hwfn _ _ _ Hn0).
    + rewrite Ht. destruct (decide _) as [->|?]; [done|]. f_equal.
Qed.

(** * The counting pass *)

(** ** The counting pass of [BigMesh] *)

(** The loop of [BigMesh::count]: the keys that are new are counted once
    each. *)
Lemma countKeys_spec km keys :
  let r := foldl BigMesh.countKey (km, 0%Z) keys in
  r.2 = Z.of_nat (length (newKeysOf km keys)) ∧
  ∀ k, is_Some (r.1 !! k) ↔ is_Some (km !! k) ∨ k ∈ keys.
Proof.
  induction keys as [|key keys IH] using rev_ind; cbv zeta.
  - simpl. split; [done|]. intros k. rewrite elem_of_nil. tauto.
  - rewrite foldl_snoc. destruct IH as [Hn Hdom].
    destruct (foldl BigMesh.countKey (km, 0%Z) keys) as [km' n'] eqn:Hfold.
    cbn [fst snd] in *. unfold BigMesh.countKey. cbn [fst snd].
    rewrite newKeysOf_snoc.
    destruct (km' !! key) as [ed|] eqn:Hkey.
    + assert (is_Some (km !! key) ∨ key ∈ keys) as Hold by (apply Hdom; eauto).
      rewrite decide_False by (intros [Hnone Hout]; destruct Hold as [[? ?]|?]; congruence).
      cbn [fst snd]. split; [done|]. intros k. rewrite Hdom, elem_of_snoc.
      split; [tauto|]. intros [?|[?| ->]]; tauto.
    + assert (km !! key = None ∧ key ∉ keys) as Hnew.
      { split.
        - destruct (km !! key) eqn:Hk; [|done].
          assert (is_Some (km' !! key)) as [? ?]; [apply Hdom; eauto|congruence].
        - intros Hin. assert (is_Some (km' !! key)) as [? ?]; [apply Hdom; eauto|congruence]. }
      rewrite decide_True by done. cbn [fst snd]. split.
      * rewrite length_app, Hn. simpl. lia.
      * intros k. rewrite lookup_insert_is_Some, Hdom, elem_of_snoc.
        destruct (decide (key = k)) as [->|Hne]; [tauto|]. split; [tauto|].
        intros [?|[?|?]]; [tauto|tauto|congruence].
Qed.

(** X14: the counting pass of [BigMesh] always returns, writes nothing, and
    counts every distinct key once.  After it, the vertex total is the
    number of internal vertices plus the number of distinct keys and the
    triangle total is the number of triangles of the fragments (both modulo
    2^64), and the key map holds exactly the keys of the fragments. *)
Theorem counting_pass_counts_distinct_keys name frs :
  ∃ p, BigMesh.runPass 0 frs (BigMesh.create name) = Ok p ∧
       BigMesh.nVertices p =
         wrap64 (Z.of_nat (sum_list (f_numInternal <$> frs) +
                           length (distinctKeys (allKeys frs)))) ∧
       BigMesh.nTriangles p = wrap64 (Z.of_nat (length (concat (f_triangles <$> frs)))) ∧
       (∀ k, is_Some (keyMap (BigMesh.mesh p) !! k) ↔ k ∈ allKeys frs) ∧
       BigMesh.writer p = Writer.closed.
Proof.
  unfold BigMesh.runPass.
  change (BigMesh.outputFunctor 0 (BigMesh.create name)) with (Ok (BigMesh.create name)).
  rewrite bind_Ok.
  induction frs as [|fr frs IH] using rev_ind.
  - exists (BigMesh.create name). split; [done|]. split; [done|]. split; [done|].
    split; [|done]. intros k. simpl. rewrite lookup_empty, elem_of_nil.
    split; [by intros [? ?]|done].
  - destruct IH as (p & Hp & HnV & HnT & Hdom & Hw).
    rewrite foldlM_snoc, Hp, bind_Ok. cbn [BigMesh.functor].
    eexists. split; [done|].
    pose proof (countKeys_spec (keyMap (BigMesh.mesh p)) (f_keys fr)) as Hkeys.
    cbv zeta in Hkeys.
    unfold BigMesh.count.
    destruct (foldl BigMesh.countKey (keyMap (BigMesh.mesh p), 0%Z) (f_keys fr))
      as [km n'] eqn:Hfold.
    cbn [fst snd] in Hkeys. destruct Hkeys as [Hn Hdom'].
    cbn [BigMesh.nVertices BigMesh.nTriangles BigMesh.mesh BigMesh.writer keyMap].
    split; [|split; [|split; [|done]]].
    + rewrite HnV, wrap64_add_l, <-Z.add_assoc, wrap64_add_l, Hn.
      rewrite fmap_app, sum_list_with_app, allKeys_snoc.
      rewrite (distinctKeys_app_new (keyMap (BigMesh.mesh p))) by done.
      rewrite length_app. simpl. f_equal. lia.
    + rewrite HnT, wrap64_add_l, fmap_app, concat_app, length_app. simpl.
      rewrite app_nil_r. f_equal. lia.
    + intros k. rewrite Hdom', Hdom, allKeys_snoc, elem_of_app. done.
Qed.

(** * [isManifold]: the meshes that pass the test *)

(** ** The table of edges *)

Lemma tableInv_start n : tableInv n (replicate n []) [].
Proof.
  split; [by rewrite length_replicate|].
  intros v Hv. simpl. by apply lookup_replicate_2.
Qed.

Lemma spoke_at a b c : (0 ≤ a)%Z → spoke (Z.to_nat a) (a, b, c) = Some (b, c).
Proof. intros Ha. unfold spoke. simpl. rewrite decide_True; [done|lia]. Qed.

Lemma spoke_off v a b c : v ≠ Z.to_nat a → spoke v (a, b, c) = None.
Proof. intros Hv. unfold spoke. simpl. rewrite decide_False; [done|lia]. Qed.

Lemma addCorner_inv n E R a b c E' ind' :
  tableInv n E R → (0 ≤ a)%Z →
  MeshBase.addCorner n E (a, b, c) = Ok (Some (E', ind')) →
  tableInv n E' (R ++ [(a, b, c)]) ∧ ind' = (b, c, a) ∧ (a < Z.of_nat n)%Z ∧ a ≠ b.
Proof.
  intros [Hlen Htab] Ha. unfold MeshBase.addCorner.
  destruct (decide (a < Z.of_nat n)%Z) as [Hn|]; [|done].
  destruct (decide (a = b)) as [|Hab]; [done|].
  intros [= <- <-]. split_and!; [|done..].
  split; [by rewrite length_alter|].
  intros v Hv. rewrite omap_app. destruct (decide (v = Z.to_nat a)) as [->|Hne].
  - rewrite list_lookup_alter, (Htab _ Hv). simpl. rewrite spoke_at by done. by rewrite decide_True.
  - rewrite list_lookup_alter_ne by done. rewrite (Htab _ Hv). simpl.
    rewrite spoke_off by done. by rewrite app_nil_r.
Qed.

Lemma addCorners_inv n E R tri E' :
  tableInv n E R → (∀ v, v ∈ indices tri → (0 ≤ v)%Z) →
  MeshBase.addCorners n 3 E tri = Ok (Some E') →
  tableInv n E' (R ++ rotations tri) ∧
  (∀ v, v ∈ indices tri → (0 ≤ v < Z.of_nat n)%Z) ∧ NoDup (indices tri).
Proof.
  destruct tri as [[a b] c]. intros HE Hpos.
  assert (0 ≤ a ∧ 0 ≤ b ∧ 0 ≤ c)%Z as (Ha & Hb & Hc).
  { split_and!; apply Hpos; unfold indices; simpl; set_solver. }
  cbn [MeshBase.addCorners].
  destruct (MeshBase.addCorner n E (a, b, c)) as [[[E1 i1]|]| |] eqn:H1; try done.
  destruct (addCorner_inv _ _ _ _ _ _ _ _ HE Ha H1) as (HE1 & -> & Han & Hab).
  cbn [mbind result_bind].
  destruct (MeshBase.addCorner n E1 (b, c, a)) as [[[E2 i2]|]| |] eqn:H2; try done.
  destruct (addCorner_inv _ _ _ _ _ _ _ _ HE1 Hb H2) as (HE2 & -> & Hbn & Hbc).
  cbn [mbind result_bind].
  destruct (MeshBase.addCorner n E2 (c, a, b)) as [[[E3 i3]|]| |] eqn:H3; try done.
  destruct (addCorner_inv _ _ _ _ _ _ _ _ HE2 Hc H3) as (HE3 & -> & Hcn & Hca).
  cbn [mbind result_bind]. intros [= <-]. split_and!.
  - unfold rotations. simpl. by rewrite <-!app_assoc in HE3.
  - unfold indices. simpl. intros v Hv.
    apply elem_of_cons in Hv as [->|Hv]; [lia|].
    apply elem_of_cons in Hv as [->|Hv]; [lia|].
    apply list_elem_of_singleton in Hv as ->. lia.
  - unfold indices. simpl. rewrite !NoDup_cons, !elem_of_cons, !elem_of_nil.
    split_and!; [intros [?|[?|[]]]; congruence|intros [?|[]]; congruence|tauto|apply NoDup_nil_2].
Qed.

Lemma buildEdges_inv n tris : ∀ E R E',
  tableInv n E R → unsigned tris →
  MeshBase.buildEdges n E tris = Ok (Some E') →
  tableInv n E' (R ++ tris ≫= rotations) ∧ wf_triangles n tris ∧
  (∀ tri, tri ∈ tris → NoDup (indices tri)).
Proof.
  induction tris as [|tri tris IH]; intros E R E' HE Hpos; cbn [MeshBase.buildEdges].
  - intros [= <-]. simpl. rewrite app_nil_r. split_and!; [done| |]; intros ?; set_solver.
  - destruct (MeshBase.addCorners n 3 E tri) as [[E1|]| |] eqn:H1; try done.
    cbn [mbind result_bind]. intros Hrest.
    destruct (addCorners_inv _ _ _ _ _ HE (λ v, Hpos tri v (list_elem_of_here _ _)) H1)
      as (HE1 & Hwf & Hnd).
    destruct (IH _ _ _ HE1 (λ t v Ht, Hpos t v (list_elem_of_further _ _ _ Ht)) Hrest)
      as (HE' & Hwf' & Hnd').
    split_and!.
    + rewrite bind_cons. by rewrite <-app_assoc in HE'.
    + intros t v Ht Hv. apply elem_of_cons in Ht as [->|Ht]; [by apply Hwf|by eapply Hwf'].
    + intros t Ht. apply elem_of_cons in Ht as [->|Ht]; [done|by apply Hnd'].
Qed.

(** The first loop ends without a failed [assert] when the indices are in
    range. *)
Lemma buildEdges_total n tris : ∀ E,
  wf_triangles n tris → ∃ r, MeshBase.buildEdges n E tris = Ok r.
Proof.
  induction tris as [|tri tris IH]; intros E Hwf; cbn [MeshBase.buildEdges]; [by eexists|].
  assert (∀ E a b c, (a < Z.of_nat n)%Z →
    ∃ r, MeshBase.addCorner n E (a, b, c) = Ok r ∧
         ∀ E1 i1, r = Some (E1, i1) → i1 = (b, c, a)) as Hone.
  { intros E0 a b c Ha. unfold MeshBase.addCorner. rewrite decide_True by done.
    destruct (decide (a = b)); eexists; (split; [done|]); [done|by intros ?? [= <- <-]]. }
  destruct tri as [[a b] c].
  assert (a < Z.of_nat n ∧ b < Z.of_nat n ∧ c < Z.of_nat n)%Z as (Ha & Hb & Hc).
  { split_and!; eapply (Hwf (a, b, c)); unfold indices; simpl; set_solver. }
  assert (∃ r, MeshBase.addCorners n 3 E (a, b, c) = Ok r) as [r Hr].
  { cbn [MeshBase.addCorners].
    destruct (Hone E a b c Ha) as ([[E1 i1]|] & -> & H1); cbn [mbind result_bind]; [|by eexists].
    rewrite (H1 _ _ eq_refl).
    destruct (Hone E1 b c a Hb) as ([[E2 i2]|] & -> & H2); cbn [mbind result_bind]; [|by eexists].
    rewrite (H2 _ _ eq_refl).
    destruct (Hone E2 c a b Hc) as ([[E3 i3]|] & -> & H3); cbn [mbind result_bind]; by eexists. }
  rewrite Hr. cbn [mbind result_bind]. destruct r as [E1|]; [|by eexists].
  apply IH. intros t v Ht. apply Hwf. by right.
Qed.

(** ** [arrow] and [seen] *)

Lemma arrowInv_nil : arrowInv [] (∅, ∅).
Proof.
  split; simpl.
  - intros x y. rewrite lookup_empty, elem_of_nil. naive_solver.
  - intros y. rewrite elem_of_nil. set_solver.
  - constructor.
  - constructor.
Qed.

Lemma addArrow_inv done st e st' :
  arrowInv done st → MeshBase.addArrow st e = Some st' → arrowInv (done ++ [e]) st'.
Proof.
  intros [Harrow Hseen Hfirst Hsecond]. destruct st as [arrow seen], e as [x y].
  unfold MeshBase.addArrow. simpl in *.
  destruct (decide (is_Some (arrow !! x))) as [|Hx]; [done|].
  destruct (decide (y ∈ seen)) as [|Hy]; [done|]. intros [= <-].
  apply eq_None_not_Some in Hx.
  split; simpl.
  - intros x' y'. rewrite elem_of_app, list_elem_of_singleton, <-Harrow.
    destruct (decide (x = x')) as [<-|Hne].
    + rewrite lookup_insert, Hx. rewrite decide_True by done.
      split; [intros [= ->]; by right|intros [?|[= ->]]; done].
    + rewrite lookup_insert_ne by done.
      split; [by left|intros [?|[= ? ?]]; [done|congruence]].
  - intros y'. rewrite fmap_app, elem_of_app, <-Hseen. simpl.
    rewrite list_elem_of_singleton, elem_of_union, elem_of_singleton. tauto.
  - rewrite fmap_app. simpl. apply NoDup_app. split_and!; [done| |apply NoDup_singleton].
    intros x' Hx' ->%list_elem_of_singleton.
    apply list_elem_of_fmap in Hx' as ([x'' y'] & Heq & Hin). simpl in Heq. subst x''.
    apply Harrow in Hin. congruence.
  - rewrite fmap_app. simpl. apply NoDup_app. split_and!; [done| |apply NoDup_singleton].
    intros y' Hy' ->%list_elem_of_singleton. by apply Hseen in Hy'.
Qed.

Lemma arrows_inv rest : ∀ done st st',
  arrowInv done st → MeshBase.arrows st rest = Some st' → arrowInv (done ++ rest) st'.
Proof.
  induction rest as [|e rest IH]; intros done st st' Hinv; simpl.
  - intros [= <-]. by rewrite app_nil_r.
  - destruct (MeshBase.addArrow st e) as [st1|] eqn:H1; [|done]. simpl. intros Hrest.
    rewrite cons_middle, (assoc_L (++)). eapply IH; [|done]. by eapply addArrow_inv.
Qed.

(** The loop over [neigh] only returns [false] for a pair whose first entry
    or whose second entry has been met before. *)
Lemma arrows_complete rest : ∀ done st,
  arrowInv done st → NoDup (done ++ rest).*1 → NoDup (done ++ rest).*2 →
  ∃ st', MeshBase.arrows st rest = Some st'.
Proof.
  induction rest as [|e rest IH]; intros done st Hinv H1 H2; simpl; [by eexists|].
  assert (∃ st1, MeshBase.addArrow st e = Some st1) as [st1 Hst1].
  { destruct st as [arrow seen], e as [x y]. unfold MeshBase.addArrow. simpl.
    rewrite !fmap_app in H1, H2. simpl in H1, H2.
    apply NoDup_app in H1 as (_ & H1 & _). apply NoDup_app in H2 as (_ & H2 & _).
    rewrite decide_False; [rewrite decide_False; [by eexists|]|].
    - intros Hy. apply (ai_seen _ _ Hinv) in Hy. apply (H2 _ Hy). left.
    - intros [y' Hx]. apply (ai_arrow _ _ Hinv) in Hx. simpl in Hx.
      apply (H1 x); [|left]. apply list_elem_of_fmap. by exists (x, y'). }
  rewrite Hst1. simpl. apply (IH (done ++ [e])).
  - by eapply addArrow_inv.
  - by rewrite <-(assoc_L (++)).
  - by rewrite <-(assoc_L (++)).
Qed.

Lemma arrow_inj done st x x' y :
  arrowInv done st → st.1 !! x = Some y → st.1 !! x' = Some y → x = x'.
Proof.
  intros Hinv Hx Hx'. apply (ai_arrow _ _ Hinv) in Hx, Hx'.
  apply list_elem_of_lookup in Hx as [i Hi], Hx' as [j Hj].
  assert (i = j) as ->.
  { eapply NoDup_lookup; [apply (ai_second _ _ Hinv)| |].
    - rewrite list_lookup_fmap, Hi. done.
    - rewrite list_lookup_fmap, Hj. done. }
  congruence.
Qed.

Lemma arrow_bound done st (p : list Z) :
  arrowInv done st → NoDup p → (∀ x, x ∈ p → is_Some (st.1 !! x)) →
  (length p ≤ length done)%nat.
Proof.
  intros Hinv Hp Hdom. rewrite <-(length_fmap fst done).
  apply submseteq_length, NoDup_submseteq; [done|].
  intros x Hx. destruct (Hdom _ Hx) as [y Hy]. apply (ai_arrow _ _ Hinv) in Hy.
  apply list_elem_of_fmap. by exists (x, y).
Qed.

(** ** The walk along the arrows *)

Lemma head_snoc_app {X} (q k : list X) (c : X) : head ((q ++ [c]) ++ k) = head (q ++ [c]).
Proof. by destruct q. Qed.

Lemma chained_snoc arrow (q : list Z) cur y :
  chained arrow (q ++ [cur]) → arrow !! cur = Some y → chained arrow ((q ++ [cur]) ++ [y]).
Proof.
  intros Hch Hy k x z Hx Hz.
  assert (length (q ++ [cur]) = S (length q)) as Hl by (rewrite length_app; simpl; lia).
  destruct (decide (S k < length (q ++ [cur]))%nat) as [Hlt|Hge].
  - rewrite lookup_app_l in Hx by lia. rewrite lookup_app_l in Hz by lia. by eapply Hch.
  - apply lookup_lt_Some in Hz as Hlen. rewrite length_app, Hl in Hlen. simpl in Hlen.
    assert (k = length q) as -> by lia.
    rewrite lookup_app_l in Hx by lia.
    rewrite lookup_app_r, Nat.sub_diag in Hx by lia. simpl in Hx.
    rewrite lookup_app_r, Hl, Nat.sub_diag in Hz by lia. simpl in Hz.
    congruence.
Qed.

Section ring.
Variables (arrow : gmap Z Z) (m : nat) (start : Z).
Hypothesis inj : ∀ x x' y, arrow !! x = Some y → arrow !! x' = Some y → x = x'.
Hypothesis bound : ∀ p : list Z,
NoDup p → (∀ x, x ∈ p → is_Some (arrow !! x)) → (length p ≤ m)%nat.

(** The successor of the current entry has not been visited, unless it is the
  starting point. *)
Lemma fresh_successor (q : list Z) cur y :
head (q ++ [cur]) = Some start → NoDup (q ++ [cur]) → chained arrow (q ++ [cur]) →
arrow !! cur = Some y → y ≠ start → y ∉ q ++ [cur].
Proof.
intros Hhead Hnd Hch Hy Hne Hin.
apply list_elem_of_lookup in Hin as [i Hi]. destruct i as [|i].
- rewrite <-head_lookup in Hi. congruence.
- assert (is_Some ((q ++ [cur]) !! i)) as [x Hx].
  { apply lookup_lt_is_Some. apply lookup_lt_Some in Hi. lia. }
  assert (x = cur) as -> by (eapply inj; [by eapply Hch|done]).
  assert (i = length q).
  { eapply NoDup_lookup; [done..|]. by rewrite lookup_app_r, Nat.sub_diag. }
  subst i. apply lookup_lt_Some in Hi. rewrite length_app in Hi. simpl in Hi. lia.
Qed.

(** The walk ends within the fuel, and it has followed a path. *)
Lemma follow_ends fuel : ∀ (q : list Z) cur,
head (q ++ [cur]) = Some start → NoDup (q ++ [cur]) →
(∀ x, x ∈ q ++ [cur] → is_Some (arrow !! x)) → chained arrow (q ++ [cur]) →
(length q + fuel = m)%nat →
∃ len path,
  MeshBase.follow fuel arrow start cur (length q) = Some len ∧
  length path = S len ∧ head path = Some start ∧ NoDup (take len path) ∧
  (∀ x, x ∈ take len path → is_Some (arrow !! x)) ∧ chained arrow path ∧
  (∀ z, last path = Some z → ¬ (is_Some (arrow !! z) ∧ z ≠ start)) ∧
  (length q < len)%nat.
Proof.
induction fuel as [|fuel IH]; intros q cur Hhead Hnd Hdom Hch Hlen.
- pose proof (bound _ Hnd Hdom) as Hb. rewrite length_app in Hb. simpl in Hb. lia.
- cbn [MeshBase.follow]. destruct (Hdom cur) as [y Hy]; [set_solver|].
  rewrite Hy. cbn [default from_option id].
  destruct (decide (is_Some (arrow !! y) ∧ y ≠ start)) as [[Hyd Hys]|Hstop].
  + replace (S (length q)) with (length (q ++ [cur])) by (rewrite length_app; simpl; lia).
    destruct (IH (q ++ [cur]) y) as (len & path & ? & ? & ? & ? & ? & ? & ? & Hlt).
    6: { exists len, path. split_and!; [done..|].
         rewrite length_app in Hlt. simpl in Hlt. lia. }
    * by rewrite head_snoc_app.
    * apply NoDup_app. split_and!; [done| |apply NoDup_singleton].
      intros x Hx ->%list_elem_of_singleton. by eapply fresh_successor.
    * intros x [Hx| ->%list_elem_of_singleton]%elem_of_app; [by apply Hdom|done].
    * by apply chained_snoc.
    * rewrite length_app. simpl. lia.
  + exists (S (length q)), ((q ++ [cur]) ++ [y]).
    assert (take (S (length q)) ((q ++ [cur]) ++ [y]) = q ++ [cur]) as Htake.
    { apply take_app_length'. rewrite length_app. simpl. lia. }
    rewrite Htake. split_and!; [done| |by rewrite head_snoc_app|done|done| | |lia].
    * rewrite !length_app. simpl. lia.
    * by apply chained_snoc.
    * rewrite last_snoc. by intros z [= <-].
Qed.

End ring.

Lemma findStart_in seen d neigh :
  MeshBase.findStart seen d neigh = d ∨ MeshBase.findStart seen d neigh ∈ neigh.*1.
Proof.
  induction neigh as [|e neigh IH]; simpl; [by left|].
  destruct (decide (e.1 ∈ seen)); [|right; left].
  destruct IH as [?|?]; [by left|right; by right].
Qed.

(** The walk of [checkVertex] ends, whatever the pairs are. *)
Lemma follow_neigh neigh st e0 rest :
  neigh = e0 :: rest → arrowInv neigh st →
  let start := MeshBase.findStart st.2 e0.1 neigh in
  ∃ len path,
    MeshBase.follow (length neigh) st.1 start start 0 = Some len ∧
    length path = S len ∧ head path = Some start ∧ NoDup (take len path) ∧
    (∀ x, x ∈ take len path → is_Some (st.1 !! x)) ∧ chained st.1 path ∧
    (∀ z, last path = Some z → ¬ (is_Some (st.1 !! z) ∧ z ≠ start)) ∧
    (0 < len)%nat.
Proof.
  intros Hneigh Hinv start.
  assert (start ∈ neigh.*1) as Hstart.
  { destruct (findStart_in st.2 e0.1 neigh) as [Hs|Hs]; [|done].
    unfold start. rewrite Hs, Hneigh. left. }
  assert (is_Some (st.1 !! start)) as Hdom.
  { apply list_elem_of_fmap in Hstart as ([x y] & -> & Hin).
    exists y. by apply (ai_arrow _ _ Hinv). }
  apply (follow_ends st.1 (length neigh) start (λ x x' y, arrow_inj _ _ x x' y Hinv) (λ p, arrow_bound _ _ p Hinv)
           (length neigh) [] start); simpl.
  - done.
  - apply NoDup_singleton.
  - by intros x ->%list_elem_of_singleton.
  - intros k x y Hx Hy. by destruct k.
  - done.
Qed.

(** ** The links of a path *)

Lemma links_cons x y (p : list Z) : links (x :: y :: p) = (x, y) :: links (y :: p).
Proof. done. Qed.

Lemma length_tail_pred {X} (p : list X) : length (tail p) = pred (length p).
Proof. by destruct p. Qed.

Lemma length_links (p : list Z) : length (links p) = pred (length p).
Proof.
  unfold links. rewrite length_zip_with, length_tail_pred. lia.
Qed.

Lemma links_fst (p : list Z) : (links p).*1 = take (pred (length p)) p.
Proof.
  induction p as [|x [|y p] IH]; [done..|].
  rewrite links_cons, fmap_cons, IH. done.
Qed.

Lemma links_snd (p : list Z) : (links p).*2 = tail p.
Proof. unfold links. apply snd_zip. rewrite length_tail_pred. lia. Qed.

Lemma links_lookup (p : list Z) k x y :
  links p !! k = Some (x, y) ↔ p !! k = Some x ∧ p !! S k = Some y.
Proof.
  unfold links. rewrite lookup_zip_with_Some, lookup_tail. split.
  - by intros (x' & y' & [= <- <-] & ? & ?).
  - intros [??]. by exists x, y.
Qed.

(** ** The test of one vertex *)

Lemma checkVertex_true neigh :
  MeshBase.checkVertex neigh = Some true →
  neigh ≠ [] ∧ NoDup neigh.*1 ∧ NoDup neigh.*2 ∧
  ∃ path, length path = S (length neigh) ∧ neigh ≡ₚ links path.
Proof.
  unfold MeshBase.checkVertex. destruct neigh as [|e0 rest] eqn:Hneigh; [done|].
  rewrite <-Hneigh.
  destruct (MeshBase.arrows (∅, ∅) neigh) as [[arrow seen]|] eqn:Harrows; [|done].
  pose proof (arrows_inv _ _ _ _ arrowInv_nil Harrows) as Hinv. simpl in Hinv.
  destruct (follow_neigh _ _ _ _ Hneigh Hinv)
    as (len & path & Hfollow & Hlen & _ & Hnd & Hdom & Hch & _).
  simpl in Hfollow. rewrite Hfollow. simpl. intros [= Heq%bool_decide_eq_true].
  subst len. split_and!.
  - by rewrite Hneigh.
  - apply (ai_first _ _ Hinv).
  - apply (ai_second _ _ Hinv).
  - exists path. split; [done|]. symmetry.
    apply submseteq_length_Permutation; [|rewrite length_links, Hlen; simpl; lia].
    apply NoDup_submseteq.
    + apply (NoDup_fmap_1 fst). by rewrite links_fst, Hlen.
    + intros [x y] Hin. apply list_elem_of_lookup in Hin as [k Hk].
      apply links_lookup in Hk as [Hx Hy].
      apply (ai_arrow _ _ Hinv). simpl. by eapply Hch.
Qed.

Lemma checkVertex_total neigh : ∃ b, MeshBase.checkVertex neigh = Some b.
Proof.
  unfold MeshBase.checkVertex. destruct neigh as [|e0 rest] eqn:Hneigh; [by eexists|].
  rewrite <-Hneigh.
  destruct (MeshBase.arrows (∅, ∅) neigh) as [[arrow seen]|] eqn:Harrows; [|by eexists].
  pose proof (arrows_inv _ _ _ _ arrowInv_nil Harrows) as Hinv. simpl in Hinv.
  destruct (follow_neigh _ _ _ _ Hneigh Hinv) as (len & path & Hfollow & _).
  simpl in Hfollow. rewrite Hfollow. simpl. by eexists.
Qed.

Lemma checkVertices_true E :
  MeshBase.checkVertices E = Some true →
  ∀ v neigh, E !! v = Some neigh → MeshBase.checkVertex neigh = Some true.
Proof.
  induction E as [|neigh0 E IH]; simpl; [done|].
  destruct (MeshBase.checkVertex neigh0) as [[|]|] eqn:H0; simpl; try done.
  intros Hrest [|v] neigh; simpl; [by intros [= <-]|]. by apply IH.
Qed.

Lemma checkVertices_total E : ∃ b, MeshBase.checkVertices E = Some b.
Proof.
  induction E as [|neigh0 E IH]; simpl; [by eexists|].
  destruct (checkVertex_total neigh0) as [[|] ->]; simpl; [done|by eexists].
Qed.

(** ** A fan that is a chain is accepted *)

Lemma findStart_seen seen d neigh :
  MeshBase.findStart seen d neigh ∈ seen → ∀ x, x ∈ neigh.*1 → x ∈ seen.
Proof.
  induction neigh as [|e neigh IH]; simpl; [by intros _ x ?%elem_of_nil|].
  destruct (decide (e.1 ∈ seen)) as [He|He]; [|done].
  intros Hs x [->|Hx]%elem_of_cons; [done|by apply IH].
Qed.

Section chain.
Variables (neigh : list (Z * Z)) (st : gmap Z Z * gset Z) (p : list Z).
Hypothesis Hinv : arrowInv neigh st.
Hypothesis Hlen : length p = S (length neigh).
Hypothesis Hperm : neigh ≡ₚ links p.
Hypothesis Hnd1 : NoDup (take (length neigh) p).

Lemma chain_arrow x y : st.1 !! x = Some y ↔ ∃ k, p !! k = Some x ∧ p !! S k = Some y.
Proof.
rewrite (ai_arrow _ _ Hinv), Hperm, list_elem_of_lookup. by setoid_rewrite links_lookup.
Qed.

Lemma chain_dom x : is_Some (st.1 !! x) ↔ ∃ k, (k < length neigh)%nat ∧ p !! k = Some x.
Proof.
split.
- intros [y (k & Hx & Hy)%chain_arrow]. exists k. split; [|done].
  apply lookup_lt_Some in Hy. lia.
- intros (k & Hk & Hx). destruct (lookup_lt_is_Some_2 p (S k)) as [y Hy]; [lia|].
  exists y. apply chain_arrow. by exists k.
Qed.

Lemma chain_seen y : y ∈ st.2 ↔ ∃ k, (k < length neigh)%nat ∧ p !! S k = Some y.
Proof.
rewrite (ai_seen _ _ Hinv), list_elem_of_fmap. split.
- intros ([x y'] & -> & Hin). apply (ai_arrow _ _ Hinv) in Hin. simpl in Hin.
  apply chain_arrow in Hin as (k & Hx & Hy). exists k. split; [|done].
  apply lookup_lt_Some in Hy. lia.
- intros (k & Hk & Hy). destruct (lookup_lt_is_Some_2 p k) as [x Hx]; [lia|].
  exists (x, y). split; [done|]. apply (ai_arrow _ _ Hinv). apply chain_arrow. by exists k.
Qed.

Lemma chain_index k k' x :
(k < length neigh)%nat → (k' < length neigh)%nat →
p !! k = Some x → p !! k' = Some x → k = k'.
Proof.
intros Hk Hk' Hx Hx'. eapply NoDup_lookup; [exact Hnd1| |]; by rewrite lookup_take_lt.
Qed.

Lemma chain_first x : x ∈ neigh.*1 ↔ is_Some (st.1 !! x).
Proof.
rewrite list_elem_of_fmap. split.
- intros ([x' y] & -> & Hin). exists y. by apply (ai_arrow _ _ Hinv).
- intros [y Hy]. exists (x, y). split; [done|]. by apply (ai_arrow _ _ Hinv).
Qed.

Section walked.
Variables (start : Z) (len : nat) (w : list Z).
Hypothesis Hstart : start ∈ st.2 → ∀ x, x ∈ neigh.*1 → x ∈ st.2.
Hypothesis Hw : length w = S len.
Hypothesis Hhead : w !! 0%nat = Some start.
Hypothesis Hwdom : ∀ x, x ∈ take len w → is_Some (st.1 !! x).
Hypothesis Hwch : chained st.1 w.
Hypothesis Hpos : (0 < len)%nat.

Lemma walked_lookup i x : (i < len)%nat → w !! i = Some x → x ∈ take len w.
Proof. intros Hi Hx. apply list_elem_of_lookup. exists i. by rewrite lookup_take_lt. Qed.

Lemma walked_start : start ∈ take len w.
Proof. by apply (walked_lookup 0). Qed.

(** The walk has come back to its starting point: it has been through the
whole chain. *)
Lemma ring_covers : w !! len = Some start → (length neigh ≤ len)%nat.
Proof.
  intros Hlast.
  assert (∀ x y, x ∈ take len w → st.1 !! x = Some y → y ∈ take len w) as Hsucc.
  { intros x y [i Hi]%list_elem_of_lookup Hxy.
apply lookup_take_Some in Hi as [Hi Hlt].
destruct (lookup_lt_is_Some_2 w (S i)) as [y' Hy']; [lia|].
assert (y' = y) as -> by (pose proof (Hwch _ _ _ Hi Hy'); congruence).
destruct (decide (S i = len)) as [Heq|Hne].
- rewrite Heq, Hlast in Hy'. injection Hy' as <-. apply walked_start.
- apply (walked_lookup (S i)); [lia|done]. }
  assert (∀ x y, y ∈ take len w → st.1 !! x = Some y → x ∈ take len w) as Hpred.
  { intros x y [i Hi]%list_elem_of_lookup Hxy.
apply lookup_take_Some in Hi as [Hi Hlt].
assert (∃ i', (i' < len)%nat ∧ w !! S i' = Some y) as (i' & Hlt' & Hi').
{ destruct i as [|i].
  - exists (pred len). split; [lia|]. rewrite Hhead in Hi. injection Hi as <-.
    by replace (S (pred len)) with len by lia.
  - exists i. split; [lia|done]. }
destruct (lookup_lt_is_Some_2 w i') as [x' Hx']; [lia|].
assert (x = x') as ->.
{ eapply (arrow_inj _ _ _ _ _ Hinv); [done|]. by eapply Hwch. }
by apply (walked_lookup i'). }
  destruct (proj1 (chain_dom start) (Hwdom _ walked_start)) as (j & Hj & Hpj).
  assert (∀ k x, (k < length neigh)%nat → p !! k = Some x → x ∈ take len w) as Hall.
  { assert (∀ x, p !! 0%nat = Some x → x ∈ take len w) as H0.
{ clear Hlast. revert Hj Hpj. generalize start walked_start.
  induction j as [|j IH]; intros s Hs Hj Hpj x Hx; [congruence|].
  destruct (lookup_lt_is_Some_2 p j) as [s' Hs']; [lia|].
  apply (IH s'); [|lia|done..].
  apply (Hpred s' s); [done|]. apply chain_arrow. by exists j. }
induction k as [|k IH]; intros x Hk Hx; [by apply H0|].
destruct (lookup_lt_is_Some_2 p k) as [x' Hx']; [lia|].
apply (Hsucc x' x); [apply IH; [lia|done]|]. apply chain_arrow. by exists k. }
  assert (take (length neigh) p ⊆+ take len w) as Hsub.
  { apply NoDup_submseteq; [done|]. intros x [k Hk]%list_elem_of_lookup.
apply lookup_take_Some in Hk as [Hk Hlt]. by eapply Hall. }
  apply submseteq_length in Hsub. rewrite !length_take_le in Hsub by lia. done.
Qed.

(** The walk has come to a dead end: it has started at the first entry of
the chain and has followed it to its last entry. *)
Lemma line_covers z :
  w !! len = Some z → ¬ is_Some (st.1 !! z) → (length neigh ≤ len)%nat.
Proof.
  intros Hlast Hz.
  assert (0 < length neigh)%nat as Hm.
  { destruct (proj1 (chain_dom start) (Hwdom _ walked_start)) as (j & Hj & _). lia. }
  destruct (lookup_lt_is_Some_2 p 0) as [x0 Hx0]; [lia|].
  destruct (lookup_lt_is_Some_2 w (pred len)) as [u Hu]; [lia|].
  assert (st.1 !! u = Some z) as Huz.
  { eapply Hwch; [done|]. by replace (S (pred len)) with len by lia. }
  assert (p !! length neigh = Some z) as Hpz.
  { apply chain_arrow in Huz as (k & Hk & Hk').
destruct (decide (S k = length neigh)) as [<-|Hne]; [done|].
exfalso. apply Hz, chain_dom. exists (S k). split; [|done].
apply lookup_lt_Some in Hk'. lia. }
  assert (x0 ∉ st.2) as Hx0s.
  { intros (i & Hi & Hpi)%chain_seen.
destruct (decide (S i = length neigh)) as [Heq|Hne].
- rewrite Heq in Hpi. assert (x0 = z) as -> by congruence.
  apply Hz, chain_dom. by exists 0%nat.
- assert (0%nat = S i); [|done]. apply (chain_index _ _ x0); [lia..|done|done]. }
  assert (start ∉ st.2) as Hss.
  { intros Hs. apply Hx0s, Hstart; [done|]. apply chain_first, chain_dom. by exists 0%nat. }
  assert (p !! 0%nat = Some start) as Hp0.
  { destruct (proj1 (chain_dom start) (Hwdom _ walked_start)) as (j & Hj & Hpj).
destruct j as [|j]; [done|]. exfalso. apply Hss, chain_seen. exists j. split; [lia|done]. }
  assert (∀ i, (i ≤ len)%nat → (i ≤ length neigh)%nat → w !! i = p !! i) as Hsame.
  { induction i as [|i IH]; intros Hi Hi'; [congruence|].
destruct (lookup_lt_is_Some_2 w i) as [x Hx]; [lia|].
destruct (lookup_lt_is_Some_2 w (S i)) as [y Hy]; [lia|].
destruct (lookup_lt_is_Some_2 p (S i)) as [y' Hy']; [lia|].
pose proof (Hwch _ _ _ Hx Hy) as Hxy.
assert (st.1 !! x = Some y') as Hxy'.
{ apply chain_arrow. exists i. split; [|done]. rewrite <-IH by lia. done. }
congruence. }
  destruct (decide (length neigh ≤ len)%nat) as [|Hlt]; [done|].
  exfalso. apply Hz, chain_dom. exists len. split; [lia|].
  rewrite <-Hsame by lia. done.
Qed.

End walked.
End chain.

Lemma checkVertex_complete neigh (p : list Z) :
  neigh ≠ [] → length p = S (length neigh) → neigh ≡ₚ links p →
  NoDup (take (length neigh) p) → NoDup (tail p) →
  MeshBase.checkVertex neigh = Some true.
Proof.
  intros Hne Hlen Hperm Hnd1 Hnd2.
  unfold MeshBase.checkVertex. destruct neigh as [|e0 rest] eqn:Hneigh; [done|].
  rewrite <-Hneigh in *.
  destruct (arrows_complete neigh [] (∅, ∅) arrowInv_nil) as [[arrow seen] Harrows]; simpl.
  { rewrite Hperm, links_fst, Hlen. done. }
  { rewrite Hperm, links_snd. done. }
  rewrite Harrows.
  pose proof (arrows_inv _ _ _ _ arrowInv_nil Harrows) as Hinv. simpl in Hinv.
  destruct (follow_neigh _ _ _ _ Hneigh Hinv)
    as (len & w & Hfollow & Hw & Hhead & Hwnd & Hwdom & Hwch & Hstop & Hpos).
  simpl in Hfollow, Hhead, Hwdom, Hwch, Hstop. rewrite Hfollow. simpl.
  f_equal. apply bool_decide_eq_true. apply Nat.le_antisymm.
  - pose proof (arrow_bound _ _ _ Hinv Hwnd Hwdom) as Hb.
    rewrite length_take_le in Hb by lia. done.
  - rewrite head_lookup in Hhead.
    destruct (lookup_lt_is_Some_2 w len) as [z Hz]; [lia|].
    assert (last w = Some z) as Hlast by (by rewrite last_lookup, Hw).
    destruct (decide (z = MeshBase.findStart seen e0.1 neigh)) as [Heq|Hne'].
    + eapply (ring_covers neigh (arrow, seen) p Hinv Hlen Hperm Hnd1 _ len w);
        [done..|by rewrite <-Heq].
    + eapply (line_covers neigh (arrow, seen) p Hinv Hlen Hperm Hnd1 _ len w);
        [apply findStart_seen|done..|].
      intros Hsome. by apply (Hstop z Hlast).
Qed.

Lemma checkVertices_complete E :
  (∀ v neigh, E !! v = Some neigh → MeshBase.checkVertex neigh = Some true) →
  MeshBase.checkVertices E = Some true.
Proof.
  induction E as [|neigh0 E IH]; intros Hall; simpl; [done|].
  rewrite (Hall 0%nat neigh0 eq_refl). simpl. apply IH.
  intros v neigh Hv. by apply (Hall (S v)).
Qed.

Lemma addCorners_complete n E a b c :
  (a < Z.of_nat n)%Z → (b < Z.of_nat n)%Z → (c < Z.of_nat n)%Z → a ≠ b → b ≠ c → c ≠ a →
  ∃ E', MeshBase.addCorners n 3 E (a, b, c) = Ok (Some E').
Proof.
  intros Ha Hb Hc Hab Hbc Hca. cbn [MeshBase.addCorners]. unfold MeshBase.addCorner.
  rewrite (decide_True (P := (a < _)%Z)), (decide_False (P := a = b)) by done.
  cbn [mbind result_bind].
  rewrite (decide_True (P := (b < _)%Z)), (decide_False (P := b = c)) by done.
  cbn [mbind result_bind].
  rewrite (decide_True (P := (c < _)%Z)), (decide_False (P := c = a)) by done.
  cbn [mbind result_bind]. by eexists.
Qed.

Lemma buildEdges_complete n tris : ∀ E,
  wf_triangles n tris → (∀ tri, tri ∈ tris → NoDup (indices tri)) →
  ∃ E', MeshBase.buildEdges n E tris = Ok (Some E').
Proof.
  induction tris as [|[[a b] c] tris IH]; intros E Hwf Hnd; cbn [MeshBase.buildEdges];
    [by eexists|].
  assert (a < Z.of_nat n ∧ b < Z.of_nat n ∧ c < Z.of_nat n)%Z as (Ha & Hb & Hc).
  { split_and!; eapply (Hwf (a, b, c)); unfold indices; simpl; set_solver. }
  assert (a ≠ b ∧ b ≠ c ∧ c ≠ a) as (Hab & Hbc & Hca).
  { specialize (Hnd (a, b, c) ltac:(left)). unfold indices in Hnd. simpl in Hnd.
    rewrite !NoDup_cons, !elem_of_cons, !elem_of_nil in Hnd.
    destruct Hnd as (H1 & H2 & _). split_and!; intros ->; tauto. }
  destruct (addCorners_complete n E a b c) as [E1 ->]; [done..|].
  cbn [mbind result_bind]. apply IH.
  - intros t v Ht. apply Hwf. by right.
  - intros t Ht. apply Hnd. by right.
Qed.

(** ** The whole test *)

Lemma rotation_corners tri r :
  r ∈ rotations tri → r.1.1 ∈ indices tri ∧ r.1.2 ∈ indices tri ∧ r.2 ∈ indices tri.
Proof.
  destruct tri as [[a b] c]. unfold rotations, indices. simpl.
  rewrite !elem_of_cons, !elem_of_nil.
  intros [->|[->|[->|[]]]]; simpl; auto 7.
Qed.

(** What a mesh that passes the test has gone through. *)
Lemma isManifold_true n tris :
  unsigned tris → MeshBase.isManifold n tris = Ok (Some true) →
  wf_triangles n tris ∧ (∀ tri, tri ∈ tris → NoDup (indices tri)) ∧
  ∀ v, (v < n)%nat → MeshBase.checkVertex (fan tris v) = Some true.
Proof.
  intros Hpos. unfold MeshBase.isManifold.
  destruct (MeshBase.buildEdges n (replicate n []) tris) as [[E|]| |] eqn:Hbuild; try done.
  cbn [mbind result_bind]. intros [= Hcheck].
  destruct (buildEdges_inv _ _ _ _ _ (tableInv_start n) Hpos Hbuild) as ([_ HE] & Hwf & Hnd).
  split_and!; [done..|]. intros v Hv.
  eapply checkVertices_true; [done|]. apply (HE v Hv).
Qed.

(** No directed edge is met twice when no vertex meets one twice. *)
Lemma NoDup_directed n (R : list triangle_type) :
  (∀ r, r ∈ R → (0 ≤ r.1.1 < Z.of_nat n)%Z) →
  (∀ v, (v < n)%nat → NoDup (omap (spoke v) R).*1) →
  NoDup ((λ r : triangle_type, (r.1.1, r.1.2)) <$> R).
Proof.
  induction R as [|[[a b] c] R IH]; intros Hrange Hfans; [constructor|].
  rewrite fmap_cons. simpl. apply NoDup_cons. split.
  - intros Hin. apply list_elem_of_fmap in Hin as ([[a' b'] c'] & [= <- <-] & Hin).
    destruct (Hrange (a, b, c)) as [Ha Han]; [left|]. simpl in Ha, Han.
    specialize (Hfans (Z.to_nat a) ltac:(lia)). simpl in Hfans.
    rewrite spoke_at in Hfans by done. rewrite fmap_cons in Hfans. simpl in Hfans.
    apply NoDup_cons in Hfans as [Hfresh _]. apply Hfresh.
    apply list_elem_of_fmap. exists (b, c'). split; [done|].
    apply list_elem_of_omap. exists (a, b, c'). split; [done|]. by apply spoke_at.
  - apply IH.
    + intros r Hr. apply Hrange. by right.
    + intros v Hv. specialize (Hfans v Hv). simpl in Hfans.
      destruct (spoke v (a, b, c)); [|done].
      rewrite fmap_cons in Hfans. by apply NoDup_cons in Hfans as [_ ?].
Qed.

(** X15: a mesh that [isManifold] accepts has every index in range and three
    different corners in every triangle, has no vertex that no triangle uses,
    and has no directed edge in two triangles (or twice in one): neighbouring
    triangles are wound the same way. *)
Theorem manifold_mesh_is_oriented n tris :
  unsigned tris → MeshBase.isManifold n tris = Ok (Some true) →
  wf_triangles n tris ∧
  (∀ tri, tri ∈ tris → NoDup (indices tri)) ∧
  (∀ v, (v < n)%nat → ∃ tri, tri ∈ tris ∧ Z.of_nat v ∈ indices tri) ∧
  NoDup (directedEdges tris).
Proof.
  intros Hpos Htrue.
  destruct (isManifold_true _ _ Hpos Htrue) as (Hwf & Hnd & Hcheck).
  split_and!; [done..| |].
  - intros v Hv. destruct (checkVertex_true _ (Hcheck v Hv)) as (Hne & _).
    destruct (fan tris v) as [|e l] eqn:Hfan; [done|].
    assert (e ∈ fan tris v) as Hin by (rewrite Hfan; left).
    apply list_elem_of_omap in Hin as (r & Hr & Hspoke).
    apply list_elem_of_bind in Hr as (tri & Hr & Htri).
    exists tri. split; [done|]. unfold spoke in Hspoke.
    destruct (decide (r.1.1 = Z.of_nat v)) as [<-|]; [|done].
    by apply rotation_corners.
  - unfold directedEdges. apply (NoDup_directed n).
    + intros r (tri & Hr & Htri)%list_elem_of_bind. eapply Hwf; [done|].
      by apply rotation_corners.
    + intros v Hv. by destruct (checkVertex_true _ (Hcheck v Hv)) as (_ & ? & _).
Qed.

(** X16: [isManifold] always comes to an end: the walk around a vertex never
    takes more than [neigh.size()] passes, whatever the triangles are, and
    when every index is in range no [assert] fails, so that the call returns
    [true] or [false]. *)
Theorem is_manifold_returns n tris :
  MeshBase.isManifold n tris ≠ Ok None ∧
  (wf_triangles n tris → ∃ b, MeshBase.isManifold n tris = Ok (Some b)).
Proof.
  unfold MeshBase.isManifold. split.
  - destruct (MeshBase.buildEdges n (replicate n []) tris) as [[E|]| |]; try done.
    cbn [mbind result_bind]. by destruct (checkVertices_total E) as [b ->].
  - intros Hwf. destruct (buildEdges_total n tris (replicate n []) Hwf) as [[E|] ->];
      cbn [mbind result_bind]; [|by eexists].
    destruct (checkVertices_total E) as [b ->]. by eexists.
Qed.

(** X17: [isManifold] accepts exactly the meshes in which every index is in
    range, every triangle has three different corners, and the triangles
    around every vertex form one line or one ring: there is a path of
    neighbours, one longer than the number of these triangles, whose
    consecutive entries are the two other corners of exactly these triangles;
    its entries are different, but for the last one, which may close the
    ring. *)
Theorem is_manifold_accepts_chains n tris :
  unsigned tris →
  MeshBase.isManifold n tris = Ok (Some true) ↔
  wf_triangles n tris ∧
  (∀ tri, tri ∈ tris → NoDup (indices tri)) ∧
  ∀ v, (v < n)%nat →
    fan tris v ≠ [] ∧
    ∃ path, length path = S (length (fan tris v)) ∧ fan tris v ≡ₚ links path ∧
            NoDup (take (length (fan tris v)) path) ∧ NoDup (tail path).
Proof.
  intros Hpos. split.
  - intros Htrue. destruct (isManifold_true _ _ Hpos Htrue) as (Hwf & Hnd & Hcheck).
    split_and!; [done..|]. intros v Hv.
    destruct (checkVertex_true _ (Hcheck v Hv)) as (Hne & H1 & H2 & path & Hlen & Hperm).
    split; [done|]. exists path. split_and!; [done..| |].
    + rewrite Hperm, links_fst, Hlen in H1. done.
    + rewrite Hperm, links_snd in H2. done.
  - intros (Hwf & Hnd & Hfans). unfold MeshBase.isManifold.
    destruct (buildEdges_complete n tris (replicate n []) Hwf Hnd) as [E Hbuild].
    destruct (buildEdges_inv _ _ _ _ _ (tableInv_start n) Hpos Hbuild) as ([HlenE HE] & _).
    rewrite Hbuild. cbn [mbind result_bind]. do 2 f_equal.
    apply checkVertices_complete. intros v neigh Hv.
    assert (v < n)%nat as Hvn by (apply lookup_lt_Some in Hv; lia).
    rewrite (HE v Hvn) in Hv. injection Hv as <-.
    destruct (Hfans v Hvn) as (Hne & path & Hlen & Hperm & H1 & H2).
    by eapply checkVertex_complete.
Qed.

Lemma wf_unsigned n tris : wf_triangles n tris → unsigned tris.
Proof. intros Hwf tri v Htri Hv. by apply (Hwf tri v Htri Hv). Qed.

(** * Further theorems at concrete inputs *)

(** Two wings over the same edge. *)
Lemma wings_wf : Forall wf_fragment [wing 5; wing (-7)].
Proof. apply Forall_wf_fragmentb. vm_compute. reflexivity. Qed.

Lemma wings_fit : (Z.of_nat (totalVertices [wing 5; wing (-7)]) < 2 ^ 32)%Z.
Proof. vm_compute. reflexivity. Qed.

Lemma wings_consistent :
  consistent (allKeys [wing 5; wing (-7)]) (allExternal [wing 5; wing (-7)]).
Proof.
  intros i j k Hi Hj.
  destruct i as [|[|[|[|i]]]]; vm_compute in Hi; try discriminate Hi;
    destruct j as [|[|[|[|j]]]]; vm_compute in Hj; try discriminate Hj;
    first [reflexivity|congruence].
Qed.

(** X1 at the two wings. *)
Lemma simple_mesh_keeps_geometry_witness :
  let s := SimpleMesh.addAll [wing 5; wing (-7)] SimpleMesh.create in
  let w := SimpleMesh.write "out.ply"%string s Writer.closed in
  SimpleMesh.vertices s = concat (f_vertices <$> [wing 5; wing (-7)]) ∧
  soup (SimpleMesh.vertices s) (SimpleMesh.triangles s) = soups [wing 5; wing (-7)] ∧
  SimpleMesh.triangles s = [(0, 1, 2); (3, 4, 5)]%Z ∧
  Writer.numVertices w = 6%Z ∧ Writer.numTriangles w = 2%Z.
Proof.
  cbv zeta.
  assert (Forall (λ fr, wf_triangles (f_numVertices fr) (f_triangles fr)) [wing 5; wing (-7)])
    as Hwf by (eapply Forall_impl; [apply wings_wf|]; by intros fr (_ & _ & H)).
  assert (Z.of_nat (totalVertices [wing 5; wing (-7)]) ≤ 2 ^ 32)%Z as Hfit
    by (pose proof wings_fit; lia).
  destruct (simple_mesh_keeps_geometry [wing 5; wing (-7)] "out.ply"%string Hwf Hfit)
    as (Hv & _ & Hs & Hnv & Hnt & _).
  split; [exact Hv|]. split; [exact Hs|]. split; [reflexivity|].
  split; [exact Hnv|exact Hnt].
Defined.

(** X2 at the two wings: the four external vertices have the complements of
    0, 1, 2 and 3 as their indices. *)
Lemma weld_mesh_add_decodes_witness :
  let s := WeldMesh.addAll [wing 5; wing (-7)] WeldMesh.create in
  WeldMesh.externalKeys s = [3; 4; 3; 4]%Z ∧
  WeldMesh.triangles s = [(0, lnot32 0, lnot32 1); (1, lnot32 2, lnot32 3)]%Z ∧
  weldSoup s = soups [wing 5; wing (-7)].
Proof.
  cbv zeta.
  assert (Z.of_nat (totalVertices [wing 5; wing (-7)]) ≤ 2 ^ 32)%Z as Hfit
    by (pose proof wings_fit; lia).
  destruct (weld_mesh_add_decodes [wing 5; wing (-7)] wings_wf Hfit)
    as (_ & _ & Hk & _ & Hs).
  split; [exact Hk|]. split; [reflexivity|exact Hs].
Defined.

(** X3 at the two wings: the two ends of the edge are kept once. *)
Lemma weld_mesh_keeps_first_vertices_witness :
  let s := WeldMesh.finalize (WeldMesh.addAll [wing 5; wing (-7)] WeldMesh.create) in
  WeldMesh.internalVertices s = [(0, 5, 0); (0, -7, 0)]%Z ∧
  length (WeldMesh.externalVertices s) = 2 ∧
  WeldMesh.externalVertices s !! 1 = Some (1, 0, 0)%Z.
Proof.
  cbv zeta.
  assert (Z.of_nat (totalVertices [wing 5; wing (-7)]) ≤ 2 ^ 32)%Z as Hfit
    by (pose proof wings_fit; lia).
  destruct (weld_mesh_keeps_first_vertices [wing 5; wing (-7)] wings_wf Hfit)
    as (Hi & _ & Hlen & Hkept).
  split; [exact Hi|]. split; [exact Hlen|].
  exact (Hkept 1 4%Z eq_refl).
Defined.

(** X4 at the two wings: the external vertices 0 and 2 have the key 3, the
    external vertex 1 has the key 4. *)
Lemma weld_mesh_same_index_iff_same_key_witness :
  let s := WeldMesh.addAll [wing 5; wing (-7)] WeldMesh.create in
  let final := WeldMesh.finalIndex (length (WeldMesh.internalVertices s))
                                   (WeldMesh.wl_remap (WeldMesh.weldAll s)) in
  final (lnot32 0) = final (lnot32 2) ∧ final (lnot32 0) = 2%Z ∧
  (final (lnot32 0) = final (lnot32 1) ↔ 3 = 4)%Z.
Proof.
  cbv zeta.
  assert (Z.of_nat (totalVertices [wing 5; wing (-7)]) ≤ 2 ^ 32)%Z as Hfit
    by (pose proof wings_fit; lia).
  destruct (weld_addAll_create [wing 5; wing (-7)] wings_wf Hfit) as (Hw & _).
  destruct (weld_mesh_same_index_iff_same_key _ 0 2 3%Z 3%Z Hw eq_refl eq_refl) as [[_ H02] _].
  destruct (weld_mesh_same_index_iff_same_key _ 0 1 3%Z 4%Z Hw eq_refl eq_refl) as [H01 _].
  split; [exact (H02 eq_refl)|]. split; [reflexivity|exact H01].
Defined.

(** X5 at the two wings. *)
Lemma weld_mesh_keeps_geometry_witness :
  let s := WeldMesh.finalize (WeldMesh.addAll [wing 5; wing (-7)] WeldMesh.create) in
  let w := WeldMesh.write "out.ply"%string s Writer.closed in
  soup (WeldMesh.internalVertices s ++ WeldMesh.externalVertices s) (WeldMesh.triangles s) =
    soups [wing 5; wing (-7)] ∧
  WeldMesh.triangles s = [(0, 2, 3); (1, 2, 3)]%Z ∧
  Writer.numVertices w = 4%Z ∧ Writer.numTriangles w = 2%Z ∧
  flat (Writer.vertexWrites w) = [(0, 5, 0); (0, -7, 0); (0, 0, 0); (1, 0, 0)]%Z.
Proof.
  cbv zeta.
  assert (Z.of_nat (totalVertices [wing 5; wing (-7)]) ≤ 2 ^ 32)%Z as Hfit
    by (pose proof wings_fit; lia).
  destruct (weld_mesh_keeps_geometry [wing 5; wing (-7)] "out.ply"%string
              wings_wf Hfit wings_consistent) as (_ & Hs & Hnv & Hnt & _).
  split; [exact Hs|]. split; [reflexivity|]. split; [exact Hnv|]. split; [exact Hnt|].
  reflexivity.
Defined.

(** X7 at the two wings. *)
Lemma stxxl_mesh_keeps_geometry_witness :
  ∃ s, StxxlMesh.addAll [wing 5; wing (-7)] StxxlMesh.create = Ok s ∧
       (StxxlMesh.vertices s).*1 = [(0, 5, 0); (0, 0, 0); (1, 0, 0); (0, -7, 0)]%Z ∧
       StxxlMesh.triangles s = [(0, 1, 2); (3, 1, 2)]%Z ∧
       soup (StxxlMesh.vertices s).*1 (StxxlMesh.triangles s) = soups [wing 5; wing (-7)].
Proof.
  destruct (StxxlMesh.addAll [wing 5; wing (-7)] StxxlMesh.create) as [s| |] eqn:Hrun;
    pose proof Hrun as Hval; vm_compute in Hval; try discriminate Hval.
  exists s. split; [reflexivity|].
  destruct (stxxl_mesh_keeps_geometry [wing 5; wing (-7)] s wings_wf wings_consistent
              wings_fit Hrun) as (_ & _ & _ & _ & Hs).
  injection Hval as <-.
  split; [reflexivity|]. split; [reflexivity|exact Hs].
Defined.

(** ** The collectors at concrete inputs *)

Lemma wings_fit64 : (Z.of_nat (length (soups [wing 5; wing (-7)])) < 2 ^ 64)%Z.
Proof. vm_compute. reflexivity. Qed.

Lemma rounding_id : rounding (λ q, q).
Proof. split; [by intros x y Hxy|reflexivity]. Qed.

(** A single triangle, then the two wings. *)
Lemma scraps_wf : Forall wf_fragment [small; wing 5; wing (-7)].
Proof. apply Forall_wf_fragmentb. vm_compute. reflexivity. Qed.

Lemma scraps_fit : (Z.of_nat (totalVertices [small; wing 5; wing (-7)]) < 2 ^ 32)%Z.
Proof. vm_compute. reflexivity. Qed.

Lemma scraps_fit64 : (Z.of_nat (length (soups [small; wing 5; wing (-7)])) < 2 ^ 64)%Z.
Proof. vm_compute. reflexivity. Qed.

Lemma scraps_consistent :
  consistent (allKeys [small; wing 5; wing (-7)]) (allExternal [small; wing 5; wing (-7)]).
Proof.
  intros i j k Hi Hj.
  destruct i as [|[|[|[|i]]]]; vm_compute in Hi; try discriminate Hi;
    destruct j as [|[|[|[|j]]]]; vm_compute in Hj; try discriminate Hj;
    first [reflexivity|congruence].
Qed.

(** X8 at the two wings. *)
Lemma big_mesh_keeps_geometry_witness :
  ∃ b, BigMesh.run [wing 5; wing (-7)] (BigMesh.create "out.ply") = Ok b ∧
       Writer.numVertices (BigMesh.writer b) = 4%Z ∧
       Writer.numTriangles (BigMesh.writer b) = 2%Z ∧
       flat (Writer.vertexWrites (BigMesh.writer b)) =
         [(0, 5, 0); (0, 0, 0); (1, 0, 0); (0, -7, 0)]%Z ∧
       flat (Writer.triangleWrites (BigMesh.writer b)) = [(0, 1, 2); (3, 1, 2)]%Z ∧
       soup (flat (Writer.vertexWrites (BigMesh.writer b)))
            (flat (Writer.triangleWrites (BigMesh.writer b))) = soups [wing 5; wing (-7)].
Proof.
  destruct (BigMesh.run [wing 5; wing (-7)] (BigMesh.create "out.ply")) as [b| |] eqn:Hrun;
    pose proof Hrun as Hval; vm_compute in Hval; try discriminate Hval.
  exists b. split; [reflexivity|].
  destruct (big_mesh_keeps_geometry "out.ply" [wing 5; wing (-7)] b wings_wf wings_consistent
              wings_fit wings_fit64 Hrun) as (_ & _ & _ & _ & _ & _ & _ & Hs).
  injection Hval as <-.
  split; [reflexivity|]. split; [reflexivity|]. split; [reflexivity|].
  split; [reflexivity|exact Hs].
Defined.

(** X9 at the two wings, in blocks of two vertices and of one triangle: the
    last write of either kind is empty. *)
Lemma write_fills_blocks_witness :
  ∃ s, StxxlMesh.addAll [wing 5; wing (-7)] StxxlMesh.create = Ok s ∧
       let w := StxxlMesh.writeWith 2 1 0 "out.ply" s Writer.closed in
       blocks 2 (Writer.vertexWrites w) ∧ blocks 1 (Writer.triangleWrites w) ∧
       (Writer.vertexWrites w).*1 = [(0, 2); (2, 2); (4, 0)]%Z ∧
       (Writer.triangleWrites w).*1 = [(0, 1); (1, 1); (2, 0)]%Z.
Proof.
  destruct (StxxlMesh.addAll [wing 5; wing (-7)] StxxlMesh.create) as [s| |] eqn:Hrun;
    pose proof Hrun as Hval; vm_compute in Hval; try discriminate Hval.
  exists s. split; [reflexivity|]. cbv zeta.
  destruct (write_fills_blocks 2 1 0 "out.ply" s) as (Hv & _ & Ht & _); [lia|lia|].
  split; [exact Hv|]. split; [exact Ht|].
  injection Hval as <-. split; reflexivity.
Defined.

(** X10 at a single triangle and the two wings, with a threshold of four
    vertices: the triangle is pruned, the wings are renumbered. *)
Lemma write_prunes_whole_components_witness :
  ∃ s, StxxlMesh.addAll [small; wing 5; wing (-7)] StxxlMesh.create = Ok s ∧
       StxxlMesh.triangles s = [(0, 1, 2); (3, 4, 5); (6, 4, 5)]%Z ∧
       let w := StxxlMesh.write (λ q, q) (4 # 7) 2 2 "out.ply" s Writer.closed in
       Writer.numVertices w = 4%Z ∧ Writer.numTriangles w = 2%Z ∧
       flat (Writer.vertexWrites w) = [(0, 5, 0); (0, 0, 0); (1, 0, 0); (0, -7, 0)]%Z ∧
       flat (Writer.triangleWrites w) = [(0, 1, 2); (3, 1, 2)]%Z ∧
       closed (flat (Writer.vertexWrites w)) (flat (Writer.triangleWrites w)) ∧
       soup (flat (Writer.vertexWrites w)) (flat (Writer.triangleWrites w))
         `sublist_of` soups [small; wing 5; wing (-7)].
Proof.
  destruct (StxxlMesh.addAll [small; wing 5; wing (-7)] StxxlMesh.create) as [s| |] eqn:Hrun;
    pose proof Hrun as Hval; vm_compute in Hval; try discriminate Hval.
  exists s. split; [reflexivity|].
  destruct (write_prunes_whole_components (λ q, q) (4 # 7) 2 2 "out.ply"
              [small; wing 5; wing (-7)] s scraps_wf scraps_consistent scraps_fit
              scraps_fit64 Hrun) as (_ & _ & _ & Hclosed & _ & _ & Hsub).
  injection Hval as <-.
  split; [reflexivity|]. cbv zeta.
  split; [reflexivity|]. split; [reflexivity|]. split; [reflexivity|].
  split; [reflexivity|]. split; [exact Hclosed|exact Hsub].
Defined.

(** X11 at the two wings. *)
Lemma unpruned_write_keeps_geometry_witness :
  ∃ s, StxxlMesh.addAll [wing 5; wing (-7)] StxxlMesh.create = Ok s ∧
       let w := StxxlMesh.write (λ q, q) 0%Q 2 2 "out.ply" s Writer.closed in
       Writer.numVertices w = 4%Z ∧ Writer.numTriangles w = 2%Z ∧
       flat (Writer.triangleWrites w) = [(0, 1, 2); (3, 1, 2)]%Z ∧
       soup (flat (Writer.vertexWrites w)) (flat (Writer.triangleWrites w)) =
         soups [wing 5; wing (-7)].
Proof.
  destruct (StxxlMesh.addAll [wing 5; wing (-7)] StxxlMesh.create) as [s| |] eqn:Hrun;
    pose proof Hrun as Hval; vm_compute in Hval; try discriminate Hval.
  exists s. split; [reflexivity|].
  destruct (unpruned_write_keeps_geometry (λ q, q) 2 2 "out.ply" [wing 5; wing (-7)] s
              rounding_id wings_wf wings_consistent wings_fit wings_fit64 Hrun)
    as (_ & _ & _ & _ & _ & Hs).
  injection Hval as <-. cbv zeta.
  split; [reflexivity|]. split; [reflexivity|]. split; [reflexivity|exact Hs].
Defined.

(** X12 at the two wings. *)
Lemma big_mesh_agrees_with_stxxl_mesh_witness :
  ∃ b s, BigMesh.run [wing 5; wing (-7)] (BigMesh.create "out.ply") = Ok b ∧
         StxxlMesh.addAll [wing 5; wing (-7)] StxxlMesh.create = Ok s ∧
         let w := StxxlMesh.write (λ q, q) 0%Q 2 2 "out.ply" s Writer.closed in
         flat (Writer.vertexWrites (BigMesh.writer b)) = flat (Writer.vertexWrites w) ∧
         flat (Writer.triangleWrites (BigMesh.writer b)) = flat (Writer.triangleWrites w) ∧
         Writer.numVertices (BigMesh.writer b) = Writer.numVertices w.
Proof.
  destruct (BigMesh.run [wing 5; wing (-7)] (BigMesh.create "out.ply")) as [b| |] eqn:Hrun;
    pose proof Hrun as Hval; vm_compute in Hval; try discriminate Hval.
  destruct (big_mesh_agrees_with_stxxl_mesh (λ q, q) 2 2 "out.ply" [wing 5; wing (-7)] b
              rounding_id wings_wf wings_consistent wings_fit wings_fit64 Hrun)
    as (s & Hs & _ & Hnv & _ & _ & Hv & Ht).
  exists b, s. split; [reflexivity|]. split; [exact Hs|]. cbv zeta.
  split; [exact Hv|]. split; [exact Ht|exact Hnv].
Defined.

(** X13 at a triangle and an isolated vertex, behind a clump of five
    vertices. *)
Lemma local_components_are_appended_witness :
  ∃ cl' cid, computeLocalComponents 4 [(0, 1, 2)%Z] [newClump 5] = Ok (cl', cid) ∧
             take 1 cl' = [newClump 5] ∧ cid = [1; 1; 1; 2] ∧
             clumpVertices <$> cl' !! 1 = Some 3%Z ∧
             clumpTriangles <$> cl' !! 1 = Some 1%Z ∧
             clumpVertices <$> cl' !! 2 = Some 1%Z.
Proof.
  destruct (computeLocalComponents 4 [(0, 1, 2)%Z] [newClump 5]) as [[cl' cid]| |] eqn:Hrun;
    pose proof Hrun as Hval; vm_compute in Hval; try discriminate Hval.
  assert (wf_triangles 4 [(0, 1, 2)%Z]) as Hwt by (apply wf_trianglesb_correct; reflexivity).
  destruct (local_components_are_appended 4 [(0, 1, 2)%Z] [newClump 5] cl' cid Hwt Hrun)
    as (Hold & _).
  exists cl', cid. split; [reflexivity|]. split; [exact Hold|].
  injection Hval as <- <-. split; [reflexivity|]. split; [reflexivity|].
  split; reflexivity.
Defined.

(** ** The test at a tetrahedron *)

(** The tetrahedron passes the test. *)
Lemma tetrahedron_unsigned : unsigned tetrahedron.
Proof. apply (wf_unsigned 4). apply wf_trianglesb_correct. reflexivity. Qed.

Lemma tetrahedron_manifold : MeshBase.isManifold 4 tetrahedron = Ok (Some true).
Proof. vm_compute. reflexivity. Qed.

(** X15 at the tetrahedron: its twelve directed edges are different. *)
Lemma manifold_mesh_is_oriented_witness :
  wf_triangles 4 tetrahedron ∧ NoDup (directedEdges tetrahedron) ∧
  length (directedEdges tetrahedron) = 12.
Proof.
  destruct (manifold_mesh_is_oriented 4 tetrahedron tetrahedron_unsigned tetrahedron_manifold)
    as (Hwf & _ & _ & Hnd).
  split; [exact Hwf|]. split; [exact Hnd|reflexivity].
Defined.

(** X17 at the tetrahedron: the three triangles around the vertex 0 form a
    ring. *)
Lemma is_manifold_accepts_chains_witness :
  fan tetrahedron 0 = [(1, 2); (3, 1); (2, 3)]%Z ∧
  ∃ path, length path = 4 ∧ fan tetrahedron 0 ≡ₚ links path ∧ NoDup (tail path).
Proof.
  split; [reflexivity|].
  destruct (proj1 (is_manifold_accepts_chains 4 tetrahedron tetrahedron_unsigned)
              tetrahedron_manifold) as (_ & _ & Hfans).
  destruct (Hfans 0 ltac:(lia)) as (_ & path & Hlen & Hperm & _ & Hnd).
  exists path. split; [exact Hlen|]. split; [exact Hperm|exact Hnd].
Defined.

(** ** The pruning scenario at two halves of a strip *)

(** Two halves of a strip that share an edge, and a triangle apart. *)
Lemma halves_wf : Forall wf_fragment [half 1000; small; half 3000].
Proof. apply Forall_wf_fragmentb. vm_compute. reflexivity. Qed.

Lemma halves_consistent :
  consistent (allKeys [half 1000; small; half 3000])
             (allExternal [half 1000; small; half 3000]).
Proof.
  intros i j k Hi Hj.
  destruct i as [|[|[|[|i]]]]; vm_compute in Hi; try discriminate Hi;
    destruct j as [|[|[|[|j]]]]; vm_compute in Hj; try discriminate Hj;
    first [reflexivity|congruence].
Qed.

(** C6 at two halves of a strip of 100 vertices, which the keys 7 and 8
    join, and a triangle of 3 vertices that is added between them, with
    exact products and buffers of seven records. *)
Lemma pruning_scenario_witness :
  ∃ s, StxxlMesh.addAll [half 1000; small; half 3000] StxxlMesh.create = Ok s ∧
       root (clumps (StxxlMesh.mesh s)) 2 = 0 ∧
       length (StxxlMesh.vertices s) = 103 ∧
       Writer.numVertices (StxxlMesh.write (λ q, q) (1 # 20) 7 7 "out.ply" s Writer.closed) =
         100%Z ∧
       flat (Writer.vertexWrites (StxxlMesh.write (λ q, q) (1 # 20) 7 7 "out.ply" s
                                                 Writer.closed)) = (componentOf s 0).*1 ∧
       Writer.numTriangles (StxxlMesh.write (λ q, q) (1 # 20) 7 7 "out.ply" s Writer.closed) =
         98%Z.
Proof.
  destruct (StxxlMesh.addAll [half 1000; small; half 3000] StxxlMesh.create) as [s| |] eqn:Hrun;
    pose proof Hrun as Hval; vm_compute in Hval; try discriminate Hval.
  injection Hval as Hs.
  exists s. split; [reflexivity|].
  destruct (pruning_scenario (λ q, q) 7 7 "out.ply" [half 1000; small; half 3000] s 0 1
              halves_wf halves_consistent)
    as (Hlen & Hnv & Hvw & _ & _ & Hnt & _).
  - vm_compute. reflexivity.
  - vm_compute. reflexivity.
  - exact Hrun.
  - subst s. apply Forall_forall. apply (bool_decide_unpack _). vm_compute. exact I.
  - subst s. vm_compute. reflexivity.
  - subst s. vm_compute. reflexivity.
  - vm_compute. reflexivity.
  - split; [subst s; vm_compute; reflexivity|].
    split; [exact Hlen|]. split; [exact Hnv|]. split; [exact Hvw|].
    rewrite Hnt. subst s. vm_compute. reflexivity.
Defined.
